(** * figma-ai-designer: value parsers and box-tree synthesis

    A shallow embedding of the parts of
      - [mcp-server/html-parser.ts]  (style value parsers),
      - [plugin/html-parser.ts]      (box tree synthesizer),
      - [plugin/code.ts]             (entry point of a synthesis request)
    that the specification makes claims about, followed by the theorems.

    Conventions of the embedding.
      - A JavaScript [number] is an exact rational ([Q]); where the parser
        side can produce [NaN] (from [parseFloat]/[parseInt]) the type
        [number] adds it as a constructor.  Rounding of IEEE doubles and
        overflow to Infinity are outside the model.  The theorems about
        sizes and channels therefore state the expression that the code
        evaluates, operation by operation in the order of the source;
        they do not state identities between two such expressions, or
        bounds on them, that rounding can break.
      - A JavaScript string is a [string] of code units below 256.
      - A regular expression is written with the backtracking combinators
        of module [Regex]: a matcher returns every way to match a prefix,
        most preferred first, which is the order a backtracking engine
        explores them in.
      - [WeakMap]s and [Map]s keyed by node are finite maps or association
        lists keyed by the node's identifier. *)

From Stdlib Require Import ZArith QArith Qround Qabs Qminmax Lqa Lia.
From Stdlib Require Import List String Ascii Bool Sorting Permutation.
From stdpp Require Import base gmap strings.
Import ListNotations.

Set Default Proof Using "Type".
Local Open Scope string_scope.
Local Open Scope list_scope.

(* ===================================================================== *)
(** ** JavaScript numbers on the parser side                              *)
(* ===================================================================== *)

Module JsNum.

Inductive number : Type :=
| NaN
| Num (q : Q).

Definition lift2 (f : Q -> Q -> Q) (a b : number) : number :=
  match a, b with
  | Num x, Num y => Num (f x y)
  | _, _ => NaN
  end.

Definition nadd : number -> number -> number := lift2 Qplus.
Definition nsub : number -> number -> number := lift2 Qminus.
Definition nmul : number -> number -> number := lift2 Qmult.

(** [a / b].  Every division of the embedded code has a divisor that is a
    non-zero literal or that was tested against zero just before, so the
    infinities of JavaScript are not needed; a zero divisor yields [NaN]
    here. *)
Definition ndiv (a b : number) : number :=
  match a, b with
  | Num x, Num y => if Qeq_bool y 0 then NaN else Num (x / y)
  | _, _ => NaN
  end.

(** Truncation toward zero and the remainder [a % b] (sign of the
    dividend). *)
Definition Qtrunc (q : Q) : Z := Z.quot (Qnum q) (Zpos (Qden q)).

Definition Qrem (a b : Q) : Q := (a - b * inject_Z (Qtrunc (a / b)))%Q.

Definition nrem (a b : number) : number :=
  match a, b with
  | Num x, Num y => if Qeq_bool y 0 then NaN else Num (Qrem x y)
  | _, _ => NaN
  end.

Definition nabs (a : number) : number :=
  match a with
  | Num x => Num (Qabs x)
  | NaN => NaN
  end.

(** [Math.max] and [Math.min] return [NaN] when an argument is [NaN]. *)
Definition nmax : number -> number -> number := lift2 Qmax.
Definition nmin : number -> number -> number := lift2 Qmin.

(** [a < b]: false when an operand is [NaN]. *)
Definition nlt (a b : number) : bool :=
  match a, b with
  | Num x, Num y => negb (Qle_bool y x)
  | _, _ => false
  end.

(** [a !== b] on numbers: [NaN] differs from everything. *)
Definition nneq (a b : number) : bool :=
  match a, b with
  | Num x, Num y => negb (Qeq_bool x y)
  | _, _ => true
  end.

Definition ofZ (z : Z) : number := Num (inject_Z z).

(** Membership in the closed unit interval. *)
Definition in01 (a : number) : Prop :=
  match a with
  | Num x => (0 <= x /\ x <= 1)%Q
  | NaN => False
  end.

Definition in01b (a : number) : bool :=
  match a with
  | Num x => Qle_bool 0 x && Qle_bool x 1
  | NaN => false
  end.

(** Equality of numbers up to the representation of the rational. *)
Definition neq (a b : number) : Prop :=
  match a, b with
  | Num x, Num y => (x == y)%Q
  | NaN, NaN => True
  | _, _ => False
  end.

End JsNum.

(* ===================================================================== *)
(** ** Characters and strings                                             *)
(* ===================================================================== *)

Module JsString.

Definition code (c : ascii) : N := N_of_ascii c.

Definition between (lo hi : N) (c : ascii) : bool :=
  (lo <=? code c)%N && (code c <=? hi)%N.

(** [\d] *)
Definition isDigit (c : ascii) : bool := between 48 57 c.

(** [\s], and the characters removed by [trim]: tab, LF, VT, FF, CR,
    space and the no-break space. *)
Definition isSpace (c : ascii) : bool :=
  between 9 13 c || (code c =? 32)%N || (code c =? 160)%N.

(** [.] without the [s] flag: anything but a line terminator. *)
Definition isDot (c : ascii) : bool :=
  negb ((code c =? 10)%N || (code c =? 13)%N).

Definition isUpper (c : ascii) : bool := between 65 90 c.

(** Case folding of the [i] flag on ASCII letters. *)
Definition foldCase (c : ascii) : ascii :=
  if isUpper c then ascii_of_N (code c + 32) else c.

Definition eqCI (a b : ascii) : bool := Ascii.eqb (foldCase a) (foldCase b).

(** [String.prototype.toLowerCase] on code units below 256. *)
Definition lowerChar (c : ascii) : ascii :=
  if isUpper c || (between 192 222 c && negb (code c =? 215)%N)
  then ascii_of_N (code c + 32) else c.

Fixpoint toLowerCase (s : string) : string :=
  match s with
  | EmptyString => EmptyString
  | String c r => String (lowerChar c) (toLowerCase r)
  end.

Fixpoint trimStart (s : string) : string :=
  match s with
  | String c r => if isSpace c then trimStart r else s
  | EmptyString => EmptyString
  end.

Fixpoint rev (s acc : string) : string :=
  match s with
  | EmptyString => acc
  | String c r => rev r (String c acc)
  end.

Definition trimEnd (s : string) : string :=
  rev (trimStart (rev s EmptyString)) EmptyString.

Definition trim (s : string) : string := trimEnd (trimStart s).

Fixpoint startsWith (p s : string) : bool :=
  match p, s with
  | EmptyString, _ => true
  | String a p', String b s' => Ascii.eqb a b && startsWith p' s'
  | String _ _, EmptyString => false
  end.

(** [s.slice(i, j)] for [0 <= i <= j]. *)
Definition slice (i j : nat) (s : string) : string := substring i (j - i) s.

(** [s[i]]; the empty string stands for [undefined], which the embedded
    code never reads (indices are below the tested length). *)
Definition charAt (i : nat) (s : string) : string := substring i 1 s.

Fixpoint allChars (cls : ascii -> bool) (s : string) : bool :=
  match s with
  | EmptyString => true
  | String c r => cls c && allChars cls r
  end.

(** Longest prefix of characters of a class, and the rest. *)
Fixpoint span (cls : ascii -> bool) (s : string) : string * string :=
  match s with
  | String c r =>
      if cls c then let '(m, rest) := span cls r in (String c m, rest)
      else (EmptyString, s)
  | EmptyString => (EmptyString, EmptyString)
  end.

End JsString.

(* ===================================================================== *)
(** ** [parseInt] and [parseFloat]                                        *)
(* ===================================================================== *)

Module JsParse.
Import JsNum JsString.

(** Value of a character as a digit (0-9, a-z, A-Z), if it is one. *)
Definition digitValue (c : ascii) : option Z :=
  if isDigit c then Some (Z.of_N (code c) - 48)%Z
  else if between 97 122 c then Some (Z.of_N (code c) - 87)%Z
  else if between 65 90 c then Some (Z.of_N (code c) - 55)%Z
  else None.

Definition isRadixDigit (radix : Z) (c : ascii) : bool :=
  match digitValue c with
  | Some d => (d <? radix)%Z
  | None => false
  end.

Fixpoint digitsValue (radix : Z) (acc : Z) (s : string) : Z :=
  match s with
  | EmptyString => acc
  | String c r =>
      digitsValue radix
        (radix * acc + match digitValue c with Some d => d | None => 0 end)%Z r
  end.

Definition stripSign (s : string) : bool * string :=
  match s with
  | String "-"%char r => (true, r)
  | String "+"%char r => (false, r)
  | _ => (false, s)
  end.

Definition stripHexPrefix (s : string) : string :=
  match s with
  | String "0"%char (String x r) =>
      if Ascii.eqb x "x"%char || Ascii.eqb x "X"%char then r else s
  | _ => s
  end.

(** [parseInt(s, radix)] for a radix from 2 to 36: leading white space, a
    sign, for radix 16 an optional [0x], then the longest run of digits of
    the radix; [NaN] without a digit. *)
Definition parseInt (s : string) (radix : Z) : number :=
  let '(neg, s1) := stripSign (trimStart s) in
  let s2 := if (radix =? 16)%Z then stripHexPrefix s1 else s1 in
  let '(ds, _) := span (isRadixDigit radix) s2 in
  match ds with
  | EmptyString => NaN
  | _ => let v := digitsValue radix 0 ds in ofZ (if neg then - v else v)
  end.

(** [parseFloat(s)] on the strings the embedded code passes to it, which
    are captures of [-?[\d.]+]: leading white space, a sign, then the
    longest prefix of the shape digits [. digits]; [NaN] if that prefix
    has no digit.  (Exponents and the literal Infinity need characters
    those captures cannot contain.) *)
Definition parseFloat (s : string) : number :=
  let '(neg, s1) := stripSign (trimStart s) in
  let '(ip, s2) := span isDigit s1 in
  let fp := match s2 with
            | String "."%char r => fst (span isDigit r)
            | _ => EmptyString
            end in
  match ip, fp with
  | EmptyString, EmptyString => NaN
  | _, _ =>
      let v := (inject_Z (digitsValue 10 0 (String.append ip fp))
                / inject_Z (10 ^ Z.of_nat (String.length fp)))%Q in
      Num (if neg then (- v)%Q else v)
  end.

End JsParse.

(* ===================================================================== *)
(** ** Regular expressions as backtracking matchers                       *)
(* ===================================================================== *)

Module Regex.
Import JsString.

(** A matcher applied to the rest of the input returns every match of a
    prefix with what it captured and the input left, in the order in which
    a backtracking engine tries them. *)
Definition matcher (A : Type) : Type := string -> list (A * string).

Definition ret {A} (a : A) : matcher A := fun s => [(a, s)].

Definition bind {A B} (m : matcher A) (k : A -> matcher B) : matcher B :=
  fun s => flat_map (fun r => k (fst r) (snd r)) (m s).

Definition alt {A} (m1 m2 : matcher A) : matcher A :=
  fun s => m1 s ++ m2 s.

Definition fmap {A B} (f : A -> B) (m : matcher A) : matcher B :=
  bind m (fun a => ret (f a)).

(** One character of a class. *)
Definition chr (cls : ascii -> bool) : matcher ascii :=
  fun s =>
    match s with
    | String c r => if cls c then [(c, r)] else []
    | EmptyString => []
    end.

(** A literal; [ci] is the [i] flag. *)
Fixpoint lit (ci : bool) (p : string) : matcher unit :=
  match p with
  | EmptyString => ret tt
  | String a p' =>
      bind (chr (fun c => if ci then eqCI a c else Ascii.eqb a c))
           (fun _ => lit ci p')
  end.

(** [cls*], greedy: the longest run first, the empty match last. *)
Fixpoint star (cls : ascii -> bool) (s : string) : list (string * string) :=
  match s with
  | String c r =>
      if cls c
      then map (fun m => (String c (fst m), snd m)) (star cls r)
           ++ [(EmptyString, s)]
      else [(EmptyString, s)]
  | EmptyString => [(EmptyString, EmptyString)]
  end.

(** [cls+] *)
Definition plus (cls : ascii -> bool) : matcher string :=
  bind (chr cls) (fun c => fmap (String c) (star cls)).

(** [cls{lo,hi}], greedy. *)
Fixpoint rep (cls : ascii -> bool) (lo hi : nat) (s : string)
  : list (string * string) :=
  let stop := match lo with O => [(EmptyString, s)] | S _ => [] end in
  match hi with
  | O => stop
  | S hi' =>
      match s with
      | String c r =>
          if cls c
          then map (fun m => (String c (fst m), snd m))
                   (rep cls (Nat.pred lo) hi' r) ++ stop
          else stop
      | EmptyString => stop
      end
  end.

(** [(?: m )?], greedy. *)
Definition opt {A} (m : matcher A) : matcher (option A) :=
  alt (fmap Some m) (ret None).

(** [$] without the [m] flag. *)
Definition eos : matcher unit :=
  fun s => match s with EmptyString => [(tt, EmptyString)] | _ => [] end.

(** [\s*] whose match is not captured. *)
Definition ws : matcher unit := fmap (fun _ => tt) (star isSpace).

(** The first match of an expression anchored with [^]. *)
Definition matchAt {A} (m : matcher A) (s : string) : option A :=
  match m s with
  | (a, _) :: _ => Some a
  | [] => None
  end.

(** The first match of an expression that is not anchored: the leftmost
    start position at which it matches. *)
Fixpoint search {A} (m : matcher A) (s : string) : option A :=
  match m s with
  | (a, _) :: _ => Some a
  | [] =>
      match s with
      | String _ r => search m r
      | EmptyString => None
      end
  end.

End Regex.

(** The matchers form a monad; stdpp's notation [x ← m; k] sequences
    them. *)
#[global] Instance matcher_ret : MRet Regex.matcher := @Regex.ret.
#[global] Instance matcher_bind : MBind Regex.matcher :=
  fun A B k m => Regex.bind m k.

(* ===================================================================== *)
(** ** [mcp-server/html-parser.ts]: value parsers                         *)
(* ===================================================================== *)

Module ValueParsers.
Import JsNum JsString JsParse Regex.

(** [shared/types]: [interface RGBA]. *)
Record RGBA : Type := mkRGBA { r : number; g : number; b : number; a : number }.

(** [hslToRgb] *)
Definition hslToRgb (h s l : number) : number * number * number :=
  (* Normalize h to 0-360, s and l to 0-1 *)
  let h := nrem (nadd (nrem h (Num 360)) (Num 360)) (Num 360) in
  let s := nmax (Num 0) (nmin (Num 1) s) in
  let l := nmax (Num 0) (nmin (Num 1) l) in
  let c := nmul (nsub (Num 1) (nabs (nsub (nmul (Num 2) l) (Num 1)))) s in
  let x := nmul c (nsub (Num 1)
                    (nabs (nsub (nrem (ndiv h (Num 60)) (Num 2)) (Num 1)))) in
  let m := nsub l (ndiv c (Num 2)) in
  let '(r, g, b) :=
    if nlt h (Num 60) then (c, x, Num 0)
    else if nlt h (Num 120) then (x, c, Num 0)
    else if nlt h (Num 180) then (Num 0, c, x)
    else if nlt h (Num 240) then (Num 0, x, c)
    else if nlt h (Num 300) then (x, Num 0, c)
    else (c, Num 0, x) in
  (nadd r m, nadd g m, nadd b m).

(** [[0-9a-f]] under the [i] flag, and [[\d.]]. *)
Definition isHexDigit (c : ascii) : bool :=
  isDigit c || between 97 102 (foldCase c).

Definition isDigitOrDot (c : ascii) : bool :=
  isDigit c || Ascii.eqb c "."%char.

(** [/^#([0-9a-f]{3,8})$/i] *)
Definition hexRe : matcher string :=
  lit true "#" ≫= λ _,
  hex ← rep isHexDigit 3 8;
  eos ≫= λ _,
  mret hex.

(** [/rgba?\s*\(\s*(\d+)\s*,\s*(\d+)\s*,\s*(\d+)\s*(?:,\s*([\d.]+))?\s*\)/i] *)
Definition rgbRe : matcher (string * string * string * option string) :=
  lit true "rgb" ≫= λ _, opt (lit true "a") ≫= λ _,
  ws ≫= λ _, lit true "(" ≫= λ _, ws ≫= λ _,
  g1 ← plus isDigit;
  ws ≫= λ _, lit true "," ≫= λ _, ws ≫= λ _,
  g2 ← plus isDigit;
  ws ≫= λ _, lit true "," ≫= λ _, ws ≫= λ _,
  g3 ← plus isDigit;
  ws ≫= λ _,
  g4 ← opt (lit true "," ≫= λ _, ws ≫= λ _, plus isDigitOrDot);
  ws ≫= λ _, lit true ")" ≫= λ _,
  mret (g1, g2, g3, g4).

(** [/hsla?\s*\(\s*([\d.]+)\s*,\s*([\d.]+)%\s*,\s*([\d.]+)%\s*(?:,\s*([\d.]+))?\s*\)/i] *)
Definition hslRe : matcher (string * string * string * option string) :=
  lit true "hsl" ≫= λ _, opt (lit true "a") ≫= λ _,
  ws ≫= λ _, lit true "(" ≫= λ _, ws ≫= λ _,
  g1 ← plus isDigitOrDot;
  ws ≫= λ _, lit true "," ≫= λ _, ws ≫= λ _,
  g2 ← plus isDigitOrDot;
  lit true "%" ≫= λ _, ws ≫= λ _, lit true "," ≫= λ _, ws ≫= λ _,
  g3 ← plus isDigitOrDot;
  lit true "%" ≫= λ _, ws ≫= λ _,
  g4 ← opt (lit true "," ≫= λ _, ws ≫= λ _, plus isDigitOrDot);
  ws ≫= λ _, lit true ")" ≫= λ _,
  mret (g1, g2, g3, g4).

(** The [namedColors] table of [parseColor]. *)
Definition rgba (r g b a : Q) : RGBA := mkRGBA (Num r) (Num g) (Num b) (Num a).

Definition namedColors : list (string * RGBA) :=
  [
  ("white", rgba 1 1 1 1);
  ("black", rgba 0 0 0 1);
  ("red", rgba 1 0 0 1);
  ("green", rgba 0 (128 / 255) 0 1);
  ("blue", rgba 0 0 1 1);
  ("yellow", rgba 1 1 0 1);
  ("transparent", rgba 0 0 0 0);
  ("gray", rgba (128 / 255) (128 / 255) (128 / 255) 1);
  ("grey", rgba (128 / 255) (128 / 255) (128 / 255) 1);
  ("silver", rgba (192 / 255) (192 / 255) (192 / 255) 1);
  ("darkgray", rgba (169 / 255) (169 / 255) (169 / 255) 1);
  ("darkgrey", rgba (169 / 255) (169 / 255) (169 / 255) 1);
  ("lightgray", rgba (211 / 255) (211 / 255) (211 / 255) 1);
  ("lightgrey", rgba (211 / 255) (211 / 255) (211 / 255) 1);
  ("orange", rgba 1 (165 / 255) 0 1);
  ("purple", rgba (128 / 255) 0 (128 / 255) 1);
  ("pink", rgba 1 (192 / 255) (203 / 255) 1);
  ("brown", rgba (165 / 255) (42 / 255) (42 / 255) 1);
  ("cyan", rgba 0 1 1 1);
  ("aqua", rgba 0 1 1 1);
  ("magenta", rgba 1 0 1 1);
  ("fuchsia", rgba 1 0 1 1);
  ("lime", rgba 0 1 0 1);
  ("teal", rgba 0 (128 / 255) (128 / 255) 1);
  ("navy", rgba 0 0 (128 / 255) 1);
  ("maroon", rgba (128 / 255) 0 0 1);
  ("olive", rgba (128 / 255) (128 / 255) 0 1);
  ("coral", rgba 1 (127 / 255) (80 / 255) 1);
  ("salmon", rgba (250 / 255) (128 / 255) (114 / 255) 1);
  ("tomato", rgba 1 (99 / 255) (71 / 255) 1);
  ("gold", rgba 1 (215 / 255) 0 1);
  ("khaki", rgba (240 / 255) (230 / 255) (140 / 255) 1);
  ("violet", rgba (238 / 255) (130 / 255) (238 / 255) 1);
  ("indigo", rgba (75 / 255) 0 (130 / 255) 1);
  ("plum", rgba (221 / 255) (160 / 255) (221 / 255) 1);
  ("orchid", rgba (218 / 255) (112 / 255) (214 / 255) 1);
  ("turquoise", rgba (64 / 255) (224 / 255) (208 / 255) 1);
  ("skyblue", rgba (135 / 255) (206 / 255) (235 / 255) 1);
  ("steelblue", rgba (70 / 255) (130 / 255) (180 / 255) 1);
  ("royalblue", rgba (65 / 255) (105 / 255) (225 / 255) 1);
  ("slateblue", rgba (106 / 255) (90 / 255) (205 / 255) 1);
  ("darkblue", rgba 0 0 (139 / 255) 1);
  ("lightblue", rgba (173 / 255) (216 / 255) (230 / 255) 1);
  ("dodgerblue", rgba (30 / 255) (144 / 255) (255 / 255) 1);
  ("forestgreen", rgba (34 / 255) (139 / 255) (34 / 255) 1);
  ("seagreen", rgba (46 / 255) (139 / 255) (87 / 255) 1);
  ("darkgreen", rgba 0 (100 / 255) 0 1);
  ("lightgreen", rgba (144 / 255) (238 / 255) (144 / 255) 1);
  ("limegreen", rgba (50 / 255) (205 / 255) (50 / 255) 1);
  ("crimson", rgba (220 / 255) (20 / 255) (60 / 255) 1);
  ("firebrick", rgba (178 / 255) (34 / 255) (34 / 255) 1);
  ("darkred", rgba (139 / 255) 0 0 1);
  ("hotpink", rgba 1 (105 / 255) (180 / 255) 1);
  ("deeppink", rgba 1 (20 / 255) (147 / 255) 1);
  ("chocolate", rgba (210 / 255) (105 / 255) (30 / 255) 1);
  ("sienna", rgba (160 / 255) (82 / 255) (45 / 255) 1);
  ("tan", rgba (210 / 255) (180 / 255) (140 / 255) 1);
  ("wheat", rgba (245 / 255) (222 / 255) (179 / 255) 1);
  ("beige", rgba (245 / 255) (245 / 255) (220 / 255) 1);
  ("ivory", rgba 1 1 (240 / 255) 1);
  ("snow", rgba 1 (250 / 255) (250 / 255) 1);
  ("whitesmoke", rgba (245 / 255) (245 / 255) (245 / 255) 1);
  ("aliceblue", rgba (240 / 255) (248 / 255) 1 1);
  ("ghostwhite", rgba (248 / 255) (248 / 255) 1 1);
  ("lavender", rgba (230 / 255) (230 / 255) (250 / 255) 1);
  ("mintcream", rgba (245 / 255) 1 (250 / 255) 1)
  ]%Q.

Fixpoint assoc {V} (k : string) (l : list (string * V)) : option V :=
  match l with
  | [] => None
  | (k', v) :: l' => if String.eqb k k' then Some v else assoc k l'
  end.

(** What [parseColor] returns.  [namedColors] is an object literal, so the
    look-up [namedColors[key]] also finds the properties it inherits from
    [Object.prototype]; the two whose name survives [toLowerCase] are
    [constructor] and [__proto__], and for them the result is an object
    that is not a color. *)
Inductive color_result : Type :=
| Null
| Color (c : RGBA)
| Inherited (key : string).

Definition namedLookup (key : string) : color_result :=
  match assoc key namedColors with
  | Some c => Color c
  | None =>
      if String.eqb key "constructor" || String.eqb key "__proto__"
      then Inherited key else Null
  end.

Definition hexMatch (colorStr : string) : option string := matchAt hexRe colorStr.
Definition rgbMatch (colorStr : string) := search rgbRe colorStr.
Definition hslMatch (colorStr : string) := search hslRe colorStr.

Definition byte255 (hex : string) : number := ndiv (parseInt hex 16) (Num 255).

(** The hex branch of [parseColor]: the color for a capture of 3, 6 or 8
    digits; any other length falls through to the later branches. *)
Definition hexColor (hex : string) : option RGBA :=
  if (String.length hex =? 3)%nat then
    Some (mkRGBA (byte255 (String.append (charAt 0 hex) (charAt 0 hex)))
                 (byte255 (String.append (charAt 1 hex) (charAt 1 hex)))
                 (byte255 (String.append (charAt 2 hex) (charAt 2 hex)))
                 (Num 1))
  else if (String.length hex =? 6)%nat then
    Some (mkRGBA (byte255 (slice 0 2 hex)) (byte255 (slice 2 4 hex))
                 (byte255 (slice 4 6 hex)) (Num 1))
  else if (String.length hex =? 8)%nat then
    Some (mkRGBA (byte255 (slice 0 2 hex)) (byte255 (slice 2 4 hex))
                 (byte255 (slice 4 6 hex)) (byte255 (slice 6 8 hex)))
  else None.

Definition alphaOf (g4 : option string) : number :=
  match g4 with
  | Some t => parseFloat t
  | None => Num 1
  end.

(** [parseColor] *)
Definition parseColor (colorStr : string) : color_result :=
  if String.eqb colorStr EmptyString then Null else
  match hexMatch colorStr ≫= hexColor with
  | Some c => Color c
  | None =>
  match rgbMatch colorStr with
  | Some (g1, g2, g3, g4) =>
      Color (mkRGBA (ndiv (parseInt g1 10) (Num 255))
                    (ndiv (parseInt g2 10) (Num 255))
                    (ndiv (parseInt g3 10) (Num 255))
                    (alphaOf g4))
  | None =>
  match hslMatch colorStr with
  | Some (g1, g2, g3, g4) =>
      let h := parseFloat g1 in
      let s := ndiv (parseFloat g2) (Num 100) in
      let l := ndiv (parseFloat g3) (Num 100) in
      let a := alphaOf g4 in
      let '(r, g, b) := hslToRgb h s l in
      Color (mkRGBA r g b a)
  | None => namedLookup (toLowerCase colorStr)
  end end end.

(** [/^calc\s*\(\s*(.+)\s*\)$/i] *)
Definition calcRe : matcher string :=
  lit true "calc" ≫= λ _, ws ≫= λ _, lit true "(" ≫= λ _, ws ≫= λ _,
  e ← plus isDot;
  ws ≫= λ _, lit true ")" ≫= λ _, eos ≫= λ _,
  mret e.

(** [(-?[\d.]+)] *)
Definition signedNumRe : matcher string :=
  sign ← opt (lit false "-");
  ds ← plus isDigitOrDot;
  mret (match sign with Some _ => String "-"%char ds | None => ds end).

(** [(px|em|rem)?] and [(px|em|rem|%)?] *)
Definition word (w : string) : matcher string := lit false w ≫= λ _, mret w.

Definition calcUnitRe : matcher (option string) :=
  opt (alt (word "px") (alt (word "em") (word "rem"))).

Definition lengthUnitRe : matcher (option string) :=
  opt (alt (word "px") (alt (word "em") (alt (word "rem") (word "%")))).

Definition isOperator (c : ascii) : bool :=
  Ascii.eqb c "+"%char || Ascii.eqb c "-"%char
  || Ascii.eqb c "*"%char || Ascii.eqb c "/"%char.

(** [/^(-?[\d.]+)(px|em|rem)?\s*([\+\-\*\/])\s*(-?[\d.]+)(px|em|rem)?$/] *)
Definition binaryRe
  : matcher (string * option string * ascii * string * option string) :=
  g1 ← signedNumRe;
  g2 ← calcUnitRe;
  ws ≫= λ _,
  g3 ← chr isOperator;
  ws ≫= λ _,
  g4 ← signedNumRe;
  g5 ← calcUnitRe;
  eos ≫= λ _,
  mret (g1, g2, g3, g4, g5).

(** [/^(-?[\d.]+)(px|em|rem|%)?$/] *)
Definition lengthRe : matcher (string * option string) :=
  g1 ← signedNumRe;
  g2 ← lengthUnitRe;
  eos ≫= λ _,
  mret (g1, g2).

(** [x || 'px'] on an optional capture. *)
Definition unitOr (g : option string) : string :=
  match g with
  | Some u => u
  | None => "px"
  end.

(** [unit === 'em' || unit === 'rem' ? num * baseFontSize : num] *)
Definition toPx (unit : string) (num baseFontSize : number) : number :=
  if String.eqb unit "em" || String.eqb unit "rem"
  then nmul num baseFontSize else num.

(** The body of [parseCalc], over the [parseLength] it calls for a single
    value inside [calc()].  [None] is [null]. *)
Definition parseCalcWith (parseLength : string -> number -> option number)
    (value : string) (baseFontSize : number) : option number :=
  match matchAt calcRe value with
  | None => None
  | Some g =>
      let expr := trim g in
      match matchAt binaryRe expr with
      | Some (g1, g2, op, g4, g5) =>
          let num1 := parseFloat g1 in
          let unit1 := unitOr g2 in
          let num2 := parseFloat g4 in
          let unit2 := unitOr g5 in
          let val1 := toPx unit1 num1 baseFontSize in
          let val2 := toPx unit2 num2 baseFontSize in
          if Ascii.eqb op "+"%char then Some (nadd val1 val2)
          else if Ascii.eqb op "-"%char then Some (nsub val1 val2)
          else if Ascii.eqb op "*"%char then Some (nmul val1 val2)
          else (* '/' *)
            if nneq val2 (Num 0) then Some (ndiv val1 val2) else None
      | None => parseLength expr baseFontSize
      end
  end.

(** [parseLength] and [parseCalc] call each other; every call of
    [parseLength] from [parseCalc] is on a strictly shorter string, so the
    recursion is bounded by the length of the value. *)
Fixpoint parseLengthFuel (fuel : nat) (value : string) (baseFontSize : number)
  : option number :=
  match fuel with
  | O => None
  | S fuel' =>
      if String.eqb value EmptyString then None
      else if startsWith "calc(" (toLowerCase value)
      then parseCalcWith (parseLengthFuel fuel') value baseFontSize
      else
        match matchAt lengthRe value with
        | None => None
        | Some (g1, g2) =>
            let num := parseFloat g1 in
            let unit := unitOr g2 in
            if String.eqb unit "px" then Some num
            else if String.eqb unit "em" || String.eqb unit "rem"
            then Some (nmul num baseFontSize)
            else (* '%' *) None
        end
  end.

Definition parseLength (value : string) (baseFontSize : number)
  : option number :=
  parseLengthFuel (S (String.length value)) value baseFontSize.

Definition parseCalc (value : string) (baseFontSize : number)
  : option number :=
  parseCalcWith (parseLengthFuel (String.length value)) value baseFontSize.

(** The default [baseFontSize = 16]. *)
Definition defaultFontSize : number := Num 16.

End ValueParsers.

(* ===================================================================== *)
(** ** Notions used to state the properties of the value parsers          *)
(* ===================================================================== *)

Module ColorSpec.
Import JsNum JsString ValueParsers.

(** Value of one hexadecimal digit, by table. *)
Definition hexVal (c : ascii) : Z :=
  match c with
  | "0" => 0 | "1" => 1 | "2" => 2 | "3" => 3 | "4" => 4
  | "5" => 5 | "6" => 6 | "7" => 7 | "8" => 8 | "9" => 9
  | "a" | "A" => 10 | "b" | "B" => 11 | "c" | "C" => 12
  | "d" | "D" => 13 | "e" | "E" => 14 | "f" | "F" => 15
  | _ => 0
  end%char%Z.

(** The integers from 0 to 255 that the digits of a hex color encode, as
    (r, g, b, alpha): a digit of the short form stands for itself twice,
    and a form without alpha digits is opaque. *)
Definition hexEncoded (ds : string) : option (Z * Z * Z * Z) :=
  match list_ascii_of_string ds with
  | [r1; g1; b1] =>
      Some (17 * hexVal r1, 17 * hexVal g1, 17 * hexVal b1, 255)%Z
  | [r1; r2; g1; g2; b1; b2] =>
      Some (16 * hexVal r1 + hexVal r2, 16 * hexVal g1 + hexVal g2,
            16 * hexVal b1 + hexVal b2, 255)%Z
  | [r1; r2; g1; g2; b1; b2; a1; a2] =>
      Some (16 * hexVal r1 + hexVal r2, 16 * hexVal g1 + hexVal g2,
            16 * hexVal b1 + hexVal b2, 16 * hexVal a1 + hexVal a2)%Z
  | _ => None
  end.

(** A channel converted back to an integer from 0 to 255:
    [Math.round(x * 255)]. *)
Definition channelTo255 (x : number) : option Z :=
  match x with
  | Num q => Some (Qfloor (q * 255 + (1 # 2)))
  | NaN => None
  end.

Definition channels255 (c : RGBA) : option (Z * Z * Z * Z) :=
  r' ← channelTo255 (r c); g' ← channelTo255 (g c);
  b' ← channelTo255 (b c); a' ← channelTo255 (a c);
  Some (r', g', b', a').

Definition allIn01 (c : RGBA) : Prop :=
  in01 (r c) /\ in01 (g c) /\ in01 (b c) /\ in01 (a c).

End ColorSpec.

(* ===================================================================== *)
(** ** The Figma scene graph, as far as the synthesizer uses it           *)
(* ===================================================================== *)

(** A node is a tree: the properties the synthesizer assigns or reads, and
    the ordered children.  A property holds the value last assigned to it:
    the sizes and positions that Figma's own auto-layout engine computes
    afterwards are not part of the model, and the theorems about sizes
    quantify over arbitrary nodes for that reason.  Fills, strokes,
    effects, corner radii, opacity, rotation and coordinates are left
    out. *)

Module Figma.

(** [FRAME] nodes are the ones with a [layoutMode] property. *)
Inductive NodeType : Type := FRAME | TEXT.
Inductive LayoutMode : Type := NONE | HORIZONTAL | VERTICAL.
Inductive LayoutSizing : Type := FIXED | FILL | HUG.
Inductive LayoutPositioning : Type := AUTO | ABSOLUTE.
Inductive AxisSizing : Type := AXIS_FIXED | AXIS_AUTO.
Inductive AxisAlign : Type := MIN | MAX | CENTER | SPACE_BETWEEN.
Inductive LayoutWrap : Type := NO_WRAP | WRAP.
Inductive TextAutoResize : Type :=
  RESIZE_NONE | RESIZE_HEIGHT | RESIZE_WIDTH_AND_HEIGHT.

Record FontName : Type := mkFontName { family : string; style : string }.

(** The name of a node: the string assigned to it, or one of the debug
    names [`SB ...`] that [applyFrameStyles] gives to space-between
    frames.  Nothing reads the text after [SB ] of such a name. *)
Inductive NodeName : Type :=
| Name (s : string)
| DebugSB.

#[global] Instance NodeType_eq_dec : EqDecision NodeType.
Proof. solve_decision. Defined.
#[global] Instance LayoutMode_eq_dec : EqDecision LayoutMode.
Proof. solve_decision. Defined.
#[global] Instance LayoutSizing_eq_dec : EqDecision LayoutSizing.
Proof. solve_decision. Defined.
#[global] Instance LayoutPositioning_eq_dec : EqDecision LayoutPositioning.
Proof. solve_decision. Defined.
#[global] Instance AxisAlign_eq_dec : EqDecision AxisAlign.
Proof. solve_decision. Defined.
#[global] Instance LayoutWrap_eq_dec : EqDecision LayoutWrap.
Proof. solve_decision. Defined.

#[warnings="-register-all"]
Inductive SceneNode : Type := mkSceneNode {
  nid : nat;
  ntype : NodeType;
  name : NodeName;
  width : Q;
  height : Q;
  layoutMode : LayoutMode;
  layoutPositioning : LayoutPositioning;
  layoutSizingHorizontal : LayoutSizing;
  layoutSizingVertical : LayoutSizing;
  layoutGrow : Q;
  primaryAxisSizingMode : AxisSizing;
  counterAxisSizingMode : AxisSizing;
  primaryAxisAlignItems : AxisAlign;
  counterAxisAlignItems : AxisAlign;
  layoutWrap : LayoutWrap;
  paddingLeft : Q;
  paddingRight : Q;
  paddingTop : Q;
  paddingBottom : Q;
  itemSpacing : Q;
  textAutoResize : TextAutoResize;
  fontName : option FontName;
  children : list SceneNode
}.

(** Assignment to one property of a node. *)
Definition set_name (v : NodeName) (n : SceneNode) : SceneNode :=
  mkSceneNode (nid n) (ntype n) v (width n) (height n) (layoutMode n)
    (layoutPositioning n) (layoutSizingHorizontal n) (layoutSizingVertical n)
    (layoutGrow n) (primaryAxisSizingMode n) (counterAxisSizingMode n)
    (primaryAxisAlignItems n) (counterAxisAlignItems n) (layoutWrap n)
    (paddingLeft n) (paddingRight n) (paddingTop n) (paddingBottom n)
    (itemSpacing n) (textAutoResize n) (fontName n) (children n).
Definition set_width (v : Q) (n : SceneNode) : SceneNode :=
  mkSceneNode (nid n) (ntype n) (name n) v (height n) (layoutMode n)
    (layoutPositioning n) (layoutSizingHorizontal n) (layoutSizingVertical n)
    (layoutGrow n) (primaryAxisSizingMode n) (counterAxisSizingMode n)
    (primaryAxisAlignItems n) (counterAxisAlignItems n) (layoutWrap n)
    (paddingLeft n) (paddingRight n) (paddingTop n) (paddingBottom n)
    (itemSpacing n) (textAutoResize n) (fontName n) (children n).
Definition set_height (v : Q) (n : SceneNode) : SceneNode :=
  mkSceneNode (nid n) (ntype n) (name n) (width n) v (layoutMode n)
    (layoutPositioning n) (layoutSizingHorizontal n) (layoutSizingVertical n)
    (layoutGrow n) (primaryAxisSizingMode n) (counterAxisSizingMode n)
    (primaryAxisAlignItems n) (counterAxisAlignItems n) (layoutWrap n)
    (paddingLeft n) (paddingRight n) (paddingTop n) (paddingBottom n)
    (itemSpacing n) (textAutoResize n) (fontName n) (children n).
Definition set_layoutMode (v : LayoutMode) (n : SceneNode) : SceneNode :=
  mkSceneNode (nid n) (ntype n) (name n) (width n) (height n) v
    (layoutPositioning n) (layoutSizingHorizontal n) (layoutSizingVertical n)
    (layoutGrow n) (primaryAxisSizingMode n) (counterAxisSizingMode n)
    (primaryAxisAlignItems n) (counterAxisAlignItems n) (layoutWrap n)
    (paddingLeft n) (paddingRight n) (paddingTop n) (paddingBottom n)
    (itemSpacing n) (textAutoResize n) (fontName n) (children n).
Definition set_layoutPositioning (v : LayoutPositioning) (n : SceneNode) : SceneNode :=
  mkSceneNode (nid n) (ntype n) (name n) (width n) (height n) (layoutMode n)
    v (layoutSizingHorizontal n) (layoutSizingVertical n) (layoutGrow n)
    (primaryAxisSizingMode n) (counterAxisSizingMode n) (primaryAxisAlignItems
    n) (counterAxisAlignItems n) (layoutWrap n) (paddingLeft n) (paddingRight
    n) (paddingTop n) (paddingBottom n) (itemSpacing n) (textAutoResize n)
    (fontName n) (children n).
Definition set_layoutSizingHorizontal (v : LayoutSizing) (n : SceneNode) : SceneNode :=
  mkSceneNode (nid n) (ntype n) (name n) (width n) (height n) (layoutMode n)
    (layoutPositioning n) v (layoutSizingVertical n) (layoutGrow n)
    (primaryAxisSizingMode n) (counterAxisSizingMode n) (primaryAxisAlignItems
    n) (counterAxisAlignItems n) (layoutWrap n) (paddingLeft n) (paddingRight
    n) (paddingTop n) (paddingBottom n) (itemSpacing n) (textAutoResize n)
    (fontName n) (children n).
Definition set_layoutSizingVertical (v : LayoutSizing) (n : SceneNode) : SceneNode :=
  mkSceneNode (nid n) (ntype n) (name n) (width n) (height n) (layoutMode n)
    (layoutPositioning n) (layoutSizingHorizontal n) v (layoutGrow n)
    (primaryAxisSizingMode n) (counterAxisSizingMode n) (primaryAxisAlignItems
    n) (counterAxisAlignItems n) (layoutWrap n) (paddingLeft n) (paddingRight
    n) (paddingTop n) (paddingBottom n) (itemSpacing n) (textAutoResize n)
    (fontName n) (children n).
Definition set_layoutGrow (v : Q) (n : SceneNode) : SceneNode :=
  mkSceneNode (nid n) (ntype n) (name n) (width n) (height n) (layoutMode n)
    (layoutPositioning n) (layoutSizingHorizontal n) (layoutSizingVertical n)
    v (primaryAxisSizingMode n) (counterAxisSizingMode n)
    (primaryAxisAlignItems n) (counterAxisAlignItems n) (layoutWrap n)
    (paddingLeft n) (paddingRight n) (paddingTop n) (paddingBottom n)
    (itemSpacing n) (textAutoResize n) (fontName n) (children n).
Definition set_primaryAxisSizingMode (v : AxisSizing) (n : SceneNode) : SceneNode :=
  mkSceneNode (nid n) (ntype n) (name n) (width n) (height n) (layoutMode n)
    (layoutPositioning n) (layoutSizingHorizontal n) (layoutSizingVertical n)
    (layoutGrow n) v (counterAxisSizingMode n) (primaryAxisAlignItems n)
    (counterAxisAlignItems n) (layoutWrap n) (paddingLeft n) (paddingRight n)
    (paddingTop n) (paddingBottom n) (itemSpacing n) (textAutoResize n)
    (fontName n) (children n).
Definition set_counterAxisSizingMode (v : AxisSizing) (n : SceneNode) : SceneNode :=
  mkSceneNode (nid n) (ntype n) (name n) (width n) (height n) (layoutMode n)
    (layoutPositioning n) (layoutSizingHorizontal n) (layoutSizingVertical n)
    (layoutGrow n) (primaryAxisSizingMode n) v (primaryAxisAlignItems n)
    (counterAxisAlignItems n) (layoutWrap n) (paddingLeft n) (paddingRight n)
    (paddingTop n) (paddingBottom n) (itemSpacing n) (textAutoResize n)
    (fontName n) (children n).
Definition set_primaryAxisAlignItems (v : AxisAlign) (n : SceneNode) : SceneNode :=
  mkSceneNode (nid n) (ntype n) (name n) (width n) (height n) (layoutMode n)
    (layoutPositioning n) (layoutSizingHorizontal n) (layoutSizingVertical n)
    (layoutGrow n) (primaryAxisSizingMode n) (counterAxisSizingMode n) v
    (counterAxisAlignItems n) (layoutWrap n) (paddingLeft n) (paddingRight n)
    (paddingTop n) (paddingBottom n) (itemSpacing n) (textAutoResize n)
    (fontName n) (children n).
Definition set_counterAxisAlignItems (v : AxisAlign) (n : SceneNode) : SceneNode :=
  mkSceneNode (nid n) (ntype n) (name n) (width n) (height n) (layoutMode n)
    (layoutPositioning n) (layoutSizingHorizontal n) (layoutSizingVertical n)
    (layoutGrow n) (primaryAxisSizingMode n) (counterAxisSizingMode n)
    (primaryAxisAlignItems n) v (layoutWrap n) (paddingLeft n) (paddingRight
    n) (paddingTop n) (paddingBottom n) (itemSpacing n) (textAutoResize n)
    (fontName n) (children n).
Definition set_layoutWrap (v : LayoutWrap) (n : SceneNode) : SceneNode :=
  mkSceneNode (nid n) (ntype n) (name n) (width n) (height n) (layoutMode n)
    (layoutPositioning n) (layoutSizingHorizontal n) (layoutSizingVertical n)
    (layoutGrow n) (primaryAxisSizingMode n) (counterAxisSizingMode n)
    (primaryAxisAlignItems n) (counterAxisAlignItems n) v (paddingLeft n)
    (paddingRight n) (paddingTop n) (paddingBottom n) (itemSpacing n)
    (textAutoResize n) (fontName n) (children n).
Definition set_paddingLeft (v : Q) (n : SceneNode) : SceneNode :=
  mkSceneNode (nid n) (ntype n) (name n) (width n) (height n) (layoutMode n)
    (layoutPositioning n) (layoutSizingHorizontal n) (layoutSizingVertical n)
    (layoutGrow n) (primaryAxisSizingMode n) (counterAxisSizingMode n)
    (primaryAxisAlignItems n) (counterAxisAlignItems n) (layoutWrap n) v
    (paddingRight n) (paddingTop n) (paddingBottom n) (itemSpacing n)
    (textAutoResize n) (fontName n) (children n).
Definition set_paddingRight (v : Q) (n : SceneNode) : SceneNode :=
  mkSceneNode (nid n) (ntype n) (name n) (width n) (height n) (layoutMode n)
    (layoutPositioning n) (layoutSizingHorizontal n) (layoutSizingVertical n)
    (layoutGrow n) (primaryAxisSizingMode n) (counterAxisSizingMode n)
    (primaryAxisAlignItems n) (counterAxisAlignItems n) (layoutWrap n)
    (paddingLeft n) v (paddingTop n) (paddingBottom n) (itemSpacing n)
    (textAutoResize n) (fontName n) (children n).
Definition set_paddingTop (v : Q) (n : SceneNode) : SceneNode :=
  mkSceneNode (nid n) (ntype n) (name n) (width n) (height n) (layoutMode n)
    (layoutPositioning n) (layoutSizingHorizontal n) (layoutSizingVertical n)
    (layoutGrow n) (primaryAxisSizingMode n) (counterAxisSizingMode n)
    (primaryAxisAlignItems n) (counterAxisAlignItems n) (layoutWrap n)
    (paddingLeft n) (paddingRight n) v (paddingBottom n) (itemSpacing n)
    (textAutoResize n) (fontName n) (children n).
Definition set_paddingBottom (v : Q) (n : SceneNode) : SceneNode :=
  mkSceneNode (nid n) (ntype n) (name n) (width n) (height n) (layoutMode n)
    (layoutPositioning n) (layoutSizingHorizontal n) (layoutSizingVertical n)
    (layoutGrow n) (primaryAxisSizingMode n) (counterAxisSizingMode n)
    (primaryAxisAlignItems n) (counterAxisAlignItems n) (layoutWrap n)
    (paddingLeft n) (paddingRight n) (paddingTop n) v (itemSpacing n)
    (textAutoResize n) (fontName n) (children n).
Definition set_itemSpacing (v : Q) (n : SceneNode) : SceneNode :=
  mkSceneNode (nid n) (ntype n) (name n) (width n) (height n) (layoutMode n)
    (layoutPositioning n) (layoutSizingHorizontal n) (layoutSizingVertical n)
    (layoutGrow n) (primaryAxisSizingMode n) (counterAxisSizingMode n)
    (primaryAxisAlignItems n) (counterAxisAlignItems n) (layoutWrap n)
    (paddingLeft n) (paddingRight n) (paddingTop n) (paddingBottom n) v
    (textAutoResize n) (fontName n) (children n).
Definition set_textAutoResize (v : TextAutoResize) (n : SceneNode) : SceneNode :=
  mkSceneNode (nid n) (ntype n) (name n) (width n) (height n) (layoutMode n)
    (layoutPositioning n) (layoutSizingHorizontal n) (layoutSizingVertical n)
    (layoutGrow n) (primaryAxisSizingMode n) (counterAxisSizingMode n)
    (primaryAxisAlignItems n) (counterAxisAlignItems n) (layoutWrap n)
    (paddingLeft n) (paddingRight n) (paddingTop n) (paddingBottom n)
    (itemSpacing n) v (fontName n) (children n).
Definition set_fontName (v : option FontName) (n : SceneNode) : SceneNode :=
  mkSceneNode (nid n) (ntype n) (name n) (width n) (height n) (layoutMode n)
    (layoutPositioning n) (layoutSizingHorizontal n) (layoutSizingVertical n)
    (layoutGrow n) (primaryAxisSizingMode n) (counterAxisSizingMode n)
    (primaryAxisAlignItems n) (counterAxisAlignItems n) (layoutWrap n)
    (paddingLeft n) (paddingRight n) (paddingTop n) (paddingBottom n)
    (itemSpacing n) (textAutoResize n) v (children n).
Definition set_children (v : list SceneNode) (n : SceneNode) : SceneNode :=
  mkSceneNode (nid n) (ntype n) (name n) (width n) (height n) (layoutMode n)
    (layoutPositioning n) (layoutSizingHorizontal n) (layoutSizingVertical n)
    (layoutGrow n) (primaryAxisSizingMode n) (counterAxisSizingMode n)
    (primaryAxisAlignItems n) (counterAxisAlignItems n) (layoutWrap n)
    (paddingLeft n) (paddingRight n) (paddingTop n) (paddingBottom n)
    (itemSpacing n) (textAutoResize n) (fontName n) v.

(** [node.resize(w, h)].  Figma rejects a size below 0.01; the model
    takes every size as given. *)
Definition resize (w h : Q) (n : SceneNode) : SceneNode :=
  set_height h (set_width w n).

(** A node fresh from [figma.createFrame()]: 100 by 100, no auto layout. *)
Definition newFrame (id : nat) : SceneNode :=
  mkSceneNode id FRAME (Name "Frame") 100 100 NONE AUTO FIXED FIXED 0
    AXIS_AUTO AXIS_AUTO MIN MIN NO_WRAP 0 0 0 0 0 RESIZE_NONE None [].

(** A node fresh from [figma.createText()]: empty, sized to its text. *)
Definition newText (id : nat) : SceneNode :=
  mkSceneNode id TEXT (Name "Text") 0 0 NONE AUTO HUG HUG 0
    AXIS_AUTO AXIS_AUTO MIN MIN NO_WRAP 0 0 0 0 0
    RESIZE_WIDTH_AND_HEIGHT None [].

(** ['layoutMode' in node] *)
Definition hasLayoutMode (n : SceneNode) : bool :=
  bool_decide (ntype n = FRAME).

(** ['layoutMode' in parent && parent.layoutMode !== 'NONE'] *)
Definition isAutoLayout (n : SceneNode) : bool :=
  hasLayoutMode n && negb (bool_decide (layoutMode n = NONE)).

(** [name === s] and [name.startsWith('SB ')] *)
Definition nameIs (s : string) (n : SceneNode) : bool :=
  match name n with
  | Name s' => String.eqb s' s
  | DebugSB => false
  end.

Definition nameStartsWithSB (n : SceneNode) : bool :=
  match name n with
  | Name s' => JsString.startsWith "SB " s'
  | DebugSB => true
  end.

(** [a > b], [a < b] and truthiness of an optional number. *)
Definition Qgtb (a b : Q) : bool := negb (Qle_bool a b).
Definition Qltb (a b : Q) : bool := negb (Qle_bool b a).

Definition truthy (o : option Q) : bool :=
  match o with
  | Some q => negb (Qeq_bool q 0)
  | None => false
  end.

End Figma.

(* ===================================================================== *)
(** ** [shared/types]: parsed elements and styles                         *)
(* ===================================================================== *)

Module Types.

Inductive Display : Type :=
  D_flex | D_inline_flex | D_block | D_inline | D_inline_block | D_none.
Inductive FlexDirection : Type :=
  FD_row | FD_column | FD_row_reverse | FD_column_reverse.
Inductive JustifyContent : Type :=
  JC_flex_start | JC_flex_end | JC_center
| JC_space_between | JC_space_around | JC_space_evenly.
Inductive AlignItems : Type :=
  AI_flex_start | AI_flex_end | AI_center | AI_stretch | AI_baseline.
Inductive AlignSelf : Type :=
  AS_auto | AS_flex_start | AS_flex_end | AS_center | AS_stretch | AS_baseline.
Inductive Position : Type := P_static | P_relative | P_absolute | P_fixed.
(** [number | 'auto' | 'fill'] and [number | 'auto'] *)
Inductive Dimension : Type := Px (q : Q) | Auto | Fill.
Inductive MarginValue : Type := MarginPx (q : Q) | MarginAuto.
Inductive FontWeight : Type := Weight (q : Q) | W_normal | W_bold.
Inductive FontStyleValue : Type := FS_normal | FS_italic | FS_oblique.
Inductive TextAlign : Type := TA_left | TA_center | TA_right | TA_justify.
Inductive WhiteSpace : Type :=
  WS_normal | WS_nowrap | WS_pre | WS_pre_wrap | WS_pre_line.
Inductive TextOverflow : Type := TO_clip | TO_ellipsis.
Inductive FlexWrap : Type := FW_nowrap | FW_wrap | FW_wrap_reverse.

#[global] Instance Display_eq_dec : EqDecision Display.
Proof. solve_decision. Defined.
#[global] Instance FlexDirection_eq_dec : EqDecision FlexDirection.
Proof. solve_decision. Defined.
#[global] Instance JustifyContent_eq_dec : EqDecision JustifyContent.
Proof. solve_decision. Defined.
#[global] Instance Position_eq_dec : EqDecision Position.
Proof. solve_decision. Defined.
#[global] Instance FontStyleValue_eq_dec : EqDecision FontStyleValue.
Proof. solve_decision. Defined.
#[global] Instance TextAlign_eq_dec : EqDecision TextAlign.
Proof. solve_decision. Defined.
#[global] Instance WhiteSpace_eq_dec : EqDecision WhiteSpace.
Proof. solve_decision. Defined.
#[global] Instance TextOverflow_eq_dec : EqDecision TextOverflow.
Proof. solve_decision. Defined.
#[global] Instance FlexWrap_eq_dec : EqDecision FlexWrap.
Proof. solve_decision. Defined.

(** [interface ParsedStyle]: every field is optional, [None] is
    [undefined].  The fields that only carry paint (colors, gradients,
    shadows, radii) are kept where the synthesizer tests their presence,
    without their content; the others of that kind are left out, with the
    fields no embedded code reads. *)
Record ParsedStyle : Type := mkParsedStyle {
  s_display : option Display;
  s_flexDirection : option FlexDirection;
  s_justifyContent : option JustifyContent;
  s_alignItems : option AlignItems;
  s_gap : option Q;
  s_flexGrow : option Q;
  s_alignSelf : option AlignSelf;
  s_position : option Position;
  s_top : option Q;
  s_right : option Q;
  s_bottom : option Q;
  s_left : option Q;
  s_zIndex : option Q;
  s_width : option Dimension;
  s_height : option Dimension;
  s_heightPercent : option Q;
  s_aspectRatio : option Q;
  s_maxWidth : option Q;
  s_padding : option Q;
  s_paddingTop : option Q;
  s_paddingRight : option Q;
  s_paddingBottom : option Q;
  s_paddingLeft : option Q;
  s_margin : option Q;
  s_marginTop : option MarginValue;
  s_marginRight : option MarginValue;
  s_marginBottom : option MarginValue;
  s_marginLeft : option MarginValue;
  s_backgroundColor : option unit;
  s_backgroundGradient : option unit;
  s_borderRadius : option Q;
  s_borderWidth : option Q;
  s_boxShadow : option unit;
  s_fontWeight : option FontWeight;
  s_fontStyle : option FontStyleValue;
  s_fontFamily : option string;
  s_textAlign : option TextAlign;
  s_whiteSpace : option WhiteSpace;
  s_textOverflow : option TextOverflow;
  s_scaleX : option Q;
  s_scaleY : option Q;
  s_flexWrap : option FlexWrap
}.

(** The style without any declaration. *)
Definition noStyle : ParsedStyle :=
  mkParsedStyle None None None None None None None None None None None None None None
    None None None None None None None None None None None None None None
    None None None None None None None None None None None None None None.

(** A copy of a style with one field replaced. *)
Definition with_display (v : option Display) (s : ParsedStyle) : ParsedStyle :=
  mkParsedStyle v (s_flexDirection s) (s_justifyContent s) (s_alignItems s)
    (s_gap s) (s_flexGrow s) (s_alignSelf s) (s_position s) (s_top s) (s_right
    s) (s_bottom s) (s_left s) (s_zIndex s) (s_width s) (s_height s)
    (s_heightPercent s) (s_aspectRatio s) (s_maxWidth s) (s_padding s)
    (s_paddingTop s) (s_paddingRight s) (s_paddingBottom s) (s_paddingLeft s)
    (s_margin s) (s_marginTop s) (s_marginRight s) (s_marginBottom s)
    (s_marginLeft s) (s_backgroundColor s) (s_backgroundGradient s)
    (s_borderRadius s) (s_borderWidth s) (s_boxShadow s) (s_fontWeight s)
    (s_fontStyle s) (s_fontFamily s) (s_textAlign s) (s_whiteSpace s)
    (s_textOverflow s) (s_scaleX s) (s_scaleY s) (s_flexWrap s).
Definition with_flexGrow (v : option Q) (s : ParsedStyle) : ParsedStyle :=
  mkParsedStyle (s_display s) (s_flexDirection s) (s_justifyContent s)
    (s_alignItems s) (s_gap s) v (s_alignSelf s) (s_position s) (s_top s)
    (s_right s) (s_bottom s) (s_left s) (s_zIndex s) (s_width s) (s_height s)
    (s_heightPercent s) (s_aspectRatio s) (s_maxWidth s) (s_padding s)
    (s_paddingTop s) (s_paddingRight s) (s_paddingBottom s) (s_paddingLeft s)
    (s_margin s) (s_marginTop s) (s_marginRight s) (s_marginBottom s)
    (s_marginLeft s) (s_backgroundColor s) (s_backgroundGradient s)
    (s_borderRadius s) (s_borderWidth s) (s_boxShadow s) (s_fontWeight s)
    (s_fontStyle s) (s_fontFamily s) (s_textAlign s) (s_whiteSpace s)
    (s_textOverflow s) (s_scaleX s) (s_scaleY s) (s_flexWrap s).
Definition with_left (v : option Q) (s : ParsedStyle) : ParsedStyle :=
  mkParsedStyle (s_display s) (s_flexDirection s) (s_justifyContent s)
    (s_alignItems s) (s_gap s) (s_flexGrow s) (s_alignSelf s) (s_position s)
    (s_top s) (s_right s) (s_bottom s) v (s_zIndex s) (s_width s) (s_height s)
    (s_heightPercent s) (s_aspectRatio s) (s_maxWidth s) (s_padding s)
    (s_paddingTop s) (s_paddingRight s) (s_paddingBottom s) (s_paddingLeft s)
    (s_margin s) (s_marginTop s) (s_marginRight s) (s_marginBottom s)
    (s_marginLeft s) (s_backgroundColor s) (s_backgroundGradient s)
    (s_borderRadius s) (s_borderWidth s) (s_boxShadow s) (s_fontWeight s)
    (s_fontStyle s) (s_fontFamily s) (s_textAlign s) (s_whiteSpace s)
    (s_textOverflow s) (s_scaleX s) (s_scaleY s) (s_flexWrap s).
Definition with_width (v : option Dimension) (s : ParsedStyle) : ParsedStyle :=
  mkParsedStyle (s_display s) (s_flexDirection s) (s_justifyContent s)
    (s_alignItems s) (s_gap s) (s_flexGrow s) (s_alignSelf s) (s_position s)
    (s_top s) (s_right s) (s_bottom s) (s_left s) (s_zIndex s) v (s_height s)
    (s_heightPercent s) (s_aspectRatio s) (s_maxWidth s) (s_padding s)
    (s_paddingTop s) (s_paddingRight s) (s_paddingBottom s) (s_paddingLeft s)
    (s_margin s) (s_marginTop s) (s_marginRight s) (s_marginBottom s)
    (s_marginLeft s) (s_backgroundColor s) (s_backgroundGradient s)
    (s_borderRadius s) (s_borderWidth s) (s_boxShadow s) (s_fontWeight s)
    (s_fontStyle s) (s_fontFamily s) (s_textAlign s) (s_whiteSpace s)
    (s_textOverflow s) (s_scaleX s) (s_scaleY s) (s_flexWrap s).
Definition with_height (v : option Dimension) (s : ParsedStyle) : ParsedStyle :=
  mkParsedStyle (s_display s) (s_flexDirection s) (s_justifyContent s)
    (s_alignItems s) (s_gap s) (s_flexGrow s) (s_alignSelf s) (s_position s)
    (s_top s) (s_right s) (s_bottom s) (s_left s) (s_zIndex s) (s_width s) v
    (s_heightPercent s) (s_aspectRatio s) (s_maxWidth s) (s_padding s)
    (s_paddingTop s) (s_paddingRight s) (s_paddingBottom s) (s_paddingLeft s)
    (s_margin s) (s_marginTop s) (s_marginRight s) (s_marginBottom s)
    (s_marginLeft s) (s_backgroundColor s) (s_backgroundGradient s)
    (s_borderRadius s) (s_borderWidth s) (s_boxShadow s) (s_fontWeight s)
    (s_fontStyle s) (s_fontFamily s) (s_textAlign s) (s_whiteSpace s)
    (s_textOverflow s) (s_scaleX s) (s_scaleY s) (s_flexWrap s).
Definition with_padding (v : option Q) (s : ParsedStyle) : ParsedStyle :=
  mkParsedStyle (s_display s) (s_flexDirection s) (s_justifyContent s)
    (s_alignItems s) (s_gap s) (s_flexGrow s) (s_alignSelf s) (s_position s)
    (s_top s) (s_right s) (s_bottom s) (s_left s) (s_zIndex s) (s_width s)
    (s_height s) (s_heightPercent s) (s_aspectRatio s) (s_maxWidth s) v
    (s_paddingTop s) (s_paddingRight s) (s_paddingBottom s) (s_paddingLeft s)
    (s_margin s) (s_marginTop s) (s_marginRight s) (s_marginBottom s)
    (s_marginLeft s) (s_backgroundColor s) (s_backgroundGradient s)
    (s_borderRadius s) (s_borderWidth s) (s_boxShadow s) (s_fontWeight s)
    (s_fontStyle s) (s_fontFamily s) (s_textAlign s) (s_whiteSpace s)
    (s_textOverflow s) (s_scaleX s) (s_scaleY s) (s_flexWrap s).
Definition with_paddingLeft (v : option Q) (s : ParsedStyle) : ParsedStyle :=
  mkParsedStyle (s_display s) (s_flexDirection s) (s_justifyContent s)
    (s_alignItems s) (s_gap s) (s_flexGrow s) (s_alignSelf s) (s_position s)
    (s_top s) (s_right s) (s_bottom s) (s_left s) (s_zIndex s) (s_width s)
    (s_height s) (s_heightPercent s) (s_aspectRatio s) (s_maxWidth s)
    (s_padding s) (s_paddingTop s) (s_paddingRight s) (s_paddingBottom s) v
    (s_margin s) (s_marginTop s) (s_marginRight s) (s_marginBottom s)
    (s_marginLeft s) (s_backgroundColor s) (s_backgroundGradient s)
    (s_borderRadius s) (s_borderWidth s) (s_boxShadow s) (s_fontWeight s)
    (s_fontStyle s) (s_fontFamily s) (s_textAlign s) (s_whiteSpace s)
    (s_textOverflow s) (s_scaleX s) (s_scaleY s) (s_flexWrap s).
Definition with_marginTop (v : option MarginValue) (s : ParsedStyle) : ParsedStyle :=
  mkParsedStyle (s_display s) (s_flexDirection s) (s_justifyContent s)
    (s_alignItems s) (s_gap s) (s_flexGrow s) (s_alignSelf s) (s_position s)
    (s_top s) (s_right s) (s_bottom s) (s_left s) (s_zIndex s) (s_width s)
    (s_height s) (s_heightPercent s) (s_aspectRatio s) (s_maxWidth s)
    (s_padding s) (s_paddingTop s) (s_paddingRight s) (s_paddingBottom s)
    (s_paddingLeft s) (s_margin s) v (s_marginRight s) (s_marginBottom s)
    (s_marginLeft s) (s_backgroundColor s) (s_backgroundGradient s)
    (s_borderRadius s) (s_borderWidth s) (s_boxShadow s) (s_fontWeight s)
    (s_fontStyle s) (s_fontFamily s) (s_textAlign s) (s_whiteSpace s)
    (s_textOverflow s) (s_scaleX s) (s_scaleY s) (s_flexWrap s).
Definition with_marginRight (v : option MarginValue) (s : ParsedStyle) : ParsedStyle :=
  mkParsedStyle (s_display s) (s_flexDirection s) (s_justifyContent s)
    (s_alignItems s) (s_gap s) (s_flexGrow s) (s_alignSelf s) (s_position s)
    (s_top s) (s_right s) (s_bottom s) (s_left s) (s_zIndex s) (s_width s)
    (s_height s) (s_heightPercent s) (s_aspectRatio s) (s_maxWidth s)
    (s_padding s) (s_paddingTop s) (s_paddingRight s) (s_paddingBottom s)
    (s_paddingLeft s) (s_margin s) (s_marginTop s) v (s_marginBottom s)
    (s_marginLeft s) (s_backgroundColor s) (s_backgroundGradient s)
    (s_borderRadius s) (s_borderWidth s) (s_boxShadow s) (s_fontWeight s)
    (s_fontStyle s) (s_fontFamily s) (s_textAlign s) (s_whiteSpace s)
    (s_textOverflow s) (s_scaleX s) (s_scaleY s) (s_flexWrap s).
Definition with_marginBottom (v : option MarginValue) (s : ParsedStyle) : ParsedStyle :=
  mkParsedStyle (s_display s) (s_flexDirection s) (s_justifyContent s)
    (s_alignItems s) (s_gap s) (s_flexGrow s) (s_alignSelf s) (s_position s)
    (s_top s) (s_right s) (s_bottom s) (s_left s) (s_zIndex s) (s_width s)
    (s_height s) (s_heightPercent s) (s_aspectRatio s) (s_maxWidth s)
    (s_padding s) (s_paddingTop s) (s_paddingRight s) (s_paddingBottom s)
    (s_paddingLeft s) (s_margin s) (s_marginTop s) (s_marginRight s) v
    (s_marginLeft s) (s_backgroundColor s) (s_backgroundGradient s)
    (s_borderRadius s) (s_borderWidth s) (s_boxShadow s) (s_fontWeight s)
    (s_fontStyle s) (s_fontFamily s) (s_textAlign s) (s_whiteSpace s)
    (s_textOverflow s) (s_scaleX s) (s_scaleY s) (s_flexWrap s).
Definition with_marginLeft (v : option MarginValue) (s : ParsedStyle) : ParsedStyle :=
  mkParsedStyle (s_display s) (s_flexDirection s) (s_justifyContent s)
    (s_alignItems s) (s_gap s) (s_flexGrow s) (s_alignSelf s) (s_position s)
    (s_top s) (s_right s) (s_bottom s) (s_left s) (s_zIndex s) (s_width s)
    (s_height s) (s_heightPercent s) (s_aspectRatio s) (s_maxWidth s)
    (s_padding s) (s_paddingTop s) (s_paddingRight s) (s_paddingBottom s)
    (s_paddingLeft s) (s_margin s) (s_marginTop s) (s_marginRight s)
    (s_marginBottom s) v (s_backgroundColor s) (s_backgroundGradient s)
    (s_borderRadius s) (s_borderWidth s) (s_boxShadow s) (s_fontWeight s)
    (s_fontStyle s) (s_fontFamily s) (s_textAlign s) (s_whiteSpace s)
    (s_textOverflow s) (s_scaleX s) (s_scaleY s) (s_flexWrap s).
Definition with_fontFamily (v : option string) (s : ParsedStyle) : ParsedStyle :=
  mkParsedStyle (s_display s) (s_flexDirection s) (s_justifyContent s)
    (s_alignItems s) (s_gap s) (s_flexGrow s) (s_alignSelf s) (s_position s)
    (s_top s) (s_right s) (s_bottom s) (s_left s) (s_zIndex s) (s_width s)
    (s_height s) (s_heightPercent s) (s_aspectRatio s) (s_maxWidth s)
    (s_padding s) (s_paddingTop s) (s_paddingRight s) (s_paddingBottom s)
    (s_paddingLeft s) (s_margin s) (s_marginTop s) (s_marginRight s)
    (s_marginBottom s) (s_marginLeft s) (s_backgroundColor s)
    (s_backgroundGradient s) (s_borderRadius s) (s_borderWidth s) (s_boxShadow
    s) (s_fontWeight s) (s_fontStyle s) v (s_textAlign s) (s_whiteSpace s)
    (s_textOverflow s) (s_scaleX s) (s_scaleY s) (s_flexWrap s).

(** [interface ParsedElement] (without [attributes], which the plugin does
    not read). *)
#[warnings="-register-all"]
Inductive ParsedElement : Type := mkParsedElement {
  e_tagName : string;
  e_styles : ParsedStyle;
  e_textContent : option string;
  e_children : list ParsedElement
}.

(** [x !== undefined] and [x ?? d] *)
Definition defined {A} (o : option A) : bool :=
  match o with Some _ => true | None => false end.

Definition orElse {A} (o : option A) (d : A) : A :=
  match o with Some a => a | None => d end.

(** [typeof x === 'number' ? x : 0] on a margin. *)
Definition marginPx (m : option MarginValue) : Q :=
  match m with
  | Some (MarginPx q) => q
  | _ => 0
  end.

(** A string in a condition: [undefined] and the empty string are
    false. *)
Definition nonEmpty (o : option string) : bool :=
  match o with
  | Some s => negb (String.eqb s EmptyString)
  | None => false
  end.

End Types.

(* ===================================================================== *)
(** ** [plugin/html-parser.ts]: state shared by the synthesizer           *)
(* ===================================================================== *)

Module Synth.
Import Figma Types.
Local Open Scope Q_scope.

(** The value type of [pendingLayoutSizing]. *)
Record Pending : Type := mkPending {
  p_horizontal : option LayoutSizing;
  p_height : option LayoutSizing
}.

(** What a synthesis reads and writes besides the nodes it builds: the
    counter behind the identity of created nodes, the fonts asked of
    [figma.loadFontAsync] so far (oldest first), and the module-level
    [WeakMap]s, keyed by node identity. *)
Record World : Type := mkWorld {
  nextId : nat;
  fontLoads : list FontName;
  pendingLayoutSizing : gmap nat Pending;
  intendedFixedWidth : gmap nat Q;
  explicitAlignItems : gmap nat bool;
  nestedFlexGrowMap : gmap nat Q
}.

Definition emptyWorld : World := mkWorld 0 [] ∅ ∅ ∅ ∅.

Definition set_nextId (v : nat) (w : World) : World :=
  mkWorld v (fontLoads w) (pendingLayoutSizing w) (intendedFixedWidth w)
    (explicitAlignItems w) (nestedFlexGrowMap w).
Definition set_fontLoads (v : list FontName) (w : World) : World :=
  mkWorld (nextId w) v (pendingLayoutSizing w) (intendedFixedWidth w)
    (explicitAlignItems w) (nestedFlexGrowMap w).
Definition set_pendingLayoutSizing (v : gmap nat Pending) (w : World) : World :=
  mkWorld (nextId w) (fontLoads w) v (intendedFixedWidth w)
    (explicitAlignItems w) (nestedFlexGrowMap w).
Definition set_intendedFixedWidth (v : gmap nat Q) (w : World) : World :=
  mkWorld (nextId w) (fontLoads w) (pendingLayoutSizing w) v
    (explicitAlignItems w) (nestedFlexGrowMap w).
Definition set_explicitAlignItems (v : gmap nat bool) (w : World) : World :=
  mkWorld (nextId w) (fontLoads w) (pendingLayoutSizing w)
    (intendedFixedWidth w) v (nestedFlexGrowMap w).
Definition set_nestedFlexGrowMap (v : gmap nat Q) (w : World) : World :=
  mkWorld (nextId w) (fontLoads w) (pendingLayoutSizing w)
    (intendedFixedWidth w) (explicitAlignItems w) v.

(** [const pending = pendingLayoutSizing.get(frame) || {};
     pending.horizontal = v; pendingLayoutSizing.set(frame, pending)] *)
Definition pendingOf (frame : SceneNode) (w : World) : Pending :=
  default (mkPending None None) (pendingLayoutSizing w !! nid frame).

Definition setPendingHorizontal (frame : SceneNode) (v : LayoutSizing)
    (w : World) : World :=
  let pending := pendingOf frame w in
  set_pendingLayoutSizing
    (<[nid frame := mkPending (Some v) (p_height pending)]>
       (pendingLayoutSizing w)) w.

Definition setPendingHeight (frame : SceneNode) (v : LayoutSizing)
    (w : World) : World :=
  let pending := pendingOf frame w in
  set_pendingLayoutSizing
    (<[nid frame := mkPending (p_horizontal pending) (Some v)]>
       (pendingLayoutSizing w)) w.

(** [explicitAlignItems.get(parent) || false] *)
Definition hasExplicitAlign (parent : SceneNode) (w : World) : bool :=
  default false (explicitAlignItems w !! nid parent).

(** Whether Figma accepts a value for [layoutSizingHorizontal] or
    [layoutSizingVertical] of a node under a parent.  The two helpers of
    the source say it of themselves: the assignment only works if the
    frame is a child of an auto-layout parent, and is silently ignored
    otherwise. *)
Definition sizingAccepted (parent : SceneNode) : bool := isAutoLayout parent.

(** [safeSetLayoutSizingHorizontal] and [safeSetLayoutSizingVertical], for
    a node whose parent is [parent]. *)
Definition safeSetLayoutSizingHorizontal (parent frame : SceneNode)
    (value : LayoutSizing) : SceneNode :=
  if sizingAccepted parent then set_layoutSizingHorizontal value frame
  else frame.

Definition safeSetLayoutSizingVertical (parent frame : SceneNode)
    (value : LayoutSizing) : SceneNode :=
  if sizingAccepted parent then set_layoutSizingVertical value frame
  else frame.

(** The names of the synthetic spacer and wrapper boxes, as the flex
    passes test them. *)
Definition isSpacerRole (child : SceneNode) : bool :=
  nameIs "spacer" child || nameIs "margin-spacer" child
  || nameIs "margin-wrapper" child.

Definition isMarginSideRole (child : SceneNode) : bool :=
  nameIs "margin-left" child || nameIs "margin-right" child.

Definition isSpaceDistribution (j : option JustifyContent) : bool :=
  match j with
  | Some JC_space_between | Some JC_space_around | Some JC_space_evenly => true
  | _ => false
  end.

Definition isAbsoluteOrFixed (styles : ParsedStyle) : bool :=
  match s_position styles with
  | Some P_absolute | Some P_fixed => true
  | _ => false
  end.

(* --------------------------------------------------------------------- *)
(** *** [applyFrameStyles]                                                *)
(* --------------------------------------------------------------------- *)

(** Auto Layout: [if (styles.display === 'flex') { ... }] *)
Definition applyFlexLayout (styles : ParsedStyle) (fw : SceneNode * World)
  : SceneNode * World :=
  let '(frame, w) := fw in
  match s_display styles with
  | Some D_flex =>
      let frame :=
        set_layoutMode
          (match s_flexDirection styles with
           | Some FD_column | Some FD_column_reverse => VERTICAL
           | _ => HORIZONTAL
           end) frame in
      (* Justify content *)
      let frame :=
        match s_justifyContent styles with
        | Some JC_flex_start => set_primaryAxisAlignItems MIN frame
        | Some JC_flex_end => set_primaryAxisAlignItems MAX frame
        | Some JC_center => set_primaryAxisAlignItems CENTER frame
        | Some JC_space_between | Some JC_space_around
        | Some JC_space_evenly =>
            set_name DebugSB (set_primaryAxisAlignItems SPACE_BETWEEN frame)
        | None => frame
        end in
      (* Align items *)
      let '(frame, w) :=
        match s_alignItems styles with
        | Some AI_flex_start =>
            (set_counterAxisAlignItems MIN frame,
             set_explicitAlignItems
               (<[nid frame := true]> (explicitAlignItems w)) w)
        | Some AI_flex_end =>
            (set_counterAxisAlignItems MAX frame,
             set_explicitAlignItems
               (<[nid frame := true]> (explicitAlignItems w)) w)
        | Some AI_center =>
            (set_counterAxisAlignItems CENTER frame,
             set_explicitAlignItems
               (<[nid frame := true]> (explicitAlignItems w)) w)
        | _ => (frame, w)
        end in
      (* Gap *)
      let frame :=
        match s_gap styles with
        | Some gap => set_itemSpacing gap frame
        | None => frame
        end in
      (* Flex wrap *)
      let frame :=
        match s_flexWrap styles with
        | Some FW_wrap | Some FW_wrap_reverse =>
            set_primaryAxisSizingMode AXIS_FIXED (set_layoutWrap WRAP frame)
        | _ => frame
        end in
      (frame, w)
  | _ => (frame, w)
  end.

(** The frame's own sizing mode on the axis of its width, and of its
    height, set to FIXED. *)
Definition fixWidthAxis (frame : SceneNode) : SceneNode :=
  match layoutMode frame with
  | VERTICAL => set_counterAxisSizingMode AXIS_FIXED frame
  | HORIZONTAL => set_primaryAxisSizingMode AXIS_FIXED frame
  | NONE => frame
  end.

Definition fixHeightAxis (frame : SceneNode) : SceneNode :=
  match layoutMode frame with
  | HORIZONTAL => set_counterAxisSizingMode AXIS_FIXED frame
  | VERTICAL => set_primaryAxisSizingMode AXIS_FIXED frame
  | NONE => frame
  end.

(** Sizing, width: [if (typeof styles.width === 'number') ... else if ...] *)
Definition applyWidth (styles : ParsedStyle) (parentWidth : option Q)
    (fw : SceneNode * World) : SceneNode * World :=
  let '(frame, w) := fw in
  match s_width styles with
  | Some (Px width0) =>
      (* Add padding to width (content-box behavior) *)
      let totalWidth :=
        match s_padding styles with
        | Some padding => width0 + padding * 2
        | None =>
            width0 + (orElse (s_paddingLeft styles) 0
                      + orElse (s_paddingRight styles) 0)
        end in
      let frame := resize totalWidth (height frame) frame in
      let w := setPendingHorizontal frame FIXED w in
      (fixWidthAxis frame, w)
  | Some Fill => (frame, setPendingHorizontal frame FILL w)
  | Some Auto => (frame, setPendingHorizontal frame HUG w)
  | None =>
      match parentWidth with
      | None => (frame, w)
      | Some parentWidth =>
          let isAbsolutePositioned := isAbsoluteOrFixed styles in
          let hasLeftAndRight :=
            defined (s_left styles) && defined (s_right styles) in
          let isInlineDisplay :=
            match s_display styles with
            | Some D_inline | Some D_inline_flex | Some D_inline_block => true
            | _ => false
            end in
          if negb isAbsolutePositioned && negb isInlineDisplay then
            let marginLeft := marginPx (s_marginLeft styles) in
            let marginRight := marginPx (s_marginRight styles) in
            let availableWidth := parentWidth - marginLeft - marginRight in
            if Qgtb availableWidth 0 then
              let frame := resize availableWidth (height frame) frame in
              let w := setPendingHorizontal frame FIXED w in
              let '(frame, w) :=
                match layoutMode frame with
                | HORIZONTAL =>
                    (set_primaryAxisSizingMode AXIS_FIXED frame,
                     if isSpaceDistribution (s_justifyContent styles)
                     then set_intendedFixedWidth
                            (<[nid frame := availableWidth]>
                               (intendedFixedWidth w)) w
                     else w)
                | _ => (frame, w)
                end in
              let frame :=
                if nameStartsWithSB frame then set_name DebugSB frame
                else frame in
              (frame, w)
            else (frame, w)
          else if hasLeftAndRight then
            let availableWidth :=
              parentWidth - orElse (s_left styles) 0
              - orElse (s_right styles) 0 in
            if Qgtb availableWidth 0
            then (resize availableWidth (height frame) frame, w)
            else (frame, w)
          else (frame, w)
      end
  end.

(** Sizing, height. *)
Definition applyHeight (styles : ParsedStyle) (fw : SceneNode * World)
  : SceneNode * World :=
  let '(frame, w) := fw in
  match s_height styles with
  | Some (Px height0) =>
      let totalHeight :=
        match s_padding styles with
        | Some padding => height0 + padding * 2
        | None =>
            height0 + (orElse (s_paddingTop styles) 0
                       + orElse (s_paddingBottom styles) 0)
        end in
      let frame := resize (width frame) totalHeight frame in
      let w := setPendingHeight frame FIXED w in
      (fixHeightAxis frame, w)
  | Some Fill => (frame, setPendingHeight frame FILL w)
  | Some Auto => (frame, setPendingHeight frame HUG w)
  | None => (frame, w)
  end.

(** Padding: the uniform value first, then the sides that are given. *)
Definition applyPadding (styles : ParsedStyle) (frame : SceneNode)
  : SceneNode :=
  let frame :=
    match s_padding styles with
    | Some padding =>
        set_paddingLeft padding
          (set_paddingBottom padding
             (set_paddingRight padding (set_paddingTop padding frame)))
    | None => frame
    end in
  let frame := match s_paddingTop styles with
               | Some v => set_paddingTop v frame | None => frame end in
  let frame := match s_paddingRight styles with
               | Some v => set_paddingRight v frame | None => frame end in
  let frame := match s_paddingBottom styles with
               | Some v => set_paddingBottom v frame | None => frame end in
  let frame := match s_paddingLeft styles with
               | Some v => set_paddingLeft v frame | None => frame end in
  frame.

(** Scale transform: the frame is resized to simulate the scale. *)
Definition applyScale (styles : ParsedStyle) (frame : SceneNode)
  : SceneNode :=
  if defined (s_scaleX styles) || defined (s_scaleY styles) then
    let scaleX := orElse (s_scaleX styles) 1 in
    let scaleY := orElse (s_scaleY styles) 1 in
    let newWidth := width frame * scaleX in
    let newHeight := height frame * scaleY in
    resize newWidth newHeight frame
  else frame.

(** Text alignment for frames. *)
Definition applyTextAlign (styles : ParsedStyle) (frame : SceneNode)
  : SceneNode :=
  match s_textAlign styles with
  | None => frame
  | Some textAlign =>
      let frame :=
        match layoutMode frame with
        | NONE =>
            set_counterAxisSizingMode AXIS_FIXED
              (set_primaryAxisSizingMode AXIS_AUTO
                 (set_layoutMode VERTICAL frame))
        | _ => frame
        end in
      match layoutMode frame, textAlign with
      | VERTICAL, TA_center => set_counterAxisAlignItems CENTER frame
      | VERTICAL, TA_right => set_counterAxisAlignItems MAX frame
      | VERTICAL, TA_left => set_counterAxisAlignItems MIN frame
      | HORIZONTAL, TA_center => set_primaryAxisAlignItems CENTER frame
      | HORIZONTAL, TA_right => set_primaryAxisAlignItems MAX frame
      | HORIZONTAL, TA_left => set_primaryAxisAlignItems MIN frame
      | _, _ => frame
      end
  end.

(** [applyFrameStyles(frame, styles, parentWidth)], in the order of the
    source: auto layout, width, height, padding, scale, text alignment.
    (The statements between them set paint, min/max sizes and clipping.) *)
Definition applyFrameStyles (frame : SceneNode) (styles : ParsedStyle)
    (parentWidth : option Q) (w : World) : SceneNode * World :=
  let '(frame, w) :=
    applyHeight styles
      (applyWidth styles parentWidth (applyFlexLayout styles (frame, w))) in
  (applyTextAlign styles (applyScale styles (applyPadding styles frame)), w).

End Synth.

(* ===================================================================== *)
(** ** [plugin/html-parser.ts]: [createFigmaNode]                         *)
(* ===================================================================== *)

Module Create.
Import Figma Types Synth.
Local Open Scope Q_scope.

(** A computation of the plugin: it reads and writes the [World], and
    either returns or throws. *)
Inductive outcome (A : Type) : Type :=
| Ok (a : A)
| Throw (message : string).
Arguments Ok {A} a.
Arguments Throw {A} message.

Definition M (A : Type) : Type := World -> outcome A * World.

#[global] Instance M_ret : MRet M := fun A a w => (Ok a, w).
#[global] Instance M_bind : MBind M := fun A B k m w =>
  match m w with
  | (Ok a, w') => k a w'
  | (Throw e, w') => (Throw e, w')
  end.

Definition get : M World := fun w => (Ok w, w).
Definition modify (f : World -> World) : M unit := fun w => (Ok tt, f w).
Definition throw {A} (message : string) : M A := fun w => (Throw message, w).

(** [try { body } catch { handler }]: what [body] did before it threw
    stays done. *)
Definition tryCatch {A} (body handler : M A) : M A := fun w =>
  match body w with
  | (Ok a, w') => (Ok a, w')
  | (Throw _, w') => handler w'
  end.

(** [for (const x of xs) { ... }], threading a value. *)
Fixpoint foldM {A B} (f : B -> A -> M B) (b : B) (xs : list A) : M B :=
  match xs with
  | [] => mret b
  | x :: xs' => b' ← f b x; foldM f b' xs'
  end.

(** [figma.createFrame()] and [figma.createText()]: a node with a fresh
    identity. *)
Definition createFrame : M SceneNode := fun w =>
  (Ok (newFrame (nextId w)), set_nextId (S (nextId w)) w).

Definition createText : M SceneNode := fun w =>
  (Ok (newText (nextId w)), set_nextId (S (nextId w)) w).

(** [parent.appendChild(child)] on a parent that does not hold the child
    yet. *)
Definition appendChild (child parent : SceneNode) : SceneNode :=
  set_children (children parent ++ [child]) parent.

Section WithFonts.

(** Which fonts [figma.loadFontAsync] can load; for the others its promise
    is rejected. *)
Variable fontAvailable : FontName -> bool.

Definition loadFontAsync (font : FontName) : M unit := fun w =>
  let w' := set_fontLoads (fontLoads w ++ [font]) w in
  if fontAvailable font then (Ok tt, w')
  else (Throw "font could not be loaded", w').

Definition isItalicStyle (styles : ParsedStyle) : bool :=
  match s_fontStyle styles with
  | Some FS_italic | Some FS_oblique => true
  | _ => false
  end.

(** Font style from weight and italic.  The text-leaf branch maps weights
    up to 300 to Light; the branch for the text of a frame has no such
    case. *)
Definition fontStyleOf (styles : ParsedStyle) (light : bool) : string :=
  let isItalic := isItalicStyle styles in
  let byWeight (weight : Q) : string :=
    if Qle_bool 700 weight then (if isItalic then "Bold Italic" else "Bold")
    else if Qle_bool 600 weight
    then (if isItalic then "Semi Bold Italic" else "Semi Bold")
    else if Qle_bool 500 weight
    then (if isItalic then "Medium Italic" else "Medium")
    else if light && Qle_bool weight 300
    then (if isItalic then "Light Italic" else "Light")
    else (if isItalic then "Italic" else "Regular") in
  let italicOnly := if isItalic then "Italic" else "Regular" in
  match s_fontWeight styles with
  | Some (Weight q) => if Qeq_bool q 0 then italicOnly else byWeight q
  | Some W_bold => byWeight 700
  | Some W_normal => byWeight 400
  | None => italicOnly
  end.

(** "Load and set font BEFORE setting characters": the requested font,
    then Inter with the same style, then Inter Regular.  The last load is
    not guarded. *)
Definition setFontWithFallback (textNode : SceneNode)
    (fontFamily fontStyle : string) : M SceneNode :=
  tryCatch
    (loadFontAsync (mkFontName fontFamily fontStyle) ≫= λ _,
     mret (set_fontName (Some (mkFontName fontFamily fontStyle)) textNode))
    (tryCatch
       (loadFontAsync (mkFontName "Inter" fontStyle) ≫= λ _,
        mret (set_fontName (Some (mkFontName "Inter" fontStyle)) textNode))
       (loadFontAsync (mkFontName "Inter" "Regular") ≫= λ _,
        mret (set_fontName (Some (mkFontName "Inter" "Regular")) textNode))).

Definition textTags : list string :=
  ["span"; "p"; "h1"; "h2"; "h3"; "h4"; "h5"; "h6"; "label"; "a"].

Definition inlineTags : list string :=
  ["span"; "a"; "label"; "strong"; "em"; "b"; "i"; "small"; "code"].

Definition includes (tags : list string) (tag : string) : bool :=
  existsb (String.eqb tag) tags.

(** The condition under which an element becomes a text node. *)
Definition isTextLeaf (tagName : string) (styles : ParsedStyle)
    (textContent : option string) (children : list ParsedElement) : bool :=
  let hasFlexProperties :=
    match s_flexGrow styles with
    | Some fg => Qgtb fg 0
    | None => false
    end in
  let hasFrameStyles :=
    defined (s_padding styles)
    || defined (s_paddingTop styles) || defined (s_paddingRight styles)
    || defined (s_paddingBottom styles) || defined (s_paddingLeft styles)
    || defined (s_backgroundColor styles)
    || defined (s_backgroundGradient styles)
    || defined (s_borderRadius styles) || defined (s_borderWidth styles)
    || defined (s_boxShadow styles) in
  includes textTags tagName && nonEmpty textContent
  && (length children =? 0)%nat
  && negb hasFlexProperties && negb hasFrameStyles.

Definition isNoWrap (styles : ParsedStyle) : bool :=
  match s_whiteSpace styles with
  | Some WS_nowrap | Some WS_pre => true
  | _ => false
  end.

Definition hasEllipsis (styles : ParsedStyle) : bool :=
  match s_textOverflow styles with
  | Some TO_ellipsis => true
  | _ => false
  end.

(** [styles.fontFamily || 'Inter'] *)
Definition requestedFamily (styles : ParsedStyle) : string :=
  let fontFamily := orElse (s_fontFamily styles) "Inter" in
  if String.eqb fontFamily EmptyString then "Inter" else fontFamily.

(** The font style of a text leaf: by weight and italic, and bold for the
    heading tags ("Apply default styles based on tag"). *)
Definition leafFontStyle (tagName : string) (styles : ParsedStyle) : string :=
  if JsString.startsWith "h" tagName
  then (if isItalicStyle styles then "Bold Italic" else "Bold")
  else fontStyleOf styles true.

(** The fonts that [setFontWithFallback] may ask for, in order. *)
Definition fontTiers (fontFamily fontStyle : string) : list FontName :=
  [mkFontName fontFamily fontStyle; mkFontName "Inter" fontStyle;
   mkFontName "Inter" "Regular"].

(** "Enable text wrapping for text tags when parent has a fixed width". *)
Definition wrapTextLeaf (styles : ParsedStyle) (parent : SceneNode)
    (parentWidth : option Q) (textNode : SceneNode) : SceneNode :=
  let parentHasAlignment :=
    isAutoLayout parent
    && (bool_decide (counterAxisAlignItems parent = CENTER)
        || bool_decide (counterAxisAlignItems parent = MAX)) in
  let parentHasSpaceBetween :=
    bool_decide (primaryAxisAlignItems parent = SPACE_BETWEEN) in
  let parentIsHorizontal :=
    hasLayoutMode parent && bool_decide (layoutMode parent = HORIZONTAL) in
  let parentIsHugging :=
    bool_decide (layoutSizingHorizontal parent = HUG) in
  let noWrap := isNoWrap styles in
  if hasEllipsis styles && truthy parentWidth then
    resize (orElse parentWidth 0) (height textNode)
      (set_textAutoResize RESIZE_NONE textNode)
  else if truthy parentWidth && negb parentHasAlignment
          && negb parentHasSpaceBetween && negb parentIsHorizontal
          && negb parentIsHugging && negb noWrap then
    resize (orElse parentWidth 0) (height textNode)
      (set_textAutoResize RESIZE_HEIGHT textNode)
  else if noWrap then set_textAutoResize RESIZE_WIDTH_AND_HEIGHT textNode
  else textNode.

(** The text-leaf branch of [createFigmaNode].  The source appends the
    node to [parent] before it returns it; here the caller puts the
    returned node at the end of the parent's children. *)
Definition createTextLeaf (tagName : string) (styles : ParsedStyle)
    (parent : SceneNode) (parentWidth : option Q) : M SceneNode :=
  textNode ← createText;
  let fontFamily := requestedFamily styles in
  let fontStyle := leafFontStyle tagName styles in
  textNode ← setFontWithFallback textNode fontFamily fontStyle;
  mret (set_name (Name tagName)
          (wrapTextLeaf styles parent parentWidth textNode)).

(* --------------------------------------------------------------------- *)
(** *** The frame branch, up to the attachment of the frame              *)
(* --------------------------------------------------------------------- *)

Definition isFlexDisplay (styles : ParsedStyle) : bool :=
  match s_display styles with
  | Some D_flex | Some D_inline_flex => true
  | _ => false
  end.

Definition isInlineDisplay (styles : ParsedStyle) : bool :=
  match s_display styles with
  | Some D_inline_flex | Some D_inline_block | Some D_inline => true
  | _ => false
  end.

(** "Set up auto layout - always enable for frames with children or flex
    display". *)
Definition setupAutoLayout (styles : ParsedStyle)
    (textContent : option string) (children : list ParsedElement)
    (frame : SceneNode) : SceneNode :=
  let hasChildren := (0 <? length children)%nat || nonEmpty textContent in
  if isFlexDisplay styles || hasChildren then
    let layoutMode :=
      if isFlexDisplay styles then
        match s_flexDirection styles with
        | Some FD_column | Some FD_column_reverse => VERTICAL
        | _ => HORIZONTAL
        end
      else VERTICAL in
    set_counterAxisSizingMode AXIS_AUTO
      (set_primaryAxisSizingMode AXIS_AUTO (set_layoutMode layoutMode frame))
  else frame.

(** "Handle percentage height (needs parent height)". *)
Definition applyHeightPercent (styles : ParsedStyle) (parentHeight : option Q)
    (fw : SceneNode * World) : SceneNode * World :=
  let '(frame, w) := fw in
  match s_heightPercent styles, parentHeight with
  | Some heightPercent, Some parentHeight =>
      let calculatedHeight := (heightPercent / 100) * parentHeight in
      (resize (width frame) calculatedHeight frame,
       setPendingHeight frame FIXED w)
  | _, _ => (frame, w)
  end.

(** "Handle aspect-ratio (calculate height based on width)". *)
Definition applyAspectRatio (styles : ParsedStyle) (parentWidth : option Q)
    (fw : SceneNode * World) : SceneNode * World :=
  let '(frame, w) := fw in
  match s_aspectRatio styles with
  | Some aspectRatio =>
      if Qgtb aspectRatio 0 then
        let effectiveWidth :=
          match s_width styles, parentWidth with
          | Some Fill, Some parentWidth => parentWidth
          | _, _ => width frame
          end in
        let calculatedHeight := effectiveWidth / aspectRatio in
        (resize effectiveWidth calculatedHeight frame,
         setPendingHeight frame FIXED w)
      else (frame, w)
  | None => (frame, w)
  end.

Definition setPadding (t r b l : Q) (frame : SceneNode) : SceneNode :=
  set_paddingLeft l (set_paddingBottom b
    (set_paddingRight r (set_paddingTop t frame))).

(** "Handle buttons with special styling" and "Handle input elements". *)
Definition applyTagDefaults (tagName : string) (styles : ParsedStyle)
    (frame : SceneNode) : SceneNode :=
  let noPadding :=
    negb (defined (s_padding styles)) && negb (defined (s_paddingTop styles)) in
  let frame :=
    if String.eqb tagName "button" then
      let frame :=
        match layoutMode frame with
        | NONE =>
            set_counterAxisSizingMode AXIS_AUTO
              (set_primaryAxisSizingMode AXIS_AUTO
                 (set_layoutMode HORIZONTAL frame))
        | _ => frame
        end in
      let frame :=
        set_counterAxisAlignItems CENTER
          (set_primaryAxisAlignItems CENTER frame) in
      if noPadding then setPadding 8 16 8 16 frame else frame
    else frame in
  if String.eqb tagName "input" || String.eqb tagName "textarea" then
    if noPadding then setPadding 8 12 8 12 frame else frame
  else frame.

(** Everything [createFigmaNode] does to a new frame before it attaches
    it. *)
Definition prepareFrame (tagName : string) (styles : ParsedStyle)
    (textContent : option string) (children : list ParsedElement)
    (parentWidth parentHeight : option Q) : M SceneNode :=
  frame ← createFrame;
  let frame := set_name (Name tagName) frame in
  let frame := setupAutoLayout styles textContent children frame in
  w ← get;
  let '(frame, w) :=
    applyAspectRatio styles parentWidth
      (applyHeightPercent styles parentHeight
         (applyFrameStyles frame styles parentWidth w)) in
  modify (fun _ => w) ≫= λ _,
  mret (applyTagDefaults tagName styles frame).

(* --------------------------------------------------------------------- *)
(** *** Attachment and the sizing that follows it                         *)
(* --------------------------------------------------------------------- *)

(** "Apply pending layout sizing now that frame is attached to parent".
    The table is read and left as it is. *)
Definition applyPendingSizing (parent frame : SceneNode) (w : World)
  : SceneNode :=
  if isAutoLayout parent then
    let pending := pendingLayoutSizing w !! nid frame in
    let frame :=
      match pending ≫= p_horizontal with
      | Some v => safeSetLayoutSizingHorizontal parent frame v
      | None => frame
      end in
    match pending ≫= p_height with
    | Some v => safeSetLayoutSizingVertical parent frame v
    | None => frame
    end
  else frame.

Definition widthUndefinedOrFill (styles : ParsedStyle) : bool :=
  match s_width styles with
  | None | Some Fill => true
  | _ => false
  end.

Definition heightUndefinedOrFill (styles : ParsedStyle) : bool :=
  match s_height styles with
  | None | Some Fill => true
  | _ => false
  end.

(** "After adding to parent, apply CSS default align-items: stretch
    behavior". *)
Definition applyDefaultStretch (parent : SceneNode) (tagName : string)
    (styles : ParsedStyle) (frame : SceneNode) (w : World) : SceneNode :=
  let isInlineTag := includes inlineTags tagName in
  let parentHasWrap := bool_decide (layoutWrap parent = WRAP) in
  if isAutoLayout parent && negb (isInlineDisplay styles)
     && negb (isAbsoluteOrFixed styles) && negb isInlineTag then
    match layoutMode parent with
    | VERTICAL =>
        let parentHasExplicitAlign := hasExplicitAlign parent w in
        let needsFixedWidth := isSpaceDistribution (s_justifyContent styles) in
        if negb parentHasExplicitAlign && negb needsFixedWidth
           && widthUndefinedOrFill styles then
          safeSetLayoutSizingHorizontal parent frame FILL
        else if needsFixedWidth && negb (defined (s_width styles)) then
          set_primaryAxisSizingMode AXIS_FIXED
            (safeSetLayoutSizingHorizontal parent frame FIXED)
        else frame
    | HORIZONTAL =>
        let parentHasExplicitAlign := hasExplicitAlign parent w in
        let frame :=
          if negb parentHasExplicitAlign && heightUndefinedOrFill styles
             && negb (defined (s_heightPercent styles)) && negb parentHasWrap
          then safeSetLayoutSizingVertical parent frame FILL
          else frame in
        if negb (defined (s_width styles)) && negb (defined (s_flexGrow styles))
        then safeSetLayoutSizingHorizontal parent frame HUG
        else frame
    | NONE => frame
    end
  else if (isInlineTag || isInlineDisplay styles) && isAutoLayout parent then
    safeSetLayoutSizingVertical parent
      (safeSetLayoutSizingHorizontal parent frame HUG) HUG
  else frame.

Definition hasFlexGrow (styles : ParsedStyle) : bool :=
  match s_flexGrow styles with
  | Some fg => Qgtb fg 0
  | None => false
  end.

(** "Apply flex-grow: allows element to expand to fill available
    space". *)
Definition applyFlexGrow (parent : SceneNode) (styles : ParsedStyle)
    (fw : SceneNode * World) : SceneNode * World :=
  let '(frame, w) := fw in
  if hasFlexGrow styles then
    let frame := set_layoutGrow 1 frame in
    if isAutoLayout parent then
      let parentHasExplicitAlign := hasExplicitAlign parent w in
      match layoutMode parent with
      | VERTICAL =>
          let frame := safeSetLayoutSizingVertical parent frame FILL in
          if negb (defined (s_width styles)) && negb parentHasExplicitAlign
          then
            let w :=
              if bool_decide (layoutMode frame = HORIZONTAL)
                 && Qgtb (width frame) 100
              then set_intendedFixedWidth
                     (<[nid frame := width frame]> (intendedFixedWidth w)) w
              else w in
            (safeSetLayoutSizingHorizontal parent frame FILL, w)
          else (frame, w)
      | HORIZONTAL =>
          let frame := safeSetLayoutSizingHorizontal parent frame FILL in
          if negb (defined (s_height styles))
             && negb (defined (s_heightPercent styles))
             && negb parentHasExplicitAlign
          then (safeSetLayoutSizingVertical parent frame FILL, w)
          else (frame, w)
      | NONE => (frame, w)
      end
    else (frame, w)
  else (frame, w).

(** "Apply align-self: overrides parent's align-items for this element". *)
Definition applyAlignSelf (parent : SceneNode) (styles : ParsedStyle)
    (frame : SceneNode) : SceneNode :=
  match s_alignSelf styles with
  | Some AS_flex_start | Some AS_flex_end | Some AS_center =>
      if isAutoLayout parent then
        match layoutMode parent with
        | HORIZONTAL => safeSetLayoutSizingVertical parent frame HUG
        | VERTICAL => safeSetLayoutSizingHorizontal parent frame HUG
        | NONE => frame
        end
      else frame
  | _ => frame
  end.

(** [parent.appendChild(frame)] and the statements after it that settle
    the sizing of the frame under its parent. *)
Definition attachFrame (parent : SceneNode) (tagName : string)
    (styles : ParsedStyle) (frame : SceneNode) : M SceneNode :=
  w ← get;
  let frame := applyPendingSizing parent frame w in
  let frame := applyDefaultStretch parent tagName styles frame w in
  let '(frame, w) := applyFlexGrow parent styles (frame, w) in
  modify (fun _ => w) ≫= λ _,
  mret (applyAlignSelf parent styles frame).

(** "Calculate effective width for children" and "effective height for
    children". *)
Definition ourPaddingOf (styles : ParsedStyle) : Q :=
  match s_padding styles with
  | Some padding => padding * 2
  | None => orElse (s_paddingLeft styles) 0 + orElse (s_paddingRight styles) 0
  end.

Definition childParentWidthOf (styles : ParsedStyle) (parentWidth : option Q)
    (frame : SceneNode) (w : World) : option Q :=
  let ourPadding := ourPaddingOf styles in
  let frameIsHugging := bool_decide (layoutSizingHorizontal frame = HUG) in
  let childParentWidth :=
    match s_width styles with
    | Some (Px width0) => Some width0
    | _ =>
        match s_maxWidth styles with
        | Some maxWidth => Some (maxWidth - ourPadding)
        | None =>
            if truthy parentWidth && negb frameIsHugging
            then Some (orElse parentWidth 0 - ourPadding)
            else None
        end
    end in
  if bool_decide (layoutMode frame = HORIZONTAL) && negb frameIsHugging then
    let storedWidth := intendedFixedWidth w !! nid frame in
    if truthy storedWidth then Some (orElse storedWidth 0 - ourPadding)
    else if Qgtb (width frame) 100 then Some (width frame - ourPadding)
    else childParentWidth
  else childParentWidth.

Definition childParentHeightOf (styles : ParsedStyle)
    (parentHeight : option Q) : option Q :=
  match s_height styles with
  | Some (Px height0) => Some height0
  | _ => if truthy parentHeight then parentHeight else None
  end.

(** "Add text content if present (for frames with text like buttons)":
    the frame with its text node appended. *)
Definition addOwnText (tagName : string) (styles : ParsedStyle)
    (textContent : option string) (frame : SceneNode) : M SceneNode :=
  if nonEmpty textContent then
    textNode ← createText;
    let fontFamily := requestedFamily styles in
    let fontStyle := fontStyleOf styles false in
    textNode ← setFontWithFallback textNode fontFamily fontStyle;
    let frameIsInlineTag := includes inlineTags tagName in
    let frameHasFixedWidth :=
      match s_width styles with Some (Px _) => true | _ => false end in
    let frameNoWrap := isNoWrap styles in
    let frameHasEllipsis := hasEllipsis styles in
    let paddingLeft :=
      orElse (s_paddingLeft styles) (orElse (s_padding styles) 0) in
    let paddingRight :=
      orElse (s_paddingRight styles) (orElse (s_padding styles) 0) in
    let availableWidth := width frame - paddingLeft - paddingRight in
    let textNode :=
      if frameHasEllipsis && frameHasFixedWidth && Qgtb availableWidth 0 then
        resize availableWidth (height textNode)
          (set_textAutoResize RESIZE_NONE textNode)
      else if frameHasFixedWidth && negb frameIsInlineTag && negb frameNoWrap
      then
        let textNode := set_textAutoResize RESIZE_HEIGHT textNode in
        if Qgtb availableWidth 0
        then resize availableWidth (height textNode) textNode
        else textNode
      else set_textAutoResize RESIZE_WIDTH_AND_HEIGHT textNode in
    let frame := appendChild (set_name (Name "text") textNode) frame in
    mret
      match s_textAlign styles, layoutMode frame with
      | Some TA_center, VERTICAL => set_counterAxisAlignItems CENTER frame
      | Some TA_center, HORIZONTAL => set_primaryAxisAlignItems CENTER frame
      | _, _ => frame
      end
  else mret frame.

(* --------------------------------------------------------------------- *)
(** *** Stacking order of the children                                    *)
(* --------------------------------------------------------------------- *)

(** A child element with its index in [children]. *)
Definition Entry : Type := ParsedElement * nat.

Definition zIndexOf (entry : Entry) : Q :=
  orElse (s_zIndex (e_styles (fst entry))) 0.

Definition isAbsoluteChild (entry : Entry) : bool :=
  isAbsoluteOrFixed (e_styles (fst entry)).

Definition withIndex (children : list ParsedElement) : list Entry :=
  combine children (seq 0 (length children)).

(** The comparator given to [absoluteChildren.sort]. *)
Definition compareAbsolute (a b : Entry) : Q :=
  let zIndexA := zIndexOf a in
  let zIndexB := zIndexOf b in
  if negb (Qeq_bool zIndexA zIndexB) then zIndexA - zIndexB
  else inject_Z (Z.of_nat (snd a)) - inject_Z (Z.of_nat (snd b)).

(** [Array.prototype.sort] with a comparator: a stable sort, here by
    insertion.  An element goes before the first one it compares
    negative with. *)
Fixpoint insertSorted {A} (cmp : A -> A -> Q) (x : A) (l : list A) : list A :=
  match l with
  | [] => [x]
  | y :: l' =>
      if Qltb (cmp x y) 0 then x :: y :: l' else y :: insertSorted cmp x l'
  end.

Definition sortWith {A} (cmp : A -> A -> Q) (l : list A) : list A :=
  fold_left (fun acc x => insertSorted cmp x acc) l [].

Definition regularChildren (children : list ParsedElement) : list Entry :=
  filter (fun e => negb (isAbsoluteChild e)) (withIndex children).

Definition absoluteChildren (children : list ParsedElement) : list Entry :=
  sortWith compareAbsolute (filter isAbsoluteChild (withIndex children)).

(** "Absolute children with z-index < 1 should appear BEFORE regular
    content", the others after it. *)
Definition absoluteBeforeContent (children : list ParsedElement)
  : list Entry :=
  filter (fun e => Qltb (zIndexOf e) 1) (absoluteChildren children).

Definition absoluteAfterContent (children : list ParsedElement)
  : list Entry :=
  filter (fun e => negb (Qltb (zIndexOf e) 1)) (absoluteChildren children).

(** What [createAbsoluteChild] does to the node of the child once
    [createFigmaNode] has returned it (coordinates and constraints
    apart). *)
Definition positionAbsolute (frame : SceneNode) (childStyles : ParsedStyle)
    (childNode : SceneNode) : SceneNode :=
  let childNode := set_layoutPositioning ABSOLUTE childNode in
  let parentW := width frame in
  let parentH := height frame in
  let hasLeftAndRight :=
    defined (s_left childStyles) && defined (s_right childStyles) in
  let childNode :=
    if hasLeftAndRight then
      let calculatedWidth :=
        parentW - orElse (s_left childStyles) 0
        - orElse (s_right childStyles) 0 in
      if Qgtb calculatedWidth 0 then
        safeSetLayoutSizingHorizontal frame
          (resize calculatedWidth (height childNode) childNode) FIXED
      else childNode
    else childNode in
  let hasTopAndBottom :=
    defined (s_top childStyles) && defined (s_bottom childStyles) in
  if hasTopAndBottom then
    let calculatedHeight :=
      parentH - orElse (s_top childStyles) 0
      - orElse (s_bottom childStyles) 0 in
    if Qgtb calculatedHeight 0 then
      safeSetLayoutSizingVertical frame
        (resize (width childNode) calculatedHeight childNode) FIXED
    else childNode
  else childNode.

(* --------------------------------------------------------------------- *)
(** *** Margins of the regular children                                   *)
(* --------------------------------------------------------------------- *)

(** "Expand margin shorthand into individual margin properties if not
    already set"; the source writes them into the styles of the child. *)
Definition expandMargin (styles : ParsedStyle) : ParsedStyle :=
  match s_margin styles with
  | None => styles
  | Some margin =>
      let fill (get : ParsedStyle -> option MarginValue)
               (put : option MarginValue -> ParsedStyle -> ParsedStyle)
               (s : ParsedStyle) : ParsedStyle :=
        match get s with
        | None => put (Some (MarginPx margin)) s
        | Some _ => s
        end in
      fill s_marginLeft with_marginLeft
        (fill s_marginBottom with_marginBottom
           (fill s_marginRight with_marginRight
              (fill s_marginTop with_marginTop styles)))
  end.

(** [delete styles.marginLeft; delete styles.marginRight] on a copy. *)
Definition withoutHMargins (styles : ParsedStyle) : ParsedStyle :=
  with_marginRight None (with_marginLeft None styles).

(** A synthetic spacer: a new frame with a role name and a size. *)
Definition createSpacer (role : string) (w h : Q) : M SceneNode :=
  spacer ← createFrame;
  mret (resize w h (set_name (Name role) spacer)).

Definition marginPositive (m : option MarginValue) : option Q :=
  match m with
  | Some (MarginPx q) => if Qgtb q 0 then Some q else None
  | _ => None
  end.

Definition isRelativeOffset (styles : ParsedStyle) : bool :=
  match s_position styles with
  | Some P_relative =>
      defined (s_top styles) || defined (s_left styles)
      || defined (s_bottom styles) || defined (s_right styles)
  | _ => false
  end.

(** The state of the loop over the regular children: the frame with the
    children appended so far, [flexGrowMap] in insertion order, and
    [relativePositionedNodes]. *)
Record Loop : Type := mkLoop {
  l_frame : SceneNode;
  l_flexGrowMap : list (nat * Q);
  l_relative : list nat
}.

(** [createFigmaNode] for one child, as the loop calls it: with an
    adjustment of the styles of the child, the parent, and the width and
    height for the child. *)
Definition ChildCall : Type :=
  (ParsedStyle -> ParsedStyle) -> SceneNode -> option Q -> option Q
  -> M SceneNode.

(** [flexGrowMap.set(node, flexGrow)] on a [Map], which keeps the order of
    first insertion. *)
Fixpoint ledgerSet (id : nat) (flexGrow : Q) (flexGrowMap : list (nat * Q))
  : list (nat * Q) :=
  match flexGrowMap with
  | [] => [(id, flexGrow)]
  | (id', g) :: rest =>
      if (id' =? id)%nat then (id', flexGrow) :: rest
      else (id', g) :: ledgerSet id flexGrow rest
  end.

Definition registerFlexGrow (styles : ParsedStyle) (childNode : SceneNode)
    (st : Loop) : M Loop :=
  match s_flexGrow styles with
  | Some flexGrow =>
      if Qgtb flexGrow 0 then
        modify (fun w =>
          set_nestedFlexGrowMap
            (<[nid childNode := flexGrow]> (nestedFlexGrowMap w)) w) ≫= λ _,
        mret (mkLoop (l_frame st)
                (ledgerSet (nid childNode) flexGrow (l_flexGrowMap st))
                (l_relative st))
      else mret st
  | None => mret st
  end.

Definition appendToLoop (child : SceneNode) (st : Loop) : Loop :=
  mkLoop (appendChild child (l_frame st)) (l_flexGrowMap st) (l_relative st).

(** The body of "Create regular child nodes" for one child. *)
Definition createRegularChild (childParentWidth childParentHeight : option Q)
    (st : Loop) (child : ParsedElement) (call : ChildCall) : M Loop :=
  let styles := expandMargin (e_styles child) in
  let mode := layoutMode (l_frame st) in
  (* margin-top: auto *)
  st ← (match s_marginTop styles, mode with
        | Some MarginAuto, VERTICAL =>
            spacer ← createSpacer "spacer" 1 1;
            let spacer := set_layoutMode NONE spacer in
            let spacer := set_layoutGrow 1 spacer in
            mret (appendToLoop
                    (safeSetLayoutSizingHorizontal (l_frame st) spacer FILL)
                    st)
        | _, _ => mret st
        end);
  (* numeric margin-top *)
  st ← (match marginPositive (s_marginTop styles), mode with
        | Some marginTop, VERTICAL =>
            spacer ← createSpacer "margin-spacer" 1 marginTop;
            mret (appendToLoop
                    (safeSetLayoutSizingHorizontal (l_frame st) spacer FILL)
                    st)
        | _, _ => mret st
        end);
  let marginLeft := marginPx (s_marginLeft styles) in
  let marginRight := marginPx (s_marginRight styles) in
  let hasHorizontalMargin := Qgtb marginLeft 0 || Qgtb marginRight 0 in
  (* margin-left in a HORIZONTAL layout *)
  st ← (if bool_decide (mode = HORIZONTAL) && Qgtb marginLeft 0 then
          spacer ← createSpacer "margin-left" marginLeft 1;
          mret (appendToLoop
                  (safeSetLayoutSizingVertical (l_frame st) spacer FILL) st)
        else mret st);
  st ← (if bool_decide (mode = VERTICAL) && hasHorizontalMargin then
          (* a horizontal wrapper holds the margin spacers and the child *)
          wrapper ← createFrame;
          let wrapper :=
            set_itemSpacing 0
              (set_counterAxisSizingMode AXIS_AUTO
                 (set_primaryAxisSizingMode AXIS_FIXED
                    (set_layoutMode HORIZONTAL
                       (set_name (Name "margin-wrapper") wrapper)))) in
          let wrapper :=
            safeSetLayoutSizingHorizontal (l_frame st) wrapper FILL in
          wrapper ← (if Qgtb marginLeft 0 then
                       leftSpacer ← createSpacer "margin-left" marginLeft 1;
                       mret (appendChild
                               (safeSetLayoutSizingVertical wrapper
                                  leftSpacer FILL) wrapper)
                     else mret wrapper);
          childNode ← call (fun s => withoutHMargins (expandMargin s)) wrapper
                        (if truthy childParentWidth
                         then Some (orElse childParentWidth 0
                                    - marginLeft - marginRight)
                         else None)
                        childParentHeight;
          let wrapper :=
            appendChild (safeSetLayoutSizingHorizontal wrapper childNode FILL)
              wrapper in
          wrapper ← (if Qgtb marginRight 0 then
                       rightSpacer ← createSpacer "margin-right" marginRight 1;
                       mret (appendChild
                               (safeSetLayoutSizingVertical wrapper
                                  rightSpacer FILL) wrapper)
                     else mret wrapper);
          mret (appendToLoop wrapper st)
        else if bool_decide (mode = NONE) && hasHorizontalMargin then
          childNode ← call expandMargin (l_frame st)
                        childParentWidth childParentHeight;
          registerFlexGrow styles childNode (appendToLoop childNode st)
        else
          childNode ← call expandMargin (l_frame st)
                        childParentWidth childParentHeight;
          st ← registerFlexGrow styles childNode (appendToLoop childNode st);
          mret (if isRelativeOffset styles
                then mkLoop (l_frame st) (l_flexGrowMap st)
                       (l_relative st ++ [nid childNode])
                else st));
  (* margin-right in a HORIZONTAL layout *)
  st ← (if bool_decide (mode = HORIZONTAL) && Qgtb marginRight 0 then
          spacer ← createSpacer "margin-right" marginRight 1;
          mret (appendToLoop
                  (safeSetLayoutSizingVertical (l_frame st) spacer FILL) st)
        else mret st);
  (* numeric margin-bottom *)
  match marginPositive (s_marginBottom styles), mode with
  | Some marginBottom, VERTICAL =>
      spacer ← createSpacer "margin-spacer" 1 marginBottom;
      mret (appendToLoop
              (safeSetLayoutSizingHorizontal (l_frame st) spacer FILL) st)
  | _, _ => mret st
  end.

(* --------------------------------------------------------------------- *)
(** *** Relative offsets                                                  *)
(* --------------------------------------------------------------------- *)

Fixpoint indexOfNode (id : nat) (nodes : list SceneNode) : option nat :=
  match nodes with
  | [] => None
  | n :: nodes' =>
      if (nid n =? id)%nat then Some 0%nat
      else S <$> indexOfNode id nodes'
  end.

(** "Apply position: relative offsets", for one tracked node: a
    placeholder of the same size takes the place of the node, and the node
    becomes absolute and moves to the end of the children. *)
Definition applyRelativeOffset (frame : SceneNode) (id : nat)
  : M SceneNode :=
  match indexOfNode id (children frame) with
  | None => mret frame
  | Some nodeIndex =>
      match children frame !! nodeIndex with
      | None => mret frame
      | Some node =>
          placeholder ← createSpacer "relative-placeholder"
                          (width node) (height node);
          (* Copy layout sizing from original node: plain assignments *)
          placeholder ←
            (if sizingAccepted frame
             then mret (set_layoutSizingVertical (layoutSizingVertical node)
                          (set_layoutSizingHorizontal
                             (layoutSizingHorizontal node) placeholder))
             else throw "layoutSizing can only be set in auto layout");
          let node := set_layoutPositioning ABSOLUTE node in
          let others :=
            filter (fun n => negb (nid n =? id)%nat)
              (take nodeIndex (children frame) ++ [placeholder]
               ++ drop nodeIndex (children frame)) in
          mret (set_children (others ++ [node]) frame)
      end
  end.

(* --------------------------------------------------------------------- *)
(** *** Flexible growth                                                   *)
(* --------------------------------------------------------------------- *)

(** [map.get(child)] restricted to positive weights: the test
    [flexGrow !== undefined && flexGrow > 0]. *)
Definition positiveWeight (o : option Q) : option Q :=
  match o with
  | Some flexGrow => if Qgtb flexGrow 0 then Some flexGrow else None
  | None => None
  end.

Definition sumQ (l : list Q) : Q := fold_left Qplus l 0.

Definition natQ (n : nat) : Q := inject_Z (Z.of_nat n).

(** [recalculateNestedFlex(frame, newWidth)]: the frame with its children
    recalculated.

    The source works in three loops over [frame.children]: the flexible
    children of a HORIZONTAL frame are resized and recursed into; the
    space-between rows of a VERTICAL frame are resized; then every other
    child frame is recursed into with its current width.  No loop reads
    what an earlier loop wrote to another child, and a recursive call
    reads of its frame only the layout mode, the paddings, the item
    spacing and the children, none of which the loops assign.  So the
    three loops are composed here per child, and a recursive call is made
    on the child as it was, its result providing the new children. *)
Fixpoint recalculateNestedFlex (nested : gmap nat Q) (frame : SceneNode)
    (newWidth : Q) {struct frame} : SceneNode :=
  if (length (children frame) =? 0)%nat then frame else
  let weight (child : SceneNode) : option Q :=
    positiveWeight (nested !! nid child) in
  let counted (child : SceneNode) : bool :=
    negb (isSpacerRole child) && negb (isMarginSideRole child) in
  let isHorizontal := bool_decide (layoutMode frame = HORIZONTAL) in
  let isVertical := bool_decide (layoutMode frame = VERTICAL) in
  (* totals of the first loop *)
  let countedChildren := filter counted (children frame) in
  let totalFlexGrow :=
    sumQ (map (fun c => default 0 (weight c)) countedChildren) in
  let fixedSize :=
    sumQ (map (fun c => match weight c with
                        | Some _ => 0
                        | None => width c
                        end) countedChildren) in
  let gapCount := length countedChildren in
  let totalGaps :=
    if (1 <? gapCount)%nat then (natQ gapCount - 1) * itemSpacing frame
    else 0 in
  let availableSpace :=
    newWidth - paddingLeft frame - paddingRight frame - fixedSize
    - totalGaps in
  let contentWidth := newWidth - paddingLeft frame - paddingRight frame in
  let distributes :=
    isHorizontal && Qgtb totalFlexGrow 0 && Qgtb availableSpace 0 in
  let perChild (child : SceneNode) (recurse : Q -> SceneNode) : SceneNode :=
    match (if distributes && counted child then weight child else None) with
    | Some flexGrow =>
        let proportion := flexGrow / totalFlexGrow in
        let calculatedSize := availableSpace * proportion in
        let child' :=
          safeSetLayoutSizingHorizontal frame
            (resize calculatedSize (height child) child) FIXED in
        if hasLayoutMode child
        then set_children (children (recurse calculatedSize)) child'
        else child'
    | None =>
        let isFrame := hasLayoutMode child && negb (isSpacerRole child) in
        let child' :=
          if isVertical && isFrame
             && bool_decide (layoutMode child = HORIZONTAL)
             && bool_decide (primaryAxisAlignItems child = SPACE_BETWEEN)
          then set_primaryAxisSizingMode AXIS_FIXED
                 (safeSetLayoutSizingHorizontal frame
                    (resize contentWidth (height child) child) FIXED)
          else child in
        if isFrame && negb (defined (weight child) && isHorizontal)
        then set_children (children (recurse (width child'))) child'
        else child'
    end in
  set_children
    (map (fun child =>
            perChild child (fun w => recalculateNestedFlex nested child w))
       (children frame))
    frame.

(** [flexGrowMap.get(node)] *)
Fixpoint ledgerGet (id : nat) (flexGrowMap : list (nat * Q)) : option Q :=
  match flexGrowMap with
  | [] => None
  | (id', flexGrow) :: rest =>
      if (id' =? id)%nat then Some flexGrow else ledgerGet id rest
  end.

Definition updateChild (id : nat) (f : SceneNode -> SceneNode)
    (frame : SceneNode) : SceneNode :=
  set_children
    (map (fun c => if (nid c =? id)%nat then f c else c) (children frame))
    frame.

(** The children that the distribution pass counts: not absolutely
    positioned and not a synthetic spacer or wrapper. *)
Definition countedChild (child : SceneNode) : bool :=
  negb (bool_decide (layoutPositioning child = ABSOLUTE))
  && negb (isSpacerRole child) && negb (isMarginSideRole child).

Section Distribution.
Variable flexGrowMap : list (nat * Q).
Variable frame : SceneNode.
Variable w : World.

Definition isHorizontal : bool := bool_decide (layoutMode frame = HORIZONTAL).

Definition ledgerWeight (child : SceneNode) : option Q :=
  positiveWeight (ledgerGet (nid child) flexGrowMap).

Definition totalFlexGrow : Q :=
  sumQ (map (fun c => default 0 (ledgerWeight c))
          (filter countedChild (children frame))).

Definition fixedSize : Q :=
  sumQ (map (fun c => match ledgerWeight c with
                      | Some _ => 0
                      | None => if isHorizontal then width c else height c
                      end)
          (filter countedChild (children frame))).

Definition gapCount : nat := length (filter countedChild (children frame)).

Definition availableSpace : Q :=
  let storedWidth := intendedFixedWidth w !! nid frame in
  let containerSize :=
    if isHorizontal then orElse storedWidth (width frame) else height frame in
  let paddingStart :=
    if isHorizontal then paddingLeft frame else paddingTop frame in
  let paddingEnd :=
    if isHorizontal then paddingRight frame else paddingBottom frame in
  let totalGaps := (natQ gapCount - 1) * itemSpacing frame in
  containerSize - paddingStart - paddingEnd - fixedSize - totalGaps.

(** The size given to a child of weight [flexGrow]. *)
Definition calculatedSize (flexGrow : Q) : Q :=
  let proportion := flexGrow / totalFlexGrow in
  availableSpace * proportion.

(** What the pass does to one child of the ledger. *)
Definition growChild (flexGrow : Q) (childNode : SceneNode) : SceneNode :=
  if isHorizontal then
    recalculateNestedFlex (nestedFlexGrowMap w)
      (safeSetLayoutSizingHorizontal frame
         (resize (calculatedSize flexGrow) (height childNode) childNode)
         FIXED)
      (calculatedSize flexGrow)
  else
    safeSetLayoutSizingVertical frame
      (resize (width childNode) (calculatedSize flexGrow) childNode) FIXED.

(** "Handle flex-grow proportional distribution". *)
Definition distributeFlexGrow : SceneNode :=
  if (0 <? length flexGrowMap)%nat
     && negb (bool_decide (layoutMode frame = NONE)) then
    if Qgtb totalFlexGrow 0 && (1 <? gapCount)%nat then
      if Qgtb availableSpace 0 then
        fold_left
          (fun fr entry => updateChild (fst entry) (growChild (snd entry)) fr)
          flexGrowMap frame
      else frame
    else frame
  else frame.

End Distribution.

(** "Handle space-around: calculate proper itemSpacing and edge
    padding". *)
Definition applySpaceAround (styles : ParsedStyle) (frame : SceneNode)
  : SceneNode :=
  match s_justifyContent styles with
  | Some JC_space_around =>
      if negb (bool_decide (layoutMode frame = NONE)) then
        let horizontal := bool_decide (layoutMode frame = HORIZONTAL) in
        let countedChildren := filter countedChild (children frame) in
        let totalChildrenSize :=
          sumQ (map (fun c => if horizontal then width c else height c)
                  countedChildren) in
        let childCount := length countedChildren in
        if (1 <? childCount)%nat then
          let containerSize :=
            if horizontal then width frame else height frame in
          let existingPaddingStart :=
            if horizontal then paddingLeft frame else paddingTop frame in
          let existingPaddingEnd :=
            if horizontal then paddingRight frame else paddingBottom frame in
          let contentSize :=
            containerSize - existingPaddingStart - existingPaddingEnd in
          let remainingSpace := contentSize - totalChildrenSize in
          if Qgtb remainingSpace 0 then
            let gapSize := remainingSpace / natQ childCount in
            let edgePadding := gapSize / 2 in
            let frame :=
              set_primaryAxisAlignItems MIN (set_itemSpacing gapSize frame) in
            if horizontal then
              set_paddingRight (existingPaddingEnd + edgePadding)
                (set_paddingLeft (existingPaddingStart + edgePadding) frame)
            else
              set_paddingBottom (existingPaddingEnd + edgePadding)
                (set_paddingTop (existingPaddingStart + edgePadding) frame)
          else frame
        else frame
      else frame
  | _ => frame
  end.

(** "Restore intended fixed width for space-between frames". *)
Definition restoreIntendedWidth (fw : SceneNode * World)
  : SceneNode * World :=
  let '(frame, w) := fw in
  match intendedFixedWidth w !! nid frame with
  | Some storedWidth =>
      if negb (Qeq_bool (width frame) storedWidth) then
        let frame :=
          set_primaryAxisSizingMode AXIS_FIXED
            (resize storedWidth (height frame) frame) in
        let frame :=
          if nameStartsWithSB frame then set_name DebugSB frame else frame in
        (frame,
         set_intendedFixedWidth (delete (nid frame) (intendedFixedWidth w)) w)
      else (frame, w)
  | None => (frame, w)
  end.

(* --------------------------------------------------------------------- *)
(** *** [createFigmaNode]                                                 *)
(* --------------------------------------------------------------------- *)

(** [createAbsoluteChild(child)]: the frame with the node of the child
    appended. *)
Definition createAbsoluteChild (childParentWidth childParentHeight : option Q)
    (calls : list ChildCall) (frame : SceneNode) (entry : Entry)
  : M SceneNode :=
  match calls !! snd entry with
  | None => throw "no such child"
  | Some call =>
      childNode ← call (fun s => s) frame childParentWidth childParentHeight;
      mret (appendChild
              (positionAbsolute frame (e_styles (fst entry)) childNode) frame)
  end.

(** Everything after the frame's own text: the children in stacking
    order, the relative offsets, and the passes over the finished list of
    children. *)
Definition createChildren (styles : ParsedStyle)
    (children : list ParsedElement) (calls : list ChildCall)
    (childParentWidth childParentHeight : option Q) (frame : SceneNode)
  : M SceneNode :=
  (* absolute children behind the regular content *)
  frame ← foldM (createAbsoluteChild childParentWidth childParentHeight calls)
            frame (absoluteBeforeContent children);
  (* regular children *)
  st ← foldM
         (fun st entry =>
            match calls !! snd entry with
            | None => throw "no such child"
            | Some call =>
                createRegularChild childParentWidth childParentHeight st
                  (fst entry) call
            end)
         (mkLoop frame [] []) (regularChildren children);
  (* relative offsets *)
  frame ← foldM applyRelativeOffset (l_frame st) (l_relative st);
  (* absolute children on top of the regular content *)
  frame ← foldM (createAbsoluteChild childParentWidth childParentHeight calls)
            frame (absoluteAfterContent children);
  w ← get;
  let frame := distributeFlexGrow (l_flexGrowMap st) frame w in
  let frame := applySpaceAround styles frame in
  let '(frame, w) := restoreIntendedWidth (frame, w) in
  modify (fun _ => w) ≫= λ _,
  mret frame.

(** [createFigmaNode(element, parent, parentWidth, parentHeight)].  The
    first argument after the element adjusts its styles: the loop over the
    regular children rewrites the margins of a child before it creates
    it.  The node returned is the one the source has appended to
    [parent]. *)
Fixpoint createFigmaNode (element : ParsedElement) {struct element}
  : ChildCall :=
  fun adjust parent parentWidth parentHeight =>
    let tagName := e_tagName element in
    let styles := adjust (e_styles element) in
    let textContent := e_textContent element in
    let children := e_children element in
    let calls : list ChildCall :=
      map (fun child => createFigmaNode child) children in
    if isTextLeaf tagName styles textContent children then
      createTextLeaf tagName styles parent parentWidth
    else
      frame ← prepareFrame tagName styles textContent children
                parentWidth parentHeight;
      frame ← attachFrame parent tagName styles frame;
      w ← get;
      let childParentWidth := childParentWidthOf styles parentWidth frame w in
      let childParentHeight := childParentHeightOf styles parentHeight in
      frame ← addOwnText tagName styles textContent frame;
      createChildren styles children calls childParentWidth childParentHeight
        frame.

End WithFonts.
End Create.

(* ===================================================================== *)
(** ** [plugin/code.ts]: [handleCreateComponent]                          *)
(* ===================================================================== *)

Module Code.
Import Figma Types Synth Create.

(** The payload of a [create_component] request.  [None] for [elements]
    is a payload without the field. *)
Record Payload : Type := mkPayload {
  elements : option (list ParsedElement);
  name : option string;
  parentId : option string
}.

(** [ComponentCreationResult] *)
Record ComponentCreationResult : Type := mkResult {
  nodeId : nat;
  resultName : NodeName;
  resultWidth : Q;
  resultHeight : Q
}.

Section WithFonts.
Variable fontAvailable : FontName -> bool.

(** "Create root frame for the component". *)
Definition createRootFrame (name : option string) : M SceneNode :=
  rootFrame ← createFrame;
  mret (set_counterAxisSizingMode AXIS_AUTO
          (set_primaryAxisSizingMode AXIS_AUTO
             (set_layoutMode VERTICAL
                (set_name (Name (orElse name "AI Component")) rootFrame)))).

(** "Create nodes from parsed elements": the loop over the elements. *)
Definition createElements (rootFrame : SceneNode)
    (elements : list ParsedElement) : M SceneNode :=
  foldM (fun rootFrame element =>
           node ← createFigmaNode fontAvailable element (fun s => s)
                    rootFrame None None;
           mret (appendChild node rootFrame))
    rootFrame elements.

(** The root frame of the component with the nodes of all elements in
    it. *)
Definition buildComponent (payload : Payload) : M SceneNode :=
  match elements payload with
  | None | Some [] => throw "No valid HTML elements found"
  | Some elements =>
      rootFrame ← createRootFrame (name payload);
      createElements rootFrame elements
  end.

(** [handleCreateComponent(payload)].  (Adding the root frame to the page
    or to the node named by [parentId], and moving the viewport, follow
    the loop and change no node of the component.) *)
Definition handleCreateComponent (payload : Payload)
  : M ComponentCreationResult :=
  rootFrame ← buildComponent payload;
  mret (mkResult (nid rootFrame) (Figma.name rootFrame) (width rootFrame)
          (height rootFrame)).

End WithFonts.
End Code.

(* ===================================================================== *)
(** ** Orders on the children of an element                               *)
(* ===================================================================== *)

Module Stacking.
Import Figma Types Synth Create.
Local Open Scope Q_scope.

(** [a] is stacked below [b]: a lower z-index, or the same z-index and
    earlier in the document. *)
Definition stacksBelow (a b : Entry) : Prop :=
  zIndexOf a < zIndexOf b
  \/ (zIndexOf a == zIndexOf b /\ (snd a < snd b)%nat).

(** [a] comes before [b] in the document. *)
Definition documentOrder (a b : Entry) : Prop := (snd a < snd b)%nat.

(** The order in which [createFigmaNode] creates the nodes of the
    children. *)
Definition creationOrder (children : list ParsedElement) : list Entry :=
  absoluteBeforeContent children ++ regularChildren children
  ++ absoluteAfterContent children.

(** The same node as far as its place among the children goes: identity,
    type, name and positioning. *)
Definition sameNode (a b : SceneNode) : Prop :=
  nid a = nid b /\ ntype a = ntype b /\ Figma.name a = Figma.name b
  /\ layoutPositioning a = layoutPositioning b.


End Stacking.

(* ===================================================================== *)
(** ** Results of computations                                            *)
(* ===================================================================== *)

Module Hoare.
Import Figma Types Synth Create.

(** Every result that [m] returns satisfies [P]. *)
Definition returns {A} (m : M A) (P : A -> Prop) : Prop :=
  forall w a w', m w = (Ok a, w') -> P a.

(** The loop over the regular children only appends to the frame; and it
    leaves [relativePositionedNodes] alone where [keep] holds. *)
Definition grows (keep : Prop) (st st' : Loop) : Prop :=
  (exists ns, children (l_frame st') = children (l_frame st) ++ ns)
  /\ (keep -> l_relative st' = l_relative st).

(** A node without its children: what appending, inserting and updating
    children leave alone. *)
Definition shell (n : SceneNode) : SceneNode := set_children [] n.


(** A step that creates no node and touches [intendedFixedWidth] at most
    at [id]. *)
Definition ownEntry (id : nat) (w w' : World) : Prop :=
  nextId w' = nextId w
  /\ forall k, k <> id ->
       intendedFixedWidth w' !! k = intendedFixedWidth w !! k.


(** What a run from [w] to [w'] leaves of the world: identities are only
    added, and [intendedFixedWidth] is as it was at the identities that
    existed, [skip] apart. *)
Definition extends (skip : option nat) (w w' : World) : Prop :=
  (nextId w <= nextId w')%nat
  /\ forall k, (k < nextId w)%nat -> skip <> Some k ->
       intendedFixedWidth w' !! k = intendedFixedWidth w !! k.

(** Some iterations of the loop over the regular children, from the
    state [st] in the world [w]: new nodes are appended to the frame, and
    the nodes tracked for a relative offset are new. *)
Definition advances (st : Loop) (w : World) (st' : Loop) (w' : World)
  : Prop :=
  shell (l_frame st') = shell (l_frame st)
  /\ (exists ns, children (l_frame st') = children (l_frame st) ++ ns
                 /\ Forall (fun n => (nextId w <= nid n < nextId w')%nat) ns)
  /\ (exists rs, l_relative st' = l_relative st ++ rs
                 /\ Forall (fun id => (nextId w <= id < nextId w')%nat) rs)
  /\ extends None w w'.

(** Every run of [m] that returns advances the loop from [st]. *)
Definition transition (m : M Loop) (st : Loop) : Prop :=
  forall w st' w', m w = (Ok st', w') -> advances st w st' w'.

End Hoare.

(* ===================================================================== *)
(** ** Elements whose fonts cannot be loaded                              *)
(* ===================================================================== *)

Module FontSpec.
Import Figma Types Synth Create.

(** Every run of [m] throws. *)
Definition alwaysThrows {A} (m : M A) : Prop :=
  forall w, exists message w', m w = (Throw message, w').

(** An adjustment of the styles of a child that leaves alone what decides
    between a text leaf and a frame, and the font. *)
Definition keepsFonts (adjust : ParsedStyle -> ParsedStyle) : Prop :=
  forall tagName styles textContent children light,
    isTextLeaf tagName (adjust styles) textContent children
    = isTextLeaf tagName styles textContent children
    /\ requestedFamily (adjust styles) = requestedFamily styles
    /\ leafFontStyle tagName (adjust styles) = leafFontStyle tagName styles
    /\ fontStyleOf (adjust styles) light = fontStyleOf styles light.

Section Fonts.
Variable fontAvailable : FontName -> bool.

(** None of the three tiers for a family and a style can be loaded. *)
Definition exhausted (fontFamily fontStyle : string) : Prop :=
  Forall (fun font => fontAvailable font = false)
    (fontTiers fontFamily fontStyle).

(** The element holds a text whose fonts cannot be loaded: it is a text
    leaf with such a text, or a frame with such a text of its own, or a
    frame with such an element among its children. *)
Inductive needsLostFont : ParsedElement -> Prop :=
| lost_leaf (tagName : string) (styles : ParsedStyle)
    (textContent : option string) (children : list ParsedElement) :
    isTextLeaf tagName styles textContent children = true ->
    exhausted (requestedFamily styles) (leafFontStyle tagName styles) ->
    needsLostFont (mkParsedElement tagName styles textContent children)
| lost_own_text (tagName : string) (styles : ParsedStyle)
    (textContent : option string) (children : list ParsedElement) :
    isTextLeaf tagName styles textContent children = false ->
    nonEmpty textContent = true ->
    exhausted (requestedFamily styles) (fontStyleOf styles false) ->
    needsLostFont (mkParsedElement tagName styles textContent children)
| lost_child (tagName : string) (styles : ParsedStyle)
    (textContent : option string) (children : list ParsedElement)
    (child : ParsedElement) :
    isTextLeaf tagName styles textContent children = false ->
    In child children -> needsLostFont child ->
    needsLostFont (mkParsedElement tagName styles textContent children).

End Fonts.

End FontSpec.

(* ===================================================================== *)
(** ** More copies of a style with one field replaced                     *)
(* ===================================================================== *)

Module Styles.
Import Figma Types.

Definition with_justifyContent (v : option JustifyContent) (s : ParsedStyle) : ParsedStyle :=
  mkParsedStyle (s_display s) (s_flexDirection s) v (s_alignItems s) (s_gap
    s) (s_flexGrow s) (s_alignSelf s) (s_position s) (s_top s) (s_right s)
    (s_bottom s) (s_left s) (s_zIndex s) (s_width s) (s_height s)
    (s_heightPercent s) (s_aspectRatio s) (s_maxWidth s) (s_padding s)
    (s_paddingTop s) (s_paddingRight s) (s_paddingBottom s) (s_paddingLeft s)
    (s_margin s) (s_marginTop s) (s_marginRight s) (s_marginBottom s)
    (s_marginLeft s) (s_backgroundColor s) (s_backgroundGradient s)
    (s_borderRadius s) (s_borderWidth s) (s_boxShadow s) (s_fontWeight s)
    (s_fontStyle s) (s_fontFamily s) (s_textAlign s) (s_whiteSpace s)
    (s_textOverflow s) (s_scaleX s) (s_scaleY s) (s_flexWrap s).

Definition with_aspectRatio (v : option Q) (s : ParsedStyle) : ParsedStyle :=
  mkParsedStyle (s_display s) (s_flexDirection s) (s_justifyContent s)
    (s_alignItems s) (s_gap s) (s_flexGrow s) (s_alignSelf s) (s_position s)
    (s_top s) (s_right s) (s_bottom s) (s_left s) (s_zIndex s) (s_width s)
    (s_height s) (s_heightPercent s) v (s_maxWidth s) (s_padding s)
    (s_paddingTop s) (s_paddingRight s) (s_paddingBottom s) (s_paddingLeft s)
    (s_margin s) (s_marginTop s) (s_marginRight s) (s_marginBottom s)
    (s_marginLeft s) (s_backgroundColor s) (s_backgroundGradient s)
    (s_borderRadius s) (s_borderWidth s) (s_boxShadow s) (s_fontWeight s)
    (s_fontStyle s) (s_fontFamily s) (s_textAlign s) (s_whiteSpace s)
    (s_textOverflow s) (s_scaleX s) (s_scaleY s) (s_flexWrap s).

Definition with_heightPercent (v : option Q) (s : ParsedStyle) : ParsedStyle :=
  mkParsedStyle (s_display s) (s_flexDirection s) (s_justifyContent s)
    (s_alignItems s) (s_gap s) (s_flexGrow s) (s_alignSelf s) (s_position s)
    (s_top s) (s_right s) (s_bottom s) (s_left s) (s_zIndex s) (s_width s)
    (s_height s) v (s_aspectRatio s) (s_maxWidth s) (s_padding s)
    (s_paddingTop s) (s_paddingRight s) (s_paddingBottom s) (s_paddingLeft s)
    (s_margin s) (s_marginTop s) (s_marginRight s) (s_marginBottom s)
    (s_marginLeft s) (s_backgroundColor s) (s_backgroundGradient s)
    (s_borderRadius s) (s_borderWidth s) (s_boxShadow s) (s_fontWeight s)
    (s_fontStyle s) (s_fontFamily s) (s_textAlign s) (s_whiteSpace s)
    (s_textOverflow s) (s_scaleX s) (s_scaleY s) (s_flexWrap s).

End Styles.

(* ===================================================================== *)
(** ** Well-formed lengths, to state what the value parsers do with them  *)
(* ===================================================================== *)

Module ParserSpec.
Import JsNum JsString JsParse Regex ValueParsers.

(** A numeral of the shape [-?[\d.]+]. *)
Definition isNumeral (n : string) : bool :=
  match n with
  | String "-"%char r =>
      negb (String.eqb r EmptyString) && allChars isDigitOrDot r
  | _ => negb (String.eqb n EmptyString) && allChars isDigitOrDot n
  end.

(** The text of an optional unit. *)
Definition unitText (u : option string) : string :=
  match u with
  | Some t => t
  | None => EmptyString
  end.

(** The units of [parseLength], and those of an operand of [calc()]. *)
Definition lengthUnits : list (option string) :=
  [None; Some "px"; Some "em"; Some "rem"; Some "%"].

Definition calcUnits : list (option string) :=
  [None; Some "px"; Some "em"; Some "rem"].

(** [calc(a op b)] with one space on each side of the operator. *)
Definition calcText (a : string) (ua : option string) (op : ascii)
    (b : string) (ub : option string) : string :=
  "calc(" +:+ a +:+ unitText ua +:+ " " +:+ String op " " +:+ b
  +:+ unitText ub +:+ ")".

End ParserSpec.

(* ===================================================================== *)
(** ** [mcp-server/html-parser.ts]: the loops over the characters of a
       value                                                              *)
(* ===================================================================== *)

Module Splitters.
Import JsNum JsString.

(** [for (const char of value) { ... }] on a state. *)
Fixpoint forEachChar {S : Type} (body : S -> ascii -> S) (st : S)
    (value : string) : S :=
  match value with
  | EmptyString => st
  | String char rest => forEachChar body (body st char) rest
  end.

(** The variables of the loops that split a value at its commas. *)
Record SplitState : Type := mkSplit {
  parts : list string;
  current : string;
  parenDepth : Z
}.

Definition splitStart : SplitState := mkSplit [] EmptyString 0.

(** [current += char] *)
Definition addChar (current : string) (char : ascii) : string :=
  current +:+ String char EmptyString.

(** The body of the loop of [parseBoxShadow]: "Split by comma, but not
    commas inside parentheses". *)
Definition shadowSplitBody (st : SplitState) (char : ascii) : SplitState :=
  if Ascii.eqb char "("
  then mkSplit (parts st) (addChar (current st) char) (parenDepth st + 1)
  else if Ascii.eqb char ")"
  then mkSplit (parts st) (addChar (current st) char) (parenDepth st - 1)
  else if Ascii.eqb char "," && (parenDepth st =? 0)%Z
  then mkSplit (parts st ++ [trim (current st)]) EmptyString (parenDepth st)
  else mkSplit (parts st) (addChar (current st) char) (parenDepth st).

(** The body of the loop of [parseLinearGradient] and
    [parseRadialGradient]: "Split by commas, but handle rgba() which
    contains commas". *)
Definition stopSplitBody (st : SplitState) (char : ascii) : SplitState :=
  let parenDepth :=
    if Ascii.eqb char "(" then (parenDepth st + 1)%Z
    else if Ascii.eqb char ")" then (parenDepth st - 1)%Z
    else parenDepth st in
  if Ascii.eqb char "," && (parenDepth =? 0)%Z
  then mkSplit (parts st ++ [trim (current st)]) EmptyString parenDepth
  else mkSplit (parts st) (addChar (current st) char) parenDepth.

(** [if (current.trim()) parts.push(current.trim())] *)
Definition pushRest (st : SplitState) : list string :=
  if String.eqb (trim (current st)) EmptyString then parts st
  else parts st ++ [trim (current st)].

(** [parts] of [parseBoxShadow] and [stopParts] of the gradient
    parsers. *)
Definition shadowParts (value : string) : list string :=
  pushRest (forEachChar shadowSplitBody splitStart value).

Definition stopParts (stopsStr : string) : list string :=
  pushRest (forEachChar stopSplitBody splitStart stopsStr).

(** "Find the matching closing parenthesis": the loop from index [i] over
    the characters [rest] of the value from there on; it returns [depth]
    and [end]. *)
Fixpoint closingLoop (depth : Z) (i end_ : nat) (rest : string) : Z * nat :=
  match rest with
  | EmptyString => (depth, end_)
  | String c rest' =>
      if Ascii.eqb c "(" then closingLoop (depth + 1) (S i) end_ rest'
      else if Ascii.eqb c ")" then
        let depth := (depth - 1)%Z in
        if (depth =? 0)%Z then (depth, i)
        else closingLoop depth (S i) end_ rest'
      else closingLoop depth (S i) end_ rest'
  end.

(** The characters of a string from an index on. *)
Fixpoint skip (n : nat) (s : string) : string :=
  match n, s with
  | O, _ => s
  | S n', String _ r => skip n' r
  | S _, EmptyString => EmptyString
  end.

(** [content] of the gradient parsers, for the index [start] after the
    opening parenthesis; [None] is the return of null for "Unmatched
    parentheses". *)
Definition enclosedContent (value : string) (start : nat) : option string :=
  let '(depth, end_) := closingLoop 1 start start (skip start value) in
  if negb (depth =? 0)%Z then None
  else Some (slice start end_ value).

End Splitters.

(* ===================================================================== *)
(** ** Notions used to state the properties of these loops                *)
(* ===================================================================== *)

Module SplitSpec.
Import JsString.

(** [parts.join(sep)] *)
Fixpoint joinWith (sep : string) (parts : list string) : string :=
  match parts with
  | [] => EmptyString
  | [p] => p
  | p :: rest => p +:+ sep +:+ joinWith sep rest
  end.

(** Well-nested parentheses, with [open] of them not closed yet. *)
Fixpoint wellNested (open : nat) (s : string) : bool :=
  match s with
  | EmptyString => (open =? 0)%nat
  | String c r =>
      if Ascii.eqb c "(" then wellNested (S open) r
      else if Ascii.eqb c ")" then
        match open with
        | O => false
        | S open' => wellNested open' r
        end
      else wellNested open r
  end.

(** Well-nested parentheses and no comma outside of them. *)
Fixpoint commaFree (open : nat) (s : string) : bool :=
  match s with
  | EmptyString => (open =? 0)%nat
  | String c r =>
      if Ascii.eqb c "(" then commaFree (S open) r
      else if Ascii.eqb c ")" then
        match open with
        | O => false
        | S open' => commaFree open' r
        end
      else if Ascii.eqb c "," then negb (open =? 0)%nat && commaFree open r
      else commaFree open r
  end.

(** One item of a comma-separated list: not empty, trimmed, well nested
    and without a comma outside parentheses. *)
Definition isListItem (p : string) : bool :=
  negb (String.eqb p EmptyString) && String.eqb (trim p) p && commaFree 0 p.

End SplitSpec.

(* ===================================================================== *)
(** ** [mcp-server/html-parser.ts]: the color stops of a gradient         *)
(* ===================================================================== *)

Module Gradients.
Import JsNum JsString JsParse Regex ValueParsers Splitters.

(** An expression with, next to what it captures, the text it matched
    ([match[0]]). *)
Definition matched {A} (m : matcher A) : matcher (A * string) :=
  fun s =>
    map (fun r =>
           ((fst r, substring 0 (String.length s - String.length (snd r)) s),
            snd r))
      (m s).

(** [\d+(?:\.\d+)?] *)
Definition decimalRe : matcher string :=
  ip ← plus isDigit;
  fp ← opt (lit false "." ≫= λ _, plus isDigit);
  mret (match fp with
        | Some f => ip +:+ "." +:+ f
        | None => ip
        end).

(** [/\s+(\d+(?:\.\d+)?)\s*%\s*$/] *)
Definition positionRe : matcher string :=
  plus isSpace ≫= λ _,
  g1 ← decimalRe;
  ws ≫= λ _, lit false "%" ≫= λ _, ws ≫= λ _, eos ≫= λ _,
  mret g1.

(** [interface GradientStop]; [color] is what [parseColor] returned. *)
Record GradientStop : Type := mkStop {
  position : number;
  color : color_result
}.

Definition ofNat (n : nat) : number := Num (inject_Z (Z.of_nat n)).

(** The body of the loop over [stopParts], at index [i]: the stop that is
    pushed, if one is. *)
Definition stopOf (stopPartsLength i : nat) (stopPart : string)
  : option GradientStop :=
  let part := trim stopPart in
  if String.eqb part EmptyString then None else
  let '(position, colorStr) :=
    match search (matched positionRe) part with
    | Some (g1, posMatch0) =>
        (Some (ndiv (parseFloat g1) (Num 100)),
         trim (slice 0 (String.length part - String.length posMatch0) part))
    | None => (None, part)
    end in
  match parseColor colorStr with
  | Null => None
  | color =>
      let position :=
        match position with
        | Some p => p
        | None =>
            if (1 <? stopPartsLength)%nat
            then ndiv (ofNat i) (ofNat (stopPartsLength - 1))
            else Num 0
        end in
      Some (mkStop position color)
  end.

(** [for (let i = 0; i < stopParts.length; i++) { ... }], from index [i]
    on. *)
Fixpoint stopsFrom (stopPartsLength i : nat) (rest : list string)
  : list GradientStop :=
  match rest with
  | [] => []
  | stopPart :: rest' =>
      match stopOf stopPartsLength i stopPart with
      | Some stop => stop :: stopsFrom stopPartsLength (S i) rest'
      | None => stopsFrom stopPartsLength (S i) rest'
      end
  end.

(** "Parse color stops", as [parseLinearGradient] and
    [parseRadialGradient] do it for the content of the function and the
    index at which the stops start; [None] is the return of null for fewer
    than two stops. *)
Definition colorStops (content : string) (colorStopsStart : nat)
  : option (list GradientStop) :=
  let stopsStr := trim (skip colorStopsStart content) in
  let stops :=
    stopsFrom (List.length (stopParts stopsStr)) 0 (stopParts stopsStr) in
  if (List.length stops <? 2)%nat then None else Some stops.

End Gradients.

(* ===================================================================== *)
(** ** Notions used to state the properties of the color stops            *)
(* ===================================================================== *)

Module StopSpec.
Import JsNum JsString JsParse ValueParsers SplitSpec Gradients.

(** A percentage of the shape [\d+(\.\d+)?]. *)
Definition isDecimal (d : string) : bool :=
  match span isDigit d with
  | (ip, EmptyString) => negb (String.eqb ip EmptyString)
  | (ip, String "."%char fp) =>
      negb (String.eqb ip EmptyString) && negb (String.eqb fp EmptyString)
      && allChars isDigit fp
  | _ => false
  end.

(** The last character of a string is in a class. *)
Fixpoint lastIs (cls : ascii -> bool) (s : string) : bool :=
  match s with
  | EmptyString => false
  | String c EmptyString => cls c
  | String _ r => lastIs cls r
  end.

(** A color stop as it is written: a color, and a percentage or none. *)
Definition StopText : Type := string * option string.

Definition stopText (stop : StopText) : string :=
  match stop with
  | (colorStr, Some pct) => colorStr +:+ " " +:+ pct +:+ "%"
  | (colorStr, None) => colorStr
  end.

(** The colors and percentages that the property of the stops is about:
    the color is a trimmed item of a comma-separated list that
    [parseColor] accepts; before a percentage it contains no white space,
    and without one it does not end with a percent sign. *)
Definition isStopText (stop : StopText) : bool :=
  let colorStr := fst stop in
  isListItem colorStr
  && match parseColor colorStr with Null => false | _ => true end
  && match snd stop with
     | Some pct =>
         isDecimal pct && allChars (fun c => negb (isSpace c)) colorStr
     | None => negb (lastIs (fun c => Ascii.eqb c "%") colorStr)
     end.

(** The stop expected for a stop text at index [i] of [n]. *)
Definition expectedStop (n i : nat) (stop : StopText) : GradientStop :=
  mkStop
    match snd stop with
    | Some pct => ndiv (parseFloat pct) (Num 100)
    | None => ndiv (ofNat i) (ofNat (n - 1))
    end
    (parseColor (fst stop)).

Fixpoint expectedFrom (n i : nat) (stops : list StopText)
  : list GradientStop :=
  match stops with
  | [] => []
  | stop :: rest => expectedStop n i stop :: expectedFrom n (S i) rest
  end.

End StopSpec.

(* ===================================================================== *)
(** ** Notions used to state that the expressions ignore case             *)
(* ===================================================================== *)

Module CaseSpec.
Import JsString Regex.

(** A matcher ignores case when, on the input in lower case, it finds the
    same matches in the same order, with captures changed by [f] and with
    the rest of the input in lower case. *)
Definition ignoresCase {A} (f : A -> A) (m : matcher A) : Prop :=
  forall s,
    m (toLowerCase s)
    = map (fun r => (f (fst r), toLowerCase (snd r))) (m s).

(** A class of characters that does not tell a character from its lower
    case. *)
Definition caseless {B} (cls : ascii -> B) : Prop :=
  forall c, cls (lowerChar c) = cls c.

(** The characters below 256. *)
Definition allChars256 : list ascii := map ascii_of_nat (seq 0 256).

(** Lower case of the captures of the color expressions. *)
Definition lowerCaptures (g : string * string * string * option string)
  : string * string * string * option string :=
  let '(g1, g2, g3, g4) := g in
  (toLowerCase g1, toLowerCase g2, toLowerCase g3,
   option_map toLowerCase g4).

End CaseSpec.

(* ===================================================================== *)
(** ** [plugin/code.ts]: the components of the page                       *)
(* ===================================================================== *)

Module Document.

(** A node of the document, with what [code.ts] reads of it.  A field
    that the node does not have (['x' in node] is false) is [None]. *)
#[warnings="-register-all"]
Inductive DocNode : Type := mkDocNode {
  d_id : string;
  d_name : string;
  d_type : string;
  d_x : option Q;
  d_y : option Q;
  d_width : option Q;
  d_height : option Q;
  d_children : option (list DocNode)
}.

(** [interface SerializedNode] *)
#[warnings="-register-all"]
Inductive SerializedNode : Type := mkSerializedNode {
  sn_id : string;
  sn_name : string;
  sn_type : string;
  sn_x : option Q;
  sn_y : option Q;
  sn_width : option Q;
  sn_height : option Q;
  sn_children : option (list SerializedNode)
}.

(** [serializeNode(node)] *)
Fixpoint serializeNode (node : DocNode) : SerializedNode :=
  mkSerializedNode (d_id node) (d_name node) (d_type node)
    (d_x node) (d_y node) (d_width node) (d_height node)
    match d_children node with
    | Some children => Some (map serializeNode children)
    | None => None
    end.

(** [node.type === 'COMPONENT' || node.type === 'COMPONENT_SET'] *)
Definition isComponent (node : DocNode) : bool :=
  String.eqb (d_type node) "COMPONENT"
  || String.eqb (d_type node) "COMPONENT_SET".

(** [findComponents(node)], on the array [components] that it pushes
    to. *)
Fixpoint findComponents (node : DocNode) (components : list SerializedNode)
    {struct node} : list SerializedNode :=
  let components :=
    if isComponent node then components ++ [serializeNode node]
    else components in
  match d_children node with
  | Some children =>
      fold_left (fun components child => findComponents child components)
        children components
  | None => components
  end.

(** [handleListComponents()] for the current page. *)
Definition handleListComponents (currentPage : DocNode)
  : list SerializedNode :=
  findComponents currentPage [].

(** [handleGetSelection()] for the selection of the current page. *)
Definition handleGetSelection (selection : list DocNode)
  : list SerializedNode :=
  map serializeNode selection.

End Document.

(* ===================================================================== *)
(** ** Notions used to state the properties of the listing                *)
(* ===================================================================== *)

Module DocumentSpec.
Import Document.

(** The nodes of a subtree in document order: a node, then the subtrees
    of its children from the first to the last. *)
Fixpoint documentOrder (node : DocNode) : list DocNode :=
  node ::
  match d_children node with
  | Some children => flat_map documentOrder children
  | None => []
  end.

(** The same for a serialized node. *)
Fixpoint serializedOrder (node : SerializedNode) : list SerializedNode :=
  node ::
  match sn_children node with
  | Some children => flat_map serializedOrder children
  | None => []
  end.

End DocumentSpec.

(* ===================================================================== *)
(** * Properties of the value parsers                                     *)
(* ===================================================================== *)

(** ** Facts about the matchers *)

Module RegexFacts.
Import JsString Regex.

Lemma append_empty_r (s : string) : String.append s EmptyString = s.
Proof.
  induction s as [| c s IH]; [reflexivity |].
  change (String c (String.append s EmptyString) = String c s). by rewrite IH.
Qed.

Lemma in_bind {A B} (m : matcher A) (k : A -> matcher B) s y :
  In y (bind m k s) <-> exists x, In x (m s) /\ In y (k (fst x) (snd x)).
Proof. unfold bind. apply in_flat_map. Qed.

Lemma in_mbind {A B} (m : matcher A) (k : A -> matcher B) s b rest :
  In (b, rest) ((m ≫= k : matcher B) s) ->
  exists a mid, In (a, mid) (m s) /\ In (b, rest) (k a mid).
Proof.
  intros H. apply in_bind in H as [[a mid] [H1 H2]]. eauto.
Qed.

Lemma in_mret {A} (a b : A) s rest :
  In (b, rest) ((mret a : matcher A) s) -> b = a /\ rest = s.
Proof. intros [H | []]. by inversion H. Qed.

Lemma matchAt_Some {A} (m : matcher A) s a :
  matchAt m s = Some a -> exists rest, In (a, rest) (m s).
Proof.
  unfold matchAt. destruct (m s) as [| [a' rest] tl]; [discriminate |].
  intros [= ->]. exists rest. by left.
Qed.

Lemma search_Some {A} (m : matcher A) s a :
  search m s = Some a -> exists pre suf rest,
    s = String.append pre suf /\ In (a, rest) (m suf).
Proof.
  induction s as [| c s IH]; simpl.
  - destruct (m EmptyString) as [| [a' rest] tl] eqn:E; [discriminate |].
    intros [= ->]. exists EmptyString, EmptyString, rest. rewrite E. split; [done | by left].
  - destruct (m (String c s)) as [| [a' rest] tl] eqn:E.
    + intros H. destruct (IH H) as (pre & suf & rest & -> & Hin).
      exists (String c pre), suf, rest. done.
    + intros [= ->]. exists EmptyString, (String c s), rest. rewrite E.
      split; [done | by left].
Qed.

Lemma bind_head {A B} (m : matcher A) (k : A -> matcher B) s a mid tl :
  m s = (a, mid) :: tl ->
  bind m k s = (k a mid ++ flat_map (fun r => k (fst r) (snd r)) tl)%list.
Proof. unfold bind. by intros ->. Qed.

Lemma matchAt_head {A} (m : matcher A) s a r tl :
  m s = (a, r) :: tl -> matchAt m s = Some a.
Proof. unfold matchAt. by intros ->. Qed.

Lemma in_chr cls s c rest :
  In (c, rest) (chr cls s) -> s = String c rest /\ cls c = true.
Proof.
  destruct s as [| c' r]; simpl; [done |].
  destruct (cls c') eqn:E; simpl; [| done].
  intros [[= -> ->] | []]. done.
Qed.

Lemma in_star cls s m rest :
  In (m, rest) (star cls s) ->
  allChars cls m = true /\ s = String.append m rest.
Proof.
  revert m rest. induction s as [| c s IH]; simpl; intros m rest.
  - intros [[= <- <-] | []]. done.
  - destruct (cls c) eqn:E.
    + rewrite in_app_iff, in_map_iff. intros [[[m' rest'] [[= <- <-] H]] | [[= <- <-] | []]].
      * destruct (IH _ _ H) as [H1 ->]. simpl. by rewrite E, H1.
      * done.
    + intros [[= <- <-] | []]. done.
Qed.

Lemma in_plus cls s m rest :
  In (m, rest) (plus cls s) ->
  m <> EmptyString /\ allChars cls m = true /\ s = String.append m rest.
Proof.
  unfold plus, fmap. intros H.
  apply in_bind in H as [[c mid] [H1 H2]]. simpl in H2.
  apply in_chr in H1 as [-> Hc].
  apply in_bind in H2 as [[m' rest'] [H2 H3]]. simpl in H3.
  destruct H3 as [[= <- <-] | []].
  apply in_star in H2 as [H2 ->]. simpl. by rewrite Hc, H2.
Qed.

Lemma in_rep cls lo hi s m rest :
  In (m, rest) (rep cls lo hi s) ->
  allChars cls m = true /\ (lo <= String.length m <= hi)%nat
  /\ s = String.append m rest.
Proof.
  revert lo s m rest. induction hi as [| hi IH]; intros lo s m rest; simpl.
  - destruct lo; simpl; [| done]. intros [[= <- <-] | []]. simpl. repeat split; lia.
  - assert (Hstop : In (m, rest)
              match lo with O => [(EmptyString, s)] | S _ => [] end ->
            allChars cls m = true /\ (lo <= String.length m <= S hi)%nat
            /\ s = String.append m rest).
    { destruct lo; simpl; [| done]. intros [[= <- <-] | []]. simpl. repeat split; lia. }
    destruct s as [| c s]; [done |].
    destruct (cls c) eqn:E; [| done].
    rewrite in_app_iff, in_map_iff.
    intros [[[m' rest'] [[= <- <-] H]] | H]; [| by apply Hstop].
    destruct (IH _ _ _ _ H) as (H1 & H2 & ->). simpl. rewrite E, H1.
    repeat split; lia.
Qed.

(** A run that fills the whole input is the first match of a bounded
    repetition. *)
Lemma rep_full cls lo hi m :
  allChars cls m = true -> (lo <= String.length m <= hi)%nat ->
  exists tl, rep cls lo hi m = (m, EmptyString) :: tl.
Proof.
  revert lo m. induction hi as [| hi IH]; intros lo m Hall Hlen.
  - destruct m; simpl in *; [| lia]. destruct lo; [| lia]. by eexists.
  - destruct m as [| c m]; simpl in *.
    + destruct lo; [| lia]. by eexists.
    + apply andb_true_iff in Hall as [Hc Hall]. rewrite Hc.
      destruct (IH (Nat.pred lo) m Hall ltac:(lia)) as [tl ->]. simpl. by eexists.
Qed.

Lemma in_eos s rest (u : unit) : In (u, rest) (eos s) -> s = EmptyString /\ rest = EmptyString.
Proof. destruct s; simpl; [| done]. intros [[= <-] | []]. done. Qed.

Lemma in_opt {A} (m : matcher A) s o rest :
  In (o, rest) (opt m s) ->
  (exists a, o = Some a /\ In (a, rest) (m s)) \/ (o = None /\ rest = s).
Proof.
  unfold opt, alt, fmap. rewrite in_app_iff. intros [H | [[= <- <-] | []]].
  - apply in_bind in H as [[a mid] [H1 [[= <- <-] | []]]]. left. eauto.
  - by right.
Qed.

End RegexFacts.

(** ** [parseCalc] *)

Module ParserFacts.
Import JsNum JsString JsParse Regex ValueParsers RegexFacts.

(** C9.  In the two-operand form of [calc()], a division whose right
    operand evaluates to zero makes [parseCalc] return null: no number is
    produced, and the function has no way to raise an error. *)
Theorem parseCalc_division_by_zero
    (value g g1 g4 : string) (g2 g5 : option string)
    (baseFontSize : number) (z : Q) :
  matchAt calcRe value = Some g ->
  matchAt binaryRe (trim g) = Some (g1, g2, "/"%char, g4, g5) ->
  toPx (unitOr g5) (parseFloat g4) baseFontSize = Num z ->
  (z == 0)%Q ->
  parseCalc value baseFontSize = None.
Proof.
  intros Hcalc Hbin Hval Hz.
  unfold parseCalc, parseCalcWith. rewrite Hcalc, Hbin. simpl.
  rewrite Hval. unfold nneq.
  apply Qeq_bool_iff in Hz. by rewrite Hz.
Qed.

Lemma parseCalc_division_by_zero_witness :
  parseCalc "calc(10px / 0)" defaultFontSize = None.
Proof.
  apply (parseCalc_division_by_zero "calc(10px / 0)" "10px / 0" "10" "0"
           (Some "px") None defaultFontSize 0);
    [reflexivity | reflexivity | reflexivity | reflexivity].
Defined.

End ParserFacts.

(** ** The recursion of [parseLength] and [parseCalc] *)

Module RecursionFacts.
Import JsNum JsString JsParse Regex ValueParsers RegexFacts.

Lemma length_append (a b : string) :
  String.length (String.append a b) = (String.length a + String.length b)%nat.
Proof.
  induction a as [| c a IH]; [reflexivity |].
  change (String.append (String c a) b) with (String c (String.append a b)).
  cbn [String.length]. by rewrite IH.
Qed.

Lemma trimStart_length (s : string) :
  (String.length (trimStart s) <= String.length s)%nat.
Proof.
  induction s as [| c s IH]; cbn [trimStart String.length]; [lia |].
  destruct (isSpace c); cbn [String.length]; lia.
Qed.

Lemma rev_length (s acc : string) :
  String.length (rev s acc) = (String.length s + String.length acc)%nat.
Proof.
  revert acc. induction s as [| c s IH]; intros acc; cbn [rev String.length].
  - reflexivity.
  - rewrite IH. cbn [String.length]. lia.
Qed.

Lemma trim_length (s : string) :
  (String.length (trim s) <= String.length s)%nat.
Proof.
  unfold trim, trimEnd. rewrite rev_length.
  pose proof (trimStart_length (rev (trimStart s) EmptyString)) as H.
  rewrite rev_length in H. pose proof (trimStart_length s).
  cbn [String.length] in *. lia.
Qed.

Lemma in_lit (ci : bool) (p s : string) (u : unit) (rest : string) :
  In (u, rest) (lit ci p s) ->
  String.length s = (String.length p + String.length rest)%nat.
Proof.
  revert s. induction p as [| a p IH]; intros s; cbn [lit].
  - intros [[= _ <-] | []]. reflexivity.
  - intros H. apply in_bind in H as [[c mid] [H1 H2]].
    apply in_chr in H1 as [-> _]. apply IH in H2.
    cbn [String.length fst snd] in *. lia.
Qed.

Lemma in_ws (s : string) (u : unit) (rest : string) :
  In (u, rest) (ws s) -> (String.length rest <= String.length s)%nat.
Proof.
  unfold ws, fmap. intros H. apply in_bind in H as [[m mid] [H1 H2]].
  destruct H2 as [[= _ <-] | []]. apply in_star in H1 as [_ ->].
  rewrite length_append. cbn [snd]. lia.
Qed.

(** What [calc( ... )] captures is shorter than the value. *)
Lemma calcRe_capture (value g : string) :
  matchAt calcRe value = Some g ->
  (String.length g + 6 <= String.length value)%nat.
Proof.
  intros H. apply matchAt_Some in H as [rest H]. unfold calcRe in H.
  apply in_mbind in H as (u1 & s1 & H1 & H). apply in_lit in H1.
  apply in_mbind in H as (u2 & s2 & H2 & H). apply in_ws in H2.
  apply in_mbind in H as (u3 & s3 & H3 & H). apply in_lit in H3.
  apply in_mbind in H as (u4 & s4 & H4 & H). apply in_ws in H4.
  apply in_mbind in H as (e & s5 & H5 & H). apply in_plus in H5 as (_ & _ & H5).
  apply in_mbind in H as (u6 & s6 & H6 & H). apply in_ws in H6.
  apply in_mbind in H as (u7 & s7 & H7 & H). apply in_lit in H7.
  apply in_mbind in H as (u8 & s8 & H8 & H). apply in_eos in H8 as [-> ->].
  apply in_mret in H as [-> _].
  rewrite H5, length_append in H4. cbn [String.length] in *. lia.
Qed.

Lemma parseCalcWith_ext (f f' : string -> number -> option number)
    (value : string) (baseFontSize : number) :
  (forall g, matchAt calcRe value = Some g ->
     f (trim g) baseFontSize = f' (trim g) baseFontSize) ->
  parseCalcWith f value baseFontSize = parseCalcWith f' value baseFontSize.
Proof.
  intros H. unfold parseCalcWith.
  destruct (matchAt calcRe value) as [g |]; [| reflexivity].
  destruct (matchAt binaryRe (trim g)) as [[[[[g1 g2] op] g4] g5] |];
    [reflexivity | by apply H].
Qed.

(** The bound of the recursion is never reached: any two bounds above
    the length of the value give the same result. *)
Lemma parseLengthFuel_enough (n m : nat) (value : string)
    (baseFontSize : number) :
  (String.length value < n)%nat -> (String.length value < m)%nat ->
  parseLengthFuel n value baseFontSize = parseLengthFuel m value baseFontSize.
Proof.
  revert m value. induction n as [| n IH]; intros m value Hn Hm; [lia |].
  destruct m as [| m]; [lia |]. cbn [parseLengthFuel].
  destruct (String.eqb value EmptyString); [reflexivity |].
  destruct (startsWith _ _); [| reflexivity].
  apply parseCalcWith_ext. intros g Hg. apply calcRe_capture in Hg.
  pose proof (trim_length g). apply IH; lia.
Qed.

(** [parseLength] and [parseCalc] satisfy the equations of the two
    functions of the source that call each other. *)
Lemma parseCalc_unfold (value : string) (baseFontSize : number) :
  parseCalc value baseFontSize
  = parseCalcWith parseLength value baseFontSize.
Proof.
  unfold parseCalc, parseLength. apply parseCalcWith_ext. intros g Hg.
  apply calcRe_capture in Hg. pose proof (trim_length g).
  apply parseLengthFuel_enough; lia.
Qed.

Lemma parseLength_unfold (value : string) (baseFontSize : number) :
  parseLength value baseFontSize
  = if String.eqb value EmptyString then None
    else if startsWith "calc(" (toLowerCase value)
    then parseCalc value baseFontSize
    else
      match matchAt lengthRe value with
      | None => None
      | Some (g1, g2) =>
          let num := parseFloat g1 in
          let unit := unitOr g2 in
          if String.eqb unit "px" then Some num
          else if String.eqb unit "em" || String.eqb unit "rem"
          then Some (nmul num baseFontSize)
          else None
      end.
Proof. reflexivity. Qed.

End RecursionFacts.

(** ** Hexadecimal digits and bytes *)

Module ColorFacts.
Import JsNum JsString JsParse Regex ValueParsers ColorSpec RegexFacts.

Ltac each_char c :=
  destruct c as [[] [] [] [] [] [] [] []].

(** [parseInt(_, 16)] on two hexadecimal digits. *)
Lemma parseInt_hex2 (c1 c2 : ascii) :
  isHexDigit c1 = true -> isHexDigit c2 = true ->
  parseInt (String c1 (String c2 EmptyString)) 16
  = ofZ (16 * hexVal c1 + hexVal c2).
Proof.
  intros H1 H2.
  each_char c1; try (vm_compute in H1; discriminate H1); clear H1;
    each_char c2; try (vm_compute in H2; discriminate H2); reflexivity.
Qed.

Lemma hexVal_range (c : ascii) : (0 <= hexVal c <= 15)%Z.
Proof. each_char c; vm_compute; split; discriminate. Qed.

Lemma byte255_hex2 (c1 c2 : ascii) :
  isHexDigit c1 = true -> isHexDigit c2 = true ->
  byte255 (String c1 (String c2 EmptyString))
  = Num (inject_Z (16 * hexVal c1 + hexVal c2) / 255).
Proof. intros H1 H2. unfold byte255. by rewrite parseInt_hex2. Qed.

Lemma in01_byte (v : Z) :
  (0 <= v <= 255)%Z -> in01 (Num (inject_Z v / 255)).
Proof.
  intros [Hlo Hhi]. simpl.
  rewrite Zle_Qle in Hlo, Hhi.
  change (inject_Z 0) with 0%Q in Hlo. change (inject_Z 255) with 255%Q in Hhi.
  split.
  - apply Qle_shift_div_l; lra.
  - apply Qle_shift_div_r; lra.
Qed.

Lemma round_byte (v : Z) :
  channelTo255 (Num (inject_Z v / 255)) = Some v.
Proof.
  unfold channelTo255. f_equal.
  assert (E : (inject_Z v / 255 * 255 + (1 # 2) == inject_Z v + (1 # 2))%Q)
    by (field).
  apply Qfloor_comp in E. rewrite E. clear E.
  assert (Hle : (inject_Z v <= inject_Z v + (1 # 2))%Q) by lra.
  assert (Hlt : (inject_Z v + (1 # 2) < inject_Z (v + 1))%Q).
  { rewrite inject_Z_plus. change (inject_Z 1) with 1%Q. lra. }
  pose proof (Qfloor_le (inject_Z v + (1 # 2))) as F1.
  pose proof (Qlt_floor (inject_Z v + (1 # 2))) as F2.
  apply Z.le_antisymm.
  - apply Z.lt_succ_r. rewrite Zlt_Qlt.
    eapply Qle_lt_trans; [exact F1 |]. exact Hlt.
  - apply Z.lt_succ_r. rewrite Zlt_Qlt.
    eapply Qle_lt_trans; [exact Hle |]. exact F2.
Qed.

Lemma round_one : channelTo255 (Num 1) = Some 255%Z.
Proof. reflexivity. Qed.

(** The anchored hex expression captures exactly the digits after [#]. *)
Lemma hexMatch_digits (ds : string) :
  allChars isHexDigit ds = true ->
  (3 <= String.length ds <= 8)%nat ->
  hexMatch (String "#" ds) = Some ds.
Proof.
  intros Hall Hlen.
  destruct (rep_full isHexDigit 3 8 ds Hall Hlen) as [tl E].
  assert (H1 : lit true "#" (String "#" ds) = [(tt, ds)]) by reflexivity.
  unfold hexMatch, hexRe, mbind, matcher_bind, mret, matcher_ret.
  apply matchAt_head with (r := EmptyString)
    (tl := (flat_map (fun r => bind eos (fun _ => ret r.1) r.2) tl ++ [])%list).
  rewrite (bind_head _ _ _ _ _ _ H1).
  rewrite (bind_head _ _ _ _ _ _ E). reflexivity.
Qed.

Lemma hexMatch_inv (s hex : string) :
  hexMatch s = Some hex ->
  s = String "#" hex /\ allChars isHexDigit hex = true
  /\ (3 <= String.length hex <= 8)%nat.
Proof.
  intros H. apply matchAt_Some in H as [rest H]. unfold hexRe in H.
  apply in_mbind in H as (u & s1 & H1 & H).
  apply in_mbind in H as (hex' & s2 & H2 & H).
  apply in_mbind in H as (u' & s3 & H3 & H).
  apply in_mret in H as [-> ->].
  apply in_eos in H3 as [-> ->].
  apply in_rep in H2 as (Hall & Hlen & ->).
  simpl in H1. apply in_mbind in H1 as (c & s4 & H1 & H4).
  apply in_chr in H1 as [-> Hc]. apply in_mret in H4 as [_ <-].
  assert (c = "#"%char) as ->.
  { each_char c; try (vm_compute in Hc; discriminate Hc); reflexivity. }
  rewrite append_empty_r.
  done.
Qed.

End ColorFacts.

(** ** Hex colors *)

Module ColorTheorems.
Import JsNum JsString JsParse Regex ValueParsers ColorSpec.
Import RegexFacts ColorFacts.

Lemma allIn01_bytes (v1 v2 v3 v4 : Z) :
  (0 <= v1 <= 255)%Z -> (0 <= v2 <= 255)%Z ->
  (0 <= v3 <= 255)%Z -> (0 <= v4 <= 255)%Z ->
  allIn01 (mkRGBA (Num (inject_Z v1 / 255)) (Num (inject_Z v2 / 255))
                  (Num (inject_Z v3 / 255)) (Num (inject_Z v4 / 255))).
Proof. intros. repeat split; cbn [r g b a]; apply in01_byte; assumption. Qed.

Lemma in01_one : in01 (Num 1).
Proof. simpl. split; lra. Qed.

(** The hex branch on a capture made of hexadecimal digits. *)
Lemma hexColor_sound (hex : string) (c : RGBA) :
  allChars isHexDigit hex = true ->
  hexColor hex = Some c ->
  allIn01 c /\ exists enc, hexEncoded hex = Some enc /\ channels255 c = Some enc.
Proof.
  intros Hall Hc.
  destruct hex as [| c0 [| c1 [| c2 [| c3 [| c4 [| c5 [| c6 [| c7 [| c8 hex]]]]]]]]];
    try discriminate Hc; cbn [allChars] in Hall;
    repeat match type of Hall with
           | (_ && _ = true) => apply andb_true_iff in Hall as [? Hall]
           end.
  - (* #rgb *)
    injection Hc as <-.
    change (String.append (charAt 0 (String c0 (String c1 (String c2 EmptyString)))) _)
      with (String c0 (String c0 EmptyString)).
    change (String.append (charAt 1 (String c0 (String c1 (String c2 EmptyString)))) _)
      with (String c1 (String c1 EmptyString)).
    change (String.append (charAt 2 (String c0 (String c1 (String c2 EmptyString)))) _)
      with (String c2 (String c2 EmptyString)).
    rewrite !byte255_hex2 by assumption.
    pose proof (hexVal_range c0). pose proof (hexVal_range c1).
    pose proof (hexVal_range c2).
    split.
    + repeat split; cbn [r g b a]; try apply in01_byte; try apply in01_one; lia.
    + eexists. split; [reflexivity |].
      unfold channels255. cbn [r g b a]. rewrite !round_byte, round_one.
      cbn. repeat f_equal; lia.
  - (* #rrggbb *)
    injection Hc as <-.
    change (slice 0 2 _) with (String c0 (String c1 EmptyString)).
    change (slice 2 4 _) with (String c2 (String c3 EmptyString)).
    change (slice 4 6 _) with (String c4 (String c5 EmptyString)).
    rewrite !byte255_hex2 by assumption.
    pose proof (hexVal_range c0). pose proof (hexVal_range c1).
    pose proof (hexVal_range c2). pose proof (hexVal_range c3).
    pose proof (hexVal_range c4). pose proof (hexVal_range c5).
    split.
    + repeat split; cbn [r g b a]; try apply in01_byte; try apply in01_one; lia.
    + eexists. split; [reflexivity |].
      unfold channels255. cbn [r g b a]. rewrite !round_byte, round_one.
      reflexivity.
  - (* #rrggbbaa *)
    injection Hc as <-.
    change (slice 0 2 _) with (String c0 (String c1 EmptyString)).
    change (slice 2 4 _) with (String c2 (String c3 EmptyString)).
    change (slice 4 6 _) with (String c4 (String c5 EmptyString)).
    change (slice 6 8 _) with (String c6 (String c7 EmptyString)).
    rewrite !byte255_hex2 by assumption.
    pose proof (hexVal_range c0). pose proof (hexVal_range c1).
    pose proof (hexVal_range c2). pose proof (hexVal_range c3).
    pose proof (hexVal_range c4). pose proof (hexVal_range c5).
    pose proof (hexVal_range c6). pose proof (hexVal_range c7).
    split.
    + repeat split; cbn [r g b a]; apply in01_byte; lia.
    + eexists. split; [reflexivity |].
      unfold channels255. cbn [r g b a]. rewrite !round_byte.
      reflexivity.
Qed.

Lemma hexColor_defined (hex : string) :
  (String.length hex = 3 \/ String.length hex = 6 \/ String.length hex = 8)%nat ->
  exists c, hexColor hex = Some c.
Proof.
  unfold hexColor. intros [-> | [-> | ->]]; cbn [Nat.eqb]; eauto.
Qed.

(** C7.  For every 3-, 6- or 8-digit hex color string, the parsed channels
    are in [0,1], and converting them back to integers from 0 to 255 gives
    exactly the integers the hex digits encode. *)
Theorem parseColor_hex_roundtrip (ds : string) :
  allChars isHexDigit ds = true ->
  (String.length ds = 3 \/ String.length ds = 6 \/ String.length ds = 8)%nat ->
  exists c enc,
    parseColor (String "#" ds) = Color c
    /\ allIn01 c
    /\ hexEncoded ds = Some enc
    /\ channels255 c = Some enc.
Proof.
  intros Hall Hlen.
  destruct (hexColor_defined ds Hlen) as [c Hc].
  destruct (hexColor_sound ds c Hall Hc) as (H01 & enc & Henc & H255).
  exists c, enc. split; [| split; [exact H01 | split; assumption]].
  unfold parseColor. cbn [String.eqb].
  rewrite hexMatch_digits by (assumption || lia).
  cbn [mbind option_bind]. by rewrite Hc.
Qed.

Lemma parseColor_hex_roundtrip_witness :
  exists c enc,
    parseColor "#1e90ff" = Color c
    /\ allIn01 c
    /\ hexEncoded "1e90ff" = Some enc
    /\ channels255 c = Some enc.
Proof.
  apply (parseColor_hex_roundtrip "1e90ff"); [reflexivity | right; left; reflexivity].
Defined.

End ColorTheorems.

(** ** Channels of [rgb()] and of the named colors *)

Module ColorChannels.
Import JsNum JsString JsParse Regex ValueParsers ColorSpec.
Import RegexFacts ColorFacts ColorTheorems.

Lemma span_all (cls : ascii -> bool) (s : string) :
  allChars cls s = true -> span cls s = (s, EmptyString).
Proof.
  induction s as [| c s IH]; cbn [allChars span]; [done |].
  intros [Hc Hs]%andb_true_iff. by rewrite Hc, (IH Hs).
Qed.

Lemma digitValue_nonneg (c : ascii) :
  (0 <= match digitValue c with Some d => d | None => 0 end)%Z.
Proof. each_char c; vm_compute; discriminate. Qed.

Lemma digitsValue_nonneg (radix acc : Z) (s : string) :
  (0 <= radix)%Z -> (0 <= acc)%Z -> (0 <= digitsValue radix acc s)%Z.
Proof.
  intros Hr. revert acc. induction s as [| c s IH]; intros acc Hacc; cbn [digitsValue].
  - done.
  - apply IH. pose proof (digitValue_nonneg c). nia.
Qed.

Lemma digit_head (c : ascii) (s : string) :
  isDigit c = true ->
  trimStart (String c s) = String c s
  /\ stripSign (String c s) = (false, String c s)
  /\ isRadixDigit 10 c = true.
Proof.
  intros H. each_char c; try (vm_compute in H; discriminate H); repeat split.
Qed.

Lemma radix10_digits (s : string) :
  allChars isDigit s = true -> allChars (isRadixDigit 10) s = true.
Proof.
  induction s as [| c s IH]; cbn [allChars]; [done |].
  intros [Hc Hs]%andb_true_iff.
  destruct (digit_head c s Hc) as (_ & _ & ->). by rewrite IH.
Qed.

(** [parseInt(_, 10)] on a capture of [\d+]. *)
Lemma parseInt_digits (g : string) :
  g <> EmptyString -> allChars isDigit g = true ->
  parseInt g 10 = ofZ (digitsValue 10 0 g) /\ (0 <= digitsValue 10 0 g)%Z.
Proof.
  intros Hne Hall. split; [| by apply digitsValue_nonneg].
  destruct g as [| c s]; [done |].
  pose proof Hall as Hall'. cbn [allChars] in Hall'.
  apply andb_true_iff in Hall' as [Hc _].
  destruct (digit_head c s Hc) as (E1 & E2 & _).
  unfold parseInt. rewrite E1, E2. cbn [Z.eqb Pos.eqb].
  rewrite (span_all _ _ (radix10_digits _ Hall)). reflexivity.
Qed.

Lemma in01_over255 (n : Z) :
  (0 <= n)%Z -> in01 (Num (inject_Z n / 255)) <-> (n <= 255)%Z.
Proof.
  intros Hn. split.
  - intros [_ H]. cbn in H.
    apply Z.le_ngt. intros Hgt.
    rewrite Zlt_Qlt in Hgt. change (inject_Z 255) with 255%Q in Hgt.
    assert (1 < inject_Z n / 255)%Q by (apply Qlt_shift_div_l; lra).
    lra.
  - intros H. apply in01_byte. lia.
Qed.

(** The captures of the functional [rgb()] expression. *)
Lemma rgbMatch_inv (s g1 g2 g3 : string) (g4 : option string) :
  rgbMatch s = Some (g1, g2, g3, g4) ->
  (g1 <> EmptyString /\ allChars isDigit g1 = true)
  /\ (g2 <> EmptyString /\ allChars isDigit g2 = true)
  /\ (g3 <> EmptyString /\ allChars isDigit g3 = true).
Proof.
  intros H. apply search_Some in H as (pre & suf & rest & _ & H).
  unfold rgbRe in H.
  repeat match goal with
         | H : In (_, _) (mbind _ _ _) |- _ =>
             apply in_mbind in H as (? & ? & ? & H)
         end.
  apply in_mret in H as [[= <- <- <- <-] _].
  repeat match goal with
         | H : In (_, _) (plus isDigit _) |- _ =>
             apply in_plus in H as (? & ? & _)
         end.
  done.
Qed.

Lemma named_in01 (key : string) (c : RGBA) :
  assoc key namedColors = Some c -> allIn01 c.
Proof.
  assert (Hall : forallb (fun kc =>
            in01b (r kc.2) && in01b (g kc.2)
            && in01b (b kc.2) && in01b (a kc.2)) namedColors = true)
    by (vm_compute; reflexivity).
  rewrite forallb_forall in Hall.
  assert (Hin : forall l, assoc key l = Some c -> In (key, c) l).
  { induction l as [| [k v] l IH]; cbn [assoc]; [done |].
    destruct (String.eqb key k) eqn:E.
    - apply String.eqb_eq in E as ->. intros [= ->]. by left.
    - intros H. right. by apply IH. }
  intros H. specialize (Hall _ (Hin _ H)). cbn [snd] in Hall.
  assert (Hb : forall x, in01b x = true -> in01 x).
  { intros [| q]; cbn; [done |].
    intros [H1 H2]%andb_true_iff. split; by apply Qle_bool_iff. }
  repeat (apply andb_true_iff in Hall as [Hall ?]).
  repeat split; by apply Hb.
Qed.

End ColorChannels.

(** ** Ranges of the channels *)

Module ColorRange.
Import JsNum JsString JsParse Regex ValueParsers ColorSpec.
Import RegexFacts ColorFacts ColorTheorems ColorChannels.

(** C6 as stated does not hold: [rgb()] divides the written integers by
    255 without clamping them, and the alpha of the functional forms is
    returned as written. *)
Lemma parseColor_unclamped :
  (exists c, parseColor "rgb(300, 0, 0)" = Color c /\ ~ in01 (r c))
  /\ (exists c, parseColor "rgba(0, 0, 0, 5)" = Color c /\ ~ in01 (a c)).
Proof.
  split; eexists; (split; [vm_compute; reflexivity |]);
    cbn; intros [_ H]; revert H; vm_compute; intros H; apply H; reflexivity.
Qed.

(** Nor is every [hsl()] color in range: the pattern takes a lone dot
    for the hue, [parseFloat] reads it as NaN, and [hslToRgb] hands it on
    in the blue channel. *)
Lemma parseColor_hsl_not_a_number :
  exists c, parseColor "hsl(., 50%, 50%)" = Color c
            /\ b c = NaN /\ ~ in01 (b c).
Proof.
  eexists. split; [vm_compute; reflexivity |].
  split; [reflexivity |]. cbn. intros H. exact H.
Qed.

Lemma ndiv_255 (n : Z) : ndiv (ofZ n) (Num 255) = Num (inject_Z n / 255).
Proof. reflexivity. Qed.

(** C6, amended.  What [parseColor] guarantees about the channels of the
    color it returns, branch by branch:
    - hex (3, 6 or 8 digits) and dictionary names: the four channels are
      in [0,1];
    - [rgb()]/[rgba()]: each of r, g, b is the written integer divided by
      255, so it is in [0,1] exactly when the integer is at most 255;
    - [hsl()]/[hsla()]: r, g, b are the three numbers that [hslToRgb]
      returns for the written hue and for the written saturation and
      lightness divided by 100; [parseColor] passes them on as they are,
      it does not clamp them;
    - the alpha of the functional forms is the written number (1 when
      absent), not clamped. *)
Theorem parseColor_channel_ranges (s : string) (c : RGBA) :
  parseColor s = Color c ->
  match hexMatch s ≫= hexColor with
  | Some _ => allIn01 c
  | None =>
      match rgbMatch s with
      | Some (g1, g2, g3, g4) =>
          exists n1 n2 n3 : Z,
            (parseInt g1 10 = ofZ n1 /\ parseInt g2 10 = ofZ n2
             /\ parseInt g3 10 = ofZ n3)
            /\ (0 <= n1 /\ 0 <= n2 /\ 0 <= n3)%Z
            /\ (r c = Num (inject_Z n1 / 255)
                /\ g c = Num (inject_Z n2 / 255)
                /\ b c = Num (inject_Z n3 / 255))
            /\ ((in01 (r c) <-> (n1 <= 255)%Z)
                /\ (in01 (g c) <-> (n2 <= 255)%Z)
                /\ (in01 (b c) <-> (n3 <= 255)%Z))
            /\ a c = alphaOf g4
      | None =>
          match hslMatch s with
          | Some (g1, g2, g3, g4) =>
              (r c, g c, b c)
              = hslToRgb (parseFloat g1) (ndiv (parseFloat g2) (Num 100))
                  (ndiv (parseFloat g3) (Num 100))
              /\ a c = alphaOf g4
          | None => allIn01 c
          end
      end
  end.
Proof.
  unfold parseColor. destruct (String.eqb s EmptyString); [discriminate |].
  destruct (hexMatch s ≫= hexColor) as [c' |] eqn:Hhex.
  { intros [= ->].
    destruct (hexMatch s) as [hex |] eqn:Hm; [| discriminate Hhex].
    cbn [mbind option_bind] in Hhex.
    apply hexMatch_inv in Hm as (_ & Hall & _).
    by destruct (hexColor_sound hex c Hall Hhex). }
  destruct (rgbMatch s) as [[[[g1 g2] g3] g4] |] eqn:Hrgb.
  { intros [= <-].
    apply rgbMatch_inv in Hrgb as ((N1 & D1) & (N2 & D2) & (N3 & D3)).
    destruct (parseInt_digits g1 N1 D1) as [E1 P1].
    destruct (parseInt_digits g2 N2 D2) as [E2 P2].
    destruct (parseInt_digits g3 N3 D3) as [E3 P3].
    exists (digitsValue 10 0 g1), (digitsValue 10 0 g2), (digitsValue 10 0 g3).
    cbn [r g b a]. rewrite E1, E2, E3, !ndiv_255.
    repeat split; try assumption; try reflexivity;
      try (apply in01_over255; assumption). }
  destruct (hslMatch s) as [[[[g1 g2] g3] g4] |] eqn:Hhsl.
  { destruct (hslToRgb _ _ _) as [[r0 g0] b0] eqn:E.
    intros [= <-]. cbn [r g b a]. split; reflexivity. }
  unfold namedLookup.
  destruct (assoc (toLowerCase s) namedColors) as [c' |] eqn:Hn.
  - intros [= <-]. by apply named_in01 in Hn.
  - destruct (_ || _); discriminate.
Qed.

(** One color of each notation: a hex color and a named color in range,
    [rgb()] in range with bytes and out of range above 255, [hsl()] as
    converted. *)
Lemma parseColor_channel_ranges_witness :
  allIn01 (mkRGBA (Num (255 # 255)) (Num (128 # 255)) (Num (0 # 255)) (Num 1))
  /\ allIn01 (mkRGBA (Num 1) (Num 0) (Num 0) (Num 1))
  /\ (forall c, parseColor "rgb(255, 128, 0)" = Color c ->
       in01 (r c) /\ in01 (g c) /\ in01 (b c) /\ a c = Num 1)
  /\ (forall c, parseColor "rgba(300, 0, 0, 0.5)" = Color c ->
       ~ in01 (r c) /\ in01 (g c) /\ in01 (b c) /\ a c = Num (5 # 10))
  /\ (forall c, parseColor "hsl(120, 100%, 25%)" = Color c ->
       (r c, g c, b c) = hslToRgb (Num 120) (Num (100 / 100)) (Num (25 / 100))
       /\ a c = Num 1).
Proof.
  split; [| split; [| split; [| split]]].
  - exact (parseColor_channel_ranges "#ff8000"
           (mkRGBA (Num (255 # 255)) (Num (128 # 255)) (Num (0 # 255)) (Num 1))
           eq_refl).
  - exact (parseColor_channel_ranges "red"
             (mkRGBA (Num 1) (Num 0) (Num 0) (Num 1)) eq_refl).
  - intros c Hc.
    destruct (parseColor_channel_ranges "rgb(255, 128, 0)" c Hc)
      as (n1 & n2 & n3 & (E1 & E2 & E3) & _ & _ & (R1 & R2 & R3) & Ha).
    injection E1 as <-. injection E2 as <-. injection E3 as <-.
    split; [apply R1; discriminate |].
    split; [apply R2; discriminate |].
    split; [apply R3; discriminate | exact Ha].
  - intros c Hc.
    destruct (parseColor_channel_ranges "rgba(300, 0, 0, 0.5)" c Hc)
      as (n1 & n2 & n3 & (E1 & E2 & E3) & _ & _ & (R1 & R2 & R3) & Ha).
    injection E1 as <-. injection E2 as <-. injection E3 as <-.
    split; [intros H; apply R1 in H; revert H; vm_compute; intros H;
            apply H; reflexivity |].
    split; [apply R2; discriminate |].
    split; [apply R3; discriminate | exact Ha].
  - intros c Hc.
    exact (parseColor_channel_ranges "hsl(120, 100%, 25%)" c Hc).
Defined.

End ColorRange.

(* ===================================================================== *)
(** * Properties of the synthesizer                                       *)
(* ===================================================================== *)

(** ** The entry point *)

Module EntryFacts.
Import Figma Types Synth Create Code.

(** C4.  A request whose element list is empty or absent fails with the
    "no elements" error, and it fails before anything is created: the
    world it leaves is the world it found, so no frame, root or other,
    was made and no font was asked for. *)
Theorem handleCreateComponent_no_elements
    (fontAvailable : FontName -> bool) (payload : Payload) (w : World) :
  elements payload = None \/ elements payload = Some [] ->
  handleCreateComponent fontAvailable payload w
  = (Throw "No valid HTML elements found", w).
Proof.
  intros H. unfold handleCreateComponent, buildComponent.
  destruct H as [-> | ->]; reflexivity.
Qed.

Lemma handleCreateComponent_no_elements_witness :
  handleCreateComponent (fun _ => true)
    (mkPayload (Some []) (Some "Card") None) emptyWorld
  = (Throw "No valid HTML elements found", emptyWorld).
Proof.
  apply (handleCreateComponent_no_elements (fun _ => true)
           (mkPayload (Some []) (Some "Card") None) emptyWorld).
  right. reflexivity.
Defined.

End EntryFacts.

(** ** When the distribution pass runs *)

Module DistributionFacts.
Import Figma Types Synth Create.
Local Open Scope Q_scope.

(** C10.  The distribution pass runs only when it counts more than one
    child, where a child counts if it is not absolutely positioned and is
    not a synthetic spacer or wrapper.  With at most one counted child the
    pass returns the frame as it was, whatever the ledger holds: no child
    is resized and no sizing mode changes. *)
Theorem distribution_needs_two_counted_children
    (flexGrowMap : list (nat * Q)) (frame : SceneNode) (w : World) :
  (gapCount frame <= 1)%nat ->
  distributeFlexGrow flexGrowMap frame w = frame.
Proof.
  intros H. unfold distributeFlexGrow.
  assert ((1 <? gapCount frame)%nat = false) as -> by (apply Nat.ltb_ge; exact H).
  rewrite andb_false_r. by destruct (_ && _).
Qed.

Lemma distribution_needs_two_counted_children_witness :
  let child := set_layoutSizingHorizontal FILL (resize 50 40 (newFrame 1)) in
  let spacer := set_name (Name "margin-left") (resize 10 1 (newFrame 2)) in
  let frame :=
    set_children [spacer; child]
      (set_layoutMode HORIZONTAL (resize 400 40 (newFrame 0))) in
  distributeFlexGrow [(1%nat, 1)] frame emptyWorld = frame.
Proof.
  apply (distribution_needs_two_counted_children [(1%nat, 1)]).
  vm_compute. constructor.
Defined.

End DistributionFacts.

(** ** Pending sizing *)

Module SizingFacts.
Import Figma Types Synth Create.
Local Open Scope Q_scope.

(** C5 as stated does not hold: the record of a frame is still in
    [pendingLayoutSizing] after the frame has been attached and its
    sizing applied.  (Nothing in the source removes an entry of that
    table.) *)
Lemma pending_record_not_cleared :
  let parent := set_layoutMode VERTICAL (newFrame 0) in
  let element :=
    mkParsedElement "div" (with_width (Some (Px 200)) noStyle) None [] in
  exists frame w',
    createFigmaNode (fun _ => true) element (fun s => s) parent None None
      (set_nextId 1 emptyWorld) = (Ok frame, w')
    /\ layoutSizingHorizontal frame = FIXED
    /\ pendingLayoutSizing w' !! nid frame
       = Some (mkPending (Some FIXED) None).
Proof. vm_compute. eexists _, _. repeat split. Qed.

Lemma attachFrame_run (parent : SceneNode) (tagName : string)
    (styles : ParsedStyle) (frame : SceneNode) (w : World) :
  attachFrame parent tagName styles frame w
  = (Ok (applyAlignSelf parent styles
           (fst (applyFlexGrow parent styles
                   (applyDefaultStretch parent tagName styles
                      (applyPendingSizing parent frame w) w, w)))),
     snd (applyFlexGrow parent styles
            (applyDefaultStretch parent tagName styles
               (applyPendingSizing parent frame w) w, w))).
Proof.
  unfold attachFrame, get, modify, mbind, M_bind, mret, M_ret.
  by destruct (applyFlexGrow _ _ _).
Qed.

Lemma applyFlexGrow_pending (parent : SceneNode) (styles : ParsedStyle)
    (frame : SceneNode) (w : World) :
  pendingLayoutSizing (snd (applyFlexGrow parent styles (frame, w)))
  = pendingLayoutSizing w.
Proof.
  unfold applyFlexGrow.
  repeat match goal with
         | |- context [if ?b then _ else _] => destruct b
         | |- context [match ?x with _ => _ end] => destruct x
         end; reflexivity.
Qed.

Lemma safeSet_not_accepted (parent frame : SceneNode) (v : LayoutSizing) :
  isAutoLayout parent = false ->
  safeSetLayoutSizingHorizontal parent frame v = frame
  /\ safeSetLayoutSizingVertical parent frame v = frame.
Proof.
  intros H. unfold safeSetLayoutSizingHorizontal, safeSetLayoutSizingVertical,
    sizingAccepted. by rewrite H.
Qed.

(** What attaching does to the sizing of a frame under a parent that is
    not an auto-layout frame: nothing. *)
Lemma attachFrame_not_auto (parent : SceneNode) (tagName : string)
    (styles : ParsedStyle) (frame : SceneNode) (w : World) :
  isAutoLayout parent = false ->
  let frame' :=
    applyAlignSelf parent styles
      (fst (applyFlexGrow parent styles
              (applyDefaultStretch parent tagName styles
                 (applyPendingSizing parent frame w) w, w))) in
  layoutSizingHorizontal frame' = layoutSizingHorizontal frame
  /\ layoutSizingVertical frame' = layoutSizingVertical frame.
Proof.
  intros H. cbv zeta.
  unfold applyAlignSelf, applyFlexGrow, applyDefaultStretch,
    applyPendingSizing. rewrite H. rewrite !andb_false_r. cbn [andb].
  repeat case_match; simplify_eq; cbn; by destruct frame.
Qed.

(** The three steps that follow the pending sizing leave the horizontal
    sizing alone for a block element with a width of its own, no
    flex-grow and no align-self, and the vertical sizing for one with a
    height of its own. *)
Lemma later_steps_keep_sizing (parent : SceneNode) (tagName : string)
    (styles : ParsedStyle) (frame : SceneNode) (w : World) :
  includes inlineTags tagName = false -> isInlineDisplay styles = false ->
  hasFlexGrow styles = false -> s_alignSelf styles = None ->
  let frame' :=
    applyAlignSelf parent styles
      (fst (applyFlexGrow parent styles
              (applyDefaultStretch parent tagName styles frame w, w))) in
  (widthUndefinedOrFill styles = false ->
   layoutSizingHorizontal frame' = layoutSizingHorizontal frame)
  /\ (heightUndefinedOrFill styles = false ->
      layoutSizingVertical frame' = layoutSizingVertical frame).
Proof.
  intros Htag Hdisplay Hgrow Hself. cbv zeta.
  unfold applyAlignSelf, applyFlexGrow, applyDefaultStretch.
  rewrite Htag, Hdisplay, Hgrow, Hself. cbn [orb andb negb fst].
  unfold widthUndefinedOrFill, heightUndefinedOrFill, defined,
    safeSetLayoutSizingHorizontal, safeSetLayoutSizingVertical.
  split; intros H; repeat case_match; simplify_eq; cbn in *;
    rewrite ?andb_false_r in *; try discriminate; by destruct frame.
Qed.

(** C5, amended.  Attaching a frame that has a record in
    [pendingLayoutSizing] to an auto-layout parent applies the record
    first: each sizing mode the record holds is assigned to the frame, and
    the default stretch, flex-grow and align-self steps work on the frame
    so sized.  For a block element with a width of its own (a number or
    auto), without flex-grow and align-self, the attached frame has the
    horizontal mode of the record; with a height of its own, the vertical
    mode of the record.  Under a parent that is not an auto-layout frame
    the record is not applied: the sizing modes of the frame stay.  In
    both cases the record is not cleared: attaching leaves
    [pendingLayoutSizing] as it was. *)
Theorem pending_sizing_applied_at_attachment
    (parent : SceneNode) (tagName : string) (styles : ParsedStyle)
    (frame : SceneNode) (w : World) (pending : Pending) :
  pendingLayoutSizing w !! nid frame = Some pending ->
  let sized :=
    let frame :=
      match p_horizontal pending with
      | Some v => set_layoutSizingHorizontal v frame
      | None => frame
      end in
    match p_height pending with
    | Some v => set_layoutSizingVertical v frame
    | None => frame
    end in
  exists frame' w',
    attachFrame parent tagName styles frame w = (Ok frame', w')
    /\ pendingLayoutSizing w' = pendingLayoutSizing w
    /\ pendingLayoutSizing w' !! nid frame = Some pending
    /\ nid frame' = nid frame
    /\ (isAutoLayout parent = true ->
        (frame', w')
        = (applyAlignSelf parent styles
             (fst (applyFlexGrow parent styles
                     (applyDefaultStretch parent tagName styles sized w, w))),
           snd (applyFlexGrow parent styles
                  (applyDefaultStretch parent tagName styles sized w, w)))
        /\ (includes inlineTags tagName = false ->
            isInlineDisplay styles = false ->
            hasFlexGrow styles = false -> s_alignSelf styles = None ->
            (forall v, p_horizontal pending = Some v ->
               widthUndefinedOrFill styles = false ->
               layoutSizingHorizontal frame' = v)
            /\ (forall v, p_height pending = Some v ->
                  heightUndefinedOrFill styles = false ->
                  layoutSizingVertical frame' = v)))
    /\ (isAutoLayout parent = false ->
        layoutSizingHorizontal frame' = layoutSizingHorizontal frame
        /\ layoutSizingVertical frame' = layoutSizingVertical frame).
Proof.
  intros Hpending sized.
  eexists _, _. rewrite attachFrame_run. split; [reflexivity |].
  rewrite applyFlexGrow_pending. split; [reflexivity |].
  split; [exact Hpending |].
  split.
  { unfold applyAlignSelf, applyFlexGrow, applyDefaultStretch,
      applyPendingSizing, safeSetLayoutSizingHorizontal,
      safeSetLayoutSizingVertical.
    repeat case_match; simplify_eq; cbn; by destruct frame. }
  split.
  - intros Hauto.
    assert (Hsized : applyPendingSizing parent frame w = sized).
    { unfold applyPendingSizing, safeSetLayoutSizingHorizontal,
        safeSetLayoutSizingVertical, sizingAccepted, sized.
      rewrite Hauto, Hpending. cbn [mbind option_bind].
      by destruct (p_horizontal pending), (p_height pending). }
    rewrite Hsized. split; [reflexivity |].
    intros Htag Hdisplay Hgrow Hself.
    destruct (later_steps_keep_sizing parent tagName styles sized w
                Htag Hdisplay Hgrow Hself) as [Hh Hv].
    split.
    + intros v Hv' Hwidth. rewrite (Hh Hwidth). unfold sized. rewrite Hv'.
      by destruct (p_height pending), frame.
    + intros v Hv' Hheight. rewrite (Hv Hheight). unfold sized. rewrite Hv'.
      by destruct (p_horizontal pending), frame.
  - intros Hauto. by apply attachFrame_not_auto.
Qed.

(** A frame with the record (HUG, HUG), as [width: auto] and
    [height: auto] leave it, attached to a vertical parent: it comes out
    HUG by HUG, and the record is still there.  Attached to a parent
    without auto layout it keeps the modes it had. *)
Lemma pending_sizing_applied_at_attachment_witness :
  let styles := with_height (Some Auto) (with_width (Some Auto) noStyle) in
  let frame := resize 200 100 (newFrame 1) in
  let w :=
    setPendingHeight frame HUG
      (setPendingHorizontal frame HUG (set_nextId 2 emptyWorld)) in
  (exists frame' w',
     attachFrame (set_layoutMode VERTICAL (newFrame 0)) "div" styles frame w
     = (Ok frame', w')
     /\ layoutSizingHorizontal frame = FIXED
     /\ layoutSizingHorizontal frame' = HUG
     /\ layoutSizingVertical frame' = HUG
     /\ pendingLayoutSizing w' !! 1%nat = Some (mkPending (Some HUG) (Some HUG)))
  /\ (exists frame' w',
        attachFrame (newFrame 0) "div" styles frame w = (Ok frame', w')
        /\ layoutSizingHorizontal frame' = FIXED
        /\ layoutSizingVertical frame' = FIXED).
Proof.
  intros styles frame w. split.
  - destruct (pending_sizing_applied_at_attachment
                (set_layoutMode VERTICAL (newFrame 0)) "div" styles frame w
                (mkPending (Some HUG) (Some HUG)) eq_refl)
      as (frame' & w' & Hrun & _ & Hkept & _ & Happlied & _).
    exists frame', w'. split; [exact Hrun |].
    destruct (Happlied eq_refl) as [_ Hmodes].
    destruct (Hmodes eq_refl eq_refl eq_refl eq_refl) as [Hh Hv].
    split; [reflexivity |].
    split; [exact (Hh HUG eq_refl eq_refl) |].
    split; [exact (Hv HUG eq_refl eq_refl) | exact Hkept].
  - destruct (pending_sizing_applied_at_attachment (newFrame 0) "div" styles
                frame w (mkPending (Some HUG) (Some HUG)) eq_refl)
      as (frame' & w' & Hrun & _ & _ & _ & _ & Hnot).
    exists frame', w'. split; [exact Hrun |]. exact (Hnot eq_refl).
Defined.

(** The record is read only under an auto-layout parent: a frame with
    the record (HUG, HUG) attached to a parent with layout mode NONE keeps
    its FIXED modes, and the record stays in the table unapplied. *)
Lemma pending_record_needs_auto_layout_parent :
  let styles := with_height (Some Auto) (with_width (Some Auto) noStyle) in
  let frame := resize 200 100 (newFrame 1) in
  let w :=
    setPendingHeight frame HUG
      (setPendingHorizontal frame HUG (set_nextId 2 emptyWorld)) in
  exists frame' w',
    attachFrame (newFrame 0) "div" styles frame w = (Ok frame', w')
    /\ layoutMode (newFrame 0) = NONE
    /\ pendingLayoutSizing w !! 1%nat = Some (mkPending (Some HUG) (Some HUG))
    /\ layoutSizingHorizontal frame' = FIXED
    /\ layoutSizingVertical frame' = FIXED
    /\ pendingLayoutSizing w' !! 1%nat
       = Some (mkPending (Some HUG) (Some HUG)).
Proof.
  vm_compute. eexists _, _. by repeat split.
Qed.

(** The steps after the record may assign the mode again: a block
    element without a width of its own under a vertical parent is
    stretched, so the frame with the record (HUG, HUG) comes out FILL by
    HUG. *)
Lemma default_stretch_follows_record :
  let frame := resize 200 100 (newFrame 1) in
  let w :=
    setPendingHeight frame HUG
      (setPendingHorizontal frame HUG (set_nextId 2 emptyWorld)) in
  exists frame' w',
    attachFrame (set_layoutMode VERTICAL (newFrame 0)) "div" noStyle frame w
    = (Ok frame', w')
    /\ layoutSizingHorizontal frame' = FILL
    /\ layoutSizingVertical frame' = HUG.
Proof.
  vm_compute. eexists _, _. by repeat split.
Qed.

End SizingFacts.

(** ** Lists and comparisons *)

Module ListFacts.
Import Figma.
Local Open Scope Q_scope.

Lemma Qgtb_true (a b : Q) : Qgtb a b = true <-> b < a.
Proof.
  unfold Qgtb. destruct (Qle_bool a b) eqn:E; cbn.
  - apply Qle_bool_iff in E. split; [discriminate | lra].
  - split; [intros _ | done]. apply Qnot_le_lt. intros H.
    apply Qle_bool_iff in H. congruence.
Qed.

Lemma Qltb_true (a b : Q) : Qltb a b = true <-> a < b.
Proof.
  unfold Qltb. destruct (Qle_bool b a) eqn:E; cbn.
  - apply Qle_bool_iff in E. split; [discriminate | lra].
  - split; [intros _ | done]. apply Qnot_le_lt. intros H.
    apply Qle_bool_iff in H. congruence.
Qed.

Lemma in_map_filter {A B} (f : A -> B) (P : A -> bool) (l : list A) (y : B) :
  y ∈ map f (filter P l) <-> exists x, x ∈ l /\ P x = true /\ f x = y.
Proof.
  induction l as [| x l IH].
  - split; [by intros ?%elem_of_nil | by intros (x & ?%elem_of_nil & _)].
  - rewrite filter_cons.
    destruct (decide (P x)) as [HP | HP].
    + cbn [map]. rewrite elem_of_cons, IH. split.
      * intros [-> | (x' & Hx' & HPx' & <-)].
        -- exists x. split; [left |]. split; [by apply Is_true_eq_true | done].
        -- exists x'. split; [by right | done].
      * intros (x' & [-> | Hx']%elem_of_cons & HPx' & <-); [by left |].
        right. by exists x'.
    + rewrite IH. split.
      * intros (x' & Hx' & HPx' & <-). exists x'. split; [by right | done].
      * intros (x' & [-> | Hx']%elem_of_cons & HPx' & <-).
        -- exfalso. apply HP. by apply Is_true_eq_left.
        -- by exists x'.
Qed.

Lemma NoDup_map_filter {A B} (f : A -> B) (P : A -> bool) (l : list A) :
  NoDup (map f l) -> NoDup (map f (filter P l)).
Proof.
  induction l as [| x l IH]; [done |].
  cbn [map]. intros [Hx Hl]%NoDup_cons. rewrite filter_cons.
  destruct (decide (P x)); [| by apply IH].
  cbn [map]. apply NoDup_cons. split; [| by apply IH].
  intros (x' & Hx' & _ & E)%in_map_filter. apply Hx. rewrite <- E.
  clear -Hx'. induction Hx'; cbn [map]; [left | by right].
Qed.

Lemma Forall_bool_filter {A} (Q : A -> Prop) (P : A -> bool) (l : list A) :
  Forall Q l -> Forall Q (filter P l).
Proof.
  rewrite !Forall_forall. intros H x [_ Hx]%list_elem_of_filter. by apply H.
Qed.

Lemma StronglySorted_bool_filter {A} (R : A -> A -> Prop) (P : A -> bool)
    (l : list A) :
  StronglySorted R l -> StronglySorted R (filter P l).
Proof.
  induction 1 as [| x l Hl IH Hx]; [constructor |].
  rewrite filter_cons. destruct (decide (P x)); [| done].
  constructor; [done | by apply Forall_bool_filter].
Qed.

Lemma filter_partition {A} (P : A -> bool) (l : list A) :
  filter P l ++ filter (fun x => negb (P x)) l ≡ₚ l.
Proof.
  induction l as [| x l IH]; [done |].
  rewrite !filter_cons.
  destruct (decide (P x)) as [H1 | H1],
    (decide (negb (P x))) as [H2 | H2].
  - exfalso. by destruct (P x).
  - rewrite <- app_comm_cons. by apply Permutation_skip.
  - rewrite <- Permutation_middle. by apply Permutation_skip.
  - exfalso. destruct (P x); cbn in *; tauto.
Qed.

End ListFacts.

(** ** Proportional distribution *)

Module FlexFacts.
Import Figma Types Synth Create ListFacts.
Local Open Scope Q_scope.

Lemma sumQ_from (l : list Q) (a : Q) : fold_left Qplus l a == a + sumQ l.
Proof.
  unfold sumQ. revert a. induction l as [| x l IH]; intros a; cbn.
  - ring.
  - rewrite (IH (a + x)), (IH (0 + x)). ring.
Qed.

Lemma sumQ_cons (x : Q) (l : list Q) : sumQ (x :: l) == x + sumQ l.
Proof. unfold sumQ at 1. cbn. rewrite sumQ_from. ring. Qed.

Lemma ledgerGet_absent (k : nat) (l : list (nat * Q)) :
  k ∉ map fst l -> ledgerGet k l = None.
Proof.
  induction l as [| [k' g] l IH]; [done |].
  cbn. intros H. apply not_elem_of_cons in H as [Hne H].
  destruct (Nat.eqb_spec k' k); [congruence | by apply IH].
Qed.

(** The distribution loop, child by child: a child that the ledger holds
    is replaced by its image, the others stay. *)
Lemma fold_updateChild (f : Q -> SceneNode -> SceneNode)
    (l : list (nat * Q)) (frame : SceneNode) :
  NoDup (map fst l) ->
  (forall g c, nid (f g c) = nid c) ->
  children (fold_left
              (fun fr entry => updateChild (fst entry) (f (snd entry)) fr)
              l frame)
  = map (fun c => match ledgerGet (nid c) l with
                  | Some g => f g c
                  | None => c
                  end) (children frame).
Proof.
  intros Hnd Hid. revert frame.
  induction l as [| [k g] l IH]; intros frame.
  - cbn. by rewrite map_id.
  - cbn [fold_left fst snd map] in *.
    apply NoDup_cons in Hnd as [Hk Hnd].
    rewrite (IH Hnd). unfold updateChild. cbn [children set_children].
    rewrite map_map. apply map_ext. intros c. cbn [ledgerGet].
    rewrite (Nat.eqb_sym k (nid c)).
    destruct (Nat.eqb_spec (nid c) k) as [E | E]; [| done].
    rewrite Hid, E, (ledgerGet_absent _ _ Hk). done.
Qed.

Lemma recalculateNestedFlex_frame (nested : gmap nat Q) (frame : SceneNode)
    (newWidth : Q) :
  let frame' := recalculateNestedFlex nested frame newWidth in
  nid frame' = nid frame /\ width frame' = width frame
  /\ height frame' = height frame
  /\ layoutSizingHorizontal frame' = layoutSizingHorizontal frame
  /\ layoutSizingVertical frame' = layoutSizingVertical frame.
Proof.
  destruct frame. cbn [recalculateNestedFlex].
  by destruct (_ =? _)%nat.
Qed.

Lemma growChild_spec (flexGrowMap : list (nat * Q)) (frame : SceneNode)
    (w : World) (flexGrow : Q) (child : SceneNode) :
  isAutoLayout frame = true ->
  let child' := growChild flexGrowMap frame w flexGrow child in
  nid child' = nid child
  /\ if isHorizontal frame
     then width child' = calculatedSize flexGrowMap frame w flexGrow
          /\ layoutSizingHorizontal child' = FIXED
          /\ height child' = height child
     else height child' = calculatedSize flexGrowMap frame w flexGrow
          /\ layoutSizingVertical child' = FIXED
          /\ width child' = width child.
Proof.
  intros Hauto child'. unfold child', growChild.
  unfold safeSetLayoutSizingHorizontal, safeSetLayoutSizingVertical,
    sizingAccepted. rewrite Hauto.
  destruct (isHorizontal frame).
  - destruct (recalculateNestedFlex_frame (nestedFlexGrowMap w)
                (set_layoutSizingHorizontal FIXED
                   (resize (calculatedSize flexGrowMap frame w flexGrow)
                      (height child) child))
                (calculatedSize flexGrowMap frame w flexGrow))
      as (-> & -> & -> & -> & _).
    by destruct child.
  - by destruct child.
Qed.

Lemma sumQ_zero {A} (l : list A) : sumQ (map (fun _ => 0) l) == 0.
Proof.
  induction l as [| x l IH]; [reflexivity |].
  cbn [map]. rewrite sumQ_cons, IH. ring.
Qed.

(** C1.  When the distribution pass runs on an auto-layout container (a
    positive total weight, more than one counted child, a positive
    available space), every child that the ledger holds with weight
    [flexGrow] is resized on the growth axis to
    [available * (flexGrow / total)], keeps its size on the other axis,
    and its sizing mode on the growth axis becomes FIXED.  [available] is
    the container size (the stored intended width when there is one, for
    a horizontal container) less the padding at the start, the padding at
    the end, the sizes on the growth axis of the counted children without
    a positive weight, and one gap less than there are counted children;
    [total] is the sum of the positive weights that the ledger holds for
    the counted children. *)
Theorem distribution_is_proportional (flexGrowMap : list (nat * Q))
    (frame : SceneNode) (w : World) :
  let horizontal := bool_decide (layoutMode frame = HORIZONTAL) in
  let counted (c : SceneNode) :=
    negb (bool_decide (layoutPositioning c = ABSOLUTE))
    && negb (isSpacerRole c) && negb (isMarginSideRole c) in
  let weight (c : SceneNode) :=
    match ledgerGet (nid c) flexGrowMap with
    | Some g => if Qgtb g 0 then Some g else None
    | None => None
    end in
  let size (c : SceneNode) := if horizontal then width c else height c in
  let cs := filter counted (children frame) in
  let total := sumQ (map (fun c => default 0 (weight c)) cs) in
  let fixed :=
    sumQ (map (fun c => match weight c with
                        | Some _ => 0
                        | None => size c
                        end) cs) in
  let gaps := (natQ (length cs) - 1) * itemSpacing frame in
  let container :=
    if horizontal
    then match intendedFixedWidth w !! nid frame with
         | Some storedWidth => storedWidth
         | None => width frame
         end
    else height frame in
  let paddingStart :=
    if horizontal then paddingLeft frame else paddingTop frame in
  let paddingEnd :=
    if horizontal then paddingRight frame else paddingBottom frame in
  let available := container - paddingStart - paddingEnd - fixed - gaps in
  let frame' := distributeFlexGrow flexGrowMap frame w in
  ntype frame = FRAME -> layoutMode frame <> NONE ->
  NoDup (map fst flexGrowMap) ->
  0 < total -> (1 < length cs)%nat -> 0 < available ->
  forall i child flexGrow,
    children frame !! i = Some child ->
    ledgerGet (nid child) flexGrowMap = Some flexGrow ->
    exists child',
      children frame' !! i = Some child' /\ nid child' = nid child
      /\ if horizontal
         then width child' = available * (flexGrow / total)
              /\ height child' = height child
              /\ layoutSizingHorizontal child' = FIXED
         else height child' = available * (flexGrow / total)
              /\ width child' = width child
              /\ layoutSizingVertical child' = FIXED.
Proof.
  intros horizontal counted weight size cs total fixed gaps container
    paddingStart paddingEnd available frame'
    Hframe Hmode Hnd Htotal Hcount Havailable.
  change total with (totalFlexGrow flexGrowMap frame) in *.
  change (length cs) with (gapCount frame) in *.
  change available with (availableSpace flexGrowMap frame w) in *.
  change horizontal with (isHorizontal frame) in *.
  assert (Hauto : isAutoLayout frame = true).
  { unfold isAutoLayout, hasLayoutMode.
    rewrite (bool_decide_eq_true_2 _ Hframe).
    by rewrite (bool_decide_eq_false_2 _ Hmode). }
  assert (Hledger : (0 <? length flexGrowMap)%nat = true).
  { destruct flexGrowMap; [| done]. exfalso.
    unfold totalFlexGrow, ledgerWeight in Htotal. cbn in Htotal.
    rewrite sumQ_zero in Htotal. lra. }
  intros i child flexGrow Hi Hg.
  unfold frame', distributeFlexGrow.
  rewrite Hledger, (bool_decide_eq_false_2 _ Hmode).
  rewrite (proj2 (Qgtb_true _ _) Htotal), (proj2 (Nat.ltb_lt _ _) Hcount).
  rewrite (proj2 (Qgtb_true _ _) Havailable). cbn [andb negb].
  rewrite (fold_updateChild (growChild flexGrowMap frame w) _ _ Hnd);
    [| intros g c; apply (growChild_spec flexGrowMap frame w g c Hauto)].
  exists (growChild flexGrowMap frame w flexGrow child).
  split.
  { change (map ?f ?l) with (f <$> l). rewrite list_lookup_fmap, Hi. cbn.
    by rewrite Hg. }
  destruct (growChild_spec flexGrowMap frame w flexGrow child Hauto)
    as [Hid Hsize].
  split; [exact Hid |].
  destruct (isHorizontal frame).
  + destruct Hsize as (-> & -> & ->). repeat split; reflexivity.
  + destruct Hsize as (-> & -> & ->). repeat split; reflexivity.
Qed.

(** A container 460 wide with paddings 20 and 10, gaps of 5, one child of
    fixed width 15 and three children with weights 1, 1, 2:
    460 - 20 - 10 - 15 - 3 * 5 = 400 is distributed as 100, 100, 200. *)
Lemma distribution_is_proportional_witness :
  let child (id : nat) :=
    set_layoutSizingHorizontal FILL (resize 0 40 (newFrame id)) in
  let frame :=
    set_children [child 1%nat; resize 15 40 (newFrame 4); child 2%nat;
                  child 3%nat]
      (set_itemSpacing 5
         (set_paddingRight 10
            (set_paddingLeft 20
               (set_layoutMode HORIZONTAL (resize 460 40 (newFrame 0)))))) in
  let flexGrowMap := [(1%nat, 1); (2%nat, 1); (3%nat, 2)] in
  let frame' := distributeFlexGrow flexGrowMap frame emptyWorld in
  (forall i c flexGrow,
     children frame !! i = Some c ->
     ledgerGet (nid c) flexGrowMap = Some flexGrow ->
     exists c',
       children frame' !! i = Some c' /\ nid c' = nid c
       /\ width c' = (460 - 20 - 10 - (0 + 0 + 15 + 0 + 0) - (4 - 1) * 5)
                     * (flexGrow / (0 + 1 + 0 + 1 + 2))
       /\ height c' = height c
       /\ layoutSizingHorizontal c' = FIXED)
  /\ Forall2 Qeq (map width (children frame')) [100; 15; 100; 200]
  /\ map layoutSizingHorizontal (children frame) = [FILL; FIXED; FILL; FILL]
  /\ map layoutSizingHorizontal (children frame')
     = [FIXED; FIXED; FIXED; FIXED].
Proof.
  intros child frame flexGrowMap frame'.
  split; [| split; [repeat constructor | split; reflexivity]].
  intros i c flexGrow Hi Hg.
  destruct (distribution_is_proportional flexGrowMap frame emptyWorld
              eq_refl ltac:(discriminate)
              ltac:(cbn; refine (bool_decide_unpack _ _); vm_compute; exact I)
              ltac:(reflexivity) ltac:(vm_compute; lia)
              ltac:(reflexivity) i c flexGrow Hi Hg)
    as (c' & Hc' & Hid & Hsize).
  exists c'. split; [exact Hc' |]. split; [exact Hid |]. exact Hsize.
Defined.

End FlexFacts.

(** ** Order of creation of the children *)

Module StackingFacts.
Import Figma Types Synth Create Stacking ListFacts.
Local Open Scope Q_scope.

Lemma index_lt (i j : nat) :
  inject_Z (Z.of_nat i) - inject_Z (Z.of_nat j) < 0 <-> (i < j)%nat.
Proof.
  split; intros H.
  - assert (H' : inject_Z (Z.of_nat i) < inject_Z (Z.of_nat j)) by lra.
    rewrite <- Zlt_Qlt in H'. lia.
  - assert (H' : inject_Z (Z.of_nat i) < inject_Z (Z.of_nat j))
      by (rewrite <- Zlt_Qlt; lia).
    lra.
Qed.

(** The comparator is negative exactly on the pairs in stacking order. *)
Lemma compareAbsolute_below (a b : Entry) :
  Qltb (compareAbsolute a b) 0 = true <-> stacksBelow a b.
Proof.
  unfold compareAbsolute, stacksBelow. rewrite Qltb_true.
  destruct (Qeq_bool (zIndexOf a) (zIndexOf b)) eqn:E; cbn [negb].
  - apply Qeq_bool_iff in E. rewrite index_lt. split.
    + intros H. by right.
    + intros [H | [_ H]]; [lra | done].
  - apply Qeq_bool_neq in E. split.
    + intros H. left. lra.
    + intros [H | [H _]]; [lra | done].
Qed.

Lemma compareAbsolute_above (a b : Entry) :
  Qltb (compareAbsolute a b) 0 = false -> snd b <> snd a -> stacksBelow b a.
Proof.
  intros H Hne. unfold stacksBelow.
  assert (Hn : ~ stacksBelow a b).
  { intros Hb. apply compareAbsolute_below in Hb. congruence. }
  unfold stacksBelow in Hn.
  destruct (Qlt_le_dec (zIndexOf b) (zIndexOf a)) as [Hlt | Hle]; [by left |].
  right.
  assert (E : zIndexOf a == zIndexOf b).
  { apply Qle_antisym; [exact Hle |].
    apply Qnot_lt_le. intros ?. apply Hn. by left. }
  split; [by symmetry |].
  destruct (Nat.lt_trichotomy (snd b) (snd a)) as [? | [? | ?]];
    [done | done |]. exfalso. apply Hn. by right.
Qed.

Lemma stacksBelow_trans (a b c : Entry) :
  stacksBelow a b -> stacksBelow b c -> stacksBelow a c.
Proof.
  unfold stacksBelow. intros [H1 | [H1 H1']] [H2 | [H2 H2']].
  - left. lra.
  - left. lra.
  - left. lra.
  - right. split; [lra | lia].
Qed.

Lemma insertSorted_perm {A} (cmp : A -> A -> Q) (x : A) (l : list A) :
  insertSorted cmp x l ≡ₚ x :: l.
Proof.
  induction l as [| y l IH]; [done |].
  cbn. destruct (Qltb _ _); [done |].
  rewrite IH. apply Permutation_swap.
Qed.

Lemma fold_insert_perm {A} (cmp : A -> A -> Q) (l acc : list A) :
  fold_left (fun acc x => insertSorted cmp x acc) l acc ≡ₚ acc ++ l.
Proof.
  revert acc. induction l as [| x l IH]; intros acc; cbn.
  - by rewrite app_nil_r.
  - rewrite IH, insertSorted_perm. apply Permutation_middle.
Qed.

Lemma sortWith_perm {A} (cmp : A -> A -> Q) (l : list A) :
  sortWith cmp l ≡ₚ l.
Proof. apply (fold_insert_perm cmp l []). Qed.

Lemma insertSorted_sorted (x : Entry) (l : list Entry) :
  StronglySorted stacksBelow l ->
  Forall (fun y => snd y <> snd x) l ->
  StronglySorted stacksBelow (insertSorted compareAbsolute x l).
Proof.
  induction 1 as [| y l Hl IH Hy]; intros Hx.
  - repeat constructor.
  - apply Forall_cons in Hx as [Hyx Hx]. cbn.
    destruct (Qltb (compareAbsolute x y) 0) eqn:E.
    + apply compareAbsolute_below in E.
      constructor; [by constructor |].
      constructor; [done |].
      eapply Forall_impl; [exact Hy |].
      intros z Hz. by eapply stacksBelow_trans.
    + constructor; [by apply IH |].
      rewrite insertSorted_perm. constructor; [| done].
      by apply compareAbsolute_above.
Qed.

Lemma fold_insert_sorted (l acc : list Entry) :
  StronglySorted stacksBelow acc ->
  NoDup (map snd (acc ++ l)) ->
  StronglySorted stacksBelow
    (fold_left (fun acc x => insertSorted compareAbsolute x acc) l acc).
Proof.
  revert acc. induction l as [| x l IH]; intros acc Hacc Hnd; [done |].
  cbn. apply IH.
  - apply insertSorted_sorted; [done |].
    apply Forall_forall. intros y Hy E.
    change (map ?f ?l) with (f <$> l) in Hnd.
    rewrite fmap_app, fmap_cons in Hnd.
    apply NoDup_app in Hnd as (_ & Hnd & _).
    apply (Hnd (snd x)); [| left].
    rewrite <- E. by apply list_elem_of_fmap_2.
  - change (map ?f ?l) with (f <$> l) in *.
    rewrite <- Permutation_middle in Hnd.
    rewrite (insertSorted_perm _ x acc). exact Hnd.
Qed.

Lemma sortWith_sorted (l : list Entry) :
  NoDup (map snd l) -> StronglySorted stacksBelow (sortWith compareAbsolute l).
Proof. intros H. apply fold_insert_sorted; [constructor | done]. Qed.

Lemma combine_seq_snd {A} (l : list A) (start : nat) :
  map snd (combine l (seq start (length l))) = seq start (length l).
Proof.
  revert start. induction l as [| x l IH]; intros start; [done |].
  cbn. by rewrite IH.
Qed.

Lemma combine_seq_sorted {A} (l : list A) (start : nat) :
  StronglySorted (fun a b : A * nat => (snd a < snd b)%nat)
    (combine l (seq start (length l)))
  /\ Forall (fun a : A * nat => (start <= snd a)%nat)
       (combine l (seq start (length l))).
Proof.
  revert start. induction l as [| x l IH]; intros start.
  - split; constructor.
  - destruct (IH (S start)) as [Hs Hf]. cbn. split.
    + constructor; [done |].
      eapply Forall_impl; [exact Hf |]. cbn. lia.
    + constructor; [cbn; lia |].
      eapply Forall_impl; [exact Hf |]. cbn. lia.
Qed.

Lemma withIndex_NoDup (cs : list ParsedElement) :
  NoDup (map snd (withIndex cs)).
Proof. unfold withIndex. rewrite combine_seq_snd. apply NoDup_seq. Qed.

Lemma absoluteChildren_sorted (cs : list ParsedElement) :
  StronglySorted stacksBelow (absoluteChildren cs).
Proof.
  apply sortWith_sorted, NoDup_map_filter, withIndex_NoDup.
Qed.

Lemma absoluteChildren_elem (cs : list ParsedElement) (e : Entry) :
  e ∈ absoluteChildren cs
  <-> e ∈ withIndex cs /\ isAbsoluteChild e = true.
Proof.
  unfold absoluteChildren. rewrite sortWith_perm, list_elem_of_filter.
  rewrite Is_true_true. tauto.
Qed.

(** The three groups of children, and the order inside each. *)
Lemma creationOrder_spec (cs : list ParsedElement) :
  creationOrder cs ≡ₚ withIndex cs
  /\ (forall e, e ∈ absoluteBeforeContent cs
        <-> e ∈ withIndex cs /\ isAbsoluteChild e = true /\ zIndexOf e < 1)
  /\ (forall e, e ∈ absoluteAfterContent cs
        <-> e ∈ withIndex cs /\ isAbsoluteChild e = true
            /\ 1 <= zIndexOf e)
  /\ (forall e, e ∈ regularChildren cs
        <-> e ∈ withIndex cs /\ isAbsoluteChild e = false)
  /\ StronglySorted stacksBelow (absoluteBeforeContent cs)
  /\ StronglySorted documentOrder (regularChildren cs)
  /\ StronglySorted stacksBelow (absoluteAfterContent cs).
Proof.
  split; [| split; [| split; [| split; [| split; [| split]]]]].
  - unfold creationOrder, absoluteBeforeContent, absoluteAfterContent.
    rewrite (Permutation_app_comm (regularChildren cs)), app_assoc.
    rewrite (filter_partition (fun e => Qltb (zIndexOf e) 1)).
    unfold absoluteChildren, regularChildren. rewrite sortWith_perm.
    apply filter_partition.
  - intros e. unfold absoluteBeforeContent.
    rewrite list_elem_of_filter, absoluteChildren_elem, Is_true_true.
    rewrite Qltb_true. tauto.
  - intros e. unfold absoluteAfterContent.
    rewrite list_elem_of_filter, absoluteChildren_elem, Is_true_true.
    rewrite negb_true_iff.
    assert (Qltb (zIndexOf e) 1 = false <-> 1 <= zIndexOf e); [| tauto].
    destruct (Qltb (zIndexOf e) 1) eqn:E.
    + apply Qltb_true in E. split; [done | lra].
    + split; [intros _ | done]. apply Qnot_lt_le. intros H.
      apply Qltb_true in H. congruence.
  - intros e. unfold regularChildren.
    rewrite list_elem_of_filter, Is_true_true, negb_true_iff. tauto.
  - apply StronglySorted_bool_filter, absoluteChildren_sorted.
  - apply StronglySorted_bool_filter, combine_seq_sorted.
  - apply (StronglySorted_bool_filter _
             (fun e => negb (Qltb (zIndexOf e) 1))), absoluteChildren_sorted.
Qed.

End StackingFacts.

(** ** Fonts of a text *)

Module FontFacts.
Import Figma Types Synth Create Code Stacking FontSpec ListFacts StackingFacts.

Lemma bind_run {A B} (m : M A) (k : A -> M B) (w : World) :
  (m ≫= k) w
  = match m w with
    | (Ok a, w') => k a w'
    | (Throw e, w') => (Throw e, w')
    end.
Proof. reflexivity. Qed.

Lemma foldM_app {A B} (f : B -> A -> M B) (b : B) (xs ys : list A) (w : World) :
  foldM f b (xs ++ ys) w
  = match foldM f b xs w with
    | (Ok b', w') => foldM f b' ys w'
    | (Throw e, w') => (Throw e, w')
    end.
Proof.
  revert b w. induction xs as [| x xs IH]; intros b w; cbn [foldM app].
  - reflexivity.
  - unfold mbind, M_bind. destruct (f b x w) as [[b' | e] w']; [apply IH | reflexivity].
Qed.

(** A computation throws when its first part does, and when whatever its
    first part returns the rest does. *)
Lemma throws_bind_l {A B} (m : M A) (k : A -> M B) :
  alwaysThrows m -> alwaysThrows (m ≫= k).
Proof.
  intros H w. destruct (H w) as (e & w' & E). exists e, w'.
  by rewrite bind_run, E.
Qed.

Lemma throws_bind_r {A B} (m : M A) (k : A -> M B) :
  (forall a, alwaysThrows (k a)) -> alwaysThrows (m ≫= k).
Proof.
  intros H w. rewrite bind_run.
  destruct (m w) as [[a | e] w1]; [apply H | by exists e, w1].
Qed.

(** A loop throws when its body throws for one of the elements. *)
Lemma throws_foldM {A B} (f : B -> A -> M B) (x : A) (xs : list A) (b : B) :
  x ∈ xs -> (forall b, alwaysThrows (f b x)) -> alwaysThrows (foldM f b xs).
Proof.
  intros Hin Hx. revert b.
  induction Hin as [x xs | x y xs Hin IH]; intros b; cbn [foldM].
  - apply throws_bind_l, Hx.
  - apply throws_bind_r. intros b'. by apply IH.
Qed.

Lemma throws_throw {A} (message : string) : alwaysThrows (@throw A message).
Proof. intros w. by exists message, w. Qed.

(** The adjustments that the loop over the regular children makes to the
    styles of a child change its margins only. *)
Lemma keepsFonts_id : keepsFonts (fun s => s).
Proof. intros tagName styles textContent children light. done. Qed.

Lemma keepsFonts_compose (f g : ParsedStyle -> ParsedStyle) :
  keepsFonts f -> keepsFonts g -> keepsFonts (fun s => f (g s)).
Proof.
  intros Hf Hg tagName styles textContent children light.
  destruct (Hf tagName (g styles) textContent children light)
    as (-> & -> & -> & ->).
  apply Hg.
Qed.

Lemma keepsFonts_fill {A} (get : ParsedStyle -> option A)
    (put : ParsedStyle -> ParsedStyle) :
  keepsFonts put ->
  keepsFonts (fun s => match get s with None => put s | Some _ => s end).
Proof.
  intros H tagName styles textContent children light.
  destruct (get styles); [done | apply H].
Qed.

Lemma keepsFonts_margins (v : option MarginValue) :
  keepsFonts (with_marginTop v) /\ keepsFonts (with_marginRight v)
  /\ keepsFonts (with_marginBottom v) /\ keepsFonts (with_marginLeft v).
Proof.
  repeat split; intros tagName styles textContent children light;
    destruct styles; reflexivity.
Qed.

Lemma keepsFonts_expandMargin : keepsFonts expandMargin.
Proof.
  intros tagName styles textContent children light.
  unfold expandMargin. destruct (s_margin styles) as [margin |]; [| done].
  destruct (keepsFonts_margins (Some (MarginPx margin)))
    as (Ht & Hr & Hb & Hl).
  exact (keepsFonts_compose _ _ (keepsFonts_fill s_marginLeft _ Hl)
           (keepsFonts_compose _ _ (keepsFonts_fill s_marginBottom _ Hb)
              (keepsFonts_compose _ _ (keepsFonts_fill s_marginRight _ Hr)
                 (keepsFonts_fill s_marginTop _ Ht)))
           tagName styles textContent children light).
Qed.

Lemma keepsFonts_withoutHMargins :
  keepsFonts (fun s => withoutHMargins (expandMargin s)).
Proof.
  destruct (keepsFonts_margins None) as (_ & Hr & _ & Hl).
  exact (keepsFonts_compose _ _ (keepsFonts_compose _ _ Hr Hl)
           keepsFonts_expandMargin).
Qed.

Lemma combine_seq_elem {A} (l : list A) (start i : nat) (x : A) :
  l !! i = Some x -> (x, (start + i)%nat) ∈ combine l (seq start (length l)).
Proof.
  revert start i. induction l as [| y l IH]; intros start i H; [done |].
  destruct i as [| i]; cbn in *.
  - injection H as ->. rewrite Nat.add_0_r. left.
  - right. rewrite <- Nat.add_succ_comm. by apply IH.
Qed.

Lemma withIndex_elem (cs : list ParsedElement) (i : nat) (c : ParsedElement) :
  cs !! i = Some c -> (c, i) ∈ withIndex cs.
Proof. intros H. by apply (combine_seq_elem cs 0 i c). Qed.

Section Fonts.
Variable fontAvailable : FontName -> bool.

(** What [setFontWithFallback] does, by the first tier that loads. *)
Lemma setFontWithFallback_spec (textNode : SceneNode)
    (fontFamily fontStyle : string) (w : World) :
  setFontWithFallback fontAvailable textNode fontFamily fontStyle w
  = if fontAvailable (mkFontName fontFamily fontStyle)
    then (Ok (set_fontName (Some (mkFontName fontFamily fontStyle)) textNode),
          set_fontLoads (fontLoads w ++ [mkFontName fontFamily fontStyle]) w)
    else if fontAvailable (mkFontName "Inter" fontStyle)
    then (Ok (set_fontName (Some (mkFontName "Inter" fontStyle)) textNode),
          set_fontLoads
            (fontLoads w ++ [mkFontName fontFamily fontStyle;
                             mkFontName "Inter" fontStyle]) w)
    else if fontAvailable (mkFontName "Inter" "Regular")
    then (Ok (set_fontName (Some (mkFontName "Inter" "Regular")) textNode),
          set_fontLoads (fontLoads w ++ fontTiers fontFamily fontStyle) w)
    else (Throw "font could not be loaded",
          set_fontLoads (fontLoads w ++ fontTiers fontFamily fontStyle) w).
Proof.
  unfold setFontWithFallback, tryCatch, loadFontAsync, mbind, M_bind, mret,
    M_ret, fontTiers.
  destruct (fontAvailable (mkFontName fontFamily fontStyle)); [reflexivity |].
  cbn [fontLoads set_fontLoads].
  destruct (fontAvailable (mkFontName "Inter" fontStyle)).
  { rewrite <- app_assoc. reflexivity. }
  cbn [fontLoads set_fontLoads].
  destruct (fontAvailable (mkFontName "Inter" "Regular"));
    rewrite <- !app_assoc; reflexivity.
Qed.

Lemma fontName_wrapTextLeaf (styles : ParsedStyle) (parent : SceneNode)
    (parentWidth : option Q) (textNode : SceneNode) :
  fontName (wrapTextLeaf styles parent parentWidth textNode)
  = fontName textNode.
Proof.
  unfold wrapTextLeaf.
  repeat match goal with
         | |- context [if ?b then _ else _] => destruct b
         end; reflexivity.
Qed.

Lemma exhausted_inv (fontFamily fontStyle : string) :
  exhausted fontAvailable fontFamily fontStyle ->
  fontAvailable (mkFontName fontFamily fontStyle) = false
  /\ fontAvailable (mkFontName "Inter" fontStyle) = false
  /\ fontAvailable (mkFontName "Inter" "Regular") = false.
Proof.
  unfold exhausted, fontTiers. intros H.
  apply Forall_cons in H as [H1 H]. apply Forall_cons in H as [H2 H].
  by apply Forall_cons in H as [H3 _].
Qed.

(** The text-leaf branch, as a run of [setFontWithFallback] on a new text
    node. *)
Lemma createTextLeaf_run (tagName : string) (styles : ParsedStyle)
    (parent : SceneNode) (parentWidth : option Q) (w : World) :
  createTextLeaf fontAvailable tagName styles parent parentWidth w
  = match setFontWithFallback fontAvailable (newText (nextId w))
            (requestedFamily styles) (leafFontStyle tagName styles)
            (set_nextId (S (nextId w)) w) with
    | (Ok node, w') =>
        (Ok (set_name (Name tagName)
               (wrapTextLeaf styles parent parentWidth node)), w')
    | (Throw e, w') => (Throw e, w')
    end.
Proof. reflexivity. Qed.

(** The text of a frame, as a run of [setFontWithFallback] on a new text
    node: the frame that comes back has the node as its last child. *)
Lemma addOwnText_run (tagName : string) (styles : ParsedStyle)
    (textContent : option string) (frame : SceneNode) (w : World) :
  nonEmpty textContent = true ->
  match setFontWithFallback fontAvailable (newText (nextId w))
          (requestedFamily styles) (fontStyleOf styles false)
          (set_nextId (S (nextId w)) w) with
  | (Ok node, w') =>
      exists frame' node',
        addOwnText fontAvailable tagName styles textContent frame w
        = (Ok frame', w')
        /\ children frame' = children frame ++ [node']
        /\ fontName node' = fontName node /\ nid node' = nid node
        /\ Hoare.shell frame' = Hoare.shell
             match s_textAlign styles, layoutMode frame with
             | Some TA_center, VERTICAL =>
                 set_counterAxisAlignItems CENTER frame
             | Some TA_center, HORIZONTAL =>
                 set_primaryAxisAlignItems CENTER frame
             | _, _ => frame
             end
  | (Throw e, w') =>
      addOwnText fontAvailable tagName styles textContent frame w
      = (Throw e, w')
  end.
Proof.
  intros Htext. unfold addOwnText. rewrite Htext.
  rewrite bind_run.
  change (createText w)
    with (Ok (newText (nextId w)), set_nextId (S (nextId w)) w).
  cbv iota beta. rewrite bind_run.
  destruct (setFontWithFallback _ _ _ _ _) as [[node | e] w']; [| reflexivity].
  cbv zeta.
  match goal with
  | |- context [set_name (Name "text") ?t] => set (T := t)
  end.
  assert (HT : fontName T = fontName node /\ nid T = nid node).
  { unfold T.
    repeat match goal with
           | |- context [if ?b then _ else _] => destruct b
           end; by destruct node. }
  clearbody T. destruct HT as [<- <-].
  eexists _, (set_name (Name "text") T). split; [reflexivity |].
  unfold Hoare.shell, appendChild.
  destruct (s_textAlign styles) as [[] |], frame as [? ? ? ? ? []];
    cbn; repeat split; by destruct T.
Qed.

Lemma leaf_throws (tagName : string) (styles : ParsedStyle)
    (textContent : option string) (children : list ParsedElement)
    (adjust : ParsedStyle -> ParsedStyle) (parent : SceneNode)
    (pw ph : option Q) :
  keepsFonts adjust ->
  isTextLeaf tagName styles textContent children = true ->
  exhausted fontAvailable (requestedFamily styles)
    (leafFontStyle tagName styles) ->
  alwaysThrows
    (createFigmaNode fontAvailable
       (mkParsedElement tagName styles textContent children)
       adjust parent pw ph).
Proof.
  intros Hadjust Hleaf Hlost w.
  destruct (Hadjust tagName styles textContent children true)
    as (E1 & E2 & E3 & _).
  cbn [createFigmaNode e_tagName e_styles e_textContent e_children].
  rewrite E1, Hleaf, createTextLeaf_run, setFontWithFallback_spec, E2, E3.
  destruct (exhausted_inv _ _ Hlost) as (-> & -> & ->).
  by eexists _, _.
Qed.

Lemma addOwnText_throws (tagName : string) (styles : ParsedStyle)
    (textContent : option string) (frame : SceneNode) :
  nonEmpty textContent = true ->
  exhausted fontAvailable (requestedFamily styles) (fontStyleOf styles false) ->
  alwaysThrows (addOwnText fontAvailable tagName styles textContent frame).
Proof.
  intros Htext Hlost w.
  pose proof (addOwnText_run tagName styles textContent frame w Htext) as H.
  rewrite setFontWithFallback_spec in H.
  destruct (exhausted_inv _ _ Hlost) as (E1 & E2 & E3).
  rewrite E1, E2, E3 in H. by eexists _, _.
Qed.

(** The body of the loop over the regular children throws when the call
    for the child does. *)
Lemma createRegularChild_throws (pw ph : option Q) (st : Loop)
    (child : ParsedElement) (call : ChildCall) :
  (forall adjust parent pw ph,
     keepsFonts adjust -> alwaysThrows (call adjust parent pw ph)) ->
  alwaysThrows (createRegularChild pw ph st child call).
Proof.
  intros Hcall. unfold createRegularChild. cbv zeta.
  do 3 (apply throws_bind_r; intros ?).
  apply throws_bind_l.
  repeat match goal with
         | |- alwaysThrows (if ?b then _ else _) => destruct b
         end.
  - apply throws_bind_r; intros ?. apply throws_bind_r; intros ?.
    apply throws_bind_l, Hcall, keepsFonts_withoutHMargins.
  - apply throws_bind_l, Hcall, keepsFonts_expandMargin.
  - apply throws_bind_l, Hcall, keepsFonts_expandMargin.
Qed.

Lemma createAbsoluteChild_throws (pw ph : option Q) (calls : list ChildCall)
    (frame : SceneNode) (entry : Entry) :
  (forall call, calls !! snd entry = Some call ->
     forall parent, alwaysThrows (call (fun s => s) parent pw ph)) ->
  alwaysThrows (createAbsoluteChild pw ph calls frame entry).
Proof.
  intros Hcall. unfold createAbsoluteChild.
  destruct (calls !! snd entry) as [call |]; [| apply throws_throw].
  apply throws_bind_l. by apply Hcall.
Qed.

(** [createChildren] throws when the call for one of the children
    does. *)
Lemma createChildren_throws (styles : ParsedStyle) (cs : list ParsedElement)
    (pw ph : option Q) (frame : SceneNode) (c : ParsedElement) :
  c ∈ cs ->
  (forall adjust parent pw ph,
     keepsFonts adjust ->
     alwaysThrows (createFigmaNode fontAvailable c adjust parent pw ph)) ->
  alwaysThrows
    (createChildren styles cs (map (createFigmaNode fontAvailable) cs)
       pw ph frame).
Proof.
  intros Hin Hc.
  apply list_elem_of_lookup in Hin as [i Hi].
  assert (Hcalls : forall call,
            map (createFigmaNode fontAvailable) cs !! i = Some call ->
            call = createFigmaNode fontAvailable c).
  { intros call. change (map ?f ?l) with (f <$> l).
    rewrite list_lookup_fmap, Hi. by intros [= <-]. }
  pose proof (withIndex_elem cs i c Hi) as Hentry.
  destruct (creationOrder_spec cs) as [Hperm _].
  rewrite <- Hperm in Hentry. unfold creationOrder in Hentry.
  unfold createChildren.
  apply elem_of_app in Hentry as [Hentry | Hentry];
    [| apply elem_of_app in Hentry as [Hentry | Hentry]].
  - apply throws_bind_l, (throws_foldM _ (c, i)); [exact Hentry |].
    intros b. apply createAbsoluteChild_throws.
    intros call ->%Hcalls parent. apply Hc, keepsFonts_id.
  - apply throws_bind_r; intros ?.
    apply throws_bind_l, (throws_foldM _ (c, i)); [exact Hentry |].
    intros b. cbn [fst snd].
    destruct (map (createFigmaNode fontAvailable) cs !! i) as [call |] eqn:E;
      [| apply throws_throw].
    rewrite (Hcalls call eq_refl). by apply createRegularChild_throws.
  - do 3 (apply throws_bind_r; intros ?).
    apply throws_bind_l, (throws_foldM _ (c, i)); [exact Hentry |].
    intros b. apply createAbsoluteChild_throws.
    intros call ->%Hcalls parent. apply Hc, keepsFonts_id.
Qed.

(** An element that holds a text whose fonts cannot be loaded makes
    [createFigmaNode] throw, wherever the text is below it. *)
Lemma lost_font_throws (element : ParsedElement) :
  needsLostFont fontAvailable element ->
  forall adjust parent pw ph,
    keepsFonts adjust ->
    alwaysThrows (createFigmaNode fontAvailable element adjust parent pw ph).
Proof.
  induction 1 as [tagName styles textContent children Hleaf Hlost
                 | tagName styles textContent children Hleaf Htext Hlost
                 | tagName styles textContent children child Hleaf Hin _ IH];
    intros adjust parent pw ph Hadjust.
  - by apply leaf_throws.
  - destruct (Hadjust tagName styles textContent children false)
      as (E1 & E2 & _ & E4).
    cbn [createFigmaNode e_tagName e_styles e_textContent e_children].
    rewrite E1, Hleaf.
    do 3 (apply throws_bind_r; intros ?).
    apply throws_bind_l, addOwnText_throws; [exact Htext |].
    by rewrite E2, E4.
  - destruct (Hadjust tagName styles textContent children false)
      as (E1 & _).
    cbn [createFigmaNode e_tagName e_styles e_textContent e_children].
    rewrite E1, Hleaf.
    do 4 (apply throws_bind_r; intros ?).
    apply (createChildren_throws _ _ _ _ _ child);
      [by apply list_elem_of_In | exact IH].
Qed.

(** C8, amended.  A text asks for its fonts in three tiers, in
    order, each only after the one before it failed: the requested family
    with the derived style, Inter with that style, Inter Regular.  This
    is so at both places where a text node is made, for a text leaf and
    for the text of a frame; the node carries the first font that loaded
    and nothing else is done in between; a text leaf reads its family
    and style from the styles as its parent adjusted them.  When all
    three fail nothing catches the error: [createFigmaNode] throws, for
    a text leaf, for a
    frame with such a text of its own, and for a frame with such an
    element anywhere below it; a request with such an element fails as a
    whole.  A request fails where its first element fails: with the
    error and in the world of that element, whatever the elements after
    it are, which are not synthesized. *)
Theorem font_fallback_exhausted_is_fatal :
  (* the tiers of a text leaf *)
  (forall tagName styles0 text children adjust parent pw ph w,
     let styles := adjust styles0 in
     isTextLeaf tagName styles text children = true ->
     let f1 :=
       mkFontName (requestedFamily styles) (leafFontStyle tagName styles) in
     let f2 := mkFontName "Inter" (leafFontStyle tagName styles) in
     let f3 := mkFontName "Inter" "Regular" in
     let res :=
       createFigmaNode fontAvailable
         (mkParsedElement tagName styles0 text children) adjust
         parent pw ph w in
     let tried (fonts : list FontName) :=
       set_fontLoads (fontLoads w ++ fonts) (set_nextId (S (nextId w)) w) in
     if fontAvailable f1 then
       (exists node, fst res = Ok node /\ fontName node = Some f1)
       /\ snd res = tried [f1]
     else if fontAvailable f2 then
       (exists node, fst res = Ok node /\ fontName node = Some f2)
       /\ snd res = tried [f1; f2]
     else if fontAvailable f3 then
       (exists node, fst res = Ok node /\ fontName node = Some f3)
       /\ snd res = tried [f1; f2; f3]
     else res = (Throw "font could not be loaded", tried [f1; f2; f3]))
  /\
  (* the tiers of the text of a frame *)
  (forall tagName styles text frame w,
     nonEmpty text = true ->
     let f1 :=
       mkFontName (requestedFamily styles) (fontStyleOf styles false) in
     let f2 := mkFontName "Inter" (fontStyleOf styles false) in
     let f3 := mkFontName "Inter" "Regular" in
     let res := addOwnText fontAvailable tagName styles text frame w in
     let tried (fonts : list FontName) :=
       set_fontLoads (fontLoads w ++ fonts) (set_nextId (S (nextId w)) w) in
     let textOf (frame' : SceneNode) (font : FontName) :=
       exists node, children frame' = children frame ++ [node]
                    /\ nid node = nextId w /\ fontName node = Some font in
     if fontAvailable f1 then
       (exists frame', fst res = Ok frame' /\ textOf frame' f1)
       /\ snd res = tried [f1]
     else if fontAvailable f2 then
       (exists frame', fst res = Ok frame' /\ textOf frame' f2)
       /\ snd res = tried [f1; f2]
     else if fontAvailable f3 then
       (exists frame', fst res = Ok frame' /\ textOf frame' f3)
       /\ snd res = tried [f1; f2; f3]
     else res = (Throw "font could not be loaded", tried [f1; f2; f3]))
  /\
  (* a lost font anywhere in an element *)
  (forall element parent pw ph,
     needsLostFont fontAvailable element ->
     alwaysThrows
       (createFigmaNode fontAvailable element (fun s => s) parent pw ph))
  /\
  (* a lost font anywhere in a request *)
  (forall elements name parentId,
     Exists (needsLostFont fontAvailable) elements ->
     alwaysThrows
       (handleCreateComponent fontAvailable
          (mkPayload (Some elements) name parentId)))
  /\
  (* the request fails where its first element fails *)
  (forall before element after name parentId w0 w1 root0 root1 w message w',
     createRootFrame name w0 = (Ok root0, w1) ->
     createElements fontAvailable root0 before w1 = (Ok root1, w) ->
     createFigmaNode fontAvailable element (fun s => s) root1 None None w
     = (Throw message, w') ->
     handleCreateComponent fontAvailable
       (mkPayload (Some (before ++ element :: after)) name parentId) w0
     = (Throw message, w')).
Proof.
  split; [| split; [| split; [| split]]].
  - intros tagName styles0 text children adjust parent pw ph w styles Hleaf
      f1 f2 f3 res tried.
    unfold res, tried.
    cbn [createFigmaNode e_tagName e_styles e_textContent e_children].
    fold styles. rewrite Hleaf, createTextLeaf_run, setFontWithFallback_spec.
    unfold fontTiers. fold f1 f2 f3.
    destruct (fontAvailable f1); [| destruct (fontAvailable f2);
                                    [| destruct (fontAvailable f3)]];
      cbn [fst snd];
      first [reflexivity
            | split; [| reflexivity]; eexists; split; [reflexivity |];
              cbn [fontName set_name]; apply fontName_wrapTextLeaf].
  - intros tagName styles text frame w Htext f1 f2 f3 res tried textOf.
    unfold res, tried, textOf.
    pose proof (addOwnText_run tagName styles text frame w Htext) as H.
    rewrite setFontWithFallback_spec in H.
    unfold fontTiers in H. fold f1 f2 f3 in H.
    destruct (fontAvailable f1); [| destruct (fontAvailable f2);
                                    [| destruct (fontAvailable f3)]];
      try (destruct H as (frame' & node' & -> & Hc & Hf & Hid & _);
           cbn [fst snd]; split; [| reflexivity];
           exists frame'; split; [reflexivity |];
           exists node'; split; [exact Hc |]; split; [exact Hid | exact Hf]).
    exact H.
  - intros element parent pw ph Hlost.
    by apply lost_font_throws, keepsFonts_id.
  - intros elements name parentId Hlost.
    unfold handleCreateComponent. apply throws_bind_l.
    unfold buildComponent. cbn [Code.elements Code.name].
    destruct elements as [| e0 es]; [by apply Exists_nil in Hlost |].
    apply throws_bind_r. intros rootFrame. unfold createElements.
    apply Exists_exists in Hlost as (element & Hin & Hlost).
    apply (throws_foldM _ element); [exact Hin |].
    intros root. apply throws_bind_l.
    by apply lost_font_throws, keepsFonts_id.
  - intros before element after name parentId w0 w1 root0 root1 w message w'
      Hroot Hbefore Hthrow.
    unfold handleCreateComponent, buildComponent.
    cbn [Code.elements Code.name].
    destruct (before ++ element :: after) as [| e0 l0] eqn:E;
      [by destruct before |]. rewrite <- E. clear E e0 l0.
    rewrite !bind_run, Hroot.
    unfold createElements. rewrite foldM_app.
    unfold createElements in Hbefore. rewrite Hbefore.
    cbn [foldM]. by rewrite !bind_run, Hthrow.
Qed.

End Fonts.

(** A heading in Roboto asks for Roboto Bold, Inter Bold and Inter
    Regular.  Where only the Inter family can be loaded the heading gets
    Inter Bold after Roboto Bold has failed.  Where no font can be loaded
    a request with the heading inside a box fails, and so does one with a
    button that has a text. *)
Lemma font_fallback_exhausted_is_fatal_witness :
  let roboto := with_fontFamily (Some "Roboto") noStyle in
  let heading := mkParsedElement "h1" roboto (Some "Title") [] in
  let onlyInter (font : FontName) := String.eqb (family font) "Inter" in
  let none (font : FontName) := false in
  (let res :=
     createFigmaNode onlyInter heading (fun s => s) (newFrame 0) None None
       (set_nextId 1 emptyWorld) in
   (exists node, fst res = Ok node
                 /\ fontName node = Some (mkFontName "Inter" "Bold"))
   /\ snd res
      = set_fontLoads
          ([] ++ [mkFontName "Roboto" "Bold"; mkFontName "Inter" "Bold"])
          (set_nextId 2 (set_nextId 1 emptyWorld)))
  /\ alwaysThrows
       (handleCreateComponent none
          (mkPayload
             (Some [mkParsedElement "div" noStyle None [];
                    mkParsedElement "div" noStyle None
                      [mkParsedElement "div" noStyle None []; heading]])
             None None))
  /\ alwaysThrows
       (handleCreateComponent none
          (mkPayload
             (Some [mkParsedElement "button" roboto (Some "Send") []])
             None None)).
Proof.
  intros roboto heading onlyInter none.
  split; [| split].
  - exact (proj1 (font_fallback_exhausted_is_fatal onlyInter)
             "h1" roboto (Some "Title") [] (fun s => s) (newFrame 0) None
             None (set_nextId 1 emptyWorld) eq_refl).
  - apply (proj1 (proj2 (proj2 (proj2
             (font_fallback_exhausted_is_fatal none))))).
    apply Exists_cons_tl, Exists_cons_hd.
    apply (lost_child none "div" noStyle None _ heading eq_refl).
    + right. left. reflexivity.
    + apply (lost_leaf none "h1" roboto (Some "Title") [] eq_refl).
      repeat constructor.
  - apply (proj1 (proj2 (proj2 (proj2
             (font_fallback_exhausted_is_fatal none))))).
    apply Exists_cons_hd.
    apply (lost_own_text none "button" roboto (Some "Send") [] eq_refl eq_refl).
    repeat constructor.
Defined.

(** C8 as stated does not hold: with no font loadable, a request of a
    text leaf followed by a frame fails as a whole.  The three loads were
    tried; the leaf is not kept with a fallback font, the frame after it
    is never created (the only nodes made are the root and the text
    node), and there is no result. *)
Lemma font_exhaustion_aborts_synthesis :
  let res :=
    handleCreateComponent (fun _ => false)
      (mkPayload
         (Some [mkParsedElement "p" noStyle (Some "Title") [];
                mkParsedElement "div" noStyle None []])
         None None) emptyWorld in
  fst res = Throw "font could not be loaded"
  /\ List.length (fontLoads (snd res)) = 3%nat
  /\ nextId (snd res) = 2%nat.
Proof. vm_compute. repeat split. Qed.

End FontFacts.

(** ** The frame that [createFigmaNode] returns *)

Module TreeFacts.
Import Figma Types Synth Create Stacking Hoare ListFacts FontFacts.
Local Open Scope Q_scope.

Lemma bind_Ok {A B} (m : M A) (k : A -> M B) (w w' : World) (b : B) :
  (m ≫= k) w = (Ok b, w') ->
  exists a w1, m w = (Ok a, w1) /\ k a w1 = (Ok b, w').
Proof.
  unfold mbind, M_bind. destruct (m w) as [[a | e] w1]; [| discriminate].
  by exists a, w1.
Qed.

Lemma ret_Ok {A} (a b : A) (w w' : World) :
  (mret a : M A) w = (Ok b, w') -> b = a /\ w' = w.
Proof. by intros [= -> ->]. Qed.


(** *** What the passes over the children leave of a frame *)

Lemma shell_set_children (v : list SceneNode) (n : SceneNode) :
  shell (set_children v n) = shell n.
Proof. reflexivity. Qed.

Lemma shell_appendChild (child n : SceneNode) :
  shell (appendChild child n) = shell n.
Proof. reflexivity. Qed.



(** *** Identities and worlds *)

Lemma extends_refl (skip : option nat) (w : World) : extends skip w w.
Proof. by split. Qed.


Lemma extends_skip (skip : option nat) (w w' : World) :
  extends None w w' -> extends skip w w'.
Proof. intros [N K]. split; [done |]. intros k Hk _. by apply K. Qed.



Lemma extends_nested (key : nat) (v : Q) (w : World) :
  extends None w
    (set_nestedFlexGrowMap (<[key := v]> (nestedFlexGrowMap w)) w).
Proof. by split. Qed.

(** *** The loop over the regular children *)

Lemma advances_refl (st : Loop) (w : World) : advances st w st w.
Proof.
  split; [done |]. split; [exists []; by rewrite app_nil_r |].
  split; [exists []; by rewrite app_nil_r |]. apply extends_refl.
Qed.

Lemma Forall_between {A} (f : A -> nat) (a b a' b' : nat) (l : list A) :
  (a' <= a)%nat -> (b <= b')%nat ->
  Forall (fun x => (a <= f x < b)%nat) l ->
  Forall (fun x => (a' <= f x < b')%nat) l.
Proof. intros Ha Hb H. eapply Forall_impl; [exact H |]. cbn. lia. Qed.




Lemma transition_ret (st : Loop) : transition (mret st) st.
Proof. intros w st' w' [-> ->]%ret_Ok. apply advances_refl. Qed.








(** *** The absolutely positioned children *)



(** *** Relative offsets *)





(** *** The passes over the finished list of children *)





Lemma Forall2_sameNode_nids (l1 l2 : list SceneNode) :
  Forall2 sameNode l1 l2 -> map nid l1 = map nid l2.
Proof.
  induction 1 as [| a b l1 l2 (E & _) _ IH]; [done |].
  cbn. by rewrite E, IH.
Qed.


Lemma fold_updateChild_nids (f : Q -> SceneNode -> SceneNode)
    (l : list (nat * Q)) (frame : SceneNode) :
  (forall g c, nid (f g c) = nid c) ->
  map nid (children
             (fold_left
                (fun fr entry => updateChild (fst entry) (f (snd entry)) fr)
                l frame))
  = map nid (children frame).
Proof.
  intros Hid. revert frame. induction l as [| [k g] l IH]; intros frame.
  - done.
  - cbn [fold_left fst snd]. rewrite IH. unfold updateChild.
    cbn [children set_children]. rewrite map_map. apply map_ext.
    intros c. by destruct (nid c =? k)%nat.
Qed.


Lemma recalculateNestedFlex_nid (nested : gmap nat Q) (frame : SceneNode)
    (newWidth : Q) :
  nid (recalculateNestedFlex nested frame newWidth) = nid frame.
Proof.
  destruct frame. cbn [recalculateNestedFlex]. by destruct (_ =? _)%nat.
Qed.

Lemma growChild_nid (flexGrowMap : list (nat * Q)) (frame : SceneNode)
    (w : World) (flexGrow : Q) (child : SceneNode) :
  nid (growChild flexGrowMap frame w flexGrow child) = nid child.
Proof.
  unfold growChild, safeSetLayoutSizingHorizontal,
    safeSetLayoutSizingVertical.
  repeat case_match; rewrite ?recalculateNestedFlex_nid; by destruct child.
Qed.

Lemma distributeFlexGrow_nids (flexGrowMap : list (nat * Q))
    (frame : SceneNode) (w : World) :
  map nid (children (distributeFlexGrow flexGrowMap frame w))
  = map nid (children frame).
Proof.
  unfold distributeFlexGrow. repeat case_match; try done.
  apply fold_updateChild_nids. intros g c. apply growChild_nid.
Qed.










(** *** The frame before its children *)





Lemma ownEntry_extends (id : nat) (w w' : World) :
  ownEntry id w w' -> extends (Some id) w w'.
Proof.
  intros [N K]. split; [lia |]. intros k _ Hk. apply K. congruence.
Qed.
























(** *** Identities of the nodes *)


Section Fonts.
Variable fontAvailable : FontName -> bool.







End Fonts.

End TreeFacts.

(** ** Size and padding of a box *)

Module BoxFacts.
Import Figma Types Synth Create Styles Hoare ListFacts FontFacts TreeFacts.
Local Open Scope Q_scope.




















(** The amended claim needs its conditions.  A side that overrides the
    uniform padding is not what the width was computed from: width 200,
    padding 20 and padding-left 50 give a box of 240 with paddings 50 and
    20. *)
Lemma overridden_padding_is_not_added :
  let element :=
    mkParsedElement "div"
      (with_paddingLeft (Some 50)
         (with_padding (Some 20) (with_width (Some (Px 200)) noStyle)))
      None [] in
  exists frame w',
    createFigmaNode (fun _ => true) element (fun s => s)
      (set_layoutMode VERTICAL (newFrame 0)) None None
      (set_nextId 1 emptyWorld) = (Ok frame, w')
    /\ width frame == 240 /\ paddingLeft frame == 50
    /\ paddingRight frame == 20
    /\ ~ width frame == 200 + paddingLeft frame + paddingRight frame.
Proof.
  vm_compute. eexists _, _. split; [reflexivity |].
  repeat split; discriminate.
Qed.

(** A button without padding of its own gets a default padding that is
    not added to its width: width 200 stays 200 with 16 on each side. *)
Lemma default_padding_is_not_added :
  let element :=
    mkParsedElement "button" (with_width (Some (Px 200)) noStyle) None [] in
  exists frame w',
    createFigmaNode (fun _ => true) element (fun s => s)
      (set_layoutMode VERTICAL (newFrame 0)) None None
      (set_nextId 1 emptyWorld) = (Ok frame, w')
    /\ width frame == 200 /\ paddingLeft frame == 16
    /\ paddingRight frame == 16.
Proof.
  vm_compute. eexists _, _. split; [reflexivity |].
  repeat split; discriminate.
Qed.

(** An aspect ratio replaces the height: width 200, height 100 and
    aspect-ratio 4 give a box 50 high. *)
Lemma aspect_ratio_replaces_height :
  let element :=
    mkParsedElement "div"
      (with_aspectRatio (Some 4)
         (with_height (Some (Px 100)) (with_width (Some (Px 200)) noStyle)))
      None [] in
  exists frame w',
    createFigmaNode (fun _ => true) element (fun s => s)
      (set_layoutMode VERTICAL (newFrame 0)) None None
      (set_nextId 1 emptyWorld) = (Ok frame, w')
    /\ width frame == 200 /\ height frame == 50.
Proof.
  vm_compute. eexists _, _. split; [reflexivity |].
  repeat split; discriminate.
Qed.

(** So does a percentage height when the parent has a height: height
    100 and 50 percent of a parent 400 high give a box 200 high. *)
Lemma percent_height_replaces_height :
  let element :=
    mkParsedElement "div"
      (with_heightPercent (Some 50)
         (with_height (Some (Px 100)) (with_width (Some (Px 200)) noStyle)))
      None [] in
  exists frame w',
    createFigmaNode (fun _ => true) element (fun s => s)
      (set_layoutMode VERTICAL (newFrame 0)) None (Some 400)
      (set_nextId 1 emptyWorld) = (Ok frame, w')
    /\ width frame == 200 /\ height frame == 200.
Proof.
  vm_compute. eexists _, _. split; [reflexivity |].
  repeat split; discriminate.
Qed.

(** A text leaf is a text node, not a box, and its declared width is not
    read: a span of width 200 under a parent 300 wide is resized to the
    300 of the parent. *)
Lemma text_leaf_ignores_width :
  let element :=
    mkParsedElement "span" (with_width (Some (Px 200)) noStyle)
      (Some "text") [] in
  exists node w',
    createFigmaNode (fun _ => true) element (fun s => s)
      (set_layoutMode VERTICAL (newFrame 0)) (Some 300) None
      (set_nextId 1 emptyWorld) = (Ok node, w')
    /\ ntype node = TEXT /\ width node == 300.
Proof.
  vm_compute. eexists _, _. split; [reflexivity |].
  repeat split; discriminate.
Qed.

(** The last step of [createFigmaNode] restores a width recorded in
    [intendedFixedWidth] under the identity of the box: with 50 recorded
    there, a box of width 200 comes out 50 wide. *)
Lemma recorded_width_replaces_width :
  let element :=
    mkParsedElement "div" (with_width (Some (Px 200)) noStyle) None [] in
  exists frame w',
    createFigmaNode (fun _ => true) element (fun s => s)
      (set_layoutMode VERTICAL (newFrame 0)) None None
      (set_intendedFixedWidth {[ 1%nat := 50 ]} (set_nextId 1 emptyWorld))
    = (Ok frame, w')
    /\ width frame == 50.
Proof.
  vm_compute. eexists _, _. split; [reflexivity |]. reflexivity.
Qed.

(** A [space-around] container gets padding at both ends that its width
    does not include: a row 400 wide with two children of width 100
    stays 400 wide with 50 of padding on the left and on the right. *)
Lemma space_around_adds_padding :
  let child := mkParsedElement "div" (with_width (Some (Px 100)) noStyle)
                 None [] in
  let row :=
    mkParsedElement "div"
      (with_justifyContent (Some JC_space_around)
         (with_display (Some D_flex) (with_width (Some (Px 400)) noStyle)))
      None [child; child] in
  exists frame w',
    createFigmaNode (fun _ => true) row (fun s => s)
      (set_layoutMode VERTICAL (newFrame 0)) None None
      (set_nextId 1 emptyWorld) = (Ok frame, w')
    /\ width frame == 400 /\ paddingLeft frame == 50
    /\ paddingRight frame == 50.
Proof.
  vm_compute. eexists _, _. split; [reflexivity |].
  repeat split; discriminate.
Qed.

(** The box that [createFigmaNode] returns is not always the final one:
    the distribution pass of the parent resizes a child that has a
    flex-grow weight.  In a row 400 wide two children of width 100, one
    of them with flex-grow 1, end up 300 and 100 wide. *)
Lemma flex_grow_replaces_width :
  let child (grow : option Q) :=
    mkParsedElement "div"
      (with_flexGrow grow (with_width (Some (Px 100)) noStyle)) None [] in
  let row :=
    mkParsedElement "div"
      (with_display (Some D_flex) (with_width (Some (Px 400)) noStyle))
      None [child (Some 1); child None] in
  exists frame w',
    createFigmaNode (fun _ => true) row (fun s => s)
      (set_layoutMode VERTICAL (newFrame 0)) None None
      (set_nextId 1 emptyWorld) = (Ok frame, w')
    /\ Forall2 Qeq (map width (children frame)) [300; 100].
Proof.
  vm_compute. eexists _, _. split; [reflexivity |].
  repeat constructor.
Qed.

End BoxFacts.

(** ** Stacking order *)

Module StackingOrder.
Import Figma Types Synth Create Stacking StackingFacts TreeFacts.
Local Open Scope Q_scope.



End StackingOrder.

(* ===================================================================== *)
(** * Further properties of the parsers and of the synthesis               *)
(* ===================================================================== *)

(** ** First matches and what a match consumes *)

Module MatcherFacts.
Import JsNum JsString JsParse Regex ValueParsers ParserSpec RegexFacts.

Lemma append_cons (c : ascii) (a b : string) :
  String c a +:+ b = String c (a +:+ b).
Proof. reflexivity. Qed.

Lemma append_nil_l (a : string) : EmptyString +:+ a = a.
Proof. reflexivity. Qed.

Lemma append_assoc (a b c : string) : (a +:+ b) +:+ c = a +:+ (b +:+ c).
Proof.
  induction a as [| x a IH]; [reflexivity |].
  by rewrite !append_cons, IH.
Qed.

Lemma allChars_append (cls : ascii -> bool) (a b : string) :
  allChars cls (a +:+ b) = allChars cls a && allChars cls b.
Proof.
  induction a as [| x a IH]; [reflexivity |].
  rewrite append_cons. cbn [allChars]. by rewrite IH, andb_assoc.
Qed.

(** The longest run is the first match of a greedy star. *)
Lemma star_head (cls : ascii -> bool) (m rest : string) :
  allChars cls m = true ->
  match rest with String c _ => cls c = false | EmptyString => True end ->
  exists tl, star cls (m +:+ rest) = (m, rest) :: tl.
Proof.
  intros Hm Hrest. induction m as [| c m IH].
  - change (EmptyString +:+ rest) with rest.
    destruct rest as [| c r]; cbn [star]; [by eexists |].
    eexists. by rewrite Hrest.
  - cbn [allChars] in Hm. apply andb_true_iff in Hm as [Hc Hm].
    rewrite append_cons. cbn [star].
    destruct (IH Hm) as [tl ->]. eexists. rewrite Hc. cbn. reflexivity.
Qed.

Lemma plus_head (cls : ascii -> bool) (m rest : string) :
  m <> EmptyString -> allChars cls m = true ->
  match rest with String c _ => cls c = false | EmptyString => True end ->
  exists tl, plus cls (m +:+ rest) = (m, rest) :: tl.
Proof.
  intros Hne Hm Hrest. destruct m as [| c m]; [done |].
  cbn [allChars] in Hm. apply andb_true_iff in Hm as [Hc Hm].
  destruct (star_head cls m rest Hm Hrest) as [tl E].
  eexists. rewrite append_cons. unfold plus, bind, fmap, chr. rewrite Hc.
  cbn [flat_map fst snd]. unfold bind. rewrite E. cbn. reflexivity.
Qed.

(** The first two matches of a greedy star on a run that fills the whole
    input: all of it, and all but the last character. *)
Lemma star_two (cls : ascii -> bool) (m : string) (c : ascii) :
  allChars cls m = true -> cls c = true ->
  exists tl,
    star cls (m +:+ String c EmptyString)
    = (m +:+ String c EmptyString, EmptyString)
      :: (m, String c EmptyString) :: tl.
Proof.
  intros Hm Hc. induction m as [| x m IH].
  - eexists. rewrite append_nil_l. cbn [star]. rewrite Hc. cbn. reflexivity.
  - cbn [allChars] in Hm. apply andb_true_iff in Hm as [Hx Hm].
    rewrite append_cons. cbn [star].
    destruct (IH Hm) as [tl ->]. eexists. rewrite Hx. cbn. reflexivity.
Qed.

Lemma plus_two (cls : ascii -> bool) (m : string) (c : ascii) :
  m <> EmptyString -> allChars cls m = true -> cls c = true ->
  exists tl,
    plus cls (m +:+ String c EmptyString)
    = (m +:+ String c EmptyString, EmptyString)
      :: (m, String c EmptyString) :: tl.
Proof.
  intros Hne Hm Hc. destruct m as [| x m]; [done |].
  cbn [allChars] in Hm. apply andb_true_iff in Hm as [Hx Hm].
  destruct (star_two cls m c Hm Hc) as [tl E].
  eexists. rewrite append_cons. unfold plus, bind, fmap, chr. rewrite Hx.
  cbn [flat_map fst snd]. unfold bind. rewrite E. cbn. reflexivity.
Qed.

(** First matches compose: the first match of a sequence is the first
    match of its continuation after the first match of its head. *)
Lemma head_bind {A B} (m : matcher A) (k : A -> matcher B) s a mid y :
  hd_error (m s) = Some (a, mid) ->
  hd_error (k a mid) = Some y ->
  hd_error (bind m k s) = Some y.
Proof.
  unfold bind. destruct (m s) as [| x tl]; [done |]. intros [= ->].
  cbn [flat_map fst snd]. destruct (k a mid); [done |]. by intros [= ->].
Qed.

(** ... and when that continuation fails, the engine backtracks to the
    second match of the head. *)
Lemma head_bind_second {A B} (m : matcher A) (k : A -> matcher B) s
    a1 mid1 a2 mid2 tl y :
  m s = (a1, mid1) :: (a2, mid2) :: tl ->
  k a1 mid1 = [] ->
  hd_error (k a2 mid2) = Some y ->
  hd_error (bind m k s) = Some y.
Proof.
  unfold bind. intros -> E. cbn [flat_map fst snd]. rewrite E.
  destruct (k a2 mid2); [done |]. by intros [= ->].
Qed.

Lemma matchAt_hd {A} (m : matcher A) s a rest :
  hd_error (m s) = Some (a, rest) -> matchAt m s = Some a.
Proof. unfold matchAt. destruct (m s) as [| [a' r'] tl]; [done |]. by intros [= -> _]. Qed.

Lemma ws_head (m rest : string) :
  allChars isSpace m = true ->
  match rest with String c _ => isSpace c = false | EmptyString => True end ->
  hd_error (ws (m +:+ rest)) = Some (tt, rest).
Proof.
  intros Hm Hrest. destruct (star_head isSpace m rest Hm Hrest) as [tl E].
  unfold ws, fmap. eapply head_bind; [by rewrite E | done].
Qed.

(** A literal of a case-sensitive expression matches only itself. *)
Lemma in_lit_exact (p s : string) (u : unit) (rest : string) :
  In (u, rest) (lit false p s) -> s = p +:+ rest.
Proof.
  revert s. induction p as [| a p IH]; intros s; cbn [lit].
  - intros [[= _ <-] | []]. reflexivity.
  - intros H. apply in_bind in H as [[c mid] [H1 H2]].
    apply in_chr in H1 as [-> Hc]. apply IH in H2. cbn [fst snd] in H2.
    apply Ascii.eqb_eq in Hc. subst. by rewrite append_cons.
Qed.

(** A literal consumes a prefix of its own length. *)
Lemma in_lit_app (ci : bool) (p s : string) (u : unit) (rest : string) :
  In (u, rest) (lit ci p s) ->
  exists m, s = m +:+ rest /\ String.length m = String.length p.
Proof.
  revert s. induction p as [| a p IH]; intros s; cbn [lit].
  - intros [[= _ <-] | []]. by exists EmptyString.
  - intros H. apply in_bind in H as [[c mid] [H1 H2]].
    apply in_chr in H1 as [-> _]. apply IH in H2 as (m & E & L).
    cbn [fst snd] in E. exists (String c m). rewrite append_cons, <- E.
    cbn [String.length]. by rewrite L.
Qed.

Lemma in_ws_app (s : string) (u : unit) (rest : string) :
  In (u, rest) (ws s) -> exists m, s = m +:+ rest /\ allChars isSpace m = true.
Proof.
  unfold ws, fmap. intros H. apply in_bind in H as [[m mid] [H1 H2]].
  destruct H2 as [[= _ <-] | []]. apply in_star in H1 as [Hm ->].
  by exists m.
Qed.

Lemma in_alt {A} (m1 m2 : matcher A) s x :
  In x (alt m1 m2 s) -> In x (m1 s) \/ In x (m2 s).
Proof. unfold alt. apply in_app_or. Qed.

(** Two strings with different last characters differ. *)
Lemma append_last_inj (a b : string) (c d : ascii) :
  a +:+ String c EmptyString = b +:+ String d EmptyString -> a = b /\ c = d.
Proof.
  revert b. induction a as [| x a IH]; intros [| y b]; rewrite ?append_cons, ?append_nil_l.
  - by intros [= ->].
  - intros [= _ E]. by destruct b.
  - intros [= _ E]. by destruct a.
  - intros [= -> E]. apply IH in E as [-> ->]. done.
Qed.

Lemma rev_append (a b acc : string) :
  rev (a +:+ b) acc = rev b (rev a acc).
Proof.
  revert acc. induction a as [| x a IH]; intros acc; [reflexivity |].
  rewrite append_cons. cbn [rev]. apply IH.
Qed.

Lemma rev_rev (s acc acc' : string) :
  rev (rev s acc) acc' = rev acc (s +:+ acc').
Proof.
  revert acc acc'. induction s as [| x s IH]; intros acc acc'; [reflexivity |].
  cbn [rev]. rewrite IH. cbn [rev]. by rewrite append_cons.
Qed.

(** [trim] leaves a string that neither starts nor ends with white
    space. *)
Lemma trim_id (s : string) (c : ascii) (r : string) (d : ascii) (t : string) :
  s = String c r -> isSpace c = false ->
  rev s EmptyString = String d t -> isSpace d = false ->
  trim s = s.
Proof.
  intros -> Hc E Hd. unfold trim. cbn [trimStart]. rewrite Hc.
  unfold trimEnd. rewrite E. cbn [trimStart]. rewrite Hd. rewrite <- E.
  rewrite rev_rev. cbn [rev]. apply append_empty_r.
Qed.

Lemma allChars_impl (P Q : ascii -> bool) (s : string) :
  (forall c, P c = true -> Q c = true) ->
  allChars P s = true -> allChars Q s = true.
Proof.
  intros HPQ. induction s as [| c s IH]; [done |]. cbn [allChars].
  rewrite !andb_true_iff. intros [H1 H2]. auto.
Qed.

Lemma last_char (cls : ascii -> bool) (s : string) :
  s <> EmptyString -> allChars cls s = true ->
  exists p d, s = p +:+ String d EmptyString /\ cls d = true.
Proof.
  induction s as [| c s IH]; [done |]. intros _. cbn [allChars].
  rewrite andb_true_iff. intros [Hc Hs]. destruct s as [| c' s'].
  - by exists EmptyString, c.
  - destruct IH as (p & d & E & Hd); [done | done |].
    exists (String c p), d. by rewrite E.
Qed.

End MatcherFacts.

(** ** The expressions of [parseLength] and [parseCalc] *)

Module LengthFacts.
Import JsNum JsString JsParse Regex ValueParsers ParserSpec RegexFacts
  RecursionFacts MatcherFacts.

Ltac by_char c := destruct c as [[] [] [] [] [] [] [] []].

(** The classes a character of a numeral is in, or not. *)
Lemma digitOrDot_class (c : ascii) :
  isDigitOrDot c = true ->
  isSpace c = false /\ isOperator c = false /\ isDot c = true
  /\ Ascii.eqb "-" c = false /\ Ascii.eqb "c" (lowerChar c) = false
  /\ Ascii.eqb "%" c = false.
Proof.
  intros H. by_char c; try (vm_compute in H; discriminate H);
    vm_compute; done.
Qed.

Lemma operator_class (c : ascii) :
  isOperator c = true ->
  isSpace c = false /\ isDigitOrDot c = false /\ isDot c = true.
Proof.
  intros H. by_char c; try (vm_compute in H; discriminate H);
    vm_compute; done.
Qed.

(** A numeral is an optional minus sign and a non-empty run of digits and
    dots. *)
Lemma isNumeral_unsigned (ds : string) :
  ds <> EmptyString -> allChars isDigitOrDot ds = true ->
  isNumeral ds = true.
Proof.
  intros Hne Hall. destruct ds as [| c ds]; [done |].
  assert (E : isNumeral (String c ds) = allChars isDigitOrDot (String c ds)).
  { cbn [allChars] in Hall. apply andb_true_iff in Hall as [Hc _].
    by_char c; try (vm_compute in Hc; discriminate Hc); reflexivity. }
  by rewrite E.
Qed.

Lemma isNumeral_signed (ds : string) :
  ds <> EmptyString -> allChars isDigitOrDot ds = true ->
  isNumeral (String "-" ds) = true.
Proof.
  intros Hne Hall. cbn [isNumeral]. rewrite Hall.
  destruct ds; [done | reflexivity].
Qed.

Lemma isNumeral_inv (n : string) :
  isNumeral n = true ->
  exists ds, ds <> EmptyString /\ allChars isDigitOrDot ds = true
    /\ (n = ds \/ n = String "-" ds).
Proof.
  intros H. destruct n as [| c r]; [discriminate H |].
  destruct (Ascii.eqb_spec c "-") as [-> | Hne].
  - cbn [isNumeral] in H. apply andb_true_iff in H as [H1 H2].
    exists r. split; [by destruct r | by auto].
  - assert (E : isNumeral (String c r)
                = allChars isDigitOrDot (String c r)).
    { by_char c; try reflexivity. by destruct Hne. }
    rewrite E in H. exists (String c r). by auto.
Qed.

Lemma signedNumRe_head (n rest : string) :
  isNumeral n = true ->
  match rest with
  | String c _ => isDigitOrDot c = false
  | EmptyString => True
  end ->
  hd_error (signedNumRe (n +:+ rest)) = Some (n, rest).
Proof.
  intros Hn Hrest.
  apply isNumeral_inv in Hn as (ds & Hne & Hall & [-> | ->]).
  - destruct (plus_head isDigitOrDot ds rest Hne Hall Hrest) as [tl E].
    destruct ds as [| c ds]; [done |].
    cbn [allChars] in Hall. apply andb_true_iff in Hall as [Hc _].
    apply digitOrDot_class in Hc as (_ & _ & _ & Hc & _).
    unfold signedNumRe, mbind, matcher_bind, mret, matcher_ret.
    rewrite append_cons in E |- *.
    eapply head_bind.
    + unfold opt, alt, fmap. cbn [lit].
      unfold bind at 1 2. unfold chr. rewrite Hc. reflexivity.
    + eapply head_bind; [by rewrite E | done].
  - destruct (plus_head isDigitOrDot ds rest Hne Hall Hrest) as [tl E].
    unfold signedNumRe, mbind, matcher_bind, mret, matcher_ret.
    rewrite append_cons.
    eapply head_bind with (a := Some tt) (mid := ds +:+ rest).
    + reflexivity.
    + eapply head_bind; [by rewrite E | done].
Qed.

Lemma signedNumRe_sound (s g rest : string) :
  In (g, rest) (signedNumRe s) -> isNumeral g = true /\ s = g +:+ rest.
Proof.
  unfold signedNumRe. intros H.
  apply in_mbind in H as (sign & s1 & H1 & H).
  apply in_mbind in H as (ds & s2 & H2 & H).
  apply in_mret in H as [-> ->].
  apply in_plus in H2 as (Hne & Hall & ->).
  apply in_opt in H1 as [(u & -> & H1) | [-> ->]].
  - apply in_lit_exact in H1 as ->. split; [by apply isNumeral_signed | done].
  - split; [by apply isNumeral_unsigned | done].
Qed.

Lemma in_word (w s x rest : string) :
  In (x, rest) (word w s) -> x = w /\ s = w +:+ rest.
Proof.
  unfold word. intros H. apply in_mbind in H as (u & s1 & H1 & H).
  apply in_mret in H as [-> ->]. by apply in_lit_exact in H1.
Qed.

Lemma lengthUnitRe_sound (s : string) (u : option string) (rest : string) :
  In (u, rest) (lengthUnitRe s) ->
  In u lengthUnits /\ s = unitText u +:+ rest.
Proof.
  unfold lengthUnitRe. intros H.
  apply in_opt in H as [(w & -> & H) | [-> ->]]; [| by split; [left |]].
  repeat (apply in_alt in H as [H | H]); apply in_word in H as [-> ->];
    (split; [cbn; tauto | done]).
Qed.

Lemma calcUnitRe_sound (s : string) (u : option string) (rest : string) :
  In (u, rest) (calcUnitRe s) ->
  In u calcUnits /\ s = unitText u +:+ rest.
Proof.
  unfold calcUnitRe. intros H.
  apply in_opt in H as [(w & -> & H) | [-> ->]]; [| by split; [left |]].
  repeat (apply in_alt in H as [H | H]); apply in_word in H as [-> ->];
    (split; [cbn; tauto | done]).
Qed.

(** What the anchored expression of [parseLength] matches. *)
Lemma lengthRe_head (n : string) (u : option string) :
  isNumeral n = true -> In u lengthUnits ->
  matchAt lengthRe (n +:+ unitText u) = Some (n, u).
Proof.
  intros Hn Hu. apply matchAt_hd with (rest := EmptyString).
  unfold lengthRe, mbind, matcher_bind.
  cbn in Hu.
  destruct Hu as [<- | [<- | [<- | [<- | [<- | []]]]]];
    (eapply head_bind; [apply signedNumRe_head; [exact Hn | done] | reflexivity]).
Qed.

Lemma lengthRe_sound (value g1 : string) (g2 : option string) :
  matchAt lengthRe value = Some (g1, g2) ->
  isNumeral g1 = true /\ In g2 lengthUnits /\ value = g1 +:+ unitText g2.
Proof.
  intros H. apply matchAt_Some in H as [rest H]. unfold lengthRe in H.
  apply in_mbind in H as (n & s1 & H1 & H).
  apply in_mbind in H as (u & s2 & H2 & H).
  apply in_mbind in H as (x & s3 & H3 & H).
  apply in_mret in H as [[= -> ->] ->].
  apply in_eos in H3 as [-> _].
  apply signedNumRe_sound in H1 as [Hn ->].
  apply lengthUnitRe_sound in H2 as [Hu ->].
  by rewrite append_empty_r.
Qed.

(** A numeral does not start like [calc(]. *)
Lemma numeral_not_calc (n rest : string) :
  isNumeral n = true ->
  String.eqb (n +:+ rest) EmptyString = false
  /\ startsWith "calc(" (toLowerCase (n +:+ rest)) = false.
Proof.
  intros Hn. apply isNumeral_inv in Hn as (ds & Hne & Hall & [-> | ->]).
  - destruct ds as [| c ds]; [done |].
    cbn [allChars] in Hall. apply andb_true_iff in Hall as [Hc _].
    apply digitOrDot_class in Hc as (_ & _ & _ & _ & Hc & _).
    rewrite append_cons. cbn [toLowerCase startsWith]. by rewrite Hc.
  - rewrite append_cons. done.
Qed.

(** A numeral starts and ends with a character that is not white space,
    has no line terminator, and no operator after its first character. *)
Lemma numeral_shape (n : string) :
  isNumeral n = true ->
  (exists c r, n = String c r /\ isSpace c = false
     /\ allChars (fun c => negb (isOperator c)) r = true)
  /\ (exists p d, n = p +:+ String d EmptyString /\ isDigitOrDot d = true)
  /\ allChars isDot n = true.
Proof.
  intros Hn. apply isNumeral_inv in Hn as (ds & Hne & Hall & Hn).
  assert (Hno : allChars (fun c => negb (isOperator c)) ds = true).
  { eapply allChars_impl; [| exact Hall]. intros c Hc.
    apply digitOrDot_class in Hc as (_ & -> & _). done. }
  assert (Hdot : allChars isDot ds = true).
  { eapply allChars_impl; [| exact Hall]. intros c Hc.
    by apply digitOrDot_class in Hc as (_ & _ & -> & _). }
  destruct (last_char _ _ Hne Hall) as (p & d & E & Hd).
  destruct Hn as [-> | ->].
  - split; [| split; [by exists p, d | done]].
    destruct ds as [| c r]; [done |]. exists c, r.
    cbn [allChars] in Hall, Hno.
    apply andb_true_iff in Hall as [Hc _].
    apply andb_true_iff in Hno as [_ Hno].
    apply digitOrDot_class in Hc as (Hc & _). done.
  - split; [by exists "-"%char, ds |].
    split; [exists (String "-" p), d; by rewrite E |].
    cbn [allChars]. by rewrite Hdot.
Qed.

(** What the anchored expression of [calc( ... )] captures. *)
Lemma calcRe_head (inner : string) (c : ascii) (r : string) :
  inner = String c r -> isSpace c = false -> allChars isDot inner = true ->
  matchAt calcRe ("calc(" +:+ inner +:+ ")") = Some inner.
Proof.
  intros -> Hc Hall.
  destruct (plus_two isDot (String c r) ")" ltac:(done) Hall eq_refl)
    as [tl E].
  apply matchAt_hd with (rest := EmptyString).
  unfold calcRe, mbind, matcher_bind.
  eapply head_bind with (a := tt) (mid := "(" +:+ String c r +:+ ")");
    [reflexivity |].
  eapply head_bind with (a := tt) (mid := "(" +:+ String c r +:+ ")");
    [reflexivity |].
  eapply head_bind with (a := tt) (mid := String c r +:+ ")");
    [reflexivity |].
  eapply head_bind with (a := tt) (mid := String c r +:+ ")");
    [apply (ws_head EmptyString (String c r +:+ ")")); [done | exact Hc] |].
  eapply head_bind_second; [exact E | reflexivity | reflexivity].
Qed.

(** What the two-operand expression captures on two operands separated
    by an operator between spaces. *)
Lemma binaryRe_head (a : string) (ua : option string) (op : ascii)
    (b : string) (ub : option string) :
  isNumeral a = true -> isNumeral b = true ->
  In ua calcUnits -> In ub calcUnits -> isOperator op = true ->
  matchAt binaryRe
    (a +:+ unitText ua +:+ " " +:+ String op " " +:+ b +:+ unitText ub)
  = Some (a, ua, op, b, ub).
Proof.
  intros Ha Hb Hua Hub Hop.
  destruct (numeral_shape b Hb) as [(cb & rb & Eb & Hcb & _) _].
  pose proof (operator_class op Hop) as (Hop1 & _).
  apply matchAt_hd with (rest := EmptyString).
  unfold binaryRe, mbind, matcher_bind.
  eapply head_bind.
  { apply signedNumRe_head; [exact Ha |].
    cbn in Hua. destruct Hua as [<- | [<- | [<- | [<- | []]]]]; reflexivity. }
  eapply head_bind with (a := ua)
    (mid := " " +:+ String op " " +:+ b +:+ unitText ub).
  { cbn in Hua. destruct Hua as [<- | [<- | [<- | [<- | []]]]]; reflexivity. }
  eapply head_bind with (a := tt) (mid := String op (" " +:+ b +:+ unitText ub)).
  { apply (ws_head " " (String op (" " +:+ b +:+ unitText ub)));
      [done | exact Hop1]. }
  eapply head_bind with (a := op) (mid := " " +:+ b +:+ unitText ub).
  { unfold chr. by rewrite Hop. }
  eapply head_bind with (a := tt) (mid := b +:+ unitText ub).
  { apply (ws_head " " (b +:+ unitText ub)); [done |].
    rewrite Eb. exact Hcb. }
  cbn in Hub. destruct Hub as [<- | [<- | [<- | [<- | []]]]];
    (eapply head_bind; [apply signedNumRe_head; [exact Hb | done] | reflexivity]).
Qed.

(** The two-operand expression needs an operator after the first
    character. *)
Lemma binaryRe_needs_operator (s : string) (c : ascii) (t : string) :
  s = String c t -> allChars (fun c => negb (isOperator c)) t = true ->
  matchAt binaryRe s = None.
Proof.
  intros -> Hall.
  destruct (matchAt binaryRe (String c t)) as [[[[[g1 g2] op] g4] g5] |] eqn:M;
    [| reflexivity].
  exfalso. apply matchAt_Some in M as [rest H]. unfold binaryRe in H.
  apply in_mbind in H as (n & s1 & H1 & H).
  apply in_mbind in H as (u & s2 & H2 & H).
  apply in_mbind in H as (x & s3 & H3 & H).
  apply in_mbind in H as (o & s4 & H4 & _).
  apply signedNumRe_sound in H1 as [Hn E1].
  apply calcUnitRe_sound in H2 as [_ ->].
  apply in_ws_app in H3 as (w & -> & _).
  apply in_chr in H4 as [-> Ho].
  destruct n as [| c' n']; [discriminate Hn |].
  rewrite append_cons in E1. injection E1 as -> ->.
  rewrite !allChars_append in Hall. cbn [allChars] in Hall.
  rewrite Ho in Hall. cbn in Hall.
  rewrite !andb_false_r in Hall. discriminate Hall.
Qed.

(** The anchored expression of [calc( ... )] only matches a value that
    ends with a closing parenthesis. *)
Lemma calcRe_sound (value g : string) :
  matchAt calcRe value = Some g -> exists pre, value = pre +:+ ")".
Proof.
  intros H. apply matchAt_Some in H as [rest H]. unfold calcRe in H.
  apply in_mbind in H as (u1 & s1 & H1 & H). apply in_lit_app in H1 as (m1 & -> & _).
  apply in_mbind in H as (u2 & s2 & H2 & H). apply in_ws_app in H2 as (m2 & -> & _).
  apply in_mbind in H as (u3 & s3 & H3 & H). apply in_lit_app in H3 as (m3 & -> & _).
  apply in_mbind in H as (u4 & s4 & H4 & H). apply in_ws_app in H4 as (m4 & -> & _).
  apply in_mbind in H as (e & s5 & H5 & H). apply in_plus in H5 as (_ & _ & ->).
  apply in_mbind in H as (u6 & s6 & H6 & H). apply in_ws_app in H6 as (m6 & -> & _).
  apply in_mbind in H as (u7 & s7 & H7 & H).
  apply in_mbind in H as (u8 & s8 & H8 & H). apply in_eos in H8 as [-> ->].
  cbn [lit] in H7. apply in_bind in H7 as [[c mid] [H7 H9]].
  apply in_chr in H7 as [-> Hc]. destruct H9 as [[= _ ->] | []].
  assert (c = ")"%char) as ->.
  { by_char c; try (vm_compute in Hc; discriminate Hc); reflexivity. }
  exists (m1 +:+ m2 +:+ m3 +:+ m4 +:+ e +:+ m6).
  by rewrite !append_assoc.
Qed.

Lemma parseLength_calc (inner : string) (baseFontSize : number) :
  parseLength ("calc(" +:+ inner) baseFontSize
  = parseCalc ("calc(" +:+ inner) baseFontSize.
Proof. rewrite parseLength_unfold. reflexivity. Qed.

(** [parseLength] on a numeral followed by one of its units. *)
Lemma parseLength_numeral (n : string) (u : option string)
    (baseFontSize : number) :
  isNumeral n = true -> In u lengthUnits ->
  parseLength (n +:+ unitText u) baseFontSize
  = if String.eqb (unitOr u) "%" then None
    else Some (toPx (unitOr u) (parseFloat n) baseFontSize).
Proof.
  intros Hn Hu. rewrite parseLength_unfold.
  destruct (numeral_not_calc n (unitText u) Hn) as [-> ->].
  rewrite (lengthRe_head n u Hn Hu).
  cbn in Hu. destruct Hu as [<- | [<- | [<- | [<- | [<- | []]]]]]; reflexivity.
Qed.

Lemma calcText_inner (a : string) (ua : option string) (op : ascii)
    (b : string) (ub : option string) :
  calcText a ua op b ub
  = "calc(" +:+ (a +:+ unitText ua +:+ " " +:+ String op " " +:+ b
                 +:+ unitText ub) +:+ ")".
Proof. unfold calcText. by rewrite !append_assoc. Qed.

(** [parseCalc] on two operands around an operator. *)
Lemma parseCalc_binary (a : string) (ua : option string) (op : ascii)
    (b : string) (ub : option string) (baseFontSize : number) :
  isNumeral a = true -> isNumeral b = true ->
  In ua calcUnits -> In ub calcUnits -> isOperator op = true ->
  let val1 := toPx (unitOr ua) (parseFloat a) baseFontSize in
  let val2 := toPx (unitOr ub) (parseFloat b) baseFontSize in
  parseCalc (calcText a ua op b ub) baseFontSize
  = if Ascii.eqb op "+" then Some (nadd val1 val2)
    else if Ascii.eqb op "-" then Some (nsub val1 val2)
    else if Ascii.eqb op "*" then Some (nmul val1 val2)
    else if nneq val2 (Num 0) then Some (ndiv val1 val2) else None.
Proof.
  intros Ha Hb Hua Hub Hop val1 val2. pose proof Hub as Hub'.
  destruct (numeral_shape a Ha) as ((ca & ra & Ea & Hca & _) & _ & Hda).
  destruct (numeral_shape b Hb) as (_ & (pb & db & Eb & Hdb) & Hdb').
  apply digitOrDot_class in Hdb as (Hdb & _).
  pose proof (operator_class op Hop) as (_ & _ & Hopd).
  set (inner := a +:+ unitText ua +:+ " " +:+ String op " " +:+ b
                +:+ unitText ub).
  assert (Hdot : allChars isDot inner = true).
  { unfold inner. rewrite !allChars_append, Hda, Hdb'. cbn [allChars].
    rewrite Hopd.
    cbn in Hua, Hub.
    destruct Hua as [<- | [<- | [<- | [<- | []]]]];
      destruct Hub as [<- | [<- | [<- | [<- | []]]]]; reflexivity. }
  assert (Htrim : trim inner = inner).
  { clear Hdot. subst inner. clear val2.
    cbn in Hub'. destruct Hub' as [<- | [<- | [<- | [<- | []]]]];
      (eapply trim_id with (c := ca)
         (r := ra +:+ unitText ua +:+ " " +:+ String op " " +:+ b +:+ _);
       [ by rewrite Ea
       | exact Hca
       | rewrite !rev_append; rewrite Eb, rev_append;
         cbn [rev unitText]; reflexivity
       | first [exact Hdb | reflexivity] ]). }
  clear Hub'. rewrite calcText_inner, parseCalc_unfold. fold inner.
  unfold parseCalcWith.
  rewrite (calcRe_head inner ca
             (ra +:+ unitText ua +:+ " " +:+ String op " " +:+ b
              +:+ unitText ub)); [| unfold inner; by rewrite Ea | exact Hca | exact Hdot].
  rewrite Htrim. unfold inner.
  by rewrite (binaryRe_head a ua op b ub Ha Hb Hua Hub Hop).
Qed.

End LengthFacts.

(** ** Lengths and [calc()] *)

Module LengthExtras.
Import JsNum JsString JsParse Regex ValueParsers ParserSpec RegexFacts
  RecursionFacts MatcherFacts LengthFacts.

(** [parseLength], outside [calc()]: a value is a length exactly when it
    is a numeral of the shape [-?[\d.]+] followed by nothing, [px], [em]
    or [rem]; the result is then the number read by [parseFloat], times
    the base font size for [em] and [rem]. *)
Theorem parseLength_plain_values (value : string) (baseFontSize x : number) :
  startsWith "calc(" (toLowerCase value) = false ->
  parseLength value baseFontSize = Some x
  <-> exists n u,
        isNumeral n = true /\ In u calcUnits
        /\ value = n +:+ unitText u
        /\ x = toPx (unitOr u) (parseFloat n) baseFontSize.
Proof.
  intros Hcalc. split.
  - rewrite parseLength_unfold, Hcalc.
    destruct (String.eqb value EmptyString); [done |].
    destruct (matchAt lengthRe value) as [[g1 g2] |] eqn:M; [| done].
    apply lengthRe_sound in M as (Hn & Hu & ->).
    cbn in Hu. destruct Hu as [<- | [<- | [<- | [<- | [<- | []]]]]];
      cbn; intros [= <-];
      [exists g1, None | exists g1, (Some "px") | exists g1, (Some "em")
      | exists g1, (Some "rem")]; cbn; tauto.
  - intros (n & u & Hn & Hu & -> & ->).
    rewrite parseLength_numeral; [| done |].
    + cbn in Hu. by destruct Hu as [<- | [<- | [<- | [<- | []]]]].
    + cbn in Hu |- *. tauto.
Qed.

Lemma parseLength_plain_values_witness :
  parseLength "1.5em" defaultFontSize = Some (Num (240 # 10)).
Proof.
  apply (parseLength_plain_values "1.5em" defaultFontSize (Num (240 # 10)));
    [reflexivity |].
  exists "1.5", (Some "em").
  split; [reflexivity |]. split; [cbn; tauto |]. split; reflexivity.
Defined.

(** A percentage is never a length: [parseLength] returns null on every
    value that ends with a percent sign. *)
Theorem parseLength_percent_is_null (s : string) (baseFontSize : number) :
  parseLength (s +:+ "%") baseFontSize = None.
Proof.
  rewrite parseLength_unfold.
  destruct (String.eqb _ _); [done |].
  destruct (startsWith _ _).
  - rewrite parseCalc_unfold. unfold parseCalcWith.
    destruct (matchAt calcRe (s +:+ "%")) as [g |] eqn:M; [| done].
    apply calcRe_sound in M as [pre E].
    by apply append_last_inj in E as [_ [=]].
  - destruct (matchAt lengthRe (s +:+ "%")) as [[g1 g2] |] eqn:M; [| done].
    apply lengthRe_sound in M as (Hn & Hu & E).
    destruct (numeral_shape g1 Hn) as (_ & (p & d & Eg & Hd) & _).
    apply digitOrDot_class in Hd as (_ & _ & _ & _ & _ & Hd).
    cbn in Hu. destruct Hu as [<- | [<- | [<- | [<- | [<- | []]]]]];
      cbn [unitText] in E; [| | | | reflexivity]; exfalso.
    + rewrite append_empty_r, Eg in E.
      apply append_last_inj in E as [_ <-]. discriminate Hd.
    + change "px" with ("p" +:+ "x") in E. rewrite <- append_assoc in E.
      by apply append_last_inj in E as [_ [=]].
    + change "em" with ("e" +:+ "m") in E. rewrite <- append_assoc in E.
      by apply append_last_inj in E as [_ [=]].
    + change "rem" with ("re" +:+ "m") in E. rewrite <- append_assoc in E.
      by apply append_last_inj in E as [_ [=]].
Qed.

(** [calc(A op B)] with one space around the operator, where [A] and [B]
    are numerals followed by nothing, [px], [em] or [rem]: both operands
    are lengths on their own, and the value of [calc()] is the sum, the
    difference, the product or the quotient of their values; the quotient
    is null when [B] is zero. *)
Theorem calc_combines_two_lengths (a b : string) (ua ub : option string)
    (baseFontSize : number) :
  isNumeral a = true -> isNumeral b = true ->
  In ua calcUnits -> In ub calcUnits ->
  exists x y,
    parseLength (a +:+ unitText ua) baseFontSize = Some x
    /\ parseLength (b +:+ unitText ub) baseFontSize = Some y
    /\ parseLength (calcText a ua "+" b ub) baseFontSize = Some (nadd x y)
    /\ parseLength (calcText a ua "-" b ub) baseFontSize = Some (nsub x y)
    /\ parseLength (calcText a ua "*" b ub) baseFontSize = Some (nmul x y)
    /\ parseLength (calcText a ua "/" b ub) baseFontSize
       = if nneq y (Num 0) then Some (ndiv x y) else None.
Proof.
  intros Ha Hb Hua Hub.
  exists (toPx (unitOr ua) (parseFloat a) baseFontSize),
         (toPx (unitOr ub) (parseFloat b) baseFontSize).
  assert (Hlen : forall n u, isNumeral n = true -> In u calcUnits ->
            parseLength (n +:+ unitText u) baseFontSize
            = Some (toPx (unitOr u) (parseFloat n) baseFontSize)).
  { intros n u Hn Hu. rewrite parseLength_numeral; [| done |].
    - cbn in Hu. by destruct Hu as [<- | [<- | [<- | [<- | []]]]].
    - cbn in Hu |- *. tauto. }
  split; [by apply Hlen |]. split; [by apply Hlen |].
  assert (Hcalc : forall op, isOperator op = true ->
            parseLength (calcText a ua op b ub) baseFontSize
            = parseCalc (calcText a ua op b ub) baseFontSize).
  { intros op _. unfold calcText. apply parseLength_calc. }
  repeat split; (rewrite Hcalc by reflexivity);
    (rewrite parseCalc_binary by (done || reflexivity)); reflexivity.
Qed.

Lemma calc_combines_two_lengths_witness :
  parseLength "calc(100px - 20px)" defaultFontSize = Some (Num 80)
  /\ parseLength "calc(2em * 1.5)" defaultFontSize = Some (Num (480 # 10)).
Proof.
  split.
  - destruct (calc_combines_two_lengths "100" "20" (Some "px") (Some "px")
                defaultFontSize eq_refl eq_refl
                ltac:(cbn; tauto) ltac:(cbn; tauto))
      as (x & y & Hx & Hy & _ & H & _).
    injection Hx as <-. injection Hy as <-. exact H.
  - destruct (calc_combines_two_lengths "2" "1.5" (Some "em") None
                defaultFontSize eq_refl eq_refl
                ltac:(cbn; tauto) ltac:(cbn; tauto))
      as (x & y & Hx & Hy & _ & _ & H & _).
    injection Hx as <-. injection Hy as <-. exact H.
Defined.

(** [calc(V)] around a single value [V], a numeral followed by nothing or
    by a unit, is [V]: the length of [V], or null for a percentage. *)
Theorem calc_of_single_value (n : string) (u : option string)
    (baseFontSize : number) :
  isNumeral n = true -> In u lengthUnits ->
  parseLength ("calc(" +:+ (n +:+ unitText u) +:+ ")") baseFontSize
  = parseLength (n +:+ unitText u) baseFontSize.
Proof.
  intros Hn Hu.
  destruct (numeral_shape n Hn)
    as ((c & r & En & Hc & Hno) & (p & d & Ep & Hd) & Hdot).
  apply digitOrDot_class in Hd as (Hd & _).
  set (inner := n +:+ unitText u).
  assert (Hdot' : allChars isDot inner = true).
  { unfold inner. rewrite allChars_append, Hdot.
    cbn in Hu. by destruct Hu as [<- | [<- | [<- | [<- | [<- | []]]]]]. }
  assert (Htrim : trim inner = inner).
  { subst inner. clear Hdot'.
    cbn in Hu. destruct Hu as [<- | [<- | [<- | [<- | [<- | []]]]]];
      (eapply trim_id with (c := c) (r := r +:+ _);
       [ by rewrite En
       | exact Hc
       | rewrite rev_append, Ep, rev_append; cbn [rev unitText]; reflexivity
       | first [exact Hd | reflexivity] ]). }
  assert (Hbin : matchAt binaryRe inner = None).
  { apply binaryRe_needs_operator with (c := c) (t := r +:+ unitText u).
    - unfold inner. by rewrite En.
    - rewrite allChars_append, Hno.
      cbn in Hu. by destruct Hu as [<- | [<- | [<- | [<- | [<- | []]]]]]. }
  rewrite parseLength_calc, parseCalc_unfold. unfold parseCalcWith.
  rewrite (calcRe_head inner c (r +:+ unitText u));
    [| unfold inner; by rewrite En | exact Hc | exact Hdot'].
  by rewrite Htrim, Hbin.
Qed.

Lemma calc_of_single_value_witness :
  parseLength "calc(12.5rem)" defaultFontSize
  = parseLength "12.5rem" defaultFontSize.
Proof.
  apply (calc_of_single_value "12.5" (Some "rem") defaultFontSize);
    [reflexivity | cbn; tauto].
Defined.

End LengthExtras.

(** ** The loops that split at commas *)

Module SplitFacts.
Import JsNum JsString Splitters SplitSpec RegexFacts RecursionFacts
  MatcherFacts.

Lemma trimStart_spaces (sp p : string) :
  allChars isSpace sp = true -> trimStart (sp +:+ p) = trimStart p.
Proof.
  induction sp as [| c sp IH]; [done |]. cbn [allChars].
  rewrite andb_true_iff. intros [Hc Hsp].
  rewrite append_cons. cbn [trimStart]. rewrite Hc. auto.
Qed.

Lemma trim_spaces (sp p : string) :
  allChars isSpace sp = true -> trim (sp +:+ p) = trim p.
Proof. intros H. unfold trim. by rewrite trimStart_spaces. Qed.

(** The two loops that split at commas have the same body. *)
Lemma split_bodies_agree (st : SplitState) (char : ascii) :
  shadowSplitBody st char = stopSplitBody st char.
Proof.
  unfold shadowSplitBody, stopSplitBody.
  destruct (Ascii.eqb_spec char "(") as [-> | H1]; [reflexivity |].
  destruct (Ascii.eqb_spec char ")") as [-> | H2]; reflexivity.
Qed.

Lemma forEachChar_ext {S : Type} (f g : S -> ascii -> S) (st : S)
    (value : string) :
  (forall st c, f st c = g st c) ->
  forEachChar f st value = forEachChar g st value.
Proof.
  intros H. revert st. induction value as [| c r IH]; intros st; [done |].
  cbn [forEachChar]. by rewrite H, IH.
Qed.

Lemma shadowParts_stopParts (value : string) :
  shadowParts value = stopParts value.
Proof.
  unfold shadowParts, stopParts. f_equal.
  apply forEachChar_ext, split_bodies_agree.
Qed.

(** Over an item, the loop only adds the characters to [current]. *)
Lemma loop_item (p rest : string) (open : nat) (st : SplitState) :
  commaFree open p = true -> parenDepth st = Z.of_nat open ->
  forEachChar stopSplitBody st (p +:+ rest)
  = forEachChar stopSplitBody (mkSplit (parts st) (current st +:+ p) 0) rest.
Proof.
  revert open st. induction p as [| c p IH]; intros open st Hp Hd.
  - cbn [commaFree] in Hp. apply Nat.eqb_eq in Hp. subst open.
    rewrite append_nil_l, append_empty_r. destruct st as [ps cur d].
    cbn in Hd. by subst d.
  - rewrite append_cons. cbn [forEachChar commaFree] in Hp |- *.
    assert (Hcur : forall d,
      mkSplit (parts st) (current (mkSplit (parts st)
                                     (addChar (current st) c) d) +:+ p) 0
      = mkSplit (parts st) (current st +:+ String c p) 0).
    { intros d. cbn [current]. unfold addChar. by rewrite append_assoc. }
    unfold stopSplitBody.
    destruct (Ascii.eqb_spec c "(") as [-> | H1].
    { cbn [Ascii.eqb Bool.eqb andb].
      rewrite (IH (S open) _ Hp); [by rewrite Hcur | cbn; lia]. }
    destruct (Ascii.eqb_spec c ")") as [-> | H2].
    { cbn [Ascii.eqb Bool.eqb andb]. destruct open as [| open']; [done |].
      rewrite (IH open' _ Hp); [by rewrite Hcur | cbn; lia]. }
    destruct (Ascii.eqb_spec c ",") as [-> | H3].
    { apply andb_true_iff in Hp as [Ho Hp].
      assert (Hz : (parenDepth st =? 0)%Z = false).
      { apply Z.eqb_neq. destruct open; [done | lia]. }
      rewrite Hz. cbn [andb].
      rewrite (IH open _ Hp); [by rewrite Hcur | done]. }
    cbn [andb]. rewrite (IH open _ Hp); [by rewrite Hcur | done].
Qed.

Lemma loop_spaces (sp rest : string) (st : SplitState) :
  allChars isSpace sp = true ->
  forEachChar stopSplitBody st (sp +:+ rest)
  = forEachChar stopSplitBody
      (mkSplit (parts st) (current st +:+ sp) (parenDepth st)) rest.
Proof.
  revert st. induction sp as [| c sp IH]; intros st.
  - intros _. rewrite append_nil_l, append_empty_r. by destruct st.
  - cbn [allChars]. rewrite andb_true_iff. intros [Hc Hsp].
    rewrite append_cons. cbn [forEachChar].
    assert (E : stopSplitBody st c
                = mkSplit (parts st) (addChar (current st) c) (parenDepth st)).
    { revert Hc. unfold stopSplitBody.
      destruct c as [[] [] [] [] [] [] [] []]; vm_compute; done || reflexivity. }
    rewrite E, (IH _ Hsp). cbn [parts current parenDepth]. unfold addChar.
    by rewrite append_assoc.
Qed.

Lemma isListItem_inv (p : string) :
  isListItem p = true ->
  p <> EmptyString /\ trim p = p /\ commaFree 0 p = true.
Proof.
  unfold isListItem. rewrite !andb_true_iff, negb_true_iff.
  intros [[H1 H2] H3]. apply String.eqb_neq in H1. apply String.eqb_eq in H2.
  done.
Qed.

Lemma split_items (sp : string) (items acc : list string) (cur : string) :
  allChars isSpace sp = true -> allChars isSpace cur = true ->
  Forall (fun p => isListItem p = true) items -> items <> [] ->
  pushRest (forEachChar stopSplitBody (mkSplit acc cur 0)
              (joinWith ("," +:+ sp) items))
  = acc ++ items.
Proof.
  intros Hsp. revert acc cur.
  induction items as [| p items IH]; intros acc cur Hcur Hall Hitems; [done |].
  clear Hitems.
  apply Forall_cons in Hall as [Hp Hall].
  apply isListItem_inv in Hp as (Hne & Htrim & Hfree).
  destruct items as [| q items].
  - cbn [joinWith]. rewrite <- (append_empty_r p) at 1.
    rewrite (loop_item p EmptyString 0 (mkSplit acc cur 0) Hfree eq_refl).
    cbn [forEachChar parts current]. unfold pushRest. cbn [parts current].
    rewrite (trim_spaces cur p Hcur), Htrim.
    apply String.eqb_neq in Hne. by rewrite Hne.
  - change (joinWith ("," +:+ sp) (p :: q :: items))
      with (p +:+ ("," +:+ sp) +:+ joinWith ("," +:+ sp) (q :: items)).
    rewrite (loop_item p _ 0 (mkSplit acc cur 0) Hfree eq_refl). cbn [parts current].
    rewrite append_assoc, append_cons, append_nil_l. cbn [forEachChar].
    change (stopSplitBody (mkSplit acc (cur +:+ p) 0) ",")
      with (mkSplit (acc ++ [trim (cur +:+ p)]) EmptyString 0).
    rewrite (trim_spaces cur p Hcur), Htrim.
    rewrite (loop_spaces sp _ _ Hsp). cbn [parts current parenDepth].
    rewrite append_nil_l. rewrite (IH _ sp Hsp Hall ltac:(done)).
    by rewrite <- app_assoc.
Qed.

(** The loop of the gradient parsers on joined items. *)
Lemma stopParts_join (sp : string) (items : list string) :
  allChars isSpace sp = true ->
  Forall (fun p => isListItem p = true) items ->
  stopParts (joinWith ("," +:+ sp) items) = items.
Proof.
  intros Hsp Hall. destruct items as [| p items]; [reflexivity |].
  unfold stopParts, splitStart.
  by rewrite (split_items sp (p :: items) [] EmptyString Hsp eq_refl Hall).
Qed.

End SplitFacts.

(** ** The loop that finds the closing parenthesis *)

Module ClosingFacts.
Import JsNum JsString Splitters SplitSpec RegexFacts RecursionFacts
  MatcherFacts.

Lemma closing_found (content tail : string) (open i end_ : nat) :
  wellNested open content = true ->
  closingLoop (Z.of_nat open + 1) i end_ (content +:+ String ")" tail)
  = (0%Z, (i + String.length content)%nat).
Proof.
  revert open i. induction content as [| c r IH]; intros open i H.
  - cbn [wellNested] in H. apply Nat.eqb_eq in H. subst open.
    rewrite append_nil_l. cbn. by rewrite Nat.add_0_r.
  - rewrite append_cons. cbn [closingLoop wellNested String.length] in H |- *.
    destruct (Ascii.eqb c "(").
    { replace (Z.of_nat open + 1 + 1)%Z with (Z.of_nat (S open) + 1)%Z by lia.
      rewrite (IH _ _ H). f_equal. lia. }
    destruct (Ascii.eqb c ")").
    { destruct open as [| open']; [done |].
      replace (Z.of_nat (S open') + 1 - 1)%Z with (Z.of_nat open' + 1)%Z by lia.
      destruct (Z.eqb_spec (Z.of_nat open' + 1) 0) as [E | _]; [lia |].
      rewrite (IH _ _ H). f_equal. lia. }
    rewrite (IH _ _ H). f_equal. lia.
Qed.

Lemma closing_inv (rest : string) (open i end_ : nat) (e : nat) :
  closingLoop (Z.of_nat open + 1) i end_ rest = (0%Z, e) ->
  exists content tail,
    rest = content +:+ String ")" tail
    /\ wellNested open content = true
    /\ e = (i + String.length content)%nat.
Proof.
  revert open i. induction rest as [| c r IH]; intros open i H.
  - cbn in H. injection H as H _. lia.
  - cbn [closingLoop] in H.
    destruct (Ascii.eqb_spec c "(") as [-> | H1].
    { replace (Z.of_nat open + 1 + 1)%Z with (Z.of_nat (S open) + 1)%Z
        in H by lia.
      apply IH in H as (content & tail & -> & Hn & ->).
      exists (String "(" content), tail. cbn. split; [done |].
      split; [done | lia]. }
    destruct (Ascii.eqb_spec c ")") as [-> | H2].
    { destruct open as [| open'].
      - cbn in H. injection H as <-. exists EmptyString, r. cbn.
        split; [done |]. split; [done | lia].
      - replace (Z.of_nat (S open') + 1 - 1)%Z with (Z.of_nat open' + 1)%Z
          in H by lia.
        destruct (Z.eqb_spec (Z.of_nat open' + 1) 0) as [E | _]; [lia |].
        apply IH in H as (content & tail & -> & Hn & ->).
        exists (String ")" content), tail. cbn. split; [done |].
        split; [done | lia]. }
    apply IH in H as (content & tail & -> & Hn & ->).
    exists (String c content), tail. split; [done |].
    cbn [wellNested String.length].
    apply Ascii.eqb_neq in H1, H2. rewrite H1, H2. split; [done | lia].
Qed.

Lemma skip_append (pre x : string) : skip (String.length pre) (pre +:+ x) = x.
Proof. induction pre as [| c pre IH]; [by destruct x |]. by rewrite append_cons. Qed.

Lemma skip_split (start : nat) (value : string) :
  skip start value <> EmptyString ->
  exists pre, value = pre +:+ skip start value /\ String.length pre = start.
Proof.
  revert value. induction start as [| n IH]; intros value H.
  - by exists EmptyString.
  - destruct value as [| c r]; [done |]. cbn [skip] in H |- *.
    destruct (IH r H) as (pre & E & L). exists (String c pre).
    rewrite append_cons, <- E. cbn [String.length]. by rewrite L.
Qed.

Lemma substring_prefix (content rest : string) :
  substring 0 (String.length content) (content +:+ rest) = content.
Proof.
  induction content as [| c r IH]; [by destruct rest |].
  rewrite append_cons. cbn [String.length substring]. by rewrite IH.
Qed.

Lemma slice_middle (pre content rest : string) :
  slice (String.length pre) (String.length pre + String.length content)
    (pre +:+ content +:+ rest)
  = content.
Proof.
  unfold slice.
  replace (String.length pre + String.length content - String.length pre)%nat
    with (String.length content) by lia.
  induction pre as [| c pre IH];
    [rewrite append_nil_l; apply (substring_prefix content rest) |].
  rewrite append_cons. cbn [String.length substring]. apply IH.
Qed.

End ClosingFacts.

(** ** Items and content of a functional value *)

Module SplitExtras.
Import JsNum JsString Splitters SplitSpec RegexFacts RecursionFacts
  MatcherFacts SplitFacts ClosingFacts.

(** Splitting undoes joining: a list of items, each of them not empty,
    trimmed, with well-nested parentheses and no comma outside them,
    written with a comma and any white space between the items, is split
    into these items, by the loop of [parseBoxShadow] and by the loop of
    the gradient parsers alike.  Commas inside parentheses never
    split. *)
Theorem split_join_roundtrip (sp : string) (items : list string) :
  allChars isSpace sp = true ->
  Forall (fun p => isListItem p = true) items ->
  shadowParts (joinWith ("," +:+ sp) items) = items
  /\ stopParts (joinWith ("," +:+ sp) items) = items.
Proof.
  intros Hsp Hall. split.
  - rewrite shadowParts_stopParts. by apply stopParts_join.
  - by apply stopParts_join.
Qed.

Lemma split_join_roundtrip_witness :
  shadowParts "0 4px 6px rgba(0,0,0,0.1), inset 0 1px #fff"
  = ["0 4px 6px rgba(0,0,0,0.1)"; "inset 0 1px #fff"]
  /\ stopParts "0 4px 6px rgba(0,0,0,0.1), inset 0 1px #fff"
     = ["0 4px 6px rgba(0,0,0,0.1)"; "inset 0 1px #fff"].
Proof.
  apply (split_join_roundtrip " "
           ["0 4px 6px rgba(0,0,0,0.1)"; "inset 0 1px #fff"]);
    [reflexivity | repeat constructor].
Defined.

(** The content of a gradient function: from the index after the opening
    parenthesis, the parsers take exactly the text up to the parenthesis
    that closes it, which is the first one before which the parentheses
    are well nested; without such a parenthesis there is no content. *)
Theorem enclosedContent_spec (value : string) (start : nat)
    (content : string) :
  enclosedContent value start = Some content
  <-> exists pre tail,
        value = pre +:+ content +:+ ")" +:+ tail
        /\ String.length pre = start
        /\ wellNested 0 content = true.
Proof.
  unfold enclosedContent. split.
  - destruct (closingLoop 1 start start (skip start value)) as [d e] eqn:L.
    destruct (Z.eqb_spec d 0) as [-> | _]; [| done]. cbn [negb].
    intros [= <-].
    apply (closing_inv _ 0) in L as (c & tail & E & Hn & ->).
    destruct (skip_split start value) as (pre & Ev & Hl);
      [rewrite E; by destruct c |].
    rewrite E in Ev.
    assert (Hs : slice start (start + String.length c) value = c).
    { rewrite Ev, <- Hl.
      change (c +:+ String ")" tail) with (c +:+ ")" +:+ tail).
      apply slice_middle. }
    rewrite Hs. by exists pre, tail.
  - intros (pre & tail & -> & <- & Hn).
    rewrite skip_append.
    change (content +:+ ")" +:+ tail) with (content +:+ String ")" tail).
    rewrite (closing_found content tail 0 _ _ Hn). cbn [Z.eqb negb].
    by rewrite slice_middle.
Qed.

End SplitExtras.

(** ** One color stop *)

Module StopFacts.
Import JsNum JsString JsParse Regex ValueParsers Splitters SplitSpec
  Gradients StopSpec RegexFacts RecursionFacts MatcherFacts SplitFacts
  ClosingFacts.

Ltac by_char c := destruct c as [[] [] [] [] [] [] [] []].

(** *** First and last characters *)

Lemma lastIs_inv (cls : ascii -> bool) (s : string) :
  lastIs cls s = true ->
  exists q d, s = q +:+ String d EmptyString /\ cls d = true.
Proof.
  induction s as [| c s IH]; [done |]. cbn [lastIs].
  destruct s as [| c' s'].
  - intros H. by exists EmptyString, c.
  - intros H. destruct (IH H) as (q & d & E & Hd).
    exists (String c q), d. by rewrite E.
Qed.

Lemma lastIs_append (cls : ascii -> bool) (a b : string) :
  b <> EmptyString -> lastIs cls (a +:+ b) = lastIs cls b.
Proof.
  intros Hb. induction a as [| c a IH]; [done |].
  rewrite append_cons. cbn [lastIs].
  destruct (a +:+ b) as [| x y] eqn:E; [| exact IH].
  destruct a; [by rewrite append_nil_l in E | done].
Qed.

Lemma lastIs_last (cls : ascii -> bool) (q : string) (d : ascii) :
  lastIs cls (q +:+ String d EmptyString) = cls d.
Proof. by rewrite lastIs_append. Qed.

Lemma lastIs_impl (P Q : ascii -> bool) (s : string) :
  (forall c, P c = true -> Q c = true) ->
  lastIs P s = true -> lastIs Q s = true.
Proof.
  intros HPQ H. apply lastIs_inv in H as (q & d & -> & Hd).
  rewrite lastIs_last. auto.
Qed.

Lemma lastIs_all (cls : ascii -> bool) (s : string) :
  s <> EmptyString -> allChars cls s = true -> lastIs cls s = true.
Proof.
  intros Hne Hall. destruct (last_char cls s Hne Hall) as (p & d & -> & Hd).
  by rewrite lastIs_last.
Qed.

Lemma trimStart_head (s : string) (e : ascii) (t : string) :
  trimStart s = String e t -> isSpace e = false.
Proof.
  induction s as [| c s IH]; [done |]. cbn [trimStart].
  destruct (isSpace c) eqn:E; [exact IH |]. by intros [= <- _].
Qed.

Lemma rev_acc (s acc : string) :
  rev s acc = rev s EmptyString +:+ acc.
Proof.
  revert acc. induction s as [| c s IH]; intros acc; [done |].
  cbn [rev]. rewrite (IH (String c acc)), (IH (String c EmptyString)).
  by rewrite append_assoc.
Qed.

(** A string that [trim] leaves as it is neither starts nor ends with
    white space, and conversely. *)
Lemma trimmed_ends (p : string) :
  trim p = p -> p <> EmptyString ->
  (exists c r, p = String c r /\ isSpace c = false)
  /\ lastIs (fun c => negb (isSpace c)) p = true.
Proof.
  intros Ht Hne. split.
  - destruct p as [| c r]; [done |]. exists c, r. split; [done |].
    destruct (isSpace c) eqn:E; [| done]. exfalso.
    assert (L : (String.length (trim (String c r)) <= String.length r)%nat).
    { unfold trim. cbn [trimStart]. rewrite E.
      unfold trimEnd. rewrite rev_length. cbn [String.length].
      pose proof (trimStart_length (rev (trimStart r) EmptyString)) as H1.
      rewrite rev_length in H1. pose proof (trimStart_length r).
      cbn [String.length] in H1. lia. }
    rewrite Ht in L. cbn [String.length] in L. lia.
  - unfold trim, trimEnd in Ht.
    destruct (trimStart (rev (trimStart p) EmptyString)) as [| e t] eqn:E.
    + cbn in Ht. by subst p.
    + apply trimStart_head in E. cbn [rev] in Ht. rewrite rev_acc in Ht.
      rewrite <- Ht, lastIs_last. by rewrite E.
Qed.

Lemma trim_fixed (s : string) (c : ascii) (r : string) :
  s = String c r -> isSpace c = false ->
  lastIs (fun c => negb (isSpace c)) s = true ->
  trim s = s.
Proof.
  intros E Hc Hl. apply lastIs_inv in Hl as (q & d & Eq & Hd).
  apply (trim_id s c r d (rev q EmptyString) E Hc).
  - by rewrite Eq, rev_append.
  - by apply negb_true_iff.
Qed.

Lemma nospace_trim (s : string) :
  allChars (fun c => negb (isSpace c)) s = true -> trim s = s.
Proof.
  intros H. destruct s as [| c r]; [done |].
  apply (trim_fixed _ c r eq_refl).
  - cbn [allChars] in H. apply andb_true_iff in H as [H _].
    by apply negb_true_iff.
  - by apply lastIs_all.
Qed.

(** *** Items of a list *)

Lemma commaFree_append (a b : string) (open : nat) :
  commaFree open a = true -> commaFree open (a +:+ b) = commaFree 0 b.
Proof.
  revert open. induction a as [| c a IH]; intros open H.
  - cbn [commaFree] in H. apply Nat.eqb_eq in H. by subst.
  - rewrite append_cons. cbn [commaFree] in H |- *.
    destruct (Ascii.eqb c "("); [by apply IH |].
    destruct (Ascii.eqb c ")"); [destruct open; [done | by apply IH] |].
    destruct (Ascii.eqb c ",").
    + apply andb_true_iff in H as [-> H]. by apply IH.
    + by apply IH.
Qed.

Lemma commaFree_plain (s : string) :
  allChars (fun c => negb (Ascii.eqb c "(" || Ascii.eqb c ")"
                           || Ascii.eqb c ",")) s = true ->
  commaFree 0 s = true.
Proof.
  induction s as [| c s IH]; [done |]. cbn [allChars commaFree].
  rewrite andb_true_iff, negb_true_iff, !orb_false_iff.
  intros [[[-> ->] ->] H]. auto.
Qed.

Lemma digit_class (c : ascii) :
  isDigit c = true ->
  isSpace c = false
  /\ negb (Ascii.eqb c "(" || Ascii.eqb c ")" || Ascii.eqb c ",") = true
  /\ Ascii.eqb "." c = false.
Proof.
  intros H. by_char c; try (vm_compute in H; discriminate H);
    vm_compute; done.
Qed.

Lemma span_spec (cls : ascii -> bool) (s m rest : string) :
  span cls s = (m, rest) ->
  s = m +:+ rest /\ allChars cls m = true
  /\ match rest with String c _ => cls c = false | EmptyString => True end.
Proof.
  revert m rest. induction s as [| c s IH]; intros m rest; cbn [span].
  - by intros [= <- <-].
  - destruct (cls c) eqn:E.
    + destruct (span cls s) as [m' rest'] eqn:Es. intros [= <- <-].
      destruct (IH _ _ eq_refl) as (-> & Hm & Hr).
      cbn [allChars]. by rewrite E, Hm.
    + intros [= <- <-]. done.
Qed.

Lemma isDecimal_inv (d : string) :
  isDecimal d = true ->
  exists ip fp,
    ip <> EmptyString /\ allChars isDigit ip = true
    /\ ((d = ip /\ fp = None)
        \/ exists f, fp = Some f /\ d = ip +:+ "." +:+ f
                     /\ f <> EmptyString /\ allChars isDigit f = true).
Proof.
  unfold isDecimal. destruct (span isDigit d) as [ip rest] eqn:E.
  apply span_spec in E as (-> & Hip & _).
  destruct rest as [| c fp].
  - rewrite negb_true_iff. intros H. apply String.eqb_neq in H.
    exists ip, None. rewrite append_empty_r. by auto.
  - destruct (Ascii.eqb_spec c ".") as [-> | Hc].
    + rewrite !andb_true_iff, !negb_true_iff.
      intros [[H1 H2] H3]. apply String.eqb_neq in H1, H2.
      exists ip, (Some fp). split; [done |]. split; [done |]. right.
      by exists fp.
    + intros H. exfalso. revert H.
      by_char c; try discriminate; by destruct Hc.
Qed.

(** *** The expression for the position of a stop *)

Lemma decimalRe_head (pct rest : string) :
  isDecimal pct = true ->
  match rest with
  | String c _ => isDigit c = false /\ Ascii.eqb "." c = false
  | EmptyString => True
  end ->
  hd_error (decimalRe (pct +:+ rest)) = Some (pct, rest).
Proof.
  intros Hd Hrest.
  apply isDecimal_inv in Hd as (ip & fp & Hne & Hip & [[-> ->] | H]).
  - destruct (plus_head isDigit ip rest Hne Hip) as [tl E].
    { destruct rest; [done | by destruct Hrest]. }
    unfold decimalRe, mbind, matcher_bind. eapply head_bind; [by rewrite E |].
    eapply head_bind with (a := None) (mid := rest); [| done].
    destruct rest as [| c r]; [done |]. destruct Hrest as [_ Hc].
    unfold opt, alt, fmap. cbn [lit]. unfold bind, chr. cbn beta.
    by rewrite Hc.
  - destruct H as (f & -> & -> & Hnf & Hf).
    destruct (plus_head isDigit ip ("." +:+ f +:+ rest) Hne Hip eq_refl)
      as [tl E].
    destruct (plus_head isDigit f rest Hnf Hf) as [tl' E'].
    { destruct rest; [done | by destruct Hrest]. }
    rewrite !append_assoc.
    unfold decimalRe, mbind, matcher_bind. eapply head_bind; [by rewrite E |].
    eapply head_bind with (a := Some f) (mid := rest); [| done].
    unfold opt, alt, fmap.
    assert (H : hd_error
                  (bind (lit false ".") (fun _ => plus isDigit)
                     ("." +:+ f +:+ rest)) = Some (f, rest)).
    { eapply head_bind with (a := tt) (mid := f +:+ rest); [done |].
      by rewrite E'. }
    destruct (bind (lit false ".") (fun _ => plus isDigit)
                ("." +:+ f +:+ rest)) as [| x l] eqn:B; [done |].
    injection H as ->. unfold bind at 1.
    change ((lit false "." ≫= λ _ : (), plus isDigit) ("." +:+ f +:+ rest))
      with (bind (lit false ".") (fun _ => plus isDigit) ("." +:+ f +:+ rest)).
    rewrite B. reflexivity.
Qed.

Lemma positionRe_head (pct : string) :
  isDecimal pct = true ->
  hd_error (positionRe (" " +:+ pct +:+ "%")) = Some (pct, EmptyString).
Proof.
  intros Hd.
  assert (Hfirst : exists c r, pct = String c r /\ isDigit c = true).
  { apply isDecimal_inv in Hd as (ip & fp & Hne & Hip & H).
    destruct ip as [| c ip]; [done |]. cbn [allChars] in Hip.
    apply andb_true_iff in Hip as [Hc _].
    destruct H as [[-> _] | (f & _ & -> & _)]; by eauto. }
  destruct Hfirst as (c & r & E & Hc).
  apply digit_class in Hc as (Hc & _).
  unfold positionRe, mbind, matcher_bind.
  eapply head_bind with (a := " ") (mid := pct +:+ "%").
  { destruct (plus_head isSpace " " (pct +:+ "%")) as [tl ->];
      [done | done | by rewrite E | done]. }
  eapply head_bind; [by apply decimalRe_head | reflexivity].
Qed.

(** The expression matches only at the end of a string that ends with a
    percent sign and white space. *)
Lemma positionRe_sound (s g rest : string) :
  In (g, rest) (positionRe s) ->
  exists x sp, s = x +:+ "%" +:+ sp /\ allChars isSpace sp = true.
Proof.
  unfold positionRe. intros H.
  apply in_mbind in H as (u1 & s1 & H1 & H). apply in_plus in H1 as (_ & _ & ->).
  apply in_mbind in H as (g1 & s2 & H2 & H).
  assert (E2 : exists d, s1 = d +:+ s2).
  { unfold decimalRe in H2.
    apply in_mbind in H2 as (ip & t1 & A1 & H2). apply in_plus in A1 as (_ & _ & ->).
    apply in_mbind in H2 as (fp & t2 & A2 & H2). apply in_mret in H2 as [_ ->].
    apply in_opt in A2 as [(f & _ & A2) | [_ ->]]; [| by exists ip].
    apply in_mbind in A2 as (u & t3 & A3 & A4).
    apply in_lit_exact in A3 as ->. apply in_plus in A4 as (_ & _ & ->).
    exists (ip +:+ "." +:+ f). by rewrite !append_assoc. }
  destruct E2 as [d ->].
  apply in_mbind in H as (u3 & s3 & H3 & H). apply in_ws_app in H3 as (w1 & -> & _).
  apply in_mbind in H as (u4 & s4 & H4 & H). apply in_lit_exact in H4 as ->.
  apply in_mbind in H as (u5 & s5 & H5 & H). apply in_ws_app in H5 as (w2 & -> & Hw).
  apply in_mbind in H as (u6 & s6 & H6 & H). apply in_eos in H6 as [-> _].
  exists (u1 +:+ d +:+ w1), w2. by rewrite append_empty_r, !append_assoc.
Qed.

Lemma in_matched {A} (m : matcher A) (s : string) (a : A) (whole rest : string) :
  In ((a, whole), rest) (matched m s) -> In (a, rest) (m s).
Proof.
  unfold matched. rewrite in_map_iff. intros [[a' r'] [[= <- _ <-] H]]. done.
Qed.

Lemma search_none {A} (m : matcher A) (s : string) :
  (forall pre suf x, s = pre +:+ suf -> ~ In x (m suf)) ->
  search m s = None.
Proof.
  intros H. destruct (search m s) as [a |] eqn:E; [| done]. exfalso.
  apply search_Some in E as (pre & suf & rest & -> & Hin).
  by apply (H pre suf (a, rest)).
Qed.

(** No position in a part that does not end with a percent sign. *)
Lemma no_position (c : string) :
  trim c = c -> c <> EmptyString ->
  lastIs (fun x => Ascii.eqb x "%") c = false ->
  search (matched positionRe) c = None.
Proof.
  intros Ht Hne Hl. apply search_none. intros pre suf [[g whole] rest] -> Hin.
  apply in_matched, positionRe_sound in Hin as (x & sp & -> & Hsp).
  destruct (trimmed_ends _ Ht Hne) as [_ Hns].
  destruct sp as [| e sp].
  - rewrite append_empty_r, <- append_assoc in Hl.
    by rewrite (lastIs_last _ (pre +:+ x) "%") in Hl.
  - rewrite <- !append_assoc in Hns. rewrite lastIs_append in Hns by done.
    assert (Hs : lastIs isSpace (String e sp) = true) by by apply lastIs_all.
    apply lastIs_inv in Hs as (q & d & E & Hd). rewrite E in Hns.
    rewrite lastIs_last in Hns. by rewrite Hd in Hns.
Qed.

(** The position of a part that ends with a percentage after a color
    without white space. *)
Lemma found_position (c pct : string) :
  allChars (fun x => negb (isSpace x)) c = true -> isDecimal pct = true ->
  search (matched positionRe) (c +:+ " " +:+ pct +:+ "%")
  = Some (pct, " " +:+ pct +:+ "%").
Proof.
  intros Hc Hd. induction c as [| x c IH].
  - rewrite append_nil_l.
    pose proof (positionRe_head pct Hd) as H.
    change (" " +:+ pct +:+ "%") with (String " " (pct +:+ "%")) in *.
    cbn [search]. unfold matched at 1.
    destruct (positionRe (String " " (pct +:+ "%"))) as [| [g r] tl];
      [done |]. injection H as -> ->. cbn [map fst snd String.length].
    rewrite Nat.sub_0_r.
    change (S (String.length (pct +:+ "%")))
      with (String.length (String " " (pct +:+ "%"))).
    rewrite <- (append_empty_r (String " " (pct +:+ "%"))) at 2.
    by rewrite substring_prefix.
  - cbn [allChars] in Hc. apply andb_true_iff in Hc as [Hx Hc].
    apply negb_true_iff in Hx. rewrite append_cons. cbn [search].
    unfold matched at 1, positionRe at 1, mbind, matcher_bind, plus.
    unfold bind at 1 2. unfold chr. rewrite Hx. cbn [flat_map map].
    by apply IH.
Qed.

(** *** One stop *)

Lemma isStopText_inv (stop : StopText) :
  isStopText stop = true ->
  fst stop <> EmptyString /\ trim (fst stop) = fst stop
  /\ commaFree 0 (fst stop) = true
  /\ parseColor (fst stop) <> Null
  /\ match snd stop with
     | Some pct =>
         isDecimal pct = true
         /\ allChars (fun c => negb (isSpace c)) (fst stop) = true
     | None => lastIs (fun c => Ascii.eqb c "%") (fst stop) = false
     end.
Proof.
  unfold isStopText. rewrite !andb_true_iff. intros [[H1 H2] H3].
  apply isListItem_inv in H1 as (Hne & Ht & Hf).
  repeat (split; [done |]). split.
  - by destruct (parseColor (fst stop)).
  - destruct (snd stop); [by apply andb_true_iff in H3 |].
    by apply negb_true_iff in H3.
Qed.

Lemma stopText_trimmed (stop : StopText) :
  isStopText stop = true ->
  stopText stop <> EmptyString /\ trim (stopText stop) = stopText stop.
Proof.
  intros H. apply isStopText_inv in H as (Hne & Ht & _ & _ & H).
  destruct stop as [c [pct |]]; cbn [fst snd stopText] in *; [| done].
  destruct c as [| x c]; [done |]. split; [done |].
  apply (trim_fixed _ x (c +:+ " " +:+ pct +:+ "%") eq_refl).
  - destruct (trimmed_ends _ Ht Hne) as [(x' & r' & [= <- <-] & Hx) _]. done.
  - rewrite <- append_cons, <- !append_assoc.
    by rewrite (lastIs_last _ _ "%").
Qed.

Lemma stopText_item (stop : StopText) :
  isStopText stop = true -> isListItem (stopText stop) = true.
Proof.
  intros H. destruct (stopText_trimmed stop H) as [Hne Ht].
  apply isStopText_inv in H as (_ & _ & Hf & _ & H).
  unfold isListItem. rewrite Ht, String.eqb_refl.
  apply String.eqb_neq in Hne. rewrite Hne. cbn [negb andb].
  destruct stop as [c [pct |]]; cbn [fst snd stopText] in *; [| done].
  rewrite (commaFree_append _ _ _ Hf). apply commaFree_plain.
  destruct H as [Hd _].
  apply isDecimal_inv in Hd as (ip & fp & _ & Hip & Hd).
  assert (Hdig : forall s, allChars isDigit s = true ->
            allChars (fun c => negb (Ascii.eqb c "(" || Ascii.eqb c ")"
                                     || Ascii.eqb c ",")) s = true).
  { intros s. apply allChars_impl. intros x Hx.
    by apply digit_class in Hx as (_ & -> & _). }
  destruct Hd as [[-> _] | (f & _ & -> & _ & Hf')];
    rewrite !allChars_append, ?(Hdig ip Hip), ?(Hdig f Hf'); reflexivity.
Qed.

Lemma stopOf_text (n i : nat) (stop : StopText) :
  isStopText stop = true -> (1 <? n)%nat = true ->
  stopOf n i (stopText stop) = Some (expectedStop n i stop).
Proof.
  intros H Hn. destruct (stopText_trimmed stop H) as [Hne Ht].
  apply isStopText_inv in H as (Hc & Htc & _ & Hcol & H).
  unfold stopOf, expectedStop. rewrite Ht.
  apply String.eqb_neq in Hne. rewrite Hne.
  destruct stop as [c [pct |]]; cbn [fst snd stopText] in *.
  - destruct H as [Hd Hns]. rewrite (found_position c pct Hns Hd).
    rewrite length_append, Nat.add_sub.
    unfold slice. rewrite Nat.sub_0_r, substring_prefix, Htc.
    by destruct (parseColor c).
  - rewrite (no_position c Htc Hc H), Hn.
    by destruct (parseColor c).
Qed.

Lemma stopsFrom_texts (n i : nat) (stops : list StopText) :
  (1 <? n)%nat = true -> Forall (fun s => isStopText s = true) stops ->
  stopsFrom n i (map stopText stops) = expectedFrom n i stops.
Proof.
  intros Hn. revert i. induction stops as [| s stops IH]; intros i Hall.
  - reflexivity.
  - apply Forall_cons in Hall as [Hs Hall]. cbn [map stopsFrom expectedFrom].
    by rewrite (stopOf_text n i s Hs Hn), IH.
Qed.

Lemma stopsFrom_length (n i : nat) (parts : list string) :
  (List.length (stopsFrom n i parts) <= List.length parts)%nat.
Proof.
  revert i. induction parts as [| p parts IH]; intros i; cbn [stopsFrom].
  - done.
  - specialize (IH (S i)). destruct (stopOf n i p); cbn [List.length]; lia.
Qed.

Lemma expectedFrom_length (n i : nat) (stops : list StopText) :
  List.length (expectedFrom n i stops) = List.length stops.
Proof.
  revert i. induction stops as [| s stops IH]; intros i; [done |].
  cbn [expectedFrom List.length]. by rewrite IH.
Qed.

(** *** The joined items *)

Lemma join_nonempty (sep : string) (items : list string) :
  items <> [] -> Forall (fun p => p <> EmptyString) items ->
  exists c r p rest,
    items = p :: rest /\ p = String c r
    /\ joinWith sep items = String c (r +:+ match rest with
                                            | [] => EmptyString
                                            | _ => sep +:+ joinWith sep rest
                                            end).
Proof.
  intros Hne Hall. destruct items as [| p rest]; [done |].
  apply Forall_cons in Hall as [Hp _]. destruct p as [| c r]; [done |].
  exists c, r, (String c r), rest. split; [done |]. split; [done |].
  destruct rest; [by rewrite append_empty_r | done].
Qed.

Lemma join_lastIs (cls : ascii -> bool) (sep : string) (items : list string) :
  items <> [] -> Forall (fun p => lastIs cls p = true) items ->
  lastIs cls (joinWith sep items) = true.
Proof.
  induction items as [| p items IH]; [done |]. intros _ Hall.
  apply Forall_cons in Hall as [Hp Hall].
  destruct items as [| q items]; [done |].
  change (joinWith sep (p :: q :: items))
    with (p +:+ sep +:+ joinWith sep (q :: items)).
  specialize (IH ltac:(done) Hall).
  assert (Hj : joinWith sep (q :: items) <> EmptyString).
  { intros E. by rewrite E in IH. }
  rewrite lastIs_append; [rewrite lastIs_append; done |].
  destruct sep; [by rewrite append_nil_l | done].
Qed.

Lemma join_trimmed (sep : string) (items : list string) :
  Forall (fun p => isListItem p = true) items ->
  trim (joinWith sep items) = joinWith sep items.
Proof.
  intros Hall. destruct items as [| p items]; [done |].
  assert (H1 : Forall (fun p => p <> EmptyString) (p :: items)).
  { eapply Forall_impl; [exact Hall |]. intros x Hx.
    by apply isListItem_inv in Hx as (? & _). }
  assert (H2 : Forall (fun p => lastIs (fun c => negb (isSpace c)) p = true)
                 (p :: items)).
  { eapply Forall_impl; [exact Hall |]. intros x Hx.
    apply isListItem_inv in Hx as (Hne & Ht & _).
    by destruct (trimmed_ends x Ht Hne). }
  destruct (join_nonempty sep (p :: items) ltac:(done) H1)
    as (c & r & p' & rest & [= <- <-] & -> & E).
  apply Forall_cons in Hall as [Hp _].
  apply isListItem_inv in Hp as (Hne & Ht & _).
  destruct (trimmed_ends _ Ht Hne) as [(c' & r' & [= <- <-] & Hc) _].
  eapply trim_fixed; [exact E | exact Hc |].
  by apply join_lastIs.
Qed.

End StopFacts.

(** ** Color stops of a gradient *)

Module StopExtras.
Import JsNum JsString JsParse Regex ValueParsers Splitters SplitSpec
  Gradients StopSpec RegexFacts RecursionFacts MatcherFacts SplitFacts
  ClosingFacts StopFacts.

(** The stops of a gradient.  For a list of two or more stops, each a
    color that [parseColor] accepts, alone or followed by a space and a
    percentage, written with a comma and any white space between them,
    the gradient parsers return one stop per item and in the same order:
    its color is the parsed color; its position is the percentage over
    100 where one is written, and otherwise the index of the stop over
    the number of stops minus one, whatever the positions of the other
    stops are.  With fewer than two stops they return null. *)
Theorem colorStops_of_stop_texts (sp : string) (stops : list StopText) :
  allChars isSpace sp = true ->
  Forall (fun s => isStopText s = true) stops ->
  colorStops (joinWith ("," +:+ sp) (map stopText stops)) 0
  = if (List.length stops <? 2)%nat then None
    else Some (expectedFrom (List.length stops) 0 stops).
Proof.
  intros Hsp Hall.
  assert (Hitems : Forall (fun p => isListItem p = true) (map stopText stops)).
  { apply Forall_fmap. eapply Forall_impl; [exact Hall |].
    intros s. apply stopText_item. }
  unfold colorStops. cbn [skip].
  rewrite (join_trimmed _ _ Hitems).
  rewrite (stopParts_join sp _ Hsp Hitems).
  rewrite length_map.
  destruct (Nat.ltb_spec (List.length stops) 2) as [Hlt | Hge].
  - pose proof (stopsFrom_length (List.length stops) 0 (map stopText stops))
      as L. rewrite length_map in L.
    destruct (Nat.ltb_spec
                (List.length (stopsFrom (List.length stops) 0
                                (map stopText stops))) 2); [done | lia].
  - assert (Hn : (1 <? List.length stops)%nat = true)
      by (apply Nat.ltb_lt; lia).
    rewrite (stopsFrom_texts _ 0 stops Hn Hall), expectedFrom_length.
    by destruct (Nat.ltb_spec (List.length stops) 2); [lia |].
Qed.

Lemma colorStops_of_stop_texts_witness :
  colorStops "red, #ff0 30%, rgba(0,0,255,0.5)" 0
  = Some [mkStop (ndiv (ofNat 0) (ofNat 2)) (parseColor "red");
          mkStop (ndiv (parseFloat "30") (Num 100)) (parseColor "#ff0");
          mkStop (ndiv (ofNat 2) (ofNat 2)) (parseColor "rgba(0,0,255,0.5)")].
Proof.
  apply (colorStops_of_stop_texts " "
           [("red", None); ("#ff0", Some "30"); ("rgba(0,0,255,0.5)", None)]);
    [reflexivity | repeat constructor].
Defined.

End StopExtras.

(** ** The expressions of [rgb()] and [hsl()] *)

Module FunctionalColors.
Import JsNum JsString JsParse Regex ValueParsers ColorSpec RegexFacts
  RecursionFacts MatcherFacts ColorFacts ColorChannels ColorRange.

Ltac by_char c := destruct c as [[] [] [] [] [] [] [] []].

Lemma search_hd {A} (m : matcher A) (s : string) (a : A) (rest : string) :
  hd_error (m s) = Some (a, rest) -> search m s = Some a.
Proof.
  destruct s as [| c s]; cbn [search];
    (destruct (m _) as [| [a' r'] tl]; [done |]); by intros [= -> _].
Qed.

Lemma opt_head {A} (m : matcher A) (s : string) (a : A) (rest : string) :
  hd_error (m s) = Some (a, rest) ->
  hd_error (opt m s) = Some (Some a, rest).
Proof.
  unfold opt, alt, fmap, bind. destruct (m s) as [| [a' r'] tl]; [done |].
  by intros [= -> ->].
Qed.

Lemma digit_first (ds rest : string) :
  ds <> EmptyString -> allChars isDigit ds = true ->
  match ds +:+ rest with
  | String c _ => isSpace c = false
  | EmptyString => True
  end.
Proof.
  intros Hne Hall. destruct ds as [| c ds]; [done |].
  cbn [allChars] in Hall. apply andb_true_iff in Hall as [Hc _].
  rewrite append_cons. revert Hc.
  by_char c; vm_compute; done.
Qed.

Lemma digitOrDot_first (ds rest : string) :
  ds <> EmptyString -> allChars isDigitOrDot ds = true ->
  match ds +:+ rest with
  | String c _ => isSpace c = false
  | EmptyString => True
  end.
Proof.
  intros Hne Hall. destruct ds as [| c ds]; [done |].
  cbn [allChars] in Hall. apply andb_true_iff in Hall as [Hc _].
  rewrite append_cons. revert Hc.
  by_char c; vm_compute; done.
Qed.

(** The head of the functional [rgb()] expression: one number, up to the
    separator after it. *)
Section Numbers.
Context {B : Type}.

(** [\s*(cls+)] before a character that is not in the class *)
Lemma number_head (cls : ascii -> bool) (sp ds rest : string)
    (k : string -> matcher B) (y : B * string) :
  allChars isSpace sp = true ->
  ds <> EmptyString -> allChars cls ds = true ->
  match ds +:+ rest with
  | String c _ => isSpace c = false
  | EmptyString => True
  end ->
  match rest with String c _ => cls c = false | EmptyString => True end ->
  hd_error (k ds rest) = Some y ->
  hd_error (bind ws (fun _ => bind (plus cls) k) (sp +:+ ds +:+ rest))
  = Some y.
Proof.
  intros Hsp Hne Hall Hfirst Hrest Hk.
  eapply head_bind; [by apply ws_head |].
  destruct (plus_head cls ds rest Hne Hall Hrest) as [tl E].
  eapply head_bind; [by rewrite E | exact Hk].
Qed.

(** [\s*,\s*(cls+)] *)
Lemma comma_number_head (cls : ascii -> bool) (sp ds rest : string)
    (k : string -> matcher B) (y : B * string) :
  allChars isSpace sp = true ->
  ds <> EmptyString -> allChars cls ds = true ->
  match ds +:+ rest with
  | String c _ => isSpace c = false
  | EmptyString => True
  end ->
  match rest with String c _ => cls c = false | EmptyString => True end ->
  hd_error (k ds rest) = Some y ->
  hd_error
    (bind ws (fun _ => bind (lit true ",")
       (fun _ => bind ws (fun _ => bind (plus cls) k)))
       ("," +:+ sp +:+ ds +:+ rest))
  = Some y.
Proof.
  intros Hsp Hne Hall Hfirst Hrest Hk.
  eapply head_bind with (a := tt) (mid := "," +:+ sp +:+ ds +:+ rest);
    [reflexivity |].
  eapply head_bind with (a := tt) (mid := sp +:+ ds +:+ rest);
    [reflexivity |].
  by apply number_head.
Qed.

End Numbers.

(** What the functional [rgb()] expression captures on three integers
    between commas. *)
Lemma rgbRe_head (alpha : bool) (sp r g b a : string) :
  allChars isSpace sp = true ->
  r <> EmptyString -> allChars isDigit r = true ->
  g <> EmptyString -> allChars isDigit g = true ->
  b <> EmptyString -> allChars isDigit b = true ->
  a <> EmptyString -> allChars isDigitOrDot a = true ->
  let tail :=
    if alpha then "," +:+ sp +:+ a +:+ ")" else ")" in
  let name := if alpha then "rgba(" else "rgb(" in
  rgbMatch (name +:+ r +:+ "," +:+ sp +:+ g +:+ "," +:+ sp +:+ b +:+ tail)
  = Some (r, g, b, if alpha then Some a else None).
Proof.
  intros Hsp Hr Hr' Hg Hg' Hb Hb' Ha Ha' tail name.
  unfold rgbMatch. apply search_hd with (rest := EmptyString).
  unfold rgbRe, mbind, matcher_bind.
  set (body := r +:+ "," +:+ sp +:+ g +:+ "," +:+ sp +:+ b +:+ tail).
  eapply head_bind with (a := tt)
    (mid := (if alpha then "a(" else "(") +:+ body);
    [by destruct alpha |].
  eapply head_bind with (a := if alpha then Some tt else None)
    (mid := "(" +:+ body); [by destruct alpha |].
  eapply head_bind with (a := tt) (mid := "(" +:+ body); [reflexivity |].
  eapply head_bind with (a := tt) (mid := body); [reflexivity |].
  unfold body.
  apply (number_head isDigit EmptyString r); [done | done | done | | done |].
  { by apply digit_first. }
  apply (comma_number_head isDigit sp g); [done | done | done | | done |].
  { by apply digit_first. }
  apply (comma_number_head isDigit sp b); [done | done | done | | |].
  { by apply digit_first. }
  { by destruct alpha. }
  unfold tail. destruct alpha; [| reflexivity].
  eapply head_bind with (a := tt) (mid := "," +:+ sp +:+ a +:+ ")");
    [reflexivity |].
  eapply head_bind with (a := Some a) (mid := ")"); [| reflexivity].
  apply opt_head. unfold mbind, matcher_bind.
  eapply head_bind with (a := tt) (mid := sp +:+ a +:+ ")"); [reflexivity |].
  eapply head_bind with (a := tt) (mid := a +:+ ")").
  { apply ws_head; [done |]. by apply digitOrDot_first. }
  by destruct (plus_head isDigitOrDot a ")" Ha Ha' eq_refl) as [tl ->].
Qed.

(** The functional [rgb()] expression matches nowhere in a string without
    the letter r. *)
Lemma rgbMatch_needs_r (s : string) :
  allChars (fun c => negb (eqCI "r" c)) s = true -> rgbMatch s = None.
Proof.
  unfold rgbMatch. induction s as [| c s IH]; [reflexivity |].
  cbn [allChars]. rewrite andb_true_iff, negb_true_iff. intros [Hc Hs].
  cbn [search].
  assert (E : rgbRe (String c s) = []).
  { unfold rgbRe, mbind, matcher_bind. cbn [lit]. unfold bind at 1 2.
    unfold chr. by rewrite Hc. }
  rewrite E. by apply IH.
Qed.

Lemma digitOrDot_no_r (ds : string) :
  allChars isDigitOrDot ds = true ->
  allChars (fun c => negb (eqCI "r" c)) ds = true.
Proof.
  apply allChars_impl. intros c.
  by_char c; vm_compute; done.
Qed.

Lemma space_no_r (sp : string) :
  allChars isSpace sp = true ->
  allChars (fun c => negb (eqCI "r" c)) sp = true.
Proof.
  apply allChars_impl. intros c.
  by_char c; vm_compute; done.
Qed.

(** What the functional [hsl()] expression captures on a hue and two
    percentages between commas. *)
Lemma hslRe_head (alpha : bool) (sp h s l a : string) :
  allChars isSpace sp = true ->
  h <> EmptyString -> allChars isDigitOrDot h = true ->
  s <> EmptyString -> allChars isDigitOrDot s = true ->
  l <> EmptyString -> allChars isDigitOrDot l = true ->
  a <> EmptyString -> allChars isDigitOrDot a = true ->
  let tail :=
    if alpha then "," +:+ sp +:+ a +:+ ")" else ")" in
  let name := if alpha then "hsla(" else "hsl(" in
  hslMatch (name +:+ h +:+ "," +:+ sp +:+ s +:+ "%" +:+ "," +:+ sp +:+ l
            +:+ "%" +:+ tail)
  = Some (h, s, l, if alpha then Some a else None).
Proof.
  intros Hsp Hh Hh' Hs Hs' Hl Hl' Ha Ha' tail name.
  unfold hslMatch. apply search_hd with (rest := EmptyString).
  unfold hslRe, mbind, matcher_bind.
  set (body := h +:+ "," +:+ sp +:+ s +:+ "%" +:+ "," +:+ sp +:+ l
               +:+ "%" +:+ tail).
  eapply head_bind with (a := tt)
    (mid := (if alpha then "a(" else "(") +:+ body);
    [by destruct alpha |].
  eapply head_bind with (a := if alpha then Some tt else None)
    (mid := "(" +:+ body); [by destruct alpha |].
  eapply head_bind with (a := tt) (mid := "(" +:+ body); [reflexivity |].
  eapply head_bind with (a := tt) (mid := body); [reflexivity |].
  unfold body.
  apply (number_head isDigitOrDot EmptyString h);
    [done | done | done | | done |].
  { by apply digitOrDot_first. }
  apply (comma_number_head isDigitOrDot sp s);
    [done | done | done | | done |].
  { by apply digitOrDot_first. }
  eapply head_bind with (a := tt)
    (mid := "," +:+ sp +:+ l +:+ "%" +:+ tail); [reflexivity |].
  apply (comma_number_head isDigitOrDot sp l);
    [done | done | done | | done |].
  { by apply digitOrDot_first. }
  eapply head_bind with (a := tt) (mid := tail); [reflexivity |].
  unfold tail. destruct alpha; [| reflexivity].
  eapply head_bind with (a := tt) (mid := "," +:+ sp +:+ a +:+ ")");
    [reflexivity |].
  eapply head_bind with (a := Some a) (mid := ")"); [| reflexivity].
  apply opt_head. unfold mbind, matcher_bind.
  eapply head_bind with (a := tt) (mid := sp +:+ a +:+ ")"); [reflexivity |].
  eapply head_bind with (a := tt) (mid := a +:+ ")").
  { apply ws_head; [done |]. by apply digitOrDot_first. }
  by destruct (plus_head isDigitOrDot a ")" Ha Ha' eq_refl) as [tl ->].
Qed.

End FunctionalColors.

(** ** Functional color notations *)

Module ColorNotations.
Import JsNum JsString JsParse Regex ValueParsers ColorSpec RegexFacts
  RecursionFacts MatcherFacts ColorFacts ColorChannels ColorRange
  FunctionalColors.

(** The functional notation [rgb(R, G, B)] of three decimal integers,
    with any white space after the commas: each channel is the integer
    over 255, and the color is opaque.  With [rgba(R, G, B, A)] the alpha
    is the number [A] as [parseFloat] reads it. *)
Theorem parseColor_rgb_notation (sp r g b a : string) :
  allChars isSpace sp = true ->
  r <> EmptyString -> allChars isDigit r = true ->
  g <> EmptyString -> allChars isDigit g = true ->
  b <> EmptyString -> allChars isDigit b = true ->
  a <> EmptyString -> allChars isDigitOrDot a = true ->
  let channel (ds : string) : number :=
    Num (inject_Z (digitsValue 10 0 ds) / 255) in
  parseColor ("rgb(" +:+ r +:+ "," +:+ sp +:+ g +:+ "," +:+ sp +:+ b +:+ ")")
  = Color (mkRGBA (channel r) (channel g) (channel b) (Num 1))
  /\ parseColor ("rgba(" +:+ r +:+ "," +:+ sp +:+ g +:+ "," +:+ sp +:+ b
                 +:+ "," +:+ sp +:+ a +:+ ")")
     = Color (mkRGBA (channel r) (channel g) (channel b) (parseFloat a)).
Proof.
  intros Hsp Hr Hr' Hg Hg' Hb Hb' Ha Ha' channel.
  assert (Hch : forall ds, ds <> EmptyString -> allChars isDigit ds = true ->
            ndiv (parseInt ds 10) (Num 255) = channel ds).
  { intros ds H1 H2. destruct (parseInt_digits ds H1 H2) as [-> _].
    apply ndiv_255. }
  pose proof (rgbRe_head false sp r g b a Hsp Hr Hr' Hg Hg' Hb Hb' Ha Ha')
    as H1.
  pose proof (rgbRe_head true sp r g b a Hsp Hr Hr' Hg Hg' Hb Hb' Ha Ha')
    as H2.
  cbv zeta in H1, H2. split.
  - unfold parseColor.
    change (String.eqb ("rgb(" +:+ _) EmptyString) with false.
    change (hexMatch ("rgb(" +:+ _)) with (@None string).
    cbn [mbind option_bind]. rewrite H1.
    by rewrite !Hch.
  - unfold parseColor.
    change (String.eqb ("rgba(" +:+ _) EmptyString) with false.
    change (hexMatch ("rgba(" +:+ _)) with (@None string).
    cbn [mbind option_bind]. rewrite H2.
    by rewrite !Hch.
Qed.

Lemma parseColor_rgb_notation_witness :
  parseColor "rgb(255, 128, 0)"
  = Color (mkRGBA (Num (inject_Z 255 / 255)) (Num (inject_Z 128 / 255))
             (Num (inject_Z 0 / 255)) (Num 1))
  /\ parseColor "rgba(255, 128, 0, 0.5)"
     = Color (mkRGBA (Num (inject_Z 255 / 255)) (Num (inject_Z 128 / 255))
                (Num (inject_Z 0 / 255)) (parseFloat "0.5")).
Proof.
  apply (parseColor_rgb_notation " " "255" "128" "0" "0.5"); done.
Defined.

(** The functional notation [hsl(H, S%, L%)] of three numbers of the
    shape [[\d.]+], with any white space after the commas: the color is
    the conversion by [hslToRgb] of the hue and of the two percentages
    over 100, and it is opaque.  With [hsla(H, S%, L%, A)] the alpha is
    the number [A] as [parseFloat] reads it. *)
Theorem parseColor_hsl_notation (sp h s l a : string) :
  allChars isSpace sp = true ->
  h <> EmptyString -> allChars isDigitOrDot h = true ->
  s <> EmptyString -> allChars isDigitOrDot s = true ->
  l <> EmptyString -> allChars isDigitOrDot l = true ->
  a <> EmptyString -> allChars isDigitOrDot a = true ->
  let rgb :=
    hslToRgb (parseFloat h) (ndiv (parseFloat s) (Num 100))
      (ndiv (parseFloat l) (Num 100)) in
  parseColor ("hsl(" +:+ h +:+ "," +:+ sp +:+ s +:+ "%" +:+ "," +:+ sp
              +:+ l +:+ "%" +:+ ")")
  = Color (mkRGBA rgb.1.1 rgb.1.2 rgb.2 (Num 1))
  /\ parseColor ("hsla(" +:+ h +:+ "," +:+ sp +:+ s +:+ "%" +:+ "," +:+ sp
                 +:+ l +:+ "%" +:+ "," +:+ sp +:+ a +:+ ")")
     = Color (mkRGBA rgb.1.1 rgb.1.2 rgb.2 (parseFloat a)).
Proof.
  intros Hsp Hh Hh' Hs Hs' Hl Hl' Ha Ha' rgb.
  pose proof (hslRe_head false sp h s l a Hsp Hh Hh' Hs Hs' Hl Hl' Ha Ha')
    as H1.
  pose proof (hslRe_head true sp h s l a Hsp Hh Hh' Hs Hs' Hl Hl' Ha Ha')
    as H2.
  cbv zeta in H1, H2.
  pose proof (digitOrDot_no_r h Hh') as Nh.
  pose proof (digitOrDot_no_r s Hs') as Ns.
  pose proof (digitOrDot_no_r l Hl') as Nl.
  pose proof (digitOrDot_no_r a Ha') as Na.
  pose proof (space_no_r sp Hsp) as Nsp.
  split.
  - unfold parseColor.
    change (String.eqb ("hsl(" +:+ _) EmptyString) with false.
    change (hexMatch ("hsl(" +:+ _)) with (@None string).
    cbn [mbind option_bind].
    rewrite rgbMatch_needs_r
      by (rewrite !allChars_append, Nh, Ns, Nl, Nsp; reflexivity).
    rewrite H1. subst rgb.
    by destruct (hslToRgb _ _ _) as [[r' g'] b'].
  - unfold parseColor.
    change (String.eqb ("hsla(" +:+ _) EmptyString) with false.
    change (hexMatch ("hsla(" +:+ _)) with (@None string).
    cbn [mbind option_bind].
    rewrite rgbMatch_needs_r
      by (rewrite !allChars_append, Nh, Ns, Nl, Na, Nsp; reflexivity).
    rewrite H2. subst rgb.
    by destruct (hslToRgb _ _ _) as [[r' g'] b'].
Qed.

Lemma parseColor_hsl_notation_witness :
  parseColor "hsl(120, 100%, 25%)"
  = Color (mkRGBA
             (hslToRgb (parseFloat "120") (ndiv (parseFloat "100") (Num 100))
                (ndiv (parseFloat "25") (Num 100))).1.1
             (hslToRgb (parseFloat "120") (ndiv (parseFloat "100") (Num 100))
                (ndiv (parseFloat "25") (Num 100))).1.2
             (hslToRgb (parseFloat "120") (ndiv (parseFloat "100") (Num 100))
                (ndiv (parseFloat "25") (Num 100))).2
             (Num 1))
  /\ parseColor "hsla(120, 100%, 25%, 0.5)"
     = Color (mkRGBA
                (hslToRgb (parseFloat "120")
                   (ndiv (parseFloat "100") (Num 100))
                   (ndiv (parseFloat "25") (Num 100))).1.1
                (hslToRgb (parseFloat "120")
                   (ndiv (parseFloat "100") (Num 100))
                   (ndiv (parseFloat "25") (Num 100))).1.2
                (hslToRgb (parseFloat "120")
                   (ndiv (parseFloat "100") (Num 100))
                   (ndiv (parseFloat "25") (Num 100))).2
                (parseFloat "0.5")).
Proof.
  apply (parseColor_hsl_notation " " "120" "100" "25" "0.5"); done.
Defined.

End ColorNotations.

(** ** Lower case *)

Module CaseFacts.
Import JsNum JsString JsParse Regex ValueParsers ColorSpec CaseSpec
  RegexFacts RecursionFacts MatcherFacts.

(** *** Characters *)

Lemma in_allChars256 (c : ascii) : In c allChars256.
Proof.
  unfold allChars256. apply in_map_iff. exists (nat_of_ascii c).
  split; [apply ascii_nat_embedding |].
  apply in_seq. pose proof (nat_ascii_bounded c). lia.
Qed.

(** A check on every character below 256 decides a property of all
    characters. *)
Lemma by_table (P : ascii -> bool) :
  forallb P allChars256 = true -> forall c, P c = true.
Proof.
  intros H c. rewrite forallb_forall in H. apply H, in_allChars256.
Qed.

Lemma caseless_eqb {B} (eqb : B -> B -> bool) (cls : ascii -> B) :
  (forall x y, eqb x y = true -> x = y) ->
  forallb (fun c => eqb (cls (lowerChar c)) (cls c)) allChars256 = true ->
  caseless cls.
Proof.
  intros Heq H c. apply Heq. revert c. by apply by_table.
Qed.

Lemma bool_eqb_eq (x y : bool) : Bool.eqb x y = true -> x = y.
Proof. by destruct x, y. Qed.

Lemma caseless_isSpace : caseless isSpace.
Proof. apply (caseless_eqb Bool.eqb); [apply bool_eqb_eq | by vm_compute]. Qed.

Lemma caseless_isDigit : caseless isDigit.
Proof. apply (caseless_eqb Bool.eqb); [apply bool_eqb_eq | by vm_compute]. Qed.

Lemma caseless_isDigitOrDot : caseless isDigitOrDot.
Proof. apply (caseless_eqb Bool.eqb); [apply bool_eqb_eq | by vm_compute]. Qed.

Lemma caseless_isHexDigit : caseless isHexDigit.
Proof. apply (caseless_eqb Bool.eqb); [apply bool_eqb_eq | by vm_compute]. Qed.

(** Under the [i] flag, a character below 128 of an expression does not
    tell a character from its lower case. *)
Lemma caseless_eqCI (a : ascii) :
  (N_of_ascii a <? 128)%N = true -> caseless (eqCI a).
Proof.
  intros Ha. apply (caseless_eqb Bool.eqb); [apply bool_eqb_eq |].
  revert Ha. destruct a as [[] [] [] [] [] [] [] []];
    first [discriminate | intros _; vm_compute; reflexivity].
Qed.

Lemma lowerChar_idem (c : ascii) : lowerChar (lowerChar c) = lowerChar c.
Proof.
  revert c. apply (caseless_eqb Ascii.eqb); [| by vm_compute].
  intros x y. apply Ascii.eqb_eq.
Qed.

(** *** Strings *)

Lemma lower_append (a b : string) :
  toLowerCase (a +:+ b) = toLowerCase a +:+ toLowerCase b.
Proof.
  induction a as [| c a IH]; [done |].
  rewrite append_cons. cbn [toLowerCase]. by rewrite IH.
Qed.

Lemma lower_length (s : string) :
  String.length (toLowerCase s) = String.length s.
Proof. induction s as [| c s IH]; [done |]. cbn. by rewrite IH. Qed.

Lemma lower_idem (s : string) :
  toLowerCase (toLowerCase s) = toLowerCase s.
Proof.
  induction s as [| c s IH]; [done |]. cbn [toLowerCase].
  by rewrite lowerChar_idem, IH.
Qed.

Lemma lower_empty (s : string) :
  String.eqb (toLowerCase s) EmptyString = String.eqb s EmptyString.
Proof. by destruct s. Qed.

Lemma substring_lower (n m : nat) (s : string) :
  substring n m (toLowerCase s) = toLowerCase (substring n m s).
Proof.
  revert n m. induction s as [| c s IH]; intros [| n] [| m]; cbn;
    rewrite ?IH; done.
Qed.

Lemma trimStart_lower (s : string) :
  trimStart (toLowerCase s) = toLowerCase (trimStart s).
Proof.
  induction s as [| c s IH]; [done |]. cbn [toLowerCase trimStart].
  rewrite caseless_isSpace. by destruct (isSpace c).
Qed.

Lemma span_lower (cls : ascii -> bool) (s : string) :
  caseless cls ->
  span cls (toLowerCase s)
  = (toLowerCase (fst (span cls s)), toLowerCase (snd (span cls s))).
Proof.
  intros Hcls. induction s as [| c s IH]; [done |].
  cbn [toLowerCase span]. rewrite Hcls, IH.
  destruct (cls c); [| done]. by destruct (span cls s).
Qed.

(** *** [parseInt] and [parseFloat] *)

Lemma stripSign_lower (s : string) :
  stripSign (toLowerCase s)
  = (fst (stripSign s), toLowerCase (snd (stripSign s))).
Proof.
  destruct s as [| c s]; [done |]. cbn [toLowerCase].
  destruct c as [[] [] [] [] [] [] [] []]; reflexivity.
Qed.

Lemma stripHexPrefix_lower (s : string) :
  stripHexPrefix (toLowerCase s) = toLowerCase (stripHexPrefix s).
Proof.
  destruct s as [| c [| x r]]; [done | |]; cbn [toLowerCase].
  - destruct c as [[] [] [] [] [] [] [] []]; reflexivity.
  - destruct c as [[] [] [] [] [] [] [] []]; try reflexivity.
    destruct x as [[] [] [] [] [] [] [] []]; reflexivity.
Qed.

Lemma caseless_digitValue : caseless digitValue.
Proof.
  apply (caseless_eqb
           (fun x y => match x, y with
                       | Some a, Some b => (a =? b)%Z
                       | None, None => true
                       | _, _ => false
                       end)); [| by vm_compute].
  intros [a |] [b |]; try done. by intros ->%Z.eqb_eq.
Qed.

Lemma caseless_isRadixDigit (radix : Z) : caseless (isRadixDigit radix).
Proof. intros c. unfold isRadixDigit. by rewrite caseless_digitValue. Qed.

Lemma digitsValue_lower (radix acc : Z) (s : string) :
  digitsValue radix acc (toLowerCase s) = digitsValue radix acc s.
Proof.
  revert acc. induction s as [| c s IH]; intros acc; [done |].
  cbn [toLowerCase digitsValue]. by rewrite caseless_digitValue, IH.
Qed.

Lemma parseInt_lower (s : string) (radix : Z) :
  parseInt (toLowerCase s) radix = parseInt s radix.
Proof.
  unfold parseInt. rewrite trimStart_lower, stripSign_lower.
  destruct (stripSign (trimStart s)) as [neg s1]. cbn [fst snd].
  assert (E : (if (radix =? 16)%Z then stripHexPrefix (toLowerCase s1)
               else toLowerCase s1)
              = toLowerCase (if (radix =? 16)%Z then stripHexPrefix s1
                             else s1)).
  { destruct (radix =? 16)%Z; [apply stripHexPrefix_lower | done]. }
  rewrite E, (span_lower _ _ (caseless_isRadixDigit radix)).
  destruct (span (isRadixDigit radix) _) as [ds rest]. cbn [fst snd].
  destruct ds as [| c ds]; [done |].
  change (toLowerCase (String c ds))
    with (String (lowerChar c) (toLowerCase ds)).
  cbv iota. change (String (lowerChar c) (toLowerCase ds))
    with (toLowerCase (String c ds)).
  by rewrite digitsValue_lower.
Qed.

Lemma parseFloat_lower (s : string) :
  parseFloat (toLowerCase s) = parseFloat s.
Proof.
  unfold parseFloat. rewrite trimStart_lower, stripSign_lower.
  destruct (stripSign (trimStart s)) as [neg s1]. cbn [fst snd].
  rewrite (span_lower _ _ caseless_isDigit).
  destruct (span isDigit s1) as [ip s2]. cbn [fst snd].
  assert (E : match toLowerCase s2 with
              | String "."%char r => fst (span isDigit r)
              | _ => EmptyString
              end
              = toLowerCase match s2 with
                            | String "."%char r => fst (span isDigit r)
                            | _ => EmptyString
                            end).
  { destruct s2 as [| c r]; [done |]. cbn [toLowerCase].
    destruct c as [[] [] [] [] [] [] [] []]; try reflexivity.
    change (fst (span isDigit (toLowerCase r))
            = toLowerCase (fst (span isDigit r))).
    by rewrite (span_lower isDigit r caseless_isDigit). }
  rewrite E. clear E.
  set (fp := match s2 with
             | String "."%char r => fst (span isDigit r)
             | _ => EmptyString
             end).
  rewrite <- lower_append, digitsValue_lower, lower_length.
  by destruct ip, fp.
Qed.

(** *** Matchers *)

Lemma bind_case {A B} (f : A -> A) (g : B -> B) (m : matcher A)
    (k k' : A -> matcher B) :
  ignoresCase f m ->
  (forall a s,
     k (f a) (toLowerCase s)
     = map (fun r => (g (fst r), toLowerCase (snd r))) (k' a s)) ->
  forall s,
    bind m k (toLowerCase s)
    = map (fun r => (g (fst r), toLowerCase (snd r))) (bind m k' s).
Proof.
  intros Hm Hk s. unfold bind. rewrite Hm.
  induction (m s) as [| [a r] l IH]; [done |].
  cbn [map flat_map fst snd]. by rewrite Hk, IH, map_app.
Qed.

Lemma ignores_chr (cls : ascii -> bool) :
  caseless cls -> ignoresCase lowerChar (chr cls).
Proof.
  intros Hcls [| c s]; [done |]. cbn [toLowerCase chr]. rewrite Hcls.
  by destruct (cls c).
Qed.

Lemma ignores_lit (p : string) :
  allChars (fun a => (N_of_ascii a <? 128)%N) p = true ->
  ignoresCase (fun u => u) (lit true p).
Proof.
  induction p as [| a p IH]; [done |]. cbn [allChars lit].
  rewrite andb_true_iff. intros [Ha Hp]. intros s.
  apply (bind_case lowerChar (fun u => u) (chr (eqCI a)) (fun _ => lit true p)
           (fun _ => lit true p)).
  - apply ignores_chr. exact (caseless_eqCI a Ha).
  - intros _. by apply IH.
Qed.

Lemma ignores_star (cls : ascii -> bool) :
  caseless cls -> ignoresCase toLowerCase (star cls).
Proof.
  intros Hcls s. induction s as [| c s IH]; [done |].
  cbn [toLowerCase star]. rewrite Hcls, IH. destruct (cls c); [| done].
  rewrite map_app, !map_map. done.
Qed.

Lemma ignores_plus (cls : ascii -> bool) :
  caseless cls -> ignoresCase toLowerCase (plus cls).
Proof.
  intros Hcls. unfold plus. intros s.
  apply (bind_case lowerChar toLowerCase (chr cls)
           (fun c => fmap (String c) (star cls))
           (fun c => fmap (String c) (star cls))).
  - by apply ignores_chr.
  - intros c s'. unfold fmap.
    apply (bind_case toLowerCase toLowerCase (star cls)
             (fun a => ret (String (lowerChar c) a))
             (fun a => ret (String c a))).
    + by apply ignores_star.
    + done.
Qed.

Lemma ignores_rep (cls : ascii -> bool) (lo hi : nat) :
  caseless cls -> ignoresCase toLowerCase (rep cls lo hi).
Proof.
  intros Hcls s. revert lo s.
  induction hi as [| hi IH]; intros lo s; cbn [rep].
  - by destruct lo.
  - destruct s as [| c s]; [by destruct lo |].
    cbn [toLowerCase]. rewrite Hcls, IH.
    destruct (cls c); [| by destruct lo].
    rewrite map_app, !map_map. by destruct lo.
Qed.

Lemma ignores_opt {A} (f : A -> A) (m : matcher A) :
  ignoresCase f m -> ignoresCase (option_map f) (opt m).
Proof.
  intros Hm s. unfold opt, alt, fmap.
  rewrite (bind_case f (option_map f) m (fun a => ret (Some a))
             (fun a => ret (Some a)) Hm); [| done].
  by rewrite map_app.
Qed.

Lemma ignores_eos : ignoresCase (fun u => u) eos.
Proof. by intros [| c s]. Qed.

Lemma ignores_ws : ignoresCase (fun u => u) ws.
Proof.
  unfold ws, fmap. intros s.
  apply (bind_case toLowerCase (fun u => u) (star isSpace)
           (fun _ => ret tt) (fun _ => ret tt)).
  - apply ignores_star, caseless_isSpace.
  - done.
Qed.

Lemma matchAt_case {A} (f : A -> A) (m : matcher A) (s : string) :
  ignoresCase f m ->
  matchAt m (toLowerCase s) = option_map f (matchAt m s).
Proof.
  intros Hm. unfold matchAt. rewrite Hm. by destruct (m s) as [| [a r] l].
Qed.

Lemma search_case {A} (f : A -> A) (m : matcher A) (s : string) :
  ignoresCase f m ->
  search m (toLowerCase s) = option_map f (search m s).
Proof.
  intros Hm. induction s as [| c s IH].
  - pose proof (Hm EmptyString) as E. cbn [toLowerCase] in E.
    cbn [toLowerCase search].
    destruct (m EmptyString) as [| [a r] l]; [done |].
    cbn [map fst snd] in E. injection E as E _ _. cbn [option_map].
    by rewrite <- E.
  - change (toLowerCase (String c s))
      with (String (lowerChar c) (toLowerCase s)).
    cbn [search].
    change (String (lowerChar c) (toLowerCase s))
      with (toLowerCase (String c s)).
    rewrite (Hm (String c s)).
    destruct (m (String c s)) as [| [a r] l]; [exact IH | done].
Qed.

(** *** The expressions of [parseColor] *)

Lemma ignores_alpha :
  ignoresCase toLowerCase
    (lit true "," ≫= λ _, ws ≫= λ _, plus isDigitOrDot).
Proof.
  unfold ignoresCase, mbind, matcher_bind.
  intros s.
  eapply bind_case; [apply ignores_lit; reflexivity | intros ? ?].
  eapply bind_case; [apply ignores_ws | intros ? ?].
  apply ignores_plus, caseless_isDigitOrDot.
Qed.

Ltac step_case :=
  first
    [ intros ?; cbv beta; eapply bind_case;
      [ first [ apply ignores_lit; reflexivity
              | apply ignores_ws
              | apply ignores_eos
              | apply ignores_plus;
                first [apply caseless_isDigit | apply caseless_isDigitOrDot]
              | apply ignores_rep; apply caseless_isHexDigit
              | apply ignores_opt, ignores_lit; reflexivity
              | apply ignores_opt, ignores_alpha ]
      | intros ? ]
    | intros ?; reflexivity ].

Lemma ignores_hexRe : ignoresCase toLowerCase hexRe.
Proof.
  unfold hexRe, ignoresCase, mbind, matcher_bind, mret, matcher_ret.
  repeat step_case.
Qed.

Lemma ignores_rgbRe : ignoresCase lowerCaptures rgbRe.
Proof.
  unfold rgbRe, ignoresCase, mbind, matcher_bind, mret, matcher_ret.
  repeat step_case.
Qed.

Lemma ignores_hslRe : ignoresCase lowerCaptures hslRe.
Proof.
  unfold hslRe, ignoresCase, mbind, matcher_bind, mret, matcher_ret.
  repeat step_case.
Qed.

Lemma hexColor_lower (hex : string) :
  hexColor (toLowerCase hex) = hexColor hex.
Proof.
  unfold hexColor, byte255, charAt, slice.
  rewrite lower_length, !substring_lower, <- !lower_append.
  by rewrite !parseInt_lower.
Qed.

End CaseFacts.

(** ** Case of a color string *)

Module CaseExtras.
Import JsNum JsString JsParse Regex ValueParsers ColorSpec CaseSpec
  RegexFacts RecursionFacts MatcherFacts CaseFacts.

(** [parseColor] ignores case: a color string and the same string in
    lower case give the same result, for hex digits, for the names of the
    functional notations and for the named colors alike. *)
Theorem parseColor_ignores_case (colorStr : string) :
  parseColor (toLowerCase colorStr) = parseColor colorStr.
Proof.
  unfold parseColor. rewrite lower_empty.
  destruct (String.eqb colorStr EmptyString); [done |].
  unfold hexMatch, rgbMatch, hslMatch.
  rewrite (matchAt_case _ _ _ ignores_hexRe).
  rewrite (search_case _ _ _ ignores_rgbRe).
  rewrite (search_case _ _ _ ignores_hslRe).
  rewrite lower_idem.
  destruct (matchAt hexRe colorStr) as [hex |]; cbn [option_map mbind option_bind].
  { rewrite hexColor_lower. destruct (hexColor hex); [done |].
    destruct (search rgbRe colorStr) as [[[[g1 g2] g3] g4] |];
      cbn [option_map lowerCaptures].
    { rewrite !parseInt_lower. by destruct g4; cbn; rewrite ?parseFloat_lower. }
    destruct (search hslRe colorStr) as [[[[g1 g2] g3] g4] |];
      cbn [option_map lowerCaptures]; [| done].
    rewrite !parseFloat_lower. by destruct g4; cbn; rewrite ?parseFloat_lower. }
  destruct (search rgbRe colorStr) as [[[[g1 g2] g3] g4] |];
    cbn [option_map lowerCaptures].
  { rewrite !parseInt_lower. by destruct g4; cbn; rewrite ?parseFloat_lower. }
  destruct (search hslRe colorStr) as [[[[g1 g2] g3] g4] |];
    cbn [option_map lowerCaptures]; [| done].
  rewrite !parseFloat_lower. by destruct g4; cbn; rewrite ?parseFloat_lower.
Qed.

End CaseExtras.

(** ** Short hex colors *)

Module ColorExtras.
Import JsNum JsString JsParse Regex ValueParsers ColorSpec.
Import RegexFacts ColorFacts ColorTheorems.
Local Open Scope Q_scope.

(** The short form of a hex color stands for the long form with every
    digit doubled: [#abc] is [#aabbcc]. *)
Theorem parseColor_hex_shorthand (c0 c1 c2 : ascii) :
  isHexDigit c0 = true -> isHexDigit c1 = true -> isHexDigit c2 = true ->
  parseColor (String "#" (String c0 (String c1 (String c2 EmptyString))))
  = parseColor
      (String "#"
         (String c0 (String c0 (String c1 (String c1
            (String c2 (String c2 EmptyString))))))).
Proof.
  intros H0 H1 H2. unfold parseColor. cbn [String.eqb].
  rewrite !hexMatch_digits;
    try (cbn [allChars]; rewrite ?H0, ?H1, ?H2; reflexivity);
    try (cbn [String.length]; lia).
Qed.

Lemma parseColor_hex_shorthand_witness :
  parseColor "#f80" = parseColor "#ff8800".
Proof.
  apply (parseColor_hex_shorthand "f" "8" "0"); reflexivity.
Defined.

End ColorExtras.

(** ** Traversal of the document *)

Module DocumentFacts.
Import Document DocumentSpec.

(** Induction on a node of the document, with the property for all its
    children. *)
Lemma DocNode_children_ind (P : DocNode -> Prop) :
  (forall node,
     (forall children, d_children node = Some children ->
        Forall P children) ->
     P node) ->
  forall node, P node.
Proof.
  intros H. fix IH 1. intros node. apply H.
  destruct node as [id name type x y w h [children |]]; cbn [d_children];
    [| discriminate].
  intros cs [= <-]. induction children as [| c cs' IHcs]; constructor.
  - apply IH.
  - exact IHcs.
Qed.

Lemma findComponents_spec (node : DocNode)
    (components : list SerializedNode) :
  findComponents node components
  = components
    ++ map serializeNode (List.filter isComponent (documentOrder node)).
Proof.
  revert components. induction node as [node IH] using DocNode_children_ind.
  intros components.
  destruct node as [id name type x y w h children].
  cbn [findComponents documentOrder d_children List.filter] in *.
  set (node := mkDocNode id name type x y w h children) in *.
  assert (Hloop : forall cs acc,
            Forall (fun child => forall components,
                      findComponents child components
                      = components
                        ++ map serializeNode
                             (List.filter isComponent (documentOrder child)))
              cs ->
            fold_left (fun components child => findComponents child components)
              cs acc
            = acc ++ map serializeNode
                       (List.filter isComponent (flat_map documentOrder cs))).
  { induction cs as [| c cs IHcs]; intros acc Hcs; cbn [fold_left flat_map].
    - by rewrite app_nil_r.
    - apply Forall_cons in Hcs as [Hc Hcs].
      rewrite IHcs by done. rewrite Hc.
      by rewrite List.filter_app, map_app, app_assoc. }
  destruct children as [children |].
  - rewrite (Hloop children _ (IH children eq_refl)).
    destruct (isComponent node); cbn [map]; by rewrite <- ?app_assoc.
  - destruct (isComponent node); cbn [map List.filter]; by rewrite ?app_nil_r.
Qed.

End DocumentFacts.

(** ** The components of the page *)

Module DocumentExtras.
Import Document DocumentSpec DocumentFacts.

(** The list of components of the page holds the serialization of every
    node of type COMPONENT or COMPONENT_SET below the page, once each and
    in document order; a component inside another component is listed on
    its own as well as among the children of the other. *)
Theorem handleListComponents_lists_components (currentPage : DocNode) :
  handleListComponents currentPage
  = map serializeNode
      (List.filter isComponent (documentOrder currentPage))
  /\ (forall inner outer,
        In inner (documentOrder outer) ->
        In (serializeNode inner) (serializedOrder (serializeNode outer))).
Proof.
  split.
  - unfold handleListComponents. by rewrite findComponents_spec.
  - intros inner outer. revert inner.
    induction outer as [outer IH] using DocNode_children_ind.
    intros inner. destruct outer as [id name type x y w h children].
    cbn [documentOrder serializedOrder serializeNode d_children sn_children
         In] in *.
    intros [<- | Hin]; [by left |]. right.
    destruct children as [children |]; [| done].
    specialize (IH children eq_refl). rewrite in_flat_map in Hin |- *.
    destruct Hin as (child & Hchild & Hin).
    exists (serializeNode child). split; [by apply in_map |].
    rewrite Forall_forall in IH. apply IH; [| done].
    by apply list_elem_of_In.
Qed.

End DocumentExtras.

(** ** Space around the children; the intended width *)

Module SpaceFacts.
Import Figma Types Synth Create Styles ListFacts.
Local Open Scope Q_scope.

(** The space-around pass on a container with more than one counted
    child and free space left: the gap between the children becomes the
    free space divided by the number of counted children, where the free
    space is the container size less the two paddings and the sizes of
    the counted children; each end gets half a gap added to its padding;
    the children are packed from the start.  The pass changes no child
    and no size. *)
Theorem space_around_gap_and_edges (styles : ParsedStyle)
    (frame : SceneNode) :
  let horizontal := bool_decide (layoutMode frame = HORIZONTAL) in
  let counted := filter countedChild (children frame) in
  let sizes :=
    sumQ (map (fun c => if horizontal then width c else height c) counted) in
  let containerSize := if horizontal then width frame else height frame in
  let start := if horizontal then paddingLeft frame else paddingTop frame in
  let stop := if horizontal then paddingRight frame else paddingBottom frame in
  let free := containerSize - start - stop - sizes in
  let frame' := applySpaceAround styles frame in
  let start' := if horizontal then paddingLeft frame' else paddingTop frame' in
  let stop' :=
    if horizontal then paddingRight frame' else paddingBottom frame' in
  s_justifyContent styles = Some JC_space_around ->
  layoutMode frame <> NONE ->
  (1 < length counted)%nat ->
  0 < free ->
  itemSpacing frame' = free / natQ (length counted)
  /\ start' = start + itemSpacing frame' / 2
  /\ stop' = stop + itemSpacing frame' / 2
  /\ primaryAxisAlignItems frame' = MIN
  /\ children frame' = children frame
  /\ width frame' = width frame /\ height frame' = height frame
  /\ layoutMode frame' = layoutMode frame.
Proof.
  intros horizontal counted sizes containerSize start stop free frame'
    start' stop' Hjc Hmode Hn Hfree.
  unfold start', stop', frame', applySpaceAround. rewrite Hjc.
  rewrite (bool_decide_eq_false_2 _ Hmode). cbn [negb].
  fold horizontal. fold counted.
  rewrite (proj2 (Nat.ltb_lt _ _) Hn).
  fold sizes containerSize start stop.
  change (containerSize - start - stop - sizes) with free.
  rewrite (proj2 (Qgtb_true _ _) Hfree).
  destruct horizontal; repeat split; reflexivity.
Qed.

Lemma space_around_gap_and_edges_witness :
  let styles := with_justifyContent (Some JC_space_around) noStyle in
  let child (id : nat) := resize 100 40 (newFrame id) in
  let frame :=
    set_children [child 1%nat; child 2%nat]
      (set_paddingLeft 10
         (set_layoutMode HORIZONTAL (resize 410 40 (newFrame 0)))) in
  let frame' := applySpaceAround styles frame in
  itemSpacing frame' == 100 /\ paddingLeft frame' == 60
  /\ paddingRight frame' == 50.
Proof.
  intros styles child frame frame'.
  destruct (space_around_gap_and_edges styles frame eq_refl
              ltac:(discriminate) ltac:(vm_compute; lia) eq_refl)
    as (H1 & H2 & H3 & _).
  change (paddingLeft (applySpaceAround styles frame)
          = 10 + itemSpacing (applySpaceAround styles frame) / 2) in H2.
  change (paddingRight (applySpaceAround styles frame)
          = 0 + itemSpacing (applySpaceAround styles frame) / 2) in H3.
  unfold frame'. rewrite H2, H3, H1.
  split; [| split]; reflexivity.
Defined.

(** Restoring the intended width: a frame with an entry in
    [intendedFixedWidth] leaves the pass with that width, whatever width
    it had; its height and children stay.  Running the pass again changes
    nothing. *)
Theorem restoreIntendedWidth_restores (frame : SceneNode) (w : World)
    (storedWidth : Q) :
  intendedFixedWidth w !! nid frame = Some storedWidth ->
  let fw' := restoreIntendedWidth (frame, w) in
  width (fst fw') == storedWidth
  /\ height (fst fw') = height frame
  /\ children (fst fw') = children frame
  /\ nid (fst fw') = nid frame
  /\ restoreIntendedWidth fw' = fw'.
Proof.
  intros Hstored fw'. unfold fw'. clear fw'.
  destruct (restoreIntendedWidth (frame, w)) as [frame' w'] eqn:R.
  unfold restoreIntendedWidth in R. rewrite Hstored in R.
  destruct (Qeq_bool (width frame) storedWidth) eqn:E; cbn [negb] in R.
  - injection R as <- <-. cbn [fst].
    split; [by apply Qeq_bool_iff |]. do 3 (split; [reflexivity |]).
    unfold restoreIntendedWidth. by rewrite Hstored, E.
  - set (frame1 := set_primaryAxisSizingMode AXIS_FIXED
                     (resize storedWidth (height frame) frame)) in R.
    assert (H2 : width frame' = storedWidth /\ height frame' = height frame
                 /\ children frame' = children frame
                 /\ nid frame' = nid frame
                 /\ intendedFixedWidth w' !! nid frame' = None).
    { injection R as <- <-. cbn [intendedFixedWidth set_intendedFixedWidth].
      rewrite lookup_delete_eq. by destruct (nameStartsWithSB frame1). }
    destruct H2 as (Hw & Hh & Hc & Hn & Hnone). cbn [fst].
    split; [by rewrite Hw |]. do 3 (split; [assumption |]).
    unfold restoreIntendedWidth. by rewrite Hnone.
Qed.

Lemma restoreIntendedWidth_restores_witness :
  let frame := resize 520 40 (newFrame 7) in
  let w := set_intendedFixedWidth {[ 7%nat := 300 ]} emptyWorld in
  width (fst (restoreIntendedWidth (frame, w))) == 300.
Proof.
  intros frame w.
  apply (restoreIntendedWidth_restores frame w 300). reflexivity.
Defined.

End SpaceFacts.

(** ** What the distribution pass leaves alone *)

Module DistributionExtras.
Import Figma Types Synth Create ListFacts FlexFacts.
Local Open Scope Q_scope.

Lemma set_children_twice (a b : list SceneNode) (frame : SceneNode) :
  set_children a (set_children b frame) = set_children a frame.
Proof. by destruct frame. Qed.

Lemma children_set_children (a : list SceneNode) (frame : SceneNode) :
  children (set_children a frame) = a.
Proof. reflexivity. Qed.

Lemma fold_updateChild_children (f : Q -> SceneNode -> SceneNode)
    (l : list (nat * Q)) (frame : SceneNode) :
  fold_left (fun fr entry => updateChild (fst entry) (f (snd entry)) fr)
    l frame
  = set_children
      (map (fun c =>
              fold_left (fun c entry =>
                           if (nid c =? fst entry)%nat
                           then f (snd entry) c else c) l c)
         (children frame))
      frame.
Proof.
  revert frame. induction l as [| [k g] l IH]; intros frame.
  - cbn. rewrite map_id. by destruct frame.
  - cbn [fold_left fst snd]. rewrite IH. unfold updateChild.
    rewrite children_set_children. rewrite set_children_twice.
    by rewrite map_map.
Qed.

Lemma fold_update_other (f : Q -> SceneNode -> SceneNode)
    (l : list (nat * Q)) (c : SceneNode) :
  ledgerGet (nid c) l = None ->
  fold_left (fun c entry =>
               if (nid c =? fst entry)%nat then f (snd entry) c else c) l c
  = c.
Proof.
  induction l as [| [k g] l IH]; [done |].
  cbn [ledgerGet fold_left fst snd]. rewrite (Nat.eqb_sym k (nid c)).
  destruct (nid c =? k)%nat; [discriminate | exact IH].
Qed.

(** What the distribution pass leaves alone: of the container, everything
    but the list of children; of the children, every one that the ledger
    does not hold.  It never adds, removes or reorders a child, and it
    does nothing at all when the ledger is empty, when the container has
    no auto layout, or when no space is left to hand out. *)
Theorem distribution_touches_only_ledger_children
    (flexGrowMap : list (nat * Q)) (frame : SceneNode) (w : World) :
  let frame' := distributeFlexGrow flexGrowMap frame w in
  frame' = set_children (children frame') frame
  /\ map nid (children frame') = map nid (children frame)
  /\ (forall i child,
        children frame !! i = Some child ->
        ledgerGet (nid child) flexGrowMap = None ->
        children frame' !! i = Some child)
  /\ (flexGrowMap = [] -> frame' = frame)
  /\ (layoutMode frame = NONE -> frame' = frame)
  /\ (availableSpace flexGrowMap frame w <= 0 -> frame' = frame).
Proof.
  intros frame'.
  assert (Hshape : frame' = frame
                   \/ frame' = fold_left
                                 (fun fr entry =>
                                    updateChild (fst entry)
                                      (growChild flexGrowMap frame w
                                         (snd entry)) fr)
                                 flexGrowMap frame).
  { unfold frame', distributeFlexGrow. repeat case_match; auto. }
  split; [| split; [| split; [| split; [| split]]]].
  - destruct Hshape as [-> | ->]; [by destruct frame |].
    rewrite fold_updateChild_children. by rewrite children_set_children.
  - apply TreeFacts.distributeFlexGrow_nids.
  - intros i child Hi Hnone.
    destruct Hshape as [-> | ->]; [done |].
    rewrite fold_updateChild_children, children_set_children.
    change (map ?f ?l) with (f <$> l). rewrite list_lookup_fmap, Hi. cbn.
    by rewrite fold_update_other.
  - intros ->. reflexivity.
  - intros Hnone. unfold frame', distributeFlexGrow.
    rewrite (bool_decide_eq_true_2 _ Hnone). by rewrite andb_false_r.
  - intros Hle. unfold frame', distributeFlexGrow.
    assert (Qgtb (availableSpace flexGrowMap frame w) 0 = false) as ->.
    { destruct (Qgtb _ 0) eqn:E; [| done]. apply Qgtb_true in E. lra. }
    by repeat case_match.
Qed.

End DistributionExtras.

(** ** Recalculation of nested rows *)

Module NestedFlexFacts.
Import Figma Types Synth Create ListFacts.
Local Open Scope Q_scope.

(** The nested recalculation on a HORIZONTAL frame: a counted child with
    a positive weight in [nestedFlexGrowMap] gets the share
    [available * (weight / total)] of the width as its width and FIXED
    horizontal sizing.  Unlike the pass of the parent, this one also runs
    for a single counted child, which then gets the whole content
    width. *)
Theorem nested_flex_is_proportional (nested : gmap nat Q)
    (frame : SceneNode) (newWidth : Q) :
  let counted (c : SceneNode) :=
    negb (isSpacerRole c) && negb (isMarginSideRole c) in
  let weight (c : SceneNode) := positiveWeight (nested !! nid c) in
  let cs := filter counted (children frame) in
  let total := sumQ (map (fun c => default 0 (weight c)) cs) in
  let fixed :=
    sumQ (map (fun c => match weight c with
                        | Some _ => 0
                        | None => width c
                        end) cs) in
  let gaps :=
    if (1 <? length cs)%nat then (natQ (length cs) - 1) * itemSpacing frame
    else 0 in
  let content := newWidth - paddingLeft frame - paddingRight frame in
  let available := content - fixed - gaps in
  let frame' := recalculateNestedFlex nested frame newWidth in
  ntype frame = FRAME -> layoutMode frame = HORIZONTAL ->
  0 < total -> 0 < available ->
  (forall i child g,
     children frame !! i = Some child ->
     counted child = true -> weight child = Some g ->
     exists child',
       children frame' !! i = Some child' /\ nid child' = nid child
       /\ width child' == available * (g / total)
       /\ height child' = height child
       /\ layoutSizingHorizontal child' = FIXED)
  /\ (forall child g,
        cs = [child] -> weight child = Some g ->
        available * (g / total) == content).
Proof.
  intros counted weight cs total fixed gaps content available frame'
    Hframe Hmode Htotal Havailable.
  split.
  - intros i child g Hi Hcounted Hweight.
    assert (Hlen : (length (children frame) =? 0)%nat = false).
    { apply Nat.eqb_neq. intros E. apply length_zero_iff_nil in E.
      by rewrite E in Hi. }
    assert (Haccepted : sizingAccepted frame = true).
    { unfold sizingAccepted, isAutoLayout, hasLayoutMode.
      rewrite (bool_decide_eq_true_2 _ Hframe), Hmode. done. }
    unfold frame'. subst counted weight cs total fixed gaps content available.
    cbv beta in *.
    destruct frame as [id ty nm wd ht mode pos sh sv grow pasm casm paa caa
                         wrap pl pr pt pb sp tar fn cs0].
    cbn [recalculateNestedFlex].
    cbn [children layoutMode paddingLeft paddingRight itemSpacing ntype]
      in *.
    rewrite Hlen. cbn [children set_children].
    change (map ?f ?l) with (f <$> l) at 1.
    rewrite list_lookup_fmap, Hi. cbn [fmap option_fmap option_map].
    subst mode. rewrite bool_decide_eq_true_2 by reflexivity.
    rewrite (proj2 (Qgtb_true _ _) Htotal).
    rewrite (proj2 (Qgtb_true _ _) Havailable).
    cbn [andb]. rewrite Hcounted, Hweight.
    unfold safeSetLayoutSizingHorizontal. rewrite Haccepted.
    eexists. split; [reflexivity |].
    destruct (hasLayoutMode child); destruct child;
      cbn; repeat split; reflexivity.
  - intros child g Hcs Hweight.
    assert (Et : total == g).
    { unfold total. rewrite Hcs. cbn [map]. rewrite Hweight.
      unfold sumQ. cbn. ring. }
    assert (Ef : fixed == 0).
    { unfold fixed. rewrite Hcs. cbn [map]. rewrite Hweight. reflexivity. }
    assert (Eg : gaps = 0).
    { unfold gaps. rewrite Hcs. reflexivity. }
    unfold available. rewrite Eg, Ef, Et.
    rewrite Et in Htotal. field. lra.
Qed.

Lemma nested_flex_is_proportional_witness :
  let child := resize 50 40 (newFrame 5) in
  let frame :=
    set_children [child]
      (set_paddingRight 10
         (set_paddingLeft 10
            (set_layoutMode HORIZONTAL (resize 100 40 (newFrame 4))))) in
  let nested : gmap nat Q := {[ 5%nat := 1 ]} in
  exists child',
    children (recalculateNestedFlex nested frame 300) !! 0%nat = Some child'
    /\ width child' == 280 /\ layoutSizingHorizontal child' = FIXED.
Proof.
  intros child frame nested.
  pose proof (nested_flex_is_proportional nested frame 300 eq_refl eq_refl)
    as H.
  cbv zeta in H.
  destruct (proj1 (H ltac:(vm_compute; reflexivity)
                     ltac:(vm_compute; reflexivity))
              0%nat child 1 eq_refl eq_refl ltac:(vm_compute; reflexivity))
    as (child' & Hc & _ & Hw & _ & Hs).
  exists child'. split; [exact Hc |]. split; [| exact Hs].
  eapply Qeq_trans; [exact Hw | vm_compute; reflexivity].
Defined.

(** The nested recalculation on a VERTICAL frame: a child frame that is a
    HORIZONTAL space-between row is resized to the content width of the
    frame (the new width less the left and right padding) and fixed
    there. *)
Theorem nested_space_between_row_fills (nested : gmap nat Q)
    (frame : SceneNode) (newWidth : Q) (i : nat) (child : SceneNode) :
  ntype frame = FRAME -> layoutMode frame = VERTICAL ->
  children frame !! i = Some child ->
  ntype child = FRAME -> isSpacerRole child = false ->
  layoutMode child = HORIZONTAL ->
  primaryAxisAlignItems child = SPACE_BETWEEN ->
  exists child',
    children (recalculateNestedFlex nested frame newWidth) !! i = Some child'
    /\ nid child' = nid child
    /\ width child' = newWidth - paddingLeft frame - paddingRight frame
    /\ height child' = height child
    /\ layoutSizingHorizontal child' = FIXED
    /\ primaryAxisSizingMode child' = AXIS_FIXED
    /\ primaryAxisAlignItems child' = SPACE_BETWEEN.
Proof.
  intros Hframe Hmode Hi Hchild Hrole Hrow Hsb.
  assert (Hlen : (length (children frame) =? 0)%nat = false).
  { apply Nat.eqb_neq. intros E. apply length_zero_iff_nil in E.
    by rewrite E in Hi. }
  assert (Haccepted : sizingAccepted frame = true).
  { unfold sizingAccepted, isAutoLayout, hasLayoutMode.
    rewrite (bool_decide_eq_true_2 _ Hframe), Hmode. done. }
  destruct frame as [id ty nm wd ht mode pos sh sv grow pasm casm paa caa
                       wrap pl pr pt pb sp tar fn cs0].
  cbn [recalculateNestedFlex].
  cbn [children layoutMode paddingLeft paddingRight itemSpacing ntype] in *.
  rewrite Hlen. cbn [children set_children].
  change (map ?f ?l) with (f <$> l) at 1.
  rewrite list_lookup_fmap, Hi. cbn [fmap option_fmap option_map].
  subst mode. rewrite (bool_decide_eq_false_2 (VERTICAL = HORIZONTAL))
    by discriminate.
  rewrite bool_decide_eq_true_2 by reflexivity.
  cbn [andb]. unfold hasLayoutMode at 1 2 3.
  rewrite (bool_decide_eq_true_2 _ Hchild), Hrole.
  rewrite (bool_decide_eq_true_2 _ Hrow), (bool_decide_eq_true_2 _ Hsb).
  rewrite andb_false_r. cbn [andb negb].
  unfold safeSetLayoutSizingHorizontal. rewrite Haccepted.
  eexists. split; [reflexivity |].
  destruct child. cbn in Hsb |- *. by repeat split.
Qed.

Lemma nested_space_between_row_fills_witness :
  let row :=
    set_primaryAxisAlignItems SPACE_BETWEEN
      (set_layoutMode HORIZONTAL (resize 50 20 (newFrame 9))) in
  let card :=
    set_children [row]
      (set_paddingRight 16
         (set_paddingLeft 16
            (set_layoutMode VERTICAL (resize 100 80 (newFrame 8))))) in
  exists row',
    children (recalculateNestedFlex ∅ card 200) !! 0%nat = Some row'
    /\ width row' == 168.
Proof.
  intros row card.
  destruct (nested_space_between_row_fills ∅ card 200 0 row
              eq_refl eq_refl eq_refl eq_refl eq_refl eq_refl eq_refl)
    as (row' & Hr & _ & Hw & _).
  exists row'. split; [exact Hr |]. rewrite Hw. reflexivity.
Defined.

End NestedFlexFacts.

(** ** Relative offsets *)

Module RelativeFacts.
Import Figma Types Synth Create ListFacts.
Local Open Scope Q_scope.

Lemma indexOfNode_middle (id : nat) (before after : list SceneNode)
    (node : SceneNode) :
  id ∉ map nid before -> nid node = id ->
  indexOfNode id (before ++ node :: after) = Some (length before).
Proof.
  intros Hbefore Hnode. induction before as [| b before IH]; cbn.
  - by rewrite Hnode, Nat.eqb_refl.
  - cbn [map] in Hbefore. apply not_elem_of_cons in Hbefore as [Hne H].
    destruct (Nat.eqb_spec (nid b) id); [congruence |].
    by rewrite (IH H).
Qed.

Lemma filter_keeps_others (id : nat) (l : list SceneNode) :
  id ∉ map nid l ->
  filter (fun n => negb (nid n =? id)%nat) l = l.
Proof.
  induction l as [| x l IH]; [done |].
  cbn [map]. intros [Hne H]%not_elem_of_cons.
  rewrite filter_cons_True.
  - by rewrite (IH H).
  - apply Is_true_true, negb_true_iff, Nat.eqb_neq. congruence.
Qed.

(** A relative offset on a child of an auto-layout frame: a placeholder
    of the size and sizing modes of the child takes its place in the
    flow, and the child itself, now absolutely positioned, becomes the
    last child.  The other children keep their order, and nothing else
    of the frame changes. *)
Theorem relative_offset_leaves_placeholder (frame : SceneNode)
    (before after : list SceneNode) (node : SceneNode) (w : World) :
  isAutoLayout frame = true ->
  children frame = before ++ node :: after ->
  nid node ∉ map nid before -> nid node ∉ map nid after ->
  nextId w <> nid node ->
  let placeholder :=
    set_layoutSizingVertical (layoutSizingVertical node)
      (set_layoutSizingHorizontal (layoutSizingHorizontal node)
         (resize (width node) (height node)
            (set_name (Name "relative-placeholder") (newFrame (nextId w)))))
  in
  applyRelativeOffset frame (nid node) w
  = (Ok (set_children
           (before ++ [placeholder] ++ after
            ++ [set_layoutPositioning ABSOLUTE node]) frame),
     set_nextId (S (nextId w)) w).
Proof.
  intros Hauto Hchildren Hbefore Hafter Hfresh placeholder.
  unfold applyRelativeOffset.
  rewrite Hchildren, (indexOfNode_middle _ _ _ _ Hbefore eq_refl).
  rewrite list_lookup_middle by reflexivity.
  unfold createSpacer, createFrame, sizingAccepted. rewrite Hauto.
  unfold mbind, M_bind, mret, M_ret.
  rewrite take_app_length, drop_app_length.
  fold placeholder.
  rewrite !filter_app, (filter_keeps_others _ _ Hbefore).
  rewrite filter_cons_True, filter_nil
    by (apply Is_true_true, negb_true_iff, Nat.eqb_neq; exact Hfresh).
  rewrite filter_cons_False
    by (rewrite Is_true_true, negb_true_iff, Nat.eqb_refl; discriminate).
  rewrite (filter_keeps_others _ _ Hafter).
  by rewrite <- !app_assoc.
Qed.

Lemma relative_offset_leaves_placeholder_witness :
  let child (id : nat) (width : Q) := resize width 20 (newFrame id) in
  let frame :=
    set_children [child 1%nat 30; child 2%nat 50; child 3%nat 70]
      (set_layoutMode VERTICAL (newFrame 0)) in
  exists frame',
    applyRelativeOffset frame 2 (set_nextId 4 emptyWorld)
    = (Ok frame', set_nextId 5 emptyWorld)
    /\ map nid (children frame') = [1; 4; 3; 2]%nat
    /\ map width (children frame') = [30; 50; 70; 50]
    /\ map layoutPositioning (children frame') = [AUTO; AUTO; AUTO; ABSOLUTE].
Proof.
  intros child frame. eexists. split.
  - apply (relative_offset_leaves_placeholder frame [child 1%nat 30]
             [child 3%nat 70] (child 2%nat 50) (set_nextId 4 emptyWorld)).
    + reflexivity.
    + reflexivity.
    + cbn. rewrite elem_of_cons, elem_of_nil. lia.
    + cbn. rewrite elem_of_cons, elem_of_nil. lia.
    + cbn. lia.
  - repeat split.
Defined.

End RelativeFacts.

(** ** The root frame of a component *)

Module ComponentFacts.
Import Figma Types Synth Create Code TreeFacts.
Local Open Scope Q_scope.

Section Fonts.
Variable fontAvailable : FontName -> bool.

Lemma createElements_children (elements : list ParsedElement)
    (rootFrame : SceneNode) (w : World) (rootFrame' : SceneNode)
    (w' : World) :
  createElements fontAvailable rootFrame elements w = (Ok rootFrame', w') ->
  exists nodes,
    rootFrame' = set_children (children rootFrame ++ nodes) rootFrame
    /\ Forall2 (fun element node =>
                  exists parent w0 w1,
                    createFigmaNode fontAvailable element (fun s => s)
                      parent None None w0 = (Ok node, w1))
         elements nodes.
Proof.
  unfold createElements. revert rootFrame w.
  induction elements as [| e es IH]; intros rootFrame w H.
  - apply ret_Ok in H as [-> ->]. exists [].
    split; [| constructor]. rewrite app_nil_r. by destruct rootFrame.
  - cbn [foldM] in H. apply bind_Ok in H as (root1 & w1 & H1 & H).
    apply bind_Ok in H1 as (node & w2 & Hnode & H1).
    apply ret_Ok in H1 as [-> ->].
    apply IH in H as (nodes & -> & Hall).
    exists (node :: nodes). split.
    + unfold appendChild. destruct rootFrame. cbn.
      by rewrite <- app_assoc.
    + constructor; [| done]. by exists rootFrame, w, w2.
Qed.

(** A request that succeeds returns the root frame with one child for
    each element of the request, in the order of the elements, each the
    node that [createFigmaNode] returned for its element.  The root frame
    is the first node created, has the name of the request or
    "AI Component", and a VERTICAL auto layout. *)
Theorem buildComponent_children (payload : Payload) (w : World)
    (rootFrame : SceneNode) (w' : World) :
  buildComponent fontAvailable payload w = (Ok rootFrame, w') ->
  exists es,
    elements payload = Some es /\ es <> []
    /\ nid rootFrame = nextId w
    /\ Figma.name rootFrame = Name (orElse (Code.name payload) "AI Component")
    /\ layoutMode rootFrame = VERTICAL
    /\ length (children rootFrame) = length es
    /\ Forall2 (fun element node =>
                  exists parent w0 w1,
                    createFigmaNode fontAvailable element (fun s => s)
                      parent None None w0 = (Ok node, w1))
         es (children rootFrame).
Proof.
  unfold buildComponent. intros H.
  destruct (elements payload) as [[| e es] |]; try discriminate H.
  exists (e :: es). split; [reflexivity |]. split; [discriminate |].
  apply bind_Ok in H as (root0 & w1 & Hroot & H).
  unfold createRootFrame, createFrame, mbind, M_bind, mret, M_ret in Hroot.
  injection Hroot as <- <-.
  apply createElements_children in H as (nodes & -> & Hall).
  pose proof (Forall2_length _ _ _ Hall) as Hlen.
  cbn in Hlen |- *. by repeat split.
Qed.

End Fonts.

Lemma buildComponent_children_witness :
  let card := mkParsedElement "div" noStyle None [] in
  exists rootFrame w',
    buildComponent (fun _ => true)
      (mkPayload (Some [card; card]) (Some "Card") None) emptyWorld
    = (Ok rootFrame, w')
    /\ Figma.name rootFrame = Name "Card"
    /\ length (children rootFrame) = 2%nat.
Proof.
  intros card.
  destruct (buildComponent (fun _ => true)
              (mkPayload (Some [card; card]) (Some "Card") None) emptyWorld)
    as [[rootFrame | e] w'] eqn:E.
  - exists rootFrame, w'. split; [reflexivity |].
    destruct (buildComponent_children _ _ _ _ _ E)
      as (es & [= <-] & _ & _ & Hname & _ & Hlen & _).
    by split.
  - vm_compute in E. discriminate E.
Defined.

End ComponentFacts.

(** ** Margins of the regular children *)

Module MarginFacts.
Import Figma Types Synth Create Styles ListFacts TreeFacts.
Local Open Scope Q_scope.

Lemma run_bind {A B} (m : M A) (k : A -> M B) (w : World) :
  (m ≫= k) w
  = match m w with
    | (Ok a, w') => k a w'
    | (Throw e, w') => (Throw e, w')
    end.
Proof. reflexivity. Qed.

Lemma createSpacer_run (role : string) (w0 h0 : Q) (w : World) :
  createSpacer role w0 h0 w
  = (Ok (resize w0 h0 (set_name (Name role) (newFrame (nextId w)))),
     set_nextId (S (nextId w)) w).
Proof. reflexivity. Qed.

Lemma safeVertical_accepted (parent frame : SceneNode) (v : LayoutSizing) :
  sizingAccepted parent = true ->
  safeSetLayoutSizingVertical parent frame v = set_layoutSizingVertical v frame.
Proof. unfold safeSetLayoutSizingVertical. by intros ->. Qed.

Lemma registerFlexGrow_frame (styles : ParsedStyle) (childNode : SceneNode)
    (st : Loop) (w : World) :
  exists st' w',
    registerFlexGrow styles childNode st w = (Ok st', w')
    /\ l_frame st' = l_frame st /\ nextId w' = nextId w.
Proof.
  unfold registerFlexGrow.
  destruct (s_flexGrow styles) as [g |]; [| by eexists _, _].
  destruct (Qgtb g 0); by eexists _, _.
Qed.

(** In a horizontal layout, the left and right margins of a child become
    spacer frames next to it: a frame named margin-left as wide as the
    left margin before the node of the child, and a frame named
    margin-right as wide as the right margin after it, both one pixel
    high and filling the height of the layout.  The top and bottom
    margins of the child add nothing. *)
Theorem horizontal_margins_become_spacers
    (childParentWidth childParentHeight : option Q) (st : Loop)
    (child : ParsedElement) (call : ChildCall) (w w2 : World)
    (node : SceneNode) :
  let styles := expandMargin (e_styles child) in
  let marginLeft := marginPx (s_marginLeft styles) in
  let marginRight := marginPx (s_marginRight styles) in
  let left :=
    set_layoutSizingVertical FILL
      (resize marginLeft 1
         (set_name (Name "margin-left") (newFrame (nextId w)))) in
  let right :=
    set_layoutSizingVertical FILL
      (resize marginRight 1
         (set_name (Name "margin-right") (newFrame (nextId w2)))) in
  ntype (l_frame st) = FRAME ->
  layoutMode (l_frame st) = HORIZONTAL ->
  0 < marginLeft -> 0 < marginRight ->
  call expandMargin (appendChild left (l_frame st))
    childParentWidth childParentHeight (set_nextId (S (nextId w)) w)
  = (Ok node, w2) ->
  exists st' w',
    createRegularChild childParentWidth childParentHeight st child call w
    = (Ok st', w')
    /\ children (l_frame st')
       = children (l_frame st) ++ [left; node; right]
    /\ nextId w' = S (nextId w2).
Proof.
  intros styles marginLeft marginRight left right Hty Hmode HL HR Hcall.
  assert (EL : Qgtb marginLeft 0 = true) by by apply Qgtb_true.
  assert (ER : Qgtb marginRight 0 = true) by by apply Qgtb_true.
  assert (Hacc : forall cs, sizingAccepted (set_children cs (l_frame st)) = true).
  { intros cs. unfold sizingAccepted, isAutoLayout, hasLayoutMode.
    destruct (l_frame st); cbn in *. subst. done. }
  assert (Hacc0 : sizingAccepted (l_frame st) = true).
  { unfold sizingAccepted, isAutoLayout, hasLayoutMode.
    destruct (l_frame st); cbn in *. subst. done. }
  unfold createRegularChild. fold styles. fold marginLeft marginRight.
  rewrite Hmode.
  change (bool_decide (HORIZONTAL = HORIZONTAL)) with true.
  change (bool_decide (HORIZONTAL = VERTICAL)) with false.
  change (bool_decide (HORIZONTAL = NONE)) with false.
  rewrite EL, ER. cbn [andb orb].
  assert (E1 : match s_marginTop styles with
               | Some (MarginPx _) | _ => mret st
               end = (mret st : M Loop))
    by (by destruct (s_marginTop styles) as [[] |]).
  rewrite E1. clear E1.
  rewrite run_bind. cbn [mret M_ret].
  assert (E2 : match marginPositive (s_marginTop styles) with
               | Some _ | _ => mret st
               end = (mret st : M Loop))
    by (by destruct (marginPositive (s_marginTop styles))).
  rewrite E2. clear E2.
  rewrite run_bind. cbn [mret M_ret].
  rewrite (run_bind (createSpacer _ _ _ ≫= _)).
  rewrite (run_bind (createSpacer _ _ _)), createSpacer_run.
  cbn [mret M_ret]. rewrite (safeVertical_accepted _ _ _ Hacc0). fold left.
  rewrite (run_bind (call _ _ _ _ ≫= _)).
  rewrite (run_bind (call _ _ _ _)).
  change (l_frame (appendToLoop left st)) with (appendChild left (l_frame st)).
  rewrite Hcall.
  destruct (registerFlexGrow_frame styles node
              (appendToLoop node (appendToLoop left st)) w2)
    as (st3 & w3 & E3 & Hf3 & Hn3).
  rewrite (run_bind (registerFlexGrow _ _ _)), E3.
  cbn [mret M_ret].
  set (st4 := if isRelativeOffset styles then _ else st3).
  assert (Hf4 : l_frame st4 = l_frame st3)
    by (subst st4; by destruct (isRelativeOffset styles)).
  rewrite (run_bind (createSpacer _ _ _ ≫= _)).
  rewrite (run_bind (createSpacer _ _ _)), createSpacer_run.
  cbn [mret M_ret]. rewrite Hf4, Hf3, Hn3.
  change (l_frame (appendToLoop node (appendToLoop left st)))
    with (set_children ((children (l_frame st) ++ [left]) ++ [node])
            (l_frame st)).
  rewrite (safeVertical_accepted _ _ _ (Hacc _)). fold right.
  assert (E5 : forall st5 : Loop,
            match marginPositive (s_marginBottom styles) with
            | Some _ | _ => mret st5
            end = (mret st5 : M Loop))
    by (intros st5; by destruct (marginPositive (s_marginBottom styles))).
  rewrite E5. cbn [mret M_ret].
  eexists _, _. split; [reflexivity |].
  split; [| reflexivity].
  unfold appendToLoop. cbn [l_frame]. rewrite Hf4, Hf3.
  unfold appendToLoop, appendChild. cbn [l_frame].
  destruct (l_frame st). cbn [children set_children].
  by rewrite <- !app_assoc.
Qed.

Lemma horizontal_margins_become_spacers_witness :
  exists st' w',
    createRegularChild None None
      (mkLoop (set_layoutMode HORIZONTAL (newFrame 0)) [] [])
      (mkParsedElement "div"
         (with_marginRight (Some (MarginPx 4))
            (with_marginLeft (Some (MarginPx 8)) noStyle)) None [])
      (createFigmaNode (fun _ => true)
         (mkParsedElement "div"
            (with_marginRight (Some (MarginPx 4))
               (with_marginLeft (Some (MarginPx 8)) noStyle)) None []))
      (set_nextId 1 emptyWorld)
    = (Ok st', w')
    /\ map (fun n => (name n, width n)) (children (l_frame st'))
       = [(Name "margin-left", 8); (Name "div", 100); (Name "margin-right", 4)].
Proof.
  pose (child := mkParsedElement "div"
                   (with_marginRight (Some (MarginPx 4))
                      (with_marginLeft (Some (MarginPx 8)) noStyle)) None []).
  pose (st := mkLoop (set_layoutMode HORIZONTAL (newFrame 0)) [] []).
  pose (w := set_nextId 1 emptyWorld).
  pose (left := set_layoutSizingVertical FILL
                  (resize 8 1 (set_name (Name "margin-left") (newFrame 1)))).
  pose (res := createFigmaNode (fun _ => true) child expandMargin
                 (appendChild left (l_frame st)) None None
                 (set_nextId 2 w)).
  pose (node := match fst res with Ok n => n | Throw _ => newFrame 0 end).
  destruct (horizontal_margins_become_spacers None None st child
              (createFigmaNode (fun _ => true) child) w (snd res) node
              eq_refl eq_refl
              ltac:(vm_compute; reflexivity) ltac:(vm_compute; reflexivity)
              ltac:(vm_compute; reflexivity))
    as (st' & w' & Hrun & Hch & _).
  exists st', w'. split; [exact Hrun |]. rewrite Hch. vm_compute. reflexivity.
Defined.

Lemma safeHorizontal_accepted (parent frame : SceneNode) (v : LayoutSizing) :
  sizingAccepted parent = true ->
  safeSetLayoutSizingHorizontal parent frame v
  = set_layoutSizingHorizontal v frame.
Proof. unfold safeSetLayoutSizingHorizontal. by intros ->. Qed.

Lemma createFrame_run (w : World) :
  createFrame w = (Ok (newFrame (nextId w)), set_nextId (S (nextId w)) w).
Proof. reflexivity. Qed.

(** In a vertical layout, a child with a left and a right margin is put
    in a horizontal frame named margin-wrapper that fills the width of
    the layout, between two spacer frames as wide as the margins.  The
    child is created inside the wrapper without its horizontal margins
    and for a width reduced by both margins, and it fills the space
    between the spacers.  Such a child is not entered in the ledger of
    flexible growth nor among the nodes with a relative offset. *)
Theorem vertical_layout_wraps_horizontal_margins
    (childParentWidth childParentHeight : option Q) (st : Loop)
    (child : ParsedElement) (call : ChildCall) (w w2 : World)
    (node : SceneNode) :
  let styles := expandMargin (e_styles child) in
  let marginLeft := marginPx (s_marginLeft styles) in
  let marginRight := marginPx (s_marginRight styles) in
  let wrapper :=
    set_layoutSizingHorizontal FILL
      (set_itemSpacing 0
         (set_counterAxisSizingMode AXIS_AUTO
            (set_primaryAxisSizingMode AXIS_FIXED
               (set_layoutMode HORIZONTAL
                  (set_name (Name "margin-wrapper")
                     (newFrame (nextId w))))))) in
  let left :=
    set_layoutSizingVertical FILL
      (resize marginLeft 1
         (set_name (Name "margin-left") (newFrame (S (nextId w))))) in
  let right :=
    set_layoutSizingVertical FILL
      (resize marginRight 1
         (set_name (Name "margin-right") (newFrame (nextId w2)))) in
  ntype (l_frame st) = FRAME ->
  layoutMode (l_frame st) = VERTICAL ->
  s_marginTop styles = None -> s_marginBottom styles = None ->
  0 < marginLeft -> 0 < marginRight ->
  call (fun s => withoutHMargins (expandMargin s)) (appendChild left wrapper)
    (if truthy childParentWidth
     then Some (orElse childParentWidth 0 - marginLeft - marginRight)
     else None)
    childParentHeight (set_nextId (S (S (nextId w))) w)
  = (Ok node, w2) ->
  exists st' w',
    createRegularChild childParentWidth childParentHeight st child call w
    = (Ok st', w')
    /\ children (l_frame st')
       = children (l_frame st)
         ++ [set_children
               [left; set_layoutSizingHorizontal FILL node; right] wrapper]
    /\ l_flexGrowMap st' = l_flexGrowMap st
    /\ l_relative st' = l_relative st
    /\ nextId w' = S (nextId w2).
Proof.
  intros styles marginLeft marginRight wrapper left right Hty Hmode Htop
    Hbottom HL HR Hcall.
  assert (EL : Qgtb marginLeft 0 = true) by by apply Qgtb_true.
  assert (ER : Qgtb marginRight 0 = true) by by apply Qgtb_true.
  assert (Hacc0 : sizingAccepted (l_frame st) = true).
  { unfold sizingAccepted, isAutoLayout, hasLayoutMode.
    destruct (l_frame st); cbn in *. subst. done. }
  unfold createRegularChild. fold styles. fold marginLeft marginRight.
  rewrite Hmode, Htop, Hbottom. cbn [marginPositive].
  change (bool_decide (VERTICAL = HORIZONTAL)) with false.
  change (bool_decide (VERTICAL = VERTICAL)) with true.
  rewrite EL, ER. cbn [andb orb].
  rewrite run_bind. cbn [mret M_ret].
  rewrite run_bind. cbn [mret M_ret].
  rewrite run_bind. cbn [mret M_ret].
  rewrite (run_bind (createFrame ≫= _)).
  rewrite (run_bind createFrame), createFrame_run.
  rewrite (safeHorizontal_accepted _ _ _ Hacc0). fold wrapper.
  rewrite (run_bind (createSpacer _ _ _ ≫= _)).
  rewrite (run_bind (createSpacer _ _ _)), createSpacer_run.
  cbn [mret M_ret nextId set_nextId].
  rewrite (safeVertical_accepted wrapper) by reflexivity. fold left.
  rewrite (run_bind (call _ _ _ _)).
  change (set_nextId (S (S (nextId w))) (set_nextId (S (nextId w)) w))
    with (set_nextId (S (S (nextId w))) w).
  rewrite Hcall.
  rewrite (run_bind (createSpacer _ _ _ ≫= _)).
  rewrite (run_bind (createSpacer _ _ _)), createSpacer_run.
  cbn [mret M_ret].
  rewrite (safeHorizontal_accepted (appendChild left wrapper)) by reflexivity.
  rewrite (safeVertical_accepted (appendChild _ (appendChild left wrapper)))
    by reflexivity.
  fold right.
  eexists _, _. split; [reflexivity |].
  repeat split; reflexivity.
Qed.

Lemma vertical_layout_wraps_horizontal_margins_witness :
  exists st' w',
    createRegularChild (Some 300) None
      (mkLoop (set_layoutMode VERTICAL (newFrame 0)) [] [])
      (mkParsedElement "div"
         (with_marginRight (Some (MarginPx 4))
            (with_marginLeft (Some (MarginPx 8)) noStyle)) None [])
      (createFigmaNode (fun _ => true)
         (mkParsedElement "div"
            (with_marginRight (Some (MarginPx 4))
               (with_marginLeft (Some (MarginPx 8)) noStyle)) None []))
      (set_nextId 1 emptyWorld)
    = (Ok st', w')
    /\ map (fun n => (name n, map name (children n))) (children (l_frame st'))
       = [(Name "margin-wrapper",
           [Name "margin-left"; Name "div"; Name "margin-right"])]
    /\ l_flexGrowMap st' = [].
Proof.
  pose (child := mkParsedElement "div"
                   (with_marginRight (Some (MarginPx 4))
                      (with_marginLeft (Some (MarginPx 8)) noStyle)) None []).
  pose (st := mkLoop (set_layoutMode VERTICAL (newFrame 0)) [] []).
  pose (w := set_nextId 1 emptyWorld).
  pose (wrapper :=
          set_layoutSizingHorizontal FILL
            (set_itemSpacing 0
               (set_counterAxisSizingMode AXIS_AUTO
                  (set_primaryAxisSizingMode AXIS_FIXED
                     (set_layoutMode HORIZONTAL
                        (set_name (Name "margin-wrapper") (newFrame 1))))))).
  pose (left := set_layoutSizingVertical FILL
                  (resize 8 1 (set_name (Name "margin-left") (newFrame 2)))).
  pose (res := createFigmaNode (fun _ => true) child
                 (fun s => withoutHMargins (expandMargin s))
                 (appendChild left wrapper) (Some (300 - 8 - 4)) None
                 (set_nextId 3 w)).
  pose (node := match fst res with Ok n => n | Throw _ => newFrame 0 end).
  destruct (vertical_layout_wraps_horizontal_margins (Some 300) None st child
              (createFigmaNode (fun _ => true) child) w (snd res) node
              eq_refl eq_refl eq_refl eq_refl
              ltac:(vm_compute; reflexivity) ltac:(vm_compute; reflexivity)
              ltac:(vm_compute; reflexivity))
    as (st' & w' & Hrun & Hch & Hledger & _).
  exists st', w'. split; [exact Hrun |]. rewrite Hch, Hledger.
  vm_compute. split; reflexivity.
Defined.

End MarginFacts.
